(** * CSV column migrations of juju-swift

    A shallow embedding of the two migration scripts

    - [Refactor Plans/ActionMilestoneBoolean_Restructured/migrate_sessions.py]
      (the add-variant: appends the columns [action] and [is_milestone]),
    - [migrate_remove_milestone_text.py]
      (the drop-variant: removes the column [milestone_text]),

    together with the parts of the Python runtime they run on: text files
    and their line iteration, [str.strip], [str.lower], the reader and the
    writer of the [csv] module in the [excel] dialect, [csv.DictReader],
    [csv.DictWriter] and insertion-ordered dictionaries. *)

From Stdlib Require Import String Ascii List NArith Bool Arith Lia.
Import ListNotations.

Set Implicit Arguments.

(** ** Text *)

(** A Python [str] is a sequence of Unicode code points. *)
Definition char := N.
Definition text := list char.

Definition str (s : string) : text :=
  map N_of_ascii (list_ascii_of_string s).

Definition LF : char := 10%N.
Definition CR : char := 13%N.
Definition COMMA : char := 44%N.
Definition DQUOTE : char := 34%N.

Definition text_eq_dec : forall a b : text, {a = b} + {a <> b} :=
  list_eq_dec N.eq_dec.

Definition text_eqb (a b : text) : bool :=
  if text_eq_dec a b then true else false.

(** [x in l] on a list of strings. *)
Definition contains (l : list text) (x : text) : bool :=
  if in_dec text_eq_dec x l then true else false.

(** The code points [str.strip()] removes and [str.isspace] accepts
    (CPython's [_PyUnicode_IsWhitespace]). *)
Definition isspace (c : char) : bool :=
  ((9 <=? c) && (c <=? 13) || (28 <=? c) && (c <=? 32)
   || (c =? 133) || (c =? 160) || (c =? 5760)
   || (8192 <=? c) && (c <=? 8202)
   || (c =? 8232) || (c =? 8233) || (c =? 8239) || (c =? 8287)
   || (c =? 12288))%N.

Fixpoint lstrip (s : text) : text :=
  match s with
  | [] => []
  | c :: s' => if isspace c then lstrip s' else s
  end.

Definition rstrip (s : text) : text := rev (lstrip (rev s)).

(** [s.strip()] *)
Definition strip (s : text) : text := rstrip (lstrip s).

(** Truth value of a string: non-empty. *)
Definition truthy (s : text) : bool :=
  match s with [] => false | _ :: _ => true end.

(** [s.lower()].  The ASCII letters are mapped exactly.  Outside ASCII the
    code points are kept: no other code point lowercases to a letter of
    [milestone_text] (the Kelvin sign gives [k], the dotted capital I gives
    [i] followed by a combining dot), so the comparison
    [key.lower() == 'milestone_text'] of the source has the same outcome. *)
Definition lower_char (c : char) : char :=
  if ((65 <=? c) && (c <=? 90))%N then (c + 32)%N else c.

Definition lower (s : text) : text := map lower_char s.

(** ** Exceptions *)

Inductive exn : Type :=
  | CsvFieldLimit        (* _csv.Error: field larger than field limit *)
  | CsvNewlineInField    (* _csv.Error: new-line character seen in unquoted field *)
  | AttributeError       (* 'NoneType' object has no attribute 'lower' *)
  | ValueError           (* dict contains fields not in fieldnames *)
  | OSError              (* open, read, write or stat failed (PermissionError, ...) *)
  | UnicodeDecodeError.  (* the file is not UTF-8 *)

Inductive result (A : Type) : Type :=
  | Ok (a : A)
  | Raise (e : exn).
Arguments Ok {A} a.
Arguments Raise {A} e.

Definition bind {A B} (m : result A) (f : A -> result B) : result B :=
  match m with
  | Ok a => f a
  | Raise e => Raise e
  end.

Notation "x <- m ;; k" := (bind m (fun x => k))
  (at level 61, m at next level, right associativity).

(** ** Text files and their lines *)

(** Iterating a file opened with [newline=''] ([readlines], [next(f)],
    [for line in f]): a line ends after ["\n"], after ["\r\n"], or after a
    ["\r"] that no ["\n"] follows; the terminators stay in the lines.
    [cur] is the line being collected, last character first. *)
Fixpoint readlines_from (cur : text) (t : text) : list text :=
  match t with
  | [] => match cur with [] => [] | _ :: _ => [rev cur] end
  | c :: t' =>
      if (c =? LF)%N then rev (c :: cur) :: readlines_from [] t'
      else if (c =? CR)%N then
        match t' with
        | c' :: t'' =>
            if (c' =? LF)%N then rev (c' :: c :: cur) :: readlines_from [] t''
            else rev (c :: cur) :: readlines_from [] t'
        | [] => [rev (c :: cur)]
        end
      else readlines_from (c :: cur) t'
  end.

Definition readlines (t : text) : list text := readlines_from [] t.

(** Reading a file opened without [newline] (universal newlines): ["\r\n"]
    and a lone ["\r"] arrive as ["\n"]. *)
Fixpoint translate_newlines (t : text) : text :=
  match t with
  | [] => []
  | c :: t' =>
      if (c =? CR)%N then
        match t' with
        | c' :: t'' =>
            if (c' =? LF)%N then LF :: translate_newlines t''
            else LF :: translate_newlines t'
        | [] => [LF]
        end
      else c :: translate_newlines t'
  end.

(** ** csv.reader, dialect [excel] *)

(** The states of the parser of [_csv.c] (CPython 3.11 and later, where a
    NUL character in a line is an ordinary character).  The dialect has no
    escape character, so the three states entered only after one are left
    out; it is not strict, does not skip initial spaces, doubles quotes and
    quotes minimally. *)
Inductive ParserState : Type :=
  | START_RECORD | START_FIELD | IN_FIELD | IN_QUOTED_FIELD
  | QUOTE_IN_QUOTED_FIELD | EAT_CRNL.

Definition ParserState_eq_dec (a b : ParserState) : {a = b} + {a <> b}.
Proof. decide equality. Defined.

Definition row := list text.

Record ReaderObj : Type := mkReader {
  state : ParserState;
  fields : list text;   (* the fields of the record read so far *)
  field : text          (* the characters of the current field *)
}.

(** What [parse_process_char] is given: a character of the line or the
    end-of-line mark [EOL] that follows each line. *)
Inductive input : Type :=
  | Ch (c : char)
  | EOL.

Definition field_limit : N := 131072%N.

Definition parse_reset : ReaderObj := mkReader START_RECORD [] [].

Definition parse_save_field (self : ReaderObj) : ReaderObj :=
  mkReader (state self) (fields self ++ [field self]) [].

Definition parse_add_char (self : ReaderObj) (c : char) : result ReaderObj :=
  if (field_limit <=? N.of_nat (length (field self)))%N then Raise CsvFieldLimit
  else Ok (mkReader (state self) (fields self) (field self ++ [c])).

Definition set_state (self : ReaderObj) (s : ParserState) : ReaderObj :=
  mkReader s (fields self) (field self).

Definition parse_start_field (self : ReaderObj) (i : input) : result ReaderObj :=
  match i with
  | EOL => Ok (set_state (parse_save_field self) START_RECORD)
  | Ch c =>
      if (c =? LF)%N || (c =? CR)%N then
        Ok (set_state (parse_save_field self) EAT_CRNL)
      else if (c =? DQUOTE)%N then Ok (set_state self IN_QUOTED_FIELD)
      else if (c =? COMMA)%N then Ok (parse_save_field self)
      else
        self' <- parse_add_char self c ;;
        Ok (set_state self' IN_FIELD)
  end.

Definition parse_process_char (self : ReaderObj) (i : input) : result ReaderObj :=
  match state self with
  | START_RECORD =>
      match i with
      | EOL => Ok self
      | Ch c =>
          if (c =? LF)%N || (c =? CR)%N then Ok (set_state self EAT_CRNL)
          else parse_start_field (set_state self START_FIELD) i
      end
  | START_FIELD => parse_start_field self i
  | IN_FIELD =>
      match i with
      | EOL => Ok (set_state (parse_save_field self) START_RECORD)
      | Ch c =>
          if (c =? LF)%N || (c =? CR)%N then
            Ok (set_state (parse_save_field self) EAT_CRNL)
          else if (c =? COMMA)%N then
            Ok (set_state (parse_save_field self) START_FIELD)
          else parse_add_char self c
      end
  | IN_QUOTED_FIELD =>
      match i with
      | EOL => Ok self
      | Ch c =>
          if (c =? DQUOTE)%N then Ok (set_state self QUOTE_IN_QUOTED_FIELD)
          else parse_add_char self c
      end
  | QUOTE_IN_QUOTED_FIELD =>
      match i with
      | EOL => Ok (set_state (parse_save_field self) START_RECORD)
      | Ch c =>
          if (c =? DQUOTE)%N then
            self' <- parse_add_char self c ;;
            Ok (set_state self' IN_QUOTED_FIELD)
          else if (c =? COMMA)%N then
            Ok (set_state (parse_save_field self) START_FIELD)
          else if (c =? LF)%N || (c =? CR)%N then
            Ok (set_state (parse_save_field self) EAT_CRNL)
          else
            self' <- parse_add_char self c ;;
            Ok (set_state self' IN_FIELD)
      end
  | EAT_CRNL =>
      match i with
      | EOL => Ok (set_state self START_RECORD)
      | Ch c =>
          if (c =? LF)%N || (c =? CR)%N then Ok self
          else Raise CsvNewlineInField
      end
  end.

(** The characters of one line, in order. *)
Fixpoint parse_chars (self : ReaderObj) (line : text) : result ReaderObj :=
  match line with
  | [] => Ok self
  | c :: line' =>
      self' <- parse_process_char self (Ch c) ;;
      parse_chars self' line'
  end.

(** One pass of the [do ... while] of [Reader_iternext]: a line, then
    [EOL]. *)
Definition parse_line (self : ReaderObj) (line : text) : result ReaderObj :=
  self' <- parse_chars self line ;;
  parse_process_char self' EOL.

(** The loop of [Reader_iternext] over the lines the input iterator still
    has.  [None] is [StopIteration]; otherwise the record and the lines
    left in the iterator. *)
Fixpoint Reader_loop (self : ReaderObj) (lines : list text)
  : result (option (row * list text)) :=
  match lines with
  | [] =>
      if negb (Nat.eqb (length (field self)) 0)
         || (if ParserState_eq_dec (state self) IN_QUOTED_FIELD then true else false)
      then Ok (Some (fields (parse_save_field self), []))
      else Ok None
  | line :: lines' =>
      self' <- parse_line self line ;;
      match state self' with
      | START_RECORD => Ok (Some (fields self', lines'))
      | _ => Reader_loop self' lines'
      end
  end.

(** [next(reader)] *)
Definition Reader_iternext (lines : list text) : result (option (row * list text)) :=
  Reader_loop parse_reset lines.

(** [list(reader)]: [next] until [StopIteration].  Every record takes at
    least one line, so [S (length lines)] rounds are enough
    (see [reader_rounds_enough]). *)
Fixpoint reader_rounds (n : nat) (lines : list text) : result (list row) :=
  match n with
  | O => Ok []
  | S n' =>
      r <- Reader_iternext lines ;;
      match r with
      | None => Ok []
      | Some (rec, lines') =>
          recs <- reader_rounds n' lines' ;;
          Ok (rec :: recs)
      end
  end.

Definition list_reader (lines : list text) : result (list row) :=
  reader_rounds (S (length lines)) lines.

(** ** csv.writer, dialect [excel] *)

(** A field is quoted when it holds the delimiter, the quote character or
    a character of the line terminator ["\r\n"]. *)
Definition needs_quote (c : char) : bool :=
  ((c =? COMMA) || (c =? DQUOTE) || (c =? CR) || (c =? LF))%N.

(** The field characters as [join_append_data] copies them: a quote
    character is written twice. *)
Fixpoint copy_field (s : text) : text :=
  match s with
  | [] => []
  | c :: s' =>
      if (c =? DQUOTE)%N then DQUOTE :: DQUOTE :: copy_field s'
      else c :: copy_field s'
  end.

(** [join_append]: a field given as [None] is written like the empty
    string; [quoted] is forced for the lone empty field of a record. *)
Definition join_append (quoted : bool) (s : option text) : text :=
  match s with
  | None => if quoted then [DQUOTE; DQUOTE] else []
  | Some s =>
      if quoted || existsb needs_quote s
      then DQUOTE :: copy_field s ++ [DQUOTE]
      else copy_field s
  end.

Fixpoint join_fields (num_fields : nat) (fs : list (option text)) : text :=
  match fs with
  | [] => []
  | f :: fs' =>
      (match num_fields with O => [] | S _ => [COMMA] end)
        ++ join_append false f ++ join_fields (S num_fields) fs'
  end.

Definition lineterminator : text := [CR; LF].

(** [csv_writerow]: the joined fields, where a record of one field that
    came out empty is written as a pair of quotes; then the line
    terminator. *)
Definition record_text (fs : list (option text)) : text :=
  match fs, join_fields 0 fs with
  | _ :: _, [] => join_append true None
  | _, rec => rec
  end.

Definition writerow (fs : list (option text)) : text :=
  record_text fs ++ lineterminator.

Definition writerows (rows : list (list (option text))) : text :=
  concat (map writerow rows).

(** ** Files, standard output and the monad of the scripts *)

(** A file on disk: what reading it gives (its decoded text, or the
    exception [open] or the decoder raises) and whether it can be opened
    for writing. *)
Record file : Type := mkFile {
  data : result text;
  writable : bool
}.

(** The files of the disk are numbered.  A name in a directory refers to
    one of them, and two names that refer to the same number are links to
    one file (hard links, or a symbolic link and what it points to): what
    is written through one name is read through the other, in whatever
    directory the names are. *)
Definition inode : Type := nat.

(** What a path names.  [Missing]: [stat] fails with [ENOENT], [ENOTDIR],
    [EBADF] or [ELOOP].  [Inaccessible]: [stat] fails with another error
    (no search permission on a parent directory gives [EACCES]).  A
    directory that may not be listed is one with no entries: [glob] lists
    nothing there. *)
Inductive node : Type :=
  | Missing
  | NotDirectory
  | Inaccessible
  | Directory (entries : list (string * inode)).

Record filesystem : Type := mkFs {
  tree : string -> node;
  files : inode -> file
}.

Definition set_file (fl : inode -> file) (i : inode) (f : file) : inode -> file :=
  fun j => if Nat.eqb j i then f else fl j.

Fixpoint lookup (entries : list (string * inode)) (name : string) : option inode :=
  match entries with
  | [] => None
  | (n, i) :: rest => if String.eqb n name then Some i else lookup rest name
  end.

Section IO.
(** The lines a script prints. *)
Variable msg : Type.

(** The state a computation works on ([S]: one file, or the file
    system) and standard output. *)
Record world (S : Type) : Type := mkWorld {
  st : S;
  stdout : list msg
}.

(** State and exceptions: the state survives a raised exception. *)
Definition io (S A : Type) : Type := world S -> world S * result A.

Definition ret {S A} (a : A) : io S A := fun w => (w, Ok a).

Definition bind_io {S A B} (m : io S A) (f : A -> io S B) : io S B :=
  fun w =>
    match m w with
    | (w', Ok a) => f a w'
    | (w', Raise e) => (w', Raise e)
    end.

Definition lift {S A} (r : result A) : io S A := fun w => (w, r).

Definition print {S} (m : msg) : io S unit :=
  fun w => (mkWorld (st w) (stdout w ++ [m]), Ok tt).

(** [try: body  except Exception as e: handler e] *)
Definition try_except {S A} (body : io S A) (handler : exn -> io S A) : io S A :=
  fun w =>
    match body w with
    | (w', Ok a) => (w', Ok a)
    | (w', Raise e) => handler e w'
    end.

(** [open(path, 'r', newline='', encoding='utf-8')] and reading it. *)
Definition read_text : io file text :=
  fun w => (w, data (st w)).

(** [open(path, 'r', encoding='utf-8')] and reading it. *)
Definition read_text_universal : io file text :=
  fun w => (w, t <- data (st w) ;; Ok (translate_newlines t)).

(** [open(path, 'w', newline='', encoding='utf-8')]: the file is
    emptied. *)
Definition open_w : io file unit :=
  fun w =>
    if writable (st w)
    then (mkWorld (mkFile (Ok []) true) (stdout w), Ok tt)
    else (w, Raise OSError).

(** [f.write(s)] on the file opened by [open_w]. *)
Definition write (s : text) : io file unit :=
  fun w =>
    match data (st w) with
    | Ok t => (mkWorld (mkFile (Ok (t ++ s)) (writable (st w))) (stdout w), Ok tt)
    | Raise e => (w, Raise e)
    end.

(** A call on the path [dir/name]: [open] follows the name to the file
    it refers to, the call works on that file, and what it leaves is the
    file of every name that refers to it.  (A name that is not in the
    directory behaves as a file that cannot be opened.) *)
Definition at_path {A} (dir name : string) (m : io file A) : io filesystem A :=
  fun w =>
    match tree (st w) dir with
    | Directory entries =>
        match lookup entries name with
        | Some i =>
            let (w', r) := m (mkWorld (files (st w) i) (stdout w)) in
            (mkWorld (mkFs (tree (st w)) (set_file (files (st w)) i (st w')))
                     (stdout w'), r)
        | None =>
            let (w', r) := m (mkWorld (mkFile (Raise OSError) false) (stdout w)) in
            (mkWorld (st w) (stdout w'), r)
        end
    | _ =>
        let (w', r) := m (mkWorld (mkFile (Raise OSError) false) (stdout w)) in
        (mkWorld (st w) (stdout w'), r)
    end.

(** [path.exists()]: false when [stat] fails with one of the four ignored
    errors; any other error of [stat] is raised ([PermissionError] is an
    [OSError]). *)
Definition path_exists (path : string) : io filesystem bool :=
  fun w => (w, match tree (st w) path with
               | Missing => Ok false
               | Inaccessible => Raise OSError
               | _ => Ok true
               end).

(** [os.path.isdir(path)]: false on every error of [stat]. *)
Definition isdir (path : string) : io filesystem bool :=
  fun w => (w, Ok (match tree (st w) path with Directory _ => true | _ => false end)).

(** The names [path.glob] matches its pattern against: those of a
    directory, none for a path that is no directory; it asks
    [path.is_dir()] first, which raises as [path.exists()] does. *)
Definition listdir (path : string) : io filesystem (list string) :=
  fun w => (w, match tree (st w) path with
               | Directory entries => Ok (map fst entries)
               | Inaccessible => Raise OSError
               | _ => Ok []
               end).
End IO.

Arguments mkWorld {msg S} st stdout.
Arguments st {msg S} w.
Arguments stdout {msg S} w.
Arguments ret {msg S A} a.
Arguments lift {msg S A} r.
Arguments print {msg S} m.
Arguments read_text {msg}.
Arguments read_text_universal {msg}.
Arguments open_w {msg}.
Arguments write {msg} s.
Arguments path_exists {msg} path.
Arguments isdir {msg} path.
Arguments listdir {msg} path.

Declare Scope io_scope.
Delimit Scope io_scope with io.
Notation "x <-- m ;; k" := (bind_io m (fun x => k))
  (at level 61, m at next level, right associativity) : io_scope.
Notation "m ;;; k" := (bind_io m (fun _ => k))
  (at level 61, right associativity) : io_scope.

(** ** Column names *)

Definition MILESTONE_TEXT : text := str "milestone_text".
Definition ACTION : text := str "action".
Definition IS_MILESTONE : text := str "is_milestone".

(** [l.index(x)]: the position of the first occurrence. *)
Fixpoint index (x : text) (l : list text) : option nat :=
  match l with
  | [] => None
  | y :: l' =>
      if text_eq_dec y x then Some 0
      else match index x l' with
           | Some i => Some (S i)
           | None => None
           end
  end.

(** [','.join(l)] *)
Fixpoint join_comma (l : list text) : text :=
  match l with
  | [] => []
  | [x] => x
  | x :: l' => x ++ COMMA :: join_comma l'
  end.

(** [name.endswith(suffix)] *)
Definition endswith (name suffix : string) : bool :=
  let n := String.length name in
  let k := String.length suffix in
  (k <=? n) && String.eqb (substring (n - k) k name) suffix.

(** [fnmatch(name, '*-data.csv')], [fnmatch(name, '*.csv')] *)
Definition is_data_csv (name : string) : bool := endswith name "-data.csv".
Definition is_csv (name : string) : bool := endswith name ".csv".

(** ** The drop-variant: migrate_remove_milestone_text.py *)

Module Drop.

Inductive msg : Type :=
  | Processing (name : string)
  | FileEmpty
  | NoColumn
  | FoundAt (idx : nat)
  | Migrated (data_rows : nat)
  | NewHeader (line : text)
  | ErrorProcessing (e : exn)
  | Starting
  | DirNotFound
  | NoFiles
  | Found (n : nat)
  | Blank
  | Rule
  | Complete (successful total : nat).

Local Open Scope io_scope.

(** [row[:i] + row[i+1:]] *)
Definition cut (i : nat) (r : row) : row := firstn i r ++ skipn (S i) r.

(** The body of the loop over [rows[1:]]. *)
Definition new_row (milestone_text_idx : nat) (r : row) : row :=
  if milestone_text_idx <? length r then cut milestone_text_idx r else r.

Definition as_fields (r : row) : list (option text) := map Some r.

Definition migrate_csv_file (name : string) : io msg file bool :=
  print (Processing name) ;;;
  try_except
    (t <-- read_text_universal ;;
     rows <-- lift (list_reader (readlines t)) ;;
     match rows with
     | [] => print FileEmpty ;;; ret false
     | header :: data_rows =>
         match index MILESTONE_TEXT header with
         | None => print NoColumn ;;; ret false
         | Some milestone_text_idx =>
             print (FoundAt milestone_text_idx) ;;;
             let new_header := cut milestone_text_idx header in
             let new_rows :=
               new_header :: map (new_row milestone_text_idx) data_rows in
             open_w ;;;
             write (writerows (map as_fields new_rows)) ;;;
             print (Migrated (length new_rows - 1)) ;;;
             print (NewHeader (join_comma new_header)) ;;;
             ret true
         end
     end)
    (fun e => print (ErrorProcessing e) ;;; ret false).

End Drop.

(** [sorted(names)] *)
Fixpoint insert_sorted (x : string) (l : list string) : list string :=
  match l with
  | [] => [x]
  | y :: l' => if String.leb x y then x :: l else y :: insert_sorted x l'
  end.

Definition sorted (l : list string) : list string :=
  fold_right insert_sorted [] l.

(** The exit status of the interpreter: 0 when the script runs to its
    end, 1 when an exception is not caught. *)
Definition exit_status {A} (r : result A) : nat :=
  match r with Ok _ => 0 | Raise _ => 1 end.

Module DropMain.
Import Drop.
Local Open Scope io_scope.

Definition JUJU_DATA_DIR (home : string) : string :=
  (home ++ "/Library/Application Support/juju")%string.

(** The loop of [main] over the sorted files. *)
Fixpoint migrate_all (dir : string) (csv_files : list string) (successful : nat)
  : io msg filesystem nat :=
  match csv_files with
  | [] => ret successful
  | csv_file :: rest =>
      ok <-- at_path dir csv_file (migrate_csv_file csv_file) ;;
      let successful := if ok then S successful else successful in
      print Blank ;;;
      migrate_all dir rest successful
  end.

Definition main (home : string) : io msg filesystem unit :=
  print Starting ;;;
  found <-- path_exists (JUJU_DATA_DIR home) ;;
  if negb found then print DirNotFound
  else
    names <-- listdir (JUJU_DATA_DIR home) ;;
    let csv_files := filter is_data_csv names in
    match csv_files with
    | [] => print NoFiles
    | _ :: _ =>
        print (Found (length csv_files)) ;;;
        successful <-- migrate_all (JUJU_DATA_DIR home) (sorted csv_files) 0 ;;
        print Rule ;;;
        print (Complete successful (length csv_files)) ;;;
        print Rule
    end.

(** Running the script: [main()] and the exit status of the process. *)
Definition script (home : string) (fs : filesystem)
  : nat * list msg * filesystem :=
  let (w, r) := main home (mkWorld fs []) in
  (exit_status r, stdout w, st w).
End DropMain.

(** ** Dictionaries of the add-variant *)

(** A row as [csv.DictReader] makes it and the script updates it: the
    entries under string keys in insertion order, each holding a string or
    [None], and the entry under the key [None] (the [restkey]) that holds
    the surplus fields of a long row.  The key [None] is inserted after the
    field names, so [keys()] of a row just read lists [named] and then
    [None]. *)
Record pydict : Type := mkDict {
  named : list (text * option text);
  rest : option (list text)
}.

(** [d[k] = v]: an existing key keeps its place. *)
Fixpoint dict_set (d : list (text * option text)) (k : text) (v : option text)
  : list (text * option text) :=
  match d with
  | [] => [(k, v)]
  | (k', v') :: d' =>
      if text_eq_dec k' k then (k', v) :: d' else (k', v') :: dict_set d' k v
  end.

(** [d.get(k)]: [None] when the key is absent. *)
Fixpoint dict_get (d : list (text * option text)) (k : text) : option (option text) :=
  match d with
  | [] => None
  | (k', v') :: d' => if text_eq_dec k' k then Some v' else dict_get d' k
  end.

(** [dict(zip(keys, values))] *)
Definition dict_zip (keys : list text) (values : list text) : list (text * option text) :=
  fold_left (fun d kv => dict_set d (fst kv) (Some (snd kv))) (combine keys values) [].

(** [csv.DictReader.__next__] on a non-blank record, [restkey] and
    [restval] both [None]. *)
Definition DictReader_row (fieldnames : list text) (r : row) : pydict :=
  let d := dict_zip fieldnames r in
  let lf := length fieldnames in
  let lr := length r in
  if lf <? lr then mkDict d (Some (skipn lf r))
  else if lr <? lf then
    mkDict (fold_left (fun d key => dict_set d key None) (skipn lr fieldnames) d) None
  else mkDict d None.

Definition is_blank_record (r : row) : bool :=
  match r with [] => true | _ :: _ => false end.

(** [list(csv.DictReader(f, fieldnames=fieldnames))]: with the field
    names given, every record of the input is a data row, the first one
    too; blank records are passed over. *)
Definition DictReader_list (fieldnames : list text) (lines : list text)
  : result (list pydict) :=
  rows <- list_reader lines ;;
  Ok (map (DictReader_row fieldnames)
          (filter (fun r => negb (is_blank_record r)) rows)).

(** [csv.DictWriter._dict_to_list], [extrasaction='raise'],
    [restval=""]. *)
Definition wrong_fields (fieldnames : list text) (rowdict : pydict) : bool :=
  existsb (fun kv => negb (contains fieldnames (fst kv))) (named rowdict)
  || (match rest rowdict with Some _ => true | None => false end).

Definition _dict_to_list (fieldnames : list text) (rowdict : pydict)
  : result (list (option text)) :=
  if wrong_fields fieldnames rowdict then Raise ValueError
  else Ok (map (fun key => match dict_get (named rowdict) key with
                           | Some v => v
                           | None => Some []
                           end) fieldnames).

(** ** The add-variant: migrate_sessions.py *)

Module Add.

Inductive msg : Type :=
  | NoMatching (data_path : string)
  | FoundOther (names : list string)
  | FoundFiles (n : nat) (names : list string)
  | Processing (name : string)
  | NoData (name : string)
  | LeadingEmpty (n : nat) (name : string)
  | NoHeader (name : string)
  | AlreadyMigrated (name : string)
  | NoDataRows (name : string)
  | Progress (done total : nat) (name : string)
  | Success (sessions : nat) (name : string)
  | ErrorProcessing (name : string) (e : exn)
  | Traceback
  | CompleteAll
  | Usage
  | UsageExample
  | NotADirectory (data_path : string)
  | StartingIn (data_path : string)
  | Finished.

Local Open Scope io_scope.

(** The [for ... else] over the lines: the index of the first line that
    [strip] leaves non-empty. *)
Fixpoint first_data_line (lines : list text) : option nat :=
  match lines with
  | [] => None
  | line :: lines' =>
      if truthy (strip line) then Some 0
      else match first_data_line lines' with
           | Some i => Some (S i)
           | None => None
           end
  end.

Definition clean_csv_file_content : io msg file (list text * nat) :=
  t <-- read_text ;;
  let lines := readlines t in
  match first_data_line lines with
  | Some leading_empty_lines =>
      ret (skipn leading_empty_lines lines, leading_empty_lines)
  | None => ret ([], length lines)
  end.

(** The search for the [milestone_text] value: the keys in order, the
    first whose lower-case form matches; reaching the key [None] of a
    long row raises. *)
Fixpoint first_match (items : list (text * option text)) : option (option text) :=
  match items with
  | [] => None
  | (key, v) :: items' =>
      if text_eq_dec (lower key) MILESTONE_TEXT then Some v
      else first_match items'
  end.

Definition find_milestone_text (r : pydict) : result (option text) :=
  match first_match (named r) with
  | Some v => Ok v
  | None =>
      match rest r with
      | Some _ => Raise AttributeError
      | None => Ok None
      end
  end.

Definition set_columns (r : pydict) (action is_milestone : text) : pydict :=
  mkDict (dict_set (dict_set (named r) ACTION (Some action))
                   IS_MILESTONE (Some is_milestone))
         (rest r).

(** The body of the loop over [rows_to_process], without its print. *)
Definition migrate_row (r : pydict) : result pydict :=
  milestone_text <- find_milestone_text r ;;
  match milestone_text with
  | Some s =>
      if truthy s && truthy (strip s)
      then Ok (set_columns r (strip s) (str "1"))
      else Ok (set_columns r [] (str "0"))
  | None => Ok (set_columns r [] (str "0"))
  end.

Fixpoint migrate_rows (name : string) (total row_idx : nat) (rows : list pydict)
  : io msg file (list pydict) :=
  match rows with
  | [] => ret []
  | r :: rows' =>
      new_row <-- lift (migrate_row r) ;;
      (if (row_idx + 1) mod 100 =? 0
       then print (Progress (row_idx + 1) total name)
       else ret tt) ;;;
      migrated <-- migrate_rows name total (S row_idx) rows' ;;
      ret (new_row :: migrated)
  end.

(** [DictWriter.writeheader] and [DictWriter.writerows]: each row is
    converted and written in turn. *)
Definition writeheader (fieldnames : list text) : io msg file unit :=
  l <-- lift (_dict_to_list fieldnames (mkDict (dict_zip fieldnames fieldnames) None)) ;;
  write (writerow l).

Fixpoint DictWriter_writerows (fieldnames : list text) (rowdicts : list pydict)
  : io msg file unit :=
  match rowdicts with
  | [] => ret tt
  | r :: rowdicts' =>
      l <-- lift (_dict_to_list fieldnames r) ;;
      write (writerow l) ;;;
      DictWriter_writerows fieldnames rowdicts'
  end.

(** The body of the loop of [migrate_sessions] for one file. *)
Definition migrate_file (name : string) : io msg file unit :=
  print (Processing name) ;;;
  try_except
    (cleaned <-- clean_csv_file_content ;;
     let (cleaned_lines, leading_empty_lines) := cleaned in
     match cleaned_lines with
     | [] => print (NoData name)
     | _ :: _ =>
         (if 0 <? leading_empty_lines
          then print (LeadingEmpty leading_empty_lines name)
          else ret tt) ;;;
         first <-- lift (Reader_iternext cleaned_lines) ;;
         match first with
         | None => print (NoHeader name)
         | Some (original_header_row, _) =>
             if contains original_header_row ACTION
                && contains original_header_row IS_MILESTONE
             then print (AlreadyMigrated name)
             else
               let updated_fieldnames :=
                 original_header_row ++ [ACTION; IS_MILESTONE] in
               t <-- read_text ;;
               rows_to_process <--
                 lift (DictReader_list original_header_row
                         (skipn leading_empty_lines (readlines t))) ;;
               match rows_to_process with
               | [] => print (NoDataRows name)
               | _ :: _ =>
                   migrated_rows <--
                     migrate_rows name (length rows_to_process) 0 rows_to_process ;;
                   open_w ;;;
                   writeheader updated_fieldnames ;;;
                   DictWriter_writerows updated_fieldnames migrated_rows ;;;
                   print (Success (length migrated_rows) name)
               end
         end
     end)
    (fun e => print (ErrorProcessing name e) ;;; print Traceback).

Fixpoint for_each_file (data_path : string) (csv_files : list string)
  : io msg filesystem unit :=
  match csv_files with
  | [] => ret tt
  | csv_file :: csv_files' =>
      at_path data_path csv_file (migrate_file csv_file) ;;;
      for_each_file data_path csv_files'
  end.

Definition migrate_sessions (data_path : string) : io msg filesystem unit :=
  names <-- listdir data_path ;;
  let csv_files := filter is_data_csv names in
  match csv_files with
  | [] =>
      print (NoMatching data_path) ;;;
      let all_csv_files := filter is_csv names in
      match all_csv_files with
      | [] => ret tt
      | _ :: _ => print (FoundOther all_csv_files)
      end
  | _ :: _ =>
      print (FoundFiles (length csv_files) csv_files) ;;;
      for_each_file data_path csv_files ;;;
      print CompleteAll
  end.

Definition startswith_tilde (s : string) : bool :=
  match s with
  | String c _ => Ascii.eqb c "~"%char
  | EmptyString => false
  end.

(** The [__main__] block.  [argv] is [sys.argv]; [expanduser] is
    [os.path.expanduser] of the environment.  The result is the status of
    [sys.exit], or 0 at the end of the script. *)
Definition main (expanduser : string -> string) (argv : list string)
  : io msg filesystem nat :=
  match argv with
  | [_; data_path_str] =>
      let data_path_str :=
        if startswith_tilde data_path_str then expanduser data_path_str
        else data_path_str in
      d <-- isdir data_path_str ;;
      if negb d then print (NotADirectory data_path_str) ;;; ret 1
      else
        print (StartingIn data_path_str) ;;;
        migrate_sessions data_path_str ;;;
        print Finished ;;;
        ret 0
  | _ => print Usage ;;; print UsageExample ;;; ret 1
  end.

Definition script (expanduser : string -> string) (argv : list string)
  (fs : filesystem) : nat * list msg * filesystem :=
  let (w, r) := main expanduser argv (mkWorld fs []) in
  (match r with Ok status => status | Raise _ => 1 end, stdout w, st w).

End Add.

(** * Notions of the statements *)

Unset Implicit Arguments.

(** [Reader_text self u]: the reader in the state [self] at the start of a
    line, on the lines of the text [u]. *)
Definition Reader_text (self : ReaderObj) (u : text) : result (option (row * list text)) :=
  Reader_loop self (readlines u).

Definition plain (c : char) : Prop := c <> LF /\ c <> CR.

Definition within_limit (s : text) : Prop :=
  (N.of_nat (length s) <= field_limit)%N.

(** The two line ends a record can have in what the scripts read back:
    the terminator of the writer, and the same after the translation of
    newlines. *)
Definition line_end (lt : text) : Prop := lt = [CR; LF] \/ lt = [LF].

(** The states in which a field is complete when its last character has
    been read. *)
Definition closing (st0 : ParserState) (fd : text) : Prop :=
  (st0 = START_FIELD /\ fd = []) \/ st0 = IN_FIELD \/ st0 = QUOTE_IN_QUOTED_FIELD.

(** The string a field stands for when written. *)
Definition field_text (f : option text) : text :=
  match f with Some s => s | None => [] end.

(** What holds of the fields the reader has collected: their characters
    satisfy [P] and they are within the field limit. *)
Definition reader_inv (P : char -> Prop) (self : ReaderObj) : Prop :=
  (Forall P (field self) /\ within_limit (field self))
  /\ Forall (fun f => Forall P f /\ within_limit f) (fields self).

Definition no_CR (s : text) : Prop := Forall (fun c => c <> CR) s.

(** A table the reader can have produced and can read again: every field
    is within the field limit. *)
Definition readable (rows : list (list (option text))) : Prop :=
  Forall (fun r => Forall within_limit (map field_text r)) rows.

Definition CR_free (rows : list (list (option text))) : Prop :=
  Forall (fun r => Forall no_CR (map field_text r)) rows.

(** The table [csv.reader] gives for a file read with universal
    newlines. *)
Definition read_table_universal (t : text) : result (list row) :=
  list_reader (readlines (translate_newlines t)).

(** The table [csv.reader] gives for a file read with [newline='']. *)
Definition read_table (t : text) : result (list row) :=
  list_reader (readlines t).

(** The table the drop-variant builds from the one it read. *)
Definition drop_table (i : nat) (header : row) (rows : list row) : list row :=
  Drop.cut i header :: map (Drop.new_row i) rows.

(** The list without its element at position [i], by recursion on the
    position: what "the field at index [i] removed" means. *)
Fixpoint remove_at {A : Type} (i : nat) (l : list A) : list A :=
  match l, i with
  | [], _ => []
  | _ :: l', O => l'
  | x :: l', S i' => x :: remove_at i' l'
  end.

(** A data row after the migration, as the description has it. *)
Definition drop_field (i : nat) (r : row) : row :=
  if i <? length r then remove_at i r else r.

(** What was read with universal newlines has no carriage return and is
    within the field limit; so has what the drop-variant makes of it. *)
Definition clean_field (f : text) : Prop := no_CR f /\ within_limit f.

Definition keys (d : list (text * option text)) : list text := map fst d.

Definition zip_step (d : list (text * option text)) (kv : text * text) :=
  dict_set d (fst kv) (Some (snd kv)).

(** The values [clean_csv_file_content] returns for a text. *)
Definition cleaned_lines (t : text) : list text * nat :=
  let lines := readlines t in
  match Add.first_data_line lines with
  | Some k => (skipn k lines, k)
  | None => ([], length lines)
  end.

(** The rows of [migrate_rows] and what it prints, apart. *)
Fixpoint migrate_each (rows : list pydict) : result (list pydict) :=
  match rows with
  | [] => Ok []
  | r :: rows' =>
      new_row <- Add.migrate_row r ;;
      migrated <- migrate_each rows' ;;
      Ok (new_row :: migrated)
  end.

Fixpoint progress (name : string) (total row_idx : nat) (rows : list pydict)
  : list Add.msg :=
  match rows with
  | [] => []
  | r :: rows' =>
      match Add.migrate_row r with
      | Raise _ => []
      | Ok _ =>
          (if (row_idx + 1) mod 100 =? 0
           then [Add.Progress (row_idx + 1) total name] else [])
            ++ progress name total (S row_idx) rows'
      end
  end.

(** The records [DictWriter.writerows] writes before it ends or raises. *)
Fixpoint rows_written (fieldnames : list text) (rowdicts : list pydict)
  : list (list (option text)) * result unit :=
  match rowdicts with
  | [] => ([], Ok tt)
  | r :: rowdicts' =>
      match _dict_to_list fieldnames r with
      | Raise e => ([], Raise e)
      | Ok l =>
          let (ls, res) := rows_written fieldnames rowdicts' in (l :: ls, res)
      end
  end.

Definition failure (name : string) (e : exn) : list Add.msg :=
  [Add.ErrorProcessing name e; Add.Traceback].

Definition leading_msg (k : nat) (name : string) : list Add.msg :=
  if 0 <? k then [Add.LeadingEmpty k name] else [].

Definition updated (header : row) : row := header ++ [ACTION; IS_MILESTONE].

(** What a run does once the lines are cleaned: the new content of the
    file when it is opened for writing, and the lines printed. *)
Definition add_core (name : string) (wr : bool) (cleaned : list text)
  : option text * list Add.msg :=
  match Reader_iternext cleaned with
  | Raise e => (None, failure name e)
  | Ok None => (None, [Add.NoHeader name])
  | Ok (Some (header, _)) =>
      if contains header ACTION && contains header IS_MILESTONE
      then (None, [Add.AlreadyMigrated name])
      else
        match DictReader_list header cleaned with
        | Raise e => (None, failure name e)
        | Ok [] => (None, [Add.NoDataRows name])
        | Ok rows =>
            let log := progress name (length rows) 0 rows in
            match migrate_each rows with
            | Raise e => (None, log ++ failure name e)
            | Ok migrated =>
                if wr then
                  let (ls, res) := rows_written (updated header) migrated in
                  (Some (writerows (map Some (updated header) :: ls)),
                   log ++ match res with
                          | Ok _ => [Add.Success (length migrated) name]
                          | Raise e => failure name e
                          end)
                else (None, log ++ failure name OSError)
            end
        end
  end.

(** The file a run leaves and the lines it prints after [Processing]. *)
Definition add_effect (name : string) (f : file) : file * list Add.msg :=
  match data f with
  | Raise e => (f, failure name e)
  | Ok t =>
      let (cleaned, k) := cleaned_lines t in
      match cleaned with
      | [] => (f, [Add.NoData name])
      | _ :: _ =>
          let (body, log) := add_core name (writable f) cleaned in
          (match body with
           | Some body => mkFile (Ok body) true
           | None => f
           end, leading_msg k name ++ log)
      end
  end.

(** The number of data rows of a table: its rows after the header. *)
Definition data_row_count (table : list row) : nat := length table - 1.

(** The fields of the record written for the record [r] read under the
    header [header]: [DictReader], the loop body, [DictWriter]. *)
Definition add_output_row (header r : row) : result (list text) :=
  new_row <- Add.migrate_row (DictReader_row header r) ;;
  l <- _dict_to_list (updated header) new_row ;;
  Ok (map field_text l).

(** The position of the first column whose name is [milestone_text] up to
    case. *)
Fixpoint matching_column (header : row) : option nat :=
  match header with
  | [] => None
  | name :: header' =>
      if text_eq_dec (lower name) MILESTONE_TEXT then Some 0
      else option_map S (matching_column header')
  end.

(** The field of a row in that column, if the row has it. *)
Definition source_field (header r : row) : option text :=
  match matching_column header with
  | Some p => nth_error r p
  | None => None
  end.

(** The two appended fields, [action] and [is_milestone]. *)
Definition derived_columns (v : option text) : list text :=
  match v with
  | Some s => if truthy (strip s) then [strip s; str "1"] else [[]; str "0"]
  | None => [[]; str "0"]
  end.

(** The dictionary of a row that is not longer than the header. *)
Fixpoint row_dict (header r : row) : list (text * option text) :=
  match header, r with
  | [], _ => []
  | k :: header', [] => (k, None) :: row_dict header' []
  | k :: header', v :: r' => (k, Some v) :: row_dict header' r'
  end.

Definition dict_within (d : list (text * option text)) : Prop :=
  Forall (fun kv => within_limit (field_text (snd kv))) d.

Definition all_space (s : text) : Prop := Forall (fun c => isspace c = true) s.

(** The files and the lines printed after the loop of [migrate_sessions]
    over the names [names] of a directory with the entries [entries]. *)
Fixpoint add_batch (entries : list (string * inode)) (names : list string)
         (fl : inode -> file) : (inode -> file) * list Add.msg :=
  match names with
  | [] => (fl, [])
  | name :: names' =>
      match lookup entries name with
      | Some i =>
          let (fl', log) :=
            add_batch entries names' (set_file fl i (fst (add_effect name (fl i)))) in
          (fl', Add.Processing name :: snd (add_effect name (fl i)) ++ log)
      | None =>
          let (fl', log) := add_batch entries names' fl in
          (fl',
           Add.Processing name
             :: snd (add_effect name (mkFile (Raise OSError) false)) ++ log)
      end
  end.

(** The file a call leaves, the lines it prints and what it returns. *)
Definition drop_result (name : string) (f : file) : file * list Drop.msg * bool :=
  let (w, r) := Drop.migrate_csv_file name (mkWorld f []) in
  (st w, stdout w, match r with Ok b => b | Raise _ => false end).

Definition drop_file (name : string) (f : file) : file := fst (fst (drop_result name f)).
Definition drop_log (name : string) (f : file) : list Drop.msg := snd (fst (drop_result name f)).
Definition drop_ok (name : string) (f : file) : bool := snd (drop_result name f).

(** The files, the lines printed and the count of successes after the
    loop of [main] over the names [names] of a directory with the entries
    [entries]. *)
Fixpoint drop_batch (entries : list (string * inode)) (names : list string)
         (fl : inode -> file) (successful : nat)
  : (inode -> file) * list Drop.msg * nat :=
  match names with
  | [] => (fl, [], successful)
  | name :: names' =>
      let f := match lookup entries name with
               | Some i => fl i
               | None => mkFile (Raise OSError) false
               end in
      let fl1 := match lookup entries name with
                 | Some i => set_file fl i (drop_file name f)
                 | None => fl
                 end in
      let '(fl', log, n) :=
        drop_batch entries names' fl1
                   (if drop_ok name f then S successful else successful) in
      (fl', drop_log name f ++ Drop.Blank :: log, n)
  end.

(** Whether the call on the file that the name refers to returns
    [True]. *)
Definition returned_true (entries : list (string * inode)) (fl : inode -> file)
           (name : string) : bool :=
  match lookup entries name with
  | Some i => drop_ok name (fl i)
  | None => false
  end.

(** The file a name of a directory refers to. *)
Definition refers (fs : filesystem) (path name : string) : option inode :=
  match tree fs path with
  | Directory entries => lookup entries name
  | _ => None
  end.

(** The names stand for files that are all different: no two of them are
    links to one file. *)
Definition unlinked (entries : list (string * inode)) (names : list string) : Prop :=
  NoDup (map (lookup entries) names).

(** The lines [Migrated] among those printed: one for each call of the
    drop-variant that returned [True]. *)
Fixpoint migrated_lines (log : list Drop.msg) : nat :=
  match log with
  | [] => 0
  | Drop.Migrated _ :: log' => S (migrated_lines log')
  | _ :: log' => migrated_lines log'
  end.

(** A disk with no directory and the files [fl]. *)
Definition empty_fs (fl : inode -> file) : filesystem := mkFs (fun _ => Missing) fl.

(** A disk with one directory. *)
Definition one_directory (path : string) (entries : list (string * inode))
           (fl : inode -> file) : filesystem :=
  mkFs (fun p => if String.eqb p path then Directory entries else Missing) fl.

(** A run of the add-variant on one file alone. *)
Definition add_alone (name : string) (f : file) : world Add.msg file :=
  fst (Add.migrate_file name (mkWorld f [])).

(** A directory of two files: the first cannot be read, the second is a
    table with a [milestone_text] column. *)
Definition unreadable : file := mkFile (Raise OSError) false.

Definition sound : file := mkFile (Ok (str "id,milestone_text
1,x
")) true.

Definition two_names : list (string * inode) :=
  [("a-data.csv"%string, 0); ("b-data.csv"%string, 1)].

Definition two_files : inode -> file :=
  fun i => match i with 0 => unreadable | _ => sound end.

(** A file that cannot be opened for writing. *)
Definition read_only : file := mkFile (Ok (str "id,milestone_text
1,x
")) false.

(** Two files whose header has [action] and not [is_milestone]; the row
    of the second has a field more than the header. *)
Definition one_target_text : text := str "id,action
1,walk
".

Definition one_target_long_text : text := str "id,action
1,walk,extra
".

Definition long_row : file := mkFile (Ok one_target_long_text) true.

(** Two directories and one file: [linked-data.csv] in the data
    directory is a link to the file that [/notes] lists as [plan.csv]. *)
Definition linked_fs (data_path : string) : filesystem :=
  mkFs (fun p => if String.eqb p data_path then Directory [("linked-data.csv"%string, 7)]
                 else if String.eqb p "/notes" then Directory [("plan.csv"%string, 7)]
                 else Missing)
       (fun _ => sound).

(** A field with two quote characters in it, and two files in which
    fields are written between quotes: a comma in [milestone_text], and in
    the first file the field [said_hi] in [note], its quotes doubled. *)
Definition said_hi : text := str "say " ++ DQUOTE :: str "hi" ++ [DQUOTE].

Definition quoted_notes : text :=
  str "id,milestone_text,note
1," ++ DQUOTE :: str "a,b" ++ DQUOTE :: COMMA :: DQUOTE :: str "say "
    ++ DQUOTE :: DQUOTE :: str "hi" ++ [DQUOTE; DQUOTE; DQUOTE; LF].

Definition quoted_milestone : text :=
  str "id,milestone_text
1," ++ DQUOTE :: str "a,b" ++ [DQUOTE; LF].

(** ** Notions of the further properties *)

(** A line that [strip] leaves empty. *)
Definition blank_line (l : text) : Prop := truthy (strip l) = false.

Definition newline (c : char) : Prop := c = LF \/ c = CR.

(** A line as the iteration of a file gives it: characters that are no
    line ends, then at most the line end. *)
Definition line_shape (l : text) : Prop :=
  exists body term, l = body ++ term /\ Forall plain body /\ Forall newline term.

(** The reader has begun a record: what it returns next has a field. *)
Definition record_begun (self : ReaderObj) : Prop :=
  match state self with
  | START_RECORD | EAT_CRNL => fields self <> []
  | _ => True
  end.

(** The only exception of the result, if any, is that of the field
    limit. *)
Definition only_field_limit {A : Type} (r : result A) : Prop :=
  match r with Ok _ => True | Raise e => e = CsvFieldLimit end.

(** The records [csv.DictReader] makes rows of: those with a field. *)
Definition nonblank (records : list row) : list row :=
  filter (fun r => negb (is_blank_record r)) records.

(** A file with the line end of Windows, inside a quoted field too. *)
Definition windows_note : text :=
  str "milestone_text,note" ++ [CR; LF]
    ++ str "x," ++ DQUOTE :: str "a" ++ [CR; LF] ++ str "b" ++ [DQUOTE; CR; LF].

(** The position of the last occurrence of a name in a header that has
    it. *)
Fixpoint last_pos (k : text) (l : list text) : nat :=
  match l with
  | [] => 0
  | _ :: l' => if in_dec text_eq_dec k l' then S (last_pos k l') else 0
  end.

(** The value the last entry for a key gives it. *)
Fixpoint last_assoc (kvs : list (text * option text)) (k : text)
  : option (option text) :=
  match kvs with
  | [] => None
  | (k0, v0) :: kvs' =>
      match last_assoc kvs' k with
      | Some v => Some v
      | None => if text_eq_dec k0 k then Some v0 else None
      end
  end.

(** [key.lower() == 'milestone_text'] *)
Definition matches (key : text) : bool :=
  if text_eq_dec (lower key) MILESTONE_TEXT then true else false.

Definition set_entry (d : list (text * option text)) (kv : text * option text) :=
  dict_set d (fst kv) (snd kv).

(** A file of blank lines; a table with a row longer than its header,
    with and without a [milestone_text] column. *)
Definition blank_text : text := str "  
	
".

Definition long_row_text : text := str "id,milestone_text
1,x
2,y,extra
3,z
".

Definition long_row_no_column_text : text := str "id,note
1,a,b
".

Definition small_table_text : text := str "id,milestone_text
1,x
".

(** The names of the files a report says were processed, in order. *)
Fixpoint add_processed (log : list Add.msg) : list string :=
  match log with
  | [] => []
  | Add.Processing name :: log' => name :: add_processed log'
  | _ :: log' => add_processed log'
  end.

Fixpoint drop_processed (log : list Drop.msg) : list string :=
  match log with
  | [] => []
  | Drop.Processing name :: log' => name :: drop_processed log'
  | _ :: log' => drop_processed log'
  end.

(** Each name is at most the next one. *)
Fixpoint ascending (l : list string) : Prop :=
  match l with
  | [] => True
  | x :: l' =>
      match l' with
      | [] => True
      | y :: _ => String.leb x y = true
      end /\ ascending l'
  end.

(** The names [glob] goes through in a directory. *)
Definition names_in (fs : filesystem) (path : string) : list string :=
  match tree fs path with
  | Directory entries => map fst entries
  | _ => []
  end.

(** A row without a column, and what the loop body makes of it. *)
Definition bare_row : pydict := mkDict [] None.

Definition bare_row_migrated : pydict :=
  mkDict [(ACTION, Some []); (IS_MILESTONE, Some (str "0"))] None.

(** * Properties *)


(** ** The error monad *)

Lemma bind_assoc {A B C} (m : result A) (f : A -> result B) (g : B -> result C) :
  bind (bind m f) g = bind m (fun a => bind (f a) g).
Proof. destruct m; reflexivity. Qed.

Lemma bind_ok_inv {A B} (m : result A) (f : A -> result B) (b : B) :
  bind m f = Ok b -> exists a, m = Ok a /\ f a = Ok b.
Proof. destruct m as [a|e]; simpl; intros H; [eauto | discriminate]. Qed.

(** ** Lines *)

Lemma parse_chars_app (a b : text) : forall self,
  parse_chars self (a ++ b) = bind (parse_chars self a) (fun s => parse_chars s b).
Proof.
  induction a as [|c a IH]; intros self; simpl; [reflexivity|].
  destruct (parse_process_char self (Ch c)); simpl; [apply IH | reflexivity].
Qed.

Lemma parse_line_app (a b : text) (self : ReaderObj) :
  parse_line self (a ++ b) = bind (parse_chars self a) (fun s => parse_line s b).
Proof.
  unfold parse_line. rewrite parse_chars_app, bind_assoc. reflexivity.
Qed.

Lemma Reader_loop_split_line (a b : text) (L : list text) (self : ReaderObj) :
  Reader_loop self ((a ++ b) :: L)
  = bind (parse_chars self a) (fun s => Reader_loop s (b :: L)).
Proof.
  simpl. rewrite parse_line_app, bind_assoc. reflexivity.
Qed.

(** The characters already collected for the current line can be given
    to the parser ahead of the rest of the line. *)
Lemma Reader_loop_defer (u : text) : forall (cur : text) (self : ReaderObj),
  u <> [] ->
  Reader_loop self (readlines_from cur u)
  = bind (parse_chars self (rev cur)) (fun s => Reader_loop s (readlines_from [] u)).
Proof.
  induction u as [|c u IH]; intros cur self Hne; [congruence|].
  cbn [readlines_from].
  destruct (c =? LF)%N eqn:ELF.
  { cbn [rev]. rewrite Reader_loop_split_line. reflexivity. }
  destruct (c =? CR)%N eqn:ECR.
  { destruct u as [|c' u].
    - cbn [rev]. rewrite Reader_loop_split_line. reflexivity.
    - destruct (c' =? LF)%N.
      + cbn [rev]. rewrite <- app_assoc.
        change ((rev [] ++ [c]) ++ [c']) with ([c] ++ [c']).
        rewrite Reader_loop_split_line. reflexivity.
      + cbn [rev]. rewrite Reader_loop_split_line. reflexivity. }
  destruct u as [|c' u].
  - cbn [readlines_from rev].
    rewrite Reader_loop_split_line. reflexivity.
  - rewrite IH by discriminate.
    cbn [rev]. rewrite parse_chars_app, bind_assoc.
    destruct (parse_chars self (rev cur)) as [s|e]; [|reflexivity].
    cbn [bind]. rewrite (IH [c]) by discriminate. reflexivity.
Qed.

Lemma Reader_text_step (c : char) (u : text) (self : ReaderObj) :
  plain c -> u <> [] ->
  Reader_text self (c :: u)
  = bind (parse_process_char self (Ch c)) (fun s => Reader_text s u).
Proof.
  intros [H1 H2] Hne. unfold Reader_text, readlines.
  cbn [readlines_from].
  apply N.eqb_neq in H1, H2. rewrite H1, H2.
  rewrite Reader_loop_defer by assumption.
  simpl. destruct (parse_process_char self (Ch c)); reflexivity.
Qed.

Lemma parse_add_char_ok (st0 : ParserState) (fl : list text) (pre : text) (c : char) :
  within_limit (pre ++ [c]) ->
  parse_add_char (mkReader st0 fl pre) c = Ok (mkReader st0 fl (pre ++ [c])).
Proof.
  unfold within_limit, parse_add_char. rewrite length_app. cbn [length field state fields].
  intros H. destruct (N.leb_spec field_limit (N.of_nat (length pre))); [lia | reflexivity].
Qed.

Lemma within_limit_prefix (a b : text) : within_limit (a ++ b) -> within_limit a.
Proof. unfold within_limit. rewrite length_app. lia. Qed.

Lemma parse_quoted_char (c : char) (fl : list text) (pre : text) :
  c <> DQUOTE -> within_limit (pre ++ [c]) ->
  parse_process_char (mkReader IN_QUOTED_FIELD fl pre) (Ch c)
  = Ok (mkReader IN_QUOTED_FIELD fl (pre ++ [c])).
Proof.
  intros Hq Hlim. unfold parse_process_char. cbn [state].
  apply N.eqb_neq in Hq. rewrite Hq. apply parse_add_char_ok, Hlim.
Qed.

Lemma Reader_text_quoted_step (c : char) (u : text) (fl : list text) (pre : text) :
  c <> DQUOTE -> u <> [] -> within_limit (pre ++ [c]) ->
  Reader_text (mkReader IN_QUOTED_FIELD fl pre) (c :: u)
  = Reader_text (mkReader IN_QUOTED_FIELD fl (pre ++ [c])) u.
Proof.
  intros Hq Hne Hlim.
  pose proof (parse_quoted_char c fl pre Hq Hlim) as Hstep.
  destruct (N.eq_dec c LF) as [->|HLF].
  { unfold Reader_text, readlines. cbn [readlines_from].
    change (LF =? LF)%N with true. cbv iota.
    cbn [Reader_loop rev app]. unfold parse_line. cbn [parse_chars].
    rewrite Hstep. reflexivity. }
  destruct (N.eq_dec c CR) as [->|HCR].
  { destruct u as [|c' u]; [congruence|].
    unfold Reader_text, readlines. cbn [readlines_from].
    change (CR =? LF)%N with false. change (CR =? CR)%N with true. cbv iota.
    destruct (c' =? LF)%N eqn:E.
    - apply N.eqb_eq in E. subst c'.
      change (LF =? LF)%N with true. cbv iota.
      cbn [Reader_loop rev app]. unfold parse_line. cbn [parse_chars].
      rewrite Hstep. reflexivity.
    - cbn [Reader_loop rev app]. unfold parse_line. cbn [parse_chars].
      rewrite Hstep. reflexivity. }
  rewrite Reader_text_step by (assumption || split; assumption).
  rewrite Hstep. reflexivity.
Qed.

Lemma parse_closing_quote (fl : list text) (pre : text) :
  parse_process_char (mkReader IN_QUOTED_FIELD fl pre) (Ch DQUOTE)
  = Ok (mkReader QUOTE_IN_QUOTED_FIELD fl pre).
Proof. reflexivity. Qed.

Lemma parse_doubled_quote (fl : list text) (pre : text) :
  within_limit (pre ++ [DQUOTE]) ->
  parse_process_char (mkReader QUOTE_IN_QUOTED_FIELD fl pre) (Ch DQUOTE)
  = Ok (mkReader IN_QUOTED_FIELD fl (pre ++ [DQUOTE])).
Proof.
  intros Hlim. unfold parse_process_char. cbn [state].
  change (DQUOTE =? DQUOTE)%N with true. cbv iota.
  rewrite parse_add_char_ok by assumption. reflexivity.
Qed.

Lemma parse_opening_quote (fl : list text) :
  parse_process_char (mkReader START_FIELD fl []) (Ch DQUOTE)
  = Ok (mkReader IN_QUOTED_FIELD fl []).
Proof. reflexivity. Qed.

Lemma needs_quote_false (c : char) :
  needs_quote c = false -> c <> COMMA /\ c <> DQUOTE /\ c <> CR /\ c <> LF.
Proof.
  unfold needs_quote. rewrite !orb_false_iff, !N.eqb_neq. tauto.
Qed.

Lemma parse_field_char (c : char) (fl : list text) (pre : text) :
  needs_quote c = false -> within_limit (pre ++ [c]) ->
  parse_process_char (mkReader IN_FIELD fl pre) (Ch c)
  = Ok (mkReader IN_FIELD fl (pre ++ [c])).
Proof.
  intros Hc Hlim. apply needs_quote_false in Hc.
  destruct Hc as (Hcomma & Hq & HCR & HLF).
  apply N.eqb_neq in Hcomma, HCR, HLF.
  unfold parse_process_char. cbn [state]. rewrite HLF, HCR, Hcomma. cbn [orb].
  apply parse_add_char_ok, Hlim.
Qed.

Lemma parse_first_char (c : char) (fl : list text) :
  needs_quote c = false ->
  parse_process_char (mkReader START_FIELD fl []) (Ch c)
  = Ok (mkReader IN_FIELD fl [c]).
Proof.
  intros Hc. apply needs_quote_false in Hc.
  destruct Hc as (Hcomma & Hq & HCR & HLF).
  apply N.eqb_neq in Hcomma, HCR, HLF, Hq.
  unfold parse_process_char, parse_start_field. cbn [state].
  rewrite HLF, HCR, Hcomma, Hq. reflexivity.
Qed.

Lemma copy_field_nonempty (s u : text) : copy_field s ++ DQUOTE :: u <> [].
Proof. destruct (copy_field s); discriminate. Qed.

Lemma Reader_text_quoted_content (s : text) : forall (fl : list text) (pre u : text),
  u <> [] -> within_limit (pre ++ s) ->
  Reader_text (mkReader IN_QUOTED_FIELD fl pre) (copy_field s ++ DQUOTE :: u)
  = Reader_text (mkReader QUOTE_IN_QUOTED_FIELD fl (pre ++ s)) u.
Proof.
  induction s as [|c s IH]; intros fl pre u Hne Hlim.
  - cbn [copy_field app]. rewrite app_nil_r.
    rewrite Reader_text_step by (assumption || split; discriminate).
    reflexivity.
  - cbn [copy_field].
    replace (pre ++ c :: s) with ((pre ++ [c]) ++ s) in * by (rewrite <- app_assoc; reflexivity).
    assert (Hc : within_limit (pre ++ [c])) by (eapply within_limit_prefix; eassumption).
    destruct (c =? DQUOTE)%N eqn:E.
    + apply N.eqb_eq in E. subst c. cbn [app].
      rewrite Reader_text_step by (discriminate || split; discriminate).
      rewrite parse_closing_quote. cbn [bind].
      rewrite Reader_text_step by (apply copy_field_nonempty || split; discriminate).
      rewrite parse_doubled_quote by assumption. cbn [bind].
      apply IH; assumption.
    + apply N.eqb_neq in E. cbn [app].
      rewrite Reader_text_quoted_step by (assumption || apply copy_field_nonempty).
      apply IH; assumption.
Qed.

Lemma copy_field_plain (s : text) :
  existsb needs_quote s = false -> copy_field s = s.
Proof.
  induction s as [|c s IH]; [reflexivity|].
  cbn [existsb copy_field]. rewrite orb_false_iff. intros [Hc Hs].
  apply needs_quote_false in Hc. destruct Hc as (_ & Hq & _).
  apply N.eqb_neq in Hq. rewrite Hq, IH by assumption. reflexivity.
Qed.

Lemma Reader_text_unquoted_content (s : text) : forall (fl : list text) (pre u : text),
  existsb needs_quote s = false -> u <> [] -> within_limit (pre ++ s) ->
  Reader_text (mkReader IN_FIELD fl pre) (s ++ u)
  = Reader_text (mkReader IN_FIELD fl (pre ++ s)) u.
Proof.
  induction s as [|c s IH]; intros fl pre u Hs Hne Hlim.
  - rewrite app_nil_r. reflexivity.
  - cbn [existsb] in Hs. apply orb_false_iff in Hs. destruct Hs as [Hc Hs].
    replace (pre ++ c :: s) with ((pre ++ [c]) ++ s) in * by (rewrite <- app_assoc; reflexivity).
    assert (Hl : within_limit (pre ++ [c])) by (eapply within_limit_prefix; eassumption).
    pose proof (needs_quote_false c Hc) as (_ & _ & HCR & HLF).
    cbn [app]. rewrite Reader_text_step.
    2: split; assumption.
    2: destruct s; [assumption | discriminate].
    rewrite parse_field_char by assumption.
    cbn [bind]. apply IH; assumption.
Qed.

(** A whole field, from the start of a field to its last character. *)
Lemma Reader_text_field (f : option text) (fl : list text) (u : text) :
  u <> [] -> within_limit (field_text f) ->
  exists st0,
    closing st0 (field_text f) /\
    Reader_text (mkReader START_FIELD fl []) (join_append false f ++ u)
    = Reader_text (mkReader st0 fl (field_text f)) u.
Proof.
  intros Hne Hlim. destruct f as [s|]; cbn [join_append field_text orb] in *.
  2: { exists START_FIELD. split; [left; split; reflexivity | reflexivity]. }
  destruct (existsb needs_quote s) eqn:E.
  - exists QUOTE_IN_QUOTED_FIELD. split; [right; right; reflexivity|].
    cbn [app]. rewrite <- app_assoc. cbn [app].
    rewrite Reader_text_step by (apply copy_field_nonempty || split; discriminate).
    rewrite parse_opening_quote. cbn [bind].
    apply (Reader_text_quoted_content s fl [] u Hne Hlim).
  - rewrite copy_field_plain by assumption.
    destruct s as [|c s].
    + exists START_FIELD. split; [left; split; reflexivity | reflexivity].
    + exists IN_FIELD. split; [right; left; reflexivity|].
      cbn [existsb] in E. apply orb_false_iff in E. destruct E as [Hc Hs].
      pose proof (needs_quote_false c Hc) as (_ & _ & HCR & HLF).
      cbn [app]. rewrite Reader_text_step.
      2: split; assumption.
      2: destruct s; [assumption | discriminate].
      rewrite parse_first_char by assumption. cbn [bind].
      apply (Reader_text_unquoted_content s fl [c] u Hs Hne Hlim).
Qed.

Lemma Reader_text_comma (st0 : ParserState) (fl : list text) (fd u : text) :
  closing st0 fd -> u <> [] ->
  Reader_text (mkReader st0 fl fd) (COMMA :: u)
  = Reader_text (mkReader START_FIELD (fl ++ [fd]) []) u.
Proof.
  intros Hc Hne. rewrite Reader_text_step by (assumption || split; discriminate).
  destruct Hc as [[-> ->] | [-> | ->]]; reflexivity.
Qed.

Lemma Reader_text_line_end (st0 : ParserState) (fl : list text) (fd lt t : text) :
  closing st0 fd -> line_end lt ->
  Reader_text (mkReader st0 fl fd) (lt ++ t) = Ok (Some (fl ++ [fd], readlines t)).
Proof.
  intros Hc [-> | ->]; destruct Hc as [[-> ->] | [-> | ->]]; reflexivity.
Qed.

Lemma join_fields_succ (fs : list (option text)) : forall n,
  join_fields (S n) fs = join_fields 1 fs.
Proof.
  induction fs as [|f fs IH]; intros n; [reflexivity|].
  cbn [join_fields]. rewrite (IH (S n)), (IH 1). reflexivity.
Qed.

Lemma line_end_nonempty (lt t : text) : line_end lt -> lt ++ t <> [].
Proof. intros [-> | ->]; discriminate. Qed.

(** The fields of a record, from the start of a field to the line end. *)
Lemma Reader_text_fields (fs : list (option text)) :
  forall (f : option text) (fl : list text) (lt t : text),
  line_end lt ->
  Forall within_limit (map field_text (f :: fs)) ->
  Reader_text (mkReader START_FIELD fl [])
              (join_append false f ++ join_fields 1 fs ++ lt ++ t)
  = Ok (Some (fl ++ map field_text (f :: fs), readlines t)).
Proof.
  induction fs as [|f' fs IH]; intros f fl lt t Hlt Hlim;
    inversion Hlim as [|? ? Hf Hrest]; subst.
  - cbn [join_fields app map].
    destruct (Reader_text_field f fl (lt ++ t)) as (st0 & Hc & ->);
      [apply line_end_nonempty, Hlt | assumption |].
    apply Reader_text_line_end; assumption.
  - cbn [join_fields]. rewrite join_fields_succ.
    rewrite <- !app_assoc. cbn [app].
    destruct (Reader_text_field f fl
                (COMMA :: join_append false f' ++ join_fields 1 fs ++ lt ++ t))
      as (st0 & Hc & ->); [discriminate | assumption |].
    rewrite Reader_text_comma.
    + rewrite IH by assumption.
      cbn [map]. rewrite <- app_assoc. reflexivity.
    + assumption.
    + destruct (join_append false f'); [|discriminate].
      destruct (join_fields 1 fs); [|discriminate].
      cbn [app]. apply line_end_nonempty, Hlt.
Qed.

Lemma Reader_text_start_record (c : char) (u : text) (fl : list text) (fd : text) :
  plain c -> u <> [] ->
  Reader_text (mkReader START_RECORD fl fd) (c :: u)
  = Reader_text (mkReader START_FIELD fl fd) (c :: u).
Proof.
  intros Hp Hne. rewrite !Reader_text_step by assumption.
  destruct Hp as [HLF HCR]. apply N.eqb_neq in HLF, HCR.
  unfold parse_process_char. cbn [state]. rewrite HLF, HCR. reflexivity.
Qed.

Lemma join_fields_head_plain (f : option text) (fs : list (option text)) (c : char) (u : text) :
  join_append false f ++ join_fields 1 fs = c :: u -> plain c.
Proof.
  assert (Hcomma : forall u', join_fields 1 fs = c :: u' -> plain c).
  { intros u' H. destruct fs as [|f' fs]; [discriminate|].
    cbn [join_fields app] in H. injection H as <- _. split; discriminate. }
  destruct f as [s|]; cbn [join_append orb]; [|apply Hcomma].
  destruct (existsb needs_quote s) eqn:E.
  - cbn [app]. intros H. injection H as <- _. split; discriminate.
  - rewrite copy_field_plain by assumption.
    destruct s as [|c' s]; [apply Hcomma|].
    cbn [app]. intros H. injection H as <- _.
    cbn [existsb] in E. apply orb_false_iff in E. destruct E as [Hc _].
    apply needs_quote_false in Hc. split; tauto.
Qed.

(** Reading back one written record: the reader returns its fields and
    leaves the lines of the rest. *)
Lemma Reader_text_record (r : list (option text)) (lt t : text) :
  line_end lt ->
  Forall within_limit (map field_text r) ->
  Reader_text parse_reset (record_text r ++ lt ++ t)
  = Ok (Some (map field_text r, readlines t)).
Proof.
  intros Hlt Hlim. unfold record_text.
  destruct r as [|f fs].
  { destruct Hlt as [-> | ->]; reflexivity. }
  cbn [join_fields app].
  destruct (join_append false f ++ join_fields 1 fs) as [|c u] eqn:E.
  - apply app_eq_nil in E. destruct E as [Ef Efs].
    destruct fs as [|f' fs]; [|discriminate].
    assert (Hf : field_text f = []).
    { destruct f as [s|]; [|reflexivity]. cbn [join_append orb] in Ef.
      destruct (existsb needs_quote s); [discriminate|].
      destruct s as [|c s]; [reflexivity|].
      cbn [copy_field] in Ef. destruct (c =? DQUOTE)%N; discriminate. }
    cbn [map]. rewrite Hf.
    destruct Hlt as [-> | ->]; reflexivity.
  - unfold parse_reset. cbn [app].
    rewrite Reader_text_start_record.
    + change (c :: u ++ lt ++ t) with ((c :: u) ++ lt ++ t).
      rewrite <- E, <- app_assoc.
      apply (Reader_text_fields fs f [] lt t Hlt Hlim).
    + eapply join_fields_head_plain; eassumption.
    + destruct u; [cbn [app]; apply line_end_nonempty, Hlt | discriminate].
Qed.

Lemma Reader_iternext_writerow (r : list (option text)) (t : text) :
  Forall within_limit (map field_text r) ->
  Reader_iternext (readlines (writerow r ++ t))
  = Ok (Some (map field_text r, readlines t)).
Proof.
  intros Hlim. unfold writerow. rewrite <- app_assoc.
  apply (Reader_text_record r lineterminator t); [left; reflexivity | assumption].
Qed.

(** ** [list(reader)] terminates within its rounds *)

Lemma Reader_loop_consumes (lines : list text) : forall self r lines',
  Reader_loop self lines = Ok (Some (r, lines')) ->
  length lines' <= length lines /\ (lines <> [] -> length lines' < length lines).
Proof.
  induction lines as [|line lines IH]; intros self r lines' H.
  - cbn [Reader_loop] in H.
    destruct (_ || _); inversion H; subst. split; [reflexivity | congruence].
  - cbn [Reader_loop] in H.
    destruct (parse_line self line) as [s|e]; [|discriminate].
    cbn [bind] in H.
    assert (Hrec : Reader_loop s lines = Ok (Some (r, lines')) ->
                   length lines' <= length (line :: lines) /\
                   (line :: lines <> [] -> length lines' < length (line :: lines))).
    { intros H'. apply IH in H'. cbn [length]. split; intros; lia. }
    destruct (state s); try (apply Hrec; assumption).
    inversion H; subst. cbn [length]. split; intros; lia.
Qed.

Lemma Reader_iternext_consumes (lines : list text) r lines' :
  Reader_iternext lines = Ok (Some (r, lines')) -> length lines' < length lines.
Proof.
  intros H. destruct lines as [|line lines]; [discriminate|].
  apply Reader_loop_consumes in H. apply H. discriminate.
Qed.

Lemma reader_rounds_enough (n : nat) : forall m lines,
  length lines < n -> length lines < m ->
  reader_rounds n lines = reader_rounds m lines.
Proof.
  induction n as [|n IH]; intros m lines Hn Hm; [lia|].
  destruct m as [|m]; [lia|].
  cbn [reader_rounds].
  destruct (Reader_iternext lines) as [[[r lines']|]|e] eqn:E; try reflexivity.
  cbn [bind]. apply Reader_iternext_consumes in E.
  rewrite (IH m lines') by lia. reflexivity.
Qed.

(** The equation of [list(reader)], free of the count of rounds. *)
Lemma list_reader_eq (lines : list text) :
  list_reader lines
  = r <- Reader_iternext lines ;;
    match r with
    | None => Ok []
    | Some (rec, lines') => recs <- list_reader lines' ;; Ok (rec :: recs)
    end.
Proof.
  unfold list_reader at 1. cbn [reader_rounds].
  destruct (Reader_iternext lines) as [[[r lines']|]|e] eqn:E; try reflexivity.
  cbn [bind]. apply Reader_iternext_consumes in E.
  unfold list_reader.
  rewrite (reader_rounds_enough (length lines) (S (length lines')) lines') by lia.
  reflexivity.
Qed.

(** ** What the reader returns is made of what it read *)

Section ReaderInvariant.
Variable P : char -> Prop.

Lemma reader_inv_set_state self s : reader_inv P self -> reader_inv P (set_state self s).
Proof. intros H. exact H. Qed.

Lemma reader_inv_save self : reader_inv P self -> reader_inv P (parse_save_field self).
Proof.
  intros [Hf Hfs]. split.
  - split; [constructor | unfold within_limit, field_limit; cbn; lia].
  - cbn [parse_save_field fields]. apply Forall_app. split; [assumption|].
    constructor; [assumption | constructor].
Qed.

Lemma reader_inv_add self c s :
  P c -> reader_inv P self -> parse_add_char self c = Ok s -> reader_inv P s.
Proof.
  intros Hc [[Hf Hl] Hfs]. unfold parse_add_char.
  destruct (N.leb_spec field_limit (N.of_nat (length (field self)))); [discriminate|].
  intros H'. inversion H'; subst. split; [split|]; cbn [field fields].
  - apply Forall_app. split; [assumption | constructor; [assumption | constructor]].
  - unfold within_limit. rewrite length_app. cbn [length]. lia.
  - assumption.
Qed.

Lemma reader_inv_step self i s :
  match i with Ch c => P c | EOL => True end ->
  reader_inv P self -> parse_process_char self i = Ok s -> reader_inv P s.
Proof.
  intros Hi Hinv. unfold parse_process_char, parse_start_field.
  destruct (state self), i as [c|];
    repeat match goal with
           | |- context [if ?b then _ else _] => destruct b
           end;
    intros H;
    first
      [ discriminate
      | inversion H; subst; first [exact Hinv | exact (reader_inv_save _ Hinv)]
      | eapply reader_inv_add; [ | | exact H]; [exact Hi | exact Hinv]
      | apply bind_ok_inv in H; destruct H as (s' & Hadd & H);
        inversion H; subst;
        apply reader_inv_set_state;
        eapply reader_inv_add; [ | | exact Hadd]; [exact Hi | exact Hinv] ].
Qed.

Lemma reader_inv_chars (line : text) : forall self s,
  Forall P line -> reader_inv P self -> parse_chars self line = Ok s -> reader_inv P s.
Proof.
  induction line as [|c line IH]; intros self s Hline Hinv H.
  - inversion H; subst. assumption.
  - cbn [parse_chars] in H. apply bind_ok_inv in H. destruct H as (s' & Hc & H).
    inversion Hline; subst.
    eapply IH; [eassumption | | eassumption].
    eapply reader_inv_step; [|eassumption|eassumption]. assumption.
Qed.

Lemma reader_inv_line (line : text) self s :
  Forall P line -> reader_inv P self -> parse_line self line = Ok s -> reader_inv P s.
Proof.
  intros Hline Hinv H. unfold parse_line in H.
  apply bind_ok_inv in H. destruct H as (s' & Hc & H).
  eapply reader_inv_step; [|eapply reader_inv_chars; eassumption|eassumption].
  exact I.
Qed.

Lemma reader_inv_loop (lines : list text) : forall self r lines',
  Forall (Forall P) lines -> reader_inv P self ->
  Reader_loop self lines = Ok (Some (r, lines')) ->
  Forall (fun f => Forall P f /\ within_limit f) r /\ Forall (Forall P) lines'.
Proof.
  induction lines as [|line lines IH]; intros self r lines' Hlines Hinv H.
  - cbn [Reader_loop] in H. destruct (_ || _); inversion H; subst.
    split; [apply (reader_inv_save _ Hinv) | constructor].
  - cbn [Reader_loop] in H. apply bind_ok_inv in H. destruct H as (s & Hl & H).
    inversion Hlines; subst.
    pose proof (reader_inv_line _ _ _ H2 Hinv Hl) as Hs.
    destruct (state s); try (eapply IH; eassumption).
    inversion H; subst. split; [apply Hs | assumption].
Qed.

Lemma reader_inv_reset : reader_inv P parse_reset.
Proof.
  split; [split; [constructor | unfold within_limit, field_limit; cbn; lia] | constructor].
Qed.

Lemma reader_rounds_inv (n : nat) : forall lines rows,
  Forall (Forall P) lines ->
  reader_rounds n lines = Ok rows ->
  Forall (Forall (fun f => Forall P f /\ within_limit f)) rows.
Proof.
  induction n as [|n IH]; intros lines rows Hlines H.
  - inversion H; subst. constructor.
  - cbn [reader_rounds] in H. apply bind_ok_inv in H. destruct H as (r & Hr & H).
    destruct r as [[rec lines']|]; [|inversion H; subst; constructor].
    apply bind_ok_inv in H. destruct H as (recs & Hrecs & H).
    inversion H; subst.
    destruct (reader_inv_loop _ _ _ _ Hlines reader_inv_reset Hr) as [Hrec Hl'].
    constructor; [assumption | eapply IH; eassumption].
Qed.

Lemma readlines_from_chars (t : text) : forall cur,
  Forall P cur -> Forall P t -> Forall (Forall P) (readlines_from cur t).
Proof.
  assert (Hrev : forall l, Forall P l -> Forall P (rev l)).
  { intros l Hl. apply Forall_forall. intros x Hx.
    apply in_rev in Hx. revert x Hx. apply Forall_forall, Hl. }
  assert (Hstrong : forall n t, length t <= n -> forall cur,
             Forall P cur -> Forall P t -> Forall (Forall P) (readlines_from cur t)).
  { induction n as [|n IH]; intros u Hn cur Hcur Hu.
    - destruct u; [|cbn in Hn; lia]. cbn. destruct cur; repeat constructor.
      apply Hrev. assumption.
    - destruct u as [|c u].
      + cbn. destruct cur; repeat constructor. apply Hrev. assumption.
      + inversion Hu; subst. cbn [length] in Hn.
        cbn [readlines_from].
        destruct (c =? LF)%N.
        { constructor; [apply Hrev; constructor; assumption|].
          apply IH; [lia | constructor | assumption]. }
        destruct (c =? CR)%N.
        { destruct u as [|c' u].
          - repeat constructor. apply Hrev. constructor; assumption.
          - inversion H2; subst. cbn [length] in Hn. destruct (c' =? LF)%N.
            + constructor; [apply Hrev; repeat (constructor; try assumption)|].
              apply IH; [lia | constructor | assumption].
            + constructor; [apply Hrev; constructor; assumption|].
              apply IH; [cbn [length]; lia | constructor | assumption]. }
        apply IH; [lia | constructor; assumption | assumption]. }
  intros cur. apply (Hstrong (length t) t). reflexivity.
Qed.

Lemma list_reader_inv (t : text) (rows : list row) :
  Forall P t ->
  list_reader (readlines t) = Ok rows ->
  Forall (Forall (fun f => Forall P f /\ within_limit f)) rows.
Proof.
  intros Ht H. eapply reader_rounds_inv; [|exact H].
  apply readlines_from_chars; [constructor | assumption].
Qed.
End ReaderInvariant.

(** ** Universal newlines *)

Lemma translate_newlines_no_CR (t : text) : no_CR (translate_newlines t).
Proof.
  assert (H : forall n u, length u <= n -> no_CR (translate_newlines u)).
  { induction n as [|n IH]; intros u Hn.
    - destruct u; [constructor | cbn in Hn; lia].
    - destruct u as [|c u]; [constructor|]. cbn [length] in Hn.
      cbn [translate_newlines].
      destruct (c =? CR)%N eqn:E.
      + destruct u as [|c' u]; [repeat constructor; discriminate|].
        cbn [length] in Hn.
        destruct (c' =? LF)%N; (constructor; [discriminate|]);
          apply IH; cbn [length]; lia.
      + apply N.eqb_neq in E. constructor; [assumption|]. apply IH. lia. }
  apply (H (length t)). reflexivity.
Qed.

Lemma translate_newlines_app (a t : text) :
  no_CR a -> translate_newlines (a ++ t) = a ++ translate_newlines t.
Proof.
  induction 1 as [|c a Hc Ha IH]; [reflexivity|].
  cbn [app translate_newlines]. apply N.eqb_neq in Hc. rewrite Hc, IH. reflexivity.
Qed.

Lemma copy_field_no_CR (s : text) : no_CR s -> no_CR (copy_field s).
Proof.
  induction 1 as [|c s Hc Hs IH]; [constructor|].
  cbn [copy_field]. destruct (c =? DQUOTE)%N; repeat (constructor; [assumption || discriminate|]);
    assumption.
Qed.

Lemma join_append_no_CR (q : bool) (f : option text) :
  no_CR (field_text f) -> no_CR (join_append q f).
Proof.
  intros H. destruct f as [s|]; cbn [join_append field_text] in *.
  - destruct (q || existsb needs_quote s).
    + constructor; [discriminate|]. apply Forall_app. split.
      * apply copy_field_no_CR, H.
      * repeat constructor. discriminate.
    + apply copy_field_no_CR, H.
  - destruct q; repeat constructor; discriminate.
Qed.

Lemma join_fields_no_CR (fs : list (option text)) : forall n,
  Forall no_CR (map field_text fs) -> no_CR (join_fields n fs).
Proof.
  induction fs as [|f fs IH]; intros n H; [constructor|].
  inversion H; subst. cbn [join_fields].
  apply Forall_app. split.
  - destruct n; repeat constructor. discriminate.
  - apply Forall_app. split; [apply join_append_no_CR; assumption | apply IH; assumption].
Qed.

Lemma record_text_no_CR (fs : list (option text)) :
  Forall no_CR (map field_text fs) -> no_CR (record_text fs).
Proof.
  intros H. unfold record_text.
  pose proof (join_fields_no_CR fs 0 H) as Hj.
  destruct fs; [assumption|].
  destruct (join_fields 0 (o :: fs)); [|assumption].
  repeat constructor; discriminate.
Qed.

Lemma translate_writerow (r : list (option text)) (t : text) :
  Forall no_CR (map field_text r) ->
  translate_newlines (writerow r ++ t) = record_text r ++ [LF] ++ translate_newlines t.
Proof.
  intros H. unfold writerow. rewrite <- app_assoc.
  rewrite translate_newlines_app by (apply record_text_no_CR, H).
  reflexivity.
Qed.

(** ** Reading back what the writer wrote *)

Lemma list_reader_writerows (rows : list (list (option text))) :
  readable rows ->
  list_reader (readlines (writerows rows)) = Ok (map (map field_text) rows).
Proof.
  induction 1 as [|r rows Hr Hrows IH]; [reflexivity|].
  unfold writerows. cbn [map concat]. fold (writerows rows).
  rewrite list_reader_eq, Reader_iternext_writerow by assumption.
  cbn [bind]. rewrite IH. reflexivity.
Qed.

Lemma list_reader_writerows_universal (rows : list (list (option text))) :
  readable rows -> CR_free rows ->
  list_reader (readlines (translate_newlines (writerows rows)))
  = Ok (map (map field_text) rows).
Proof.
  induction 1 as [|r rows Hr Hrows IH]; intros Hcr; [reflexivity|].
  inversion Hcr; subst.
  unfold writerows. cbn [map concat]. fold (writerows rows).
  rewrite translate_writerow by assumption.
  rewrite list_reader_eq. unfold Reader_iternext.
  change (Reader_loop parse_reset (readlines ?u)) with (Reader_text parse_reset u).
  rewrite Reader_text_record; [| right; reflexivity | assumption].
  cbn [bind]. rewrite IH by assumption. reflexivity.
Qed.

(** ** Runs of the drop-variant on one file *)

Lemma drop_run_migrated (name : string) (t : text) (out : list Drop.msg)
      (header : row) (rows : list row) (i : nat) :
  read_table_universal t = Ok (header :: rows) ->
  index MILESTONE_TEXT header = Some i ->
  Drop.migrate_csv_file name (mkWorld (mkFile (Ok t) true) out)
  = (mkWorld (mkFile (Ok (writerows (map Drop.as_fields (drop_table i header rows)))) true)
             (out ++ [Drop.Processing name; Drop.FoundAt i;
                      Drop.Migrated (length rows);
                      Drop.NewHeader (join_comma (Drop.cut i header))]),
     Ok true).
Proof.
  intros Hread Hidx. unfold read_table_universal in Hread.
  unfold Drop.migrate_csv_file, bind_io, try_except, print, read_text_universal,
    lift, open_w, write, ret.
  cbn [st stdout data writable bind]. rewrite Hread, Hidx.
  cbn [st stdout data writable bind app length map].
  replace (S (length (map (Drop.new_row i) rows)) - 1) with (length rows)
    by (rewrite length_map; lia).
  rewrite <- !app_assoc. reflexivity.
Qed.

Lemma drop_run_true_inv (name : string) (f : file) (out : list Drop.msg) w' :
  Drop.migrate_csv_file name (mkWorld f out) = (w', Ok true) ->
  exists t header rows i,
    f = mkFile (Ok t) true /\
    read_table_universal t = Ok (header :: rows) /\
    index MILESTONE_TEXT header = Some i.
Proof.
  unfold read_table_universal.
  unfold Drop.migrate_csv_file, bind_io, try_except, print, read_text_universal,
    lift, open_w, write, ret.
  destruct f as [[t|e] wr]; cbn [st stdout data writable bind]; [|discriminate].
  destruct (list_reader (readlines (translate_newlines t))) as [[|header rows]|e] eqn:Hread;
    try discriminate.
  destruct (index MILESTONE_TEXT header) as [i|] eqn:Hidx; [|discriminate].
  cbn [st stdout data writable bind].
  destruct wr; [|discriminate].
  intros _. exists t, header, rows, i. repeat split; assumption.
Qed.

(** The file is not touched unless [True] is returned. *)
Lemma drop_run_false (name : string) (f : file) (out : list Drop.msg) w' :
  Drop.migrate_csv_file name (mkWorld f out) = (w', Ok false) -> st w' = f.
Proof.
  unfold Drop.migrate_csv_file, bind_io, try_except, print, read_text_universal,
    lift, open_w, write, ret.
  destruct f as [[t|e] wr]; cbn [st stdout data writable bind].
  2: { intros H. inversion H. reflexivity. }
  destruct (list_reader (readlines (translate_newlines t))) as [[|header rows]|e];
    cbn [st stdout data writable bind].
  1,3: intros H; inversion H; reflexivity.
  destruct (index MILESTONE_TEXT header) as [i|]; cbn [st stdout data writable bind].
  2: intros H; inversion H; reflexivity.
  destruct wr; cbn [st stdout data writable bind]; [discriminate|].
  intros H. inversion H. reflexivity.
Qed.

(** It always returns, [True] or [False]: every exception is caught. *)
Lemma drop_run_returns (name : string) (w : world Drop.msg file) :
  exists w' b, Drop.migrate_csv_file name w = (w', Ok b).
Proof.
  unfold Drop.migrate_csv_file, bind_io, try_except, print, read_text_universal,
    lift, open_w, write, ret.
  destruct w as [[[t|e] wr] out]; cbn [st stdout data writable bind]; [|eauto].
  destruct (list_reader (readlines (translate_newlines t))) as [[|header rows]|e];
    cbn [st stdout data writable bind]; eauto.
  destruct (index MILESTONE_TEXT header) as [i|]; cbn [st stdout data writable bind]; eauto.
  destruct wr; cbn [st stdout data writable bind]; eauto.
Qed.

(** ** The table of the drop-variant *)

Lemma cut_remove_at (i : nat) : forall r : row, Drop.cut i r = remove_at i r.
Proof.
  unfold Drop.cut. induction i as [|i IH]; intros [|x r]; cbn; try reflexivity.
  f_equal. apply IH.
Qed.

Lemma new_row_drop_field (i : nat) (r : row) : Drop.new_row i r = drop_field i r.
Proof. unfold Drop.new_row, drop_field. rewrite cut_remove_at. reflexivity. Qed.

Lemma drop_table_spec (i : nat) (header : row) (rows : list row) :
  drop_table i header rows = remove_at i header :: map (drop_field i) rows.
Proof.
  unfold drop_table. rewrite cut_remove_at. f_equal.
  apply map_ext. intros r. apply new_row_drop_field.
Qed.

Lemma remove_at_nth_error {A : Type} (i : nat) : forall (l : list A) (k : nat),
  nth_error (remove_at i l) k = nth_error l (if k <? i then k else S k).
Proof.
  induction i as [|i IH]; intros [|x l] k; cbn [remove_at].
  - destruct (k <? 0); destruct k; reflexivity.
  - reflexivity.
  - destruct (k <? S i); destruct k; reflexivity.
  - destruct k as [|k]; [reflexivity|].
    cbn [nth_error]. rewrite IH.
    change (S k <? S i) with (k <? i). destruct (k <? i); reflexivity.
Qed.

Lemma remove_at_length {A : Type} (i : nat) : forall l : list A,
  i < length l -> length (remove_at i l) = length l - 1.
Proof.
  induction i as [|i IH]; intros [|x l] H; cbn in *; try lia.
  rewrite IH by lia. lia.
Qed.

Lemma remove_at_Forall {A : Type} (Q : A -> Prop) (i : nat) : forall l : list A,
  Forall Q l -> Forall Q (remove_at i l).
Proof.
  induction i as [|i IH]; intros l H; destruct H; cbn; try constructor; auto.
Qed.

Lemma drop_field_Forall (Q : text -> Prop) (i : nat) (r : row) :
  Forall Q r -> Forall Q (drop_field i r).
Proof.
  unfold drop_field. destruct (i <? length r); [apply remove_at_Forall | trivial].
Qed.

(** [index] finds the first position of the name. *)
Lemma index_first (x : text) : forall (l : list text) (i : nat),
  index x l = Some i ->
  nth_error l i = Some x /\ forall j, j < i -> nth_error l j <> Some x.
Proof.
  induction l as [|y l IH]; intros i H; [discriminate|].
  cbn [index] in H. destruct (text_eq_dec y x) as [->|Hne].
  - inversion H; subst. split; [reflexivity | intros j Hj; lia].
  - destruct (index x l) as [i'|]; [|discriminate]. inversion H; subst.
    destruct (IH i' eq_refl) as [Hn Hlt]. split; [assumption|].
    intros [|j] Hj; cbn [nth_error]; [congruence | apply Hlt; lia].
Qed.

Lemma index_none (x : text) : forall l : list text,
  index x l = None <-> ~ In x l.
Proof.
  induction l as [|y l IH]; cbn [index In]; [tauto|].
  destruct (text_eq_dec y x) as [->|Hne].
  - split; [discriminate | tauto].
  - destruct (index x l).
    + split; [discriminate|]. intros H. exfalso. apply H. right.
      destruct (in_dec text_eq_dec x l) as [Hin|Hnin]; [assumption|].
      apply IH in Hnin. discriminate.
    + split; [|reflexivity]. intros _ [H|H]; [congruence|].
      apply (proj1 IH eq_refl H).
Qed.

Lemma remove_at_index_count (x : text) : forall (l : list text) (i : nat),
  index x l = Some i ->
  count_occ text_eq_dec (remove_at i l) x = count_occ text_eq_dec l x - 1.
Proof.
  induction l as [|y l IH]; intros i H; [discriminate|].
  cbn [index] in H. destruct (text_eq_dec y x) as [->|Hne].
  - inversion H; subst. cbn [remove_at count_occ].
    destruct (text_eq_dec x x); [lia | congruence].
  - destruct (index x l) as [i'|]; [|discriminate]. inversion H; subst.
    cbn [remove_at count_occ]. destruct (text_eq_dec y x); [congruence|].
    apply IH. reflexivity.
Qed.

Lemma index_count_pos (x : text) (l : list text) :
  0 < count_occ text_eq_dec l x -> exists i, index x l = Some i.
Proof.
  intros H. destruct (index x l) as [i|] eqn:E; [eauto|].
  apply index_none in E. apply (count_occ_not_In text_eq_dec) in E. lia.
Qed.

Lemma read_table_universal_clean (t : text) (rows : list row) :
  read_table_universal t = Ok rows -> Forall (Forall clean_field) rows.
Proof.
  intros H. unfold read_table_universal in H.
  apply (list_reader_inv (fun c => c <> CR)) in H; [exact H|].
  apply translate_newlines_no_CR.
Qed.

Lemma read_table_within_limit (t : text) (rows : list row) :
  read_table t = Ok rows -> Forall (Forall within_limit) rows.
Proof.
  intros H. unfold read_table in H.
  apply (list_reader_inv (fun _ => True)) in H.
  - eapply Forall_impl; [|exact H]. intros r Hr.
    eapply Forall_impl; [|exact Hr]. intros f [_ Hf]. exact Hf.
  - apply Forall_forall. trivial.
Qed.

Lemma as_fields_text (r : row) : map field_text (Drop.as_fields r) = r.
Proof.
  unfold Drop.as_fields. rewrite map_map. cbn [field_text]. apply map_id.
Qed.

Lemma as_fields_table (rows : list row) :
  map (map field_text) (map Drop.as_fields rows) = rows.
Proof.
  rewrite map_map. rewrite <- (map_id rows) at 2.
  apply map_ext. apply as_fields_text.
Qed.

Lemma clean_table_reads_back (rows : list row) :
  Forall (Forall clean_field) rows ->
  read_table_universal (writerows (map Drop.as_fields rows)) = Ok rows.
Proof.
  intros H. unfold read_table_universal.
  rewrite list_reader_writerows_universal.
  - rewrite as_fields_table. reflexivity.
  - apply Forall_map. eapply Forall_impl; [|exact H]. intros r Hr. cbn beta.
    rewrite as_fields_text. eapply Forall_impl; [|exact Hr]. intros f Hf. apply Hf.
  - apply Forall_map. eapply Forall_impl; [|exact H]. intros r Hr. cbn beta.
    rewrite as_fields_text. eapply Forall_impl; [|exact Hr]. intros f Hf. apply Hf.
Qed.

Lemma drop_table_clean (i : nat) (header : row) (rows : list row) :
  Forall (Forall clean_field) (header :: rows) ->
  Forall (Forall clean_field) (drop_table i header rows).
Proof.
  intros H. inversion H; subst. rewrite drop_table_spec. constructor.
  - apply remove_at_Forall. assumption.
  - apply Forall_map. eapply Forall_impl; [|eassumption].
    intros r Hr. apply drop_field_Forall, Hr.
Qed.

(** The file the drop-variant leaves, read again by the drop-variant's
    own reading, is the table it built. *)
Lemma drop_run_reads_back (name : string) (t : text) (out : list Drop.msg)
      (header : row) (rows : list row) (i : nat) :
  read_table_universal t = Ok (header :: rows) ->
  index MILESTONE_TEXT header = Some i ->
  exists t',
    data (st (fst (Drop.migrate_csv_file name (mkWorld (mkFile (Ok t) true) out)))) = Ok t'
    /\ read_table_universal t' = Ok (drop_table i header rows).
Proof.
  intros Hread Hidx. rewrite (drop_run_migrated name t out header rows i Hread Hidx).
  cbn [fst st data]. eexists. split; [reflexivity|].
  apply clean_table_reads_back, drop_table_clean.
  eapply read_table_universal_clean, Hread.
Qed.

(** C3. For a readable, writable file whose table has the header [header]
    with [milestone_text] at the index [i] that [header.index] finds, the
    drop-variant leaves a file whose table is: the header without its
    field at [i]; each data row without its field at [i] when it has more
    than [i] fields, and unchanged when it has [i] or fewer. *)
Theorem C3_drop_removes_the_column (name : string) (t : text) (out : list Drop.msg)
        (header : row) (rows : list row) (i : nat) :
  read_table_universal t = Ok (header :: rows) ->
  index MILESTONE_TEXT header = Some i ->
  nth_error header i = Some MILESTONE_TEXT /\
  exists t',
    data (st (fst (Drop.migrate_csv_file name (mkWorld (mkFile (Ok t) true) out)))) = Ok t'
    /\ read_table_universal t'
       = Ok (remove_at i header
             :: map (fun r => if i <? length r then remove_at i r else r) rows).
Proof.
  intros Hread Hidx. split; [apply (index_first _ _ _ Hidx)|].
  destruct (drop_run_reads_back name t out header rows i Hread Hidx) as (t' & Ht' & Hback).
  exists t'. split; [assumption|].
  rewrite Hback, drop_table_spec. reflexivity.
Qed.

Lemma C3_witness :
  exists t',
    data (st (fst (Drop.migrate_csv_file "log-data.csv"
           (mkWorld (mkFile (Ok (str "id,milestone_text,note
1,hit,ok
2
")) true) []))))
    = Ok t'
    /\ read_table_universal t'
       = Ok [[str "id"; str "note"]; [str "1"; str "ok"]; [str "2"]].
Proof.
  apply (C3_drop_removes_the_column "log-data.csv"
           (str "id,milestone_text,note
1,hit,ok
2
") [] [str "id"; str "milestone_text"; str "note"]
           [[str "1"; str "hit"; str "ok"]; [str "2"]] 1);
    vm_compute; reflexivity.
Defined.

Lemma remove_at_later {A : Type} (i j : nat) (l : list A) :
  i < j -> nth_error (remove_at i l) (j - 1) = nth_error l j.
Proof.
  intros H. rewrite remove_at_nth_error.
  destruct (Nat.ltb_spec (j - 1) i); [lia|]. f_equal. lia.
Qed.

Lemma remove_at_earlier {A : Type} (i k : nat) (l : list A) :
  k < i -> nth_error (remove_at i l) k = nth_error l k.
Proof.
  intros H. rewrite remove_at_nth_error.
  destruct (Nat.ltb_spec k i); [reflexivity | lia].
Qed.

Lemma drop_field_later (i j : nat) (r : row) :
  i < j -> nth_error (drop_field i r) (j - 1) = nth_error r j.
Proof.
  intros H. unfold drop_field. destruct (Nat.ltb_spec i (length r)).
  - apply remove_at_later, H.
  - transitivity (@None text); [|symmetry]; apply nth_error_None; lia.
Qed.

(** C10. When the header names [milestone_text] more than once, the
    drop-variant removes the first occurrence only: the fields before it
    stay where they are, every later field of the header and of each row,
    the later [milestone_text] columns among them, moves one place to the
    left, and the header names [milestone_text] once less. *)
Theorem C10_drop_removes_first_occurrence_only
        (name : string) (t : text) (out : list Drop.msg)
        (header : row) (rows : list row) :
  read_table_universal t = Ok (header :: rows) ->
  1 < count_occ text_eq_dec header MILESTONE_TEXT ->
  exists i t',
    (nth_error header i = Some MILESTONE_TEXT
     /\ forall j, j < i -> nth_error header j <> Some MILESTONE_TEXT)
    /\ data (st (fst (Drop.migrate_csv_file name (mkWorld (mkFile (Ok t) true) out)))) = Ok t'
    /\ read_table_universal t' = Ok (remove_at i header :: map (drop_field i) rows)
    /\ count_occ text_eq_dec (remove_at i header) MILESTONE_TEXT
       = count_occ text_eq_dec header MILESTONE_TEXT - 1
    /\ In MILESTONE_TEXT (remove_at i header)
    /\ (forall k, k < i -> nth_error (remove_at i header) k = nth_error header k)
    /\ (forall j, i < j -> nth_error (remove_at i header) (j - 1) = nth_error header j)
    /\ (forall r j, In r rows -> i < j ->
          nth_error (drop_field i r) (j - 1) = nth_error r j).
Proof.
  intros Hread Hcount.
  destruct (index_count_pos MILESTONE_TEXT header) as [i Hidx]; [lia|].
  destruct (drop_run_reads_back name t out header rows i Hread Hidx) as (t' & Ht' & Hback).
  pose proof (remove_at_index_count _ _ _ Hidx) as Hc.
  exists i, t'. repeat split.
  - apply (index_first _ _ _ Hidx).
  - apply (index_first _ _ _ Hidx).
  - assumption.
  - rewrite Hback, drop_table_spec. reflexivity.
  - assumption.
  - apply (count_occ_In text_eq_dec). lia.
  - intros k Hk. apply remove_at_earlier, Hk.
  - intros j Hj. apply remove_at_later, Hj.
  - intros r j _ Hj. apply drop_field_later, Hj.
Qed.

Lemma C10_witness :
  exists i t',
    (nth_error [MILESTONE_TEXT; str "id"; MILESTONE_TEXT] i = Some MILESTONE_TEXT
     /\ forall j, j < i ->
          nth_error [MILESTONE_TEXT; str "id"; MILESTONE_TEXT] j <> Some MILESTONE_TEXT)
    /\ data (st (fst (Drop.migrate_csv_file "log-data.csv"
                 (mkWorld (mkFile (Ok (str "milestone_text,id,milestone_text
a,1,b
")) true) [])))) = Ok t'
    /\ read_table_universal t'
       = Ok (remove_at i [MILESTONE_TEXT; str "id"; MILESTONE_TEXT]
             :: map (drop_field i) [[str "a"; str "1"; str "b"]])
    /\ count_occ text_eq_dec (remove_at i [MILESTONE_TEXT; str "id"; MILESTONE_TEXT])
                 MILESTONE_TEXT
       = count_occ text_eq_dec [MILESTONE_TEXT; str "id"; MILESTONE_TEXT] MILESTONE_TEXT - 1
    /\ In MILESTONE_TEXT (remove_at i [MILESTONE_TEXT; str "id"; MILESTONE_TEXT])
    /\ (forall k, k < i ->
          nth_error (remove_at i [MILESTONE_TEXT; str "id"; MILESTONE_TEXT]) k
          = nth_error [MILESTONE_TEXT; str "id"; MILESTONE_TEXT] k)
    /\ (forall j, i < j ->
          nth_error (remove_at i [MILESTONE_TEXT; str "id"; MILESTONE_TEXT]) (j - 1)
          = nth_error [MILESTONE_TEXT; str "id"; MILESTONE_TEXT] j)
    /\ (forall r j, In r [[str "a"; str "1"; str "b"]] -> i < j ->
          nth_error (drop_field i r) (j - 1) = nth_error r j).
Proof.
  apply (C10_drop_removes_first_occurrence_only "log-data.csv"
           (str "milestone_text,id,milestone_text
a,1,b
") [] [MILESTONE_TEXT; str "id"; MILESTONE_TEXT] [[str "a"; str "1"; str "b"]]).
  - vm_compute. reflexivity.
  - vm_compute. lia.
Defined.

(** ** Dictionaries *)

Lemma dict_get_set (d : list (text * option text)) (k : text) (v : option text) (k' : text) :
  dict_get (dict_set d k v) k' = if text_eq_dec k k' then Some v else dict_get d k'.
Proof.
  induction d as [|[k0 v0] d IH]; cbn [dict_set dict_get].
  - destruct (text_eq_dec k k'); reflexivity.
  - destruct (text_eq_dec k0 k) as [->|Hne]; cbn [dict_get].
    + destruct (text_eq_dec k k'); reflexivity.
    + destruct (text_eq_dec k0 k') as [->|Hne'].
      * destruct (text_eq_dec k k'); [congruence | reflexivity].
      * apply IH.
Qed.

Lemma dict_set_keys (d : list (text * option text)) (k : text) (v : option text) (k' : text) :
  In k' (keys (dict_set d k v)) <-> k' = k \/ In k' (keys d).
Proof.
  unfold keys. induction d as [|[k0 v0] d IH]; cbn [dict_set map In fst].
  - intuition congruence.
  - destruct (text_eq_dec k0 k) as [->|Hne]; cbn [map In fst].
    + intuition congruence.
    + rewrite IH. tauto.
Qed.

Lemma dict_get_keys (d : list (text * option text)) (k : text) :
  In k (keys d) <-> dict_get d k <> None.
Proof.
  unfold keys. induction d as [|[k0 v0] d IH]; cbn [dict_get map In fst].
  - tauto.
  - destruct (text_eq_dec k0 k) as [->|Hne].
    + split; [discriminate | tauto].
    + rewrite <- IH. intuition congruence.
Qed.

(** Appending a new key. *)
Lemma dict_set_fresh (d : list (text * option text)) (k : text) (v : option text) :
  ~ In k (keys d) -> dict_set d k v = d ++ [(k, v)].
Proof.
  unfold keys. induction d as [|[k0 v0] d IH]; cbn [dict_set map In fst app]; intros H.
  - reflexivity.
  - destruct (text_eq_dec k0 k) as [->|Hne]; [tauto|].
    rewrite IH by tauto. reflexivity.
Qed.

Lemma dict_zip_fold (ks vs : list text) :
  dict_zip ks vs = fold_left zip_step (combine ks vs) [].
Proof. reflexivity. Qed.

(** With distinct field names the dictionary of a row lists the names
    with their fields, in order. *)
Lemma fold_zip_distinct (kvs : list (text * text)) : forall d,
  NoDup (keys d ++ map fst kvs) ->
  fold_left zip_step kvs d = d ++ map (fun kv => (fst kv, Some (snd kv))) kvs.
Proof.
  induction kvs as [|[k v] kvs IH]; intros d Hnd; cbn [fold_left map].
  - rewrite app_nil_r. reflexivity.
  - unfold zip_step at 2. cbn [fst snd].
    assert (Hk : ~ In k (keys d)).
    { cbn [map fst] in Hnd. apply NoDup_remove_2 in Hnd.
      intros Hin. apply Hnd. apply in_or_app. left. exact Hin. }
    rewrite dict_set_fresh by assumption.
    rewrite IH.
    + rewrite <- app_assoc. reflexivity.
    + unfold keys in *. rewrite map_app, <- app_assoc. exact Hnd.
Qed.

Lemma combine_fst_firstn {A B : Type} (l : list A) : forall l' : list B,
  map fst (combine l l') = firstn (length l') l.
Proof.
  induction l as [|x l IH]; intros [|y l']; cbn; try reflexivity.
  f_equal. apply IH.
Qed.

Lemma NoDup_firstn {A : Type} (n : nat) : forall l : list A, NoDup l -> NoDup (firstn n l).
Proof.
  induction n as [|n IH]; intros l H; [constructor|].
  destruct H as [|x l Hx Hl]; cbn [firstn]; constructor.
  - intros Hin. apply Hx. rewrite <- (firstn_skipn n l). apply in_or_app. left. exact Hin.
  - apply IH, Hl.
Qed.

Lemma dict_zip_distinct (ks vs : list text) :
  NoDup ks ->
  dict_zip ks vs = map (fun kv => (fst kv, Some (snd kv))) (combine ks vs).
Proof.
  intros Hnd. rewrite dict_zip_fold, fold_zip_distinct; [reflexivity|].
  cbn [keys map app]. rewrite combine_fst_firstn. apply NoDup_firstn, Hnd.
Qed.

(** [dict(zip(names, names))], whatever the names: every name is a key
    and holds itself. *)
Lemma fold_zip_self (l : list text) : forall d,
  (forall k v, dict_get d k = Some v -> v = Some k) ->
  let d' := fold_left zip_step (combine l l) d in
  (forall k v, dict_get d' k = Some v -> v = Some k)
  /\ (forall k, In k (keys d') <-> In k (keys d) \/ In k l).
Proof.
  induction l as [|x l IH]; intros d Hd; cbn [combine fold_left].
  - split; [exact Hd | intros k; cbn [In]; tauto].
  - destruct (IH (zip_step d (x, x))) as [H1 H2].
    + intros k v. unfold zip_step. cbn [fst snd]. rewrite dict_get_set.
      destruct (text_eq_dec x k) as [->|Hne]; [congruence | apply Hd].
    + split; [exact H1|]. intros k. rewrite H2. unfold zip_step. cbn [fst snd].
      rewrite dict_set_keys. cbn [In]. intuition congruence.
Qed.

Lemma dict_zip_self_get (l : list text) (k : text) :
  In k l -> dict_get (dict_zip l l) k = Some (Some k).
Proof.
  intros Hin. rewrite dict_zip_fold.
  destruct (fold_zip_self l []) as [H1 H2]; [discriminate|].
  cbn zeta in H1, H2.
  destruct (dict_get (fold_left zip_step (combine l l) []) k) as [v|] eqn:E.
  - rewrite (H1 k v E). reflexivity.
  - exfalso.
    apply (proj1 (dict_get_keys (fold_left zip_step (combine l l) []) k)); [|exact E].
    apply H2. right. exact Hin.
Qed.

Lemma dict_zip_self_keys (l : list text) (k : text) :
  In k (keys (dict_zip l l)) -> In k l.
Proof.
  intros Hin. rewrite dict_zip_fold in Hin.
  destruct (fold_zip_self l []) as [_ H2]; [discriminate|].
  apply H2 in Hin. destruct Hin as [[]|Hin]. exact Hin.
Qed.

Lemma contains_true (l : list text) (x : text) : contains l x = true <-> In x l.
Proof. unfold contains. destruct (in_dec text_eq_dec x l); intuition congruence. Qed.

Lemma contains_false (l : list text) (x : text) : contains l x = false <-> ~ In x l.
Proof. unfold contains. destruct (in_dec text_eq_dec x l); intuition congruence. Qed.

Lemma existsb_false_keys (fieldnames : list text) (d : list (text * option text)) :
  (forall k, In k (keys d) -> In k fieldnames) ->
  existsb (fun kv => negb (contains fieldnames (fst kv))) d = false.
Proof.
  intros H. destruct (existsb _ d) eqn:E; [|reflexivity].
  apply existsb_exists in E. destruct E as ([k v] & Hin & Hk). cbn [fst] in Hk.
  apply negb_true_iff, contains_false in Hk. exfalso. apply Hk, H.
  unfold keys. apply (in_map fst) in Hin. exact Hin.
Qed.

(** [writeheader] writes the field names themselves. *)
Lemma dict_to_list_header (fieldnames : list text) :
  _dict_to_list fieldnames (mkDict (dict_zip fieldnames fieldnames) None)
  = Ok (map Some fieldnames).
Proof.
  unfold _dict_to_list, wrong_fields. cbn [named rest].
  rewrite existsb_false_keys by apply dict_zip_self_keys.
  cbn [orb]. f_equal. apply map_ext_in. intros k Hk.
  rewrite dict_zip_self_get by assumption. reflexivity.
Qed.

(** ** Runs of the add-variant on one file *)

Lemma clean_run (f : file) (out : list Add.msg) :
  Add.clean_csv_file_content (mkWorld f out)
  = (mkWorld f out, t <- data f ;; Ok (cleaned_lines t)).
Proof.
  unfold Add.clean_csv_file_content, cleaned_lines, bind_io, read_text, ret.
  cbn [st]. destruct (data f) as [t|e]; [|reflexivity].
  cbn [bind]. destruct (Add.first_data_line (readlines t)); reflexivity.
Qed.

Lemma migrate_rows_run (name : string) (total : nat) (rows : list pydict) :
  forall (row_idx : nat) (w : world Add.msg file),
  Add.migrate_rows name total row_idx rows w
  = (mkWorld (st w) (stdout w ++ progress name total row_idx rows), migrate_each rows).
Proof.
  induction rows as [|r rows IH]; intros row_idx w; cbn [Add.migrate_rows progress migrate_each].
  - unfold ret. rewrite app_nil_r. destruct w; reflexivity.
  - unfold bind_io at 1. unfold lift at 1.
    destruct (Add.migrate_row r) as [new_row|e]; cbn [bind].
    2: { rewrite app_nil_r. destruct w; reflexivity. }
    unfold bind_io at 1.
    destruct ((row_idx + 1) mod 100 =? 0).
    + unfold print at 1. cbn [st stdout].
      unfold bind_io. rewrite IH. cbn [st stdout].
      rewrite <- app_assoc.
      destruct (migrate_each rows); reflexivity.
    + unfold ret at 1. unfold bind_io. rewrite IH.
      destruct (migrate_each rows); reflexivity.
Qed.

Lemma writerows_run (fieldnames : list text) (rowdicts : list pydict) :
  forall (pre : text) (wr : bool) (out : list Add.msg),
  Add.DictWriter_writerows fieldnames rowdicts (mkWorld (mkFile (Ok pre) wr) out)
  = (mkWorld (mkFile (Ok (pre ++ writerows (fst (rows_written fieldnames rowdicts)))) wr) out,
     snd (rows_written fieldnames rowdicts)).
Proof.
  induction rowdicts as [|r rowdicts IH]; intros pre wr out;
    cbn [Add.DictWriter_writerows rows_written].
  - unfold ret. cbn [fst snd writerows map concat]. rewrite app_nil_r. reflexivity.
  - unfold bind_io at 1. unfold lift at 1.
    destruct (_dict_to_list fieldnames r) as [l|e]; cbn [bind fst snd].
    2: { cbn [writerows map concat]. rewrite app_nil_r. reflexivity. }
    unfold bind_io, write. cbn [st stdout data writable].
    rewrite IH.
    destruct (rows_written fieldnames rowdicts) as [ls res]. cbn [fst snd].
    unfold writerows. cbn [map concat]. rewrite <- app_assoc. reflexivity.
Qed.

Lemma writeheader_run (fieldnames : list text) (pre : text) (wr : bool)
      (out : list Add.msg) :
  Add.writeheader fieldnames (mkWorld (mkFile (Ok pre) wr) out)
  = (mkWorld (mkFile (Ok (pre ++ writerow (map Some fieldnames))) wr) out, Ok tt).
Proof.
  unfold Add.writeheader, bind_io, lift, write.
  rewrite dict_to_list_header. reflexivity.
Qed.

Lemma cleaned_lines_skipn (t : text) (cleaned : list text) (k : nat) :
  cleaned_lines t = (cleaned, k) -> cleaned <> [] ->
  skipn k (readlines t) = cleaned.
Proof.
  unfold cleaned_lines. destruct (Add.first_data_line (readlines t));
    intros H; inversion H; subst; congruence.
Qed.

Lemma migrate_file_run (name : string) (f : file) (out : list Add.msg) :
  Add.migrate_file name (mkWorld f out)
  = (mkWorld (fst (add_effect name f))
             (out ++ Add.Processing name :: snd (add_effect name f)),
     Ok tt).
Proof.
  unfold Add.migrate_file, add_effect.
  unfold bind_io at 1. unfold print at 1. cbn [st stdout].
  unfold try_except. unfold bind_io at 1. rewrite clean_run.
  destruct f as [[t|e] wr]; cbn [data bind writable].
  2: { unfold bind_io, print. cbn [st stdout fst snd failure].
       rewrite <- !app_assoc. reflexivity. }
  destruct (cleaned_lines t) as [cleaned k] eqn:Hclean.
  destruct cleaned as [|line cleaned].
  { unfold print. cbn [st stdout fst snd]. rewrite <- app_assoc. reflexivity. }
  pose proof (cleaned_lines_skipn t _ k Hclean ltac:(discriminate)) as Hskip.
  unfold add_core, leading_msg.
  set (cl := line :: cleaned) in *.
  unfold bind_io at 1.
  assert (Hlead :
    (if 0 <? k then print (Add.LeadingEmpty k name) else ret tt)
      (mkWorld (mkFile (Ok t) wr) (out ++ [Add.Processing name]))
    = (mkWorld (mkFile (Ok t) wr)
               (out ++ Add.Processing name
                    :: (if 0 <? k then [Add.LeadingEmpty k name] else [])),
       Ok tt)).
  { destruct (0 <? k); unfold print, ret; cbn [st stdout];
      rewrite <- ?app_assoc; reflexivity. }
  rewrite Hlead. clear Hlead.
  set (lead := if 0 <? k then [Add.LeadingEmpty k name] else []).
  unfold bind_io at 1. unfold lift at 1.
  destruct (Reader_iternext cl) as [[[header rest_lines]|]|e].
  2: { unfold print. cbn [st stdout fst snd].
       rewrite <- !app_assoc. reflexivity. }
  2: { unfold bind_io, print. cbn [st stdout fst snd failure].
       rewrite <- !app_assoc. reflexivity. }
  destruct (contains header ACTION && contains header IS_MILESTONE).
  { unfold print. cbn [st stdout fst snd]. rewrite <- !app_assoc. reflexivity. }
  unfold bind_io at 1. unfold read_text at 1. cbn [st data].
  unfold bind_io at 1. unfold lift at 1. rewrite Hskip.
  destruct (DictReader_list header cl) as [[|r rows]|e].
  { unfold print. cbn [st stdout fst snd]. rewrite <- !app_assoc. reflexivity. }
  2: { unfold bind_io, print. cbn [st stdout fst snd failure].
       rewrite <- !app_assoc. reflexivity. }
  unfold bind_io at 1. rewrite migrate_rows_run. cbn [st stdout].
  fold (updated header).
  set (log := progress name (length (r :: rows)) 0 (r :: rows)).
  destruct (migrate_each (r :: rows)) as [migrated|e].
  2: { unfold bind_io, print. cbn [st stdout fst snd failure].
       rewrite <- !app_assoc. reflexivity. }
  unfold bind_io at 1. unfold open_w at 1. cbn [st stdout writable].
  destruct wr.
  2: { unfold bind_io, print. cbn [st stdout fst snd failure].
       rewrite <- !app_assoc. reflexivity. }
  unfold bind_io at 1. rewrite writeheader_run.
  unfold bind_io at 1. rewrite writerows_run.
  destruct (rows_written (updated header) migrated) as [ls [[]|e]]; cbn [fst snd].
  - unfold print. cbn [st stdout]. rewrite <- !app_assoc. reflexivity.
  - unfold bind_io, print. cbn [st stdout failure]. rewrite <- !app_assoc. reflexivity.
Qed.

(** Every exception is caught at the file: the call returns. *)
Lemma add_run_returns (name : string) (w : world Add.msg file) :
  exists w', Add.migrate_file name w = (w', Ok tt).
Proof. destruct w as [f out]. rewrite migrate_file_run. eauto. Qed.

(** ** C1: the number of data rows *)

(** The drop-variant keeps the number of rows. *)
Lemma drop_keeps_row_count (name : string) (t : text) (out : list Drop.msg)
      (header : row) (rows : list row) (i : nat) :
  read_table_universal t = Ok (header :: rows) ->
  index MILESTONE_TEXT header = Some i ->
  exists t' table',
    data (st (fst (Drop.migrate_csv_file name (mkWorld (mkFile (Ok t) true) out)))) = Ok t'
    /\ read_table_universal t' = Ok table'
    /\ data_row_count table' = data_row_count (header :: rows).
Proof.
  intros Hread Hidx.
  destruct (drop_run_reads_back name t out header rows i Hread Hidx) as (t' & Ht' & Hback).
  exists t', (drop_table i header rows). repeat split; try assumption.
  unfold data_row_count, drop_table. cbn [length]. rewrite length_map. reflexivity.
Qed.

(** C1. The add-variant on the file [id,milestone_text / 1,Reached goal /
    2,] of two data rows: [DictReader] is given the field names, so it
    returns the header line as a row too, and the file written has three
    data rows, the first of them the old header. *)
Theorem C1_add_variant_adds_a_row :
  let t := str "id,milestone_text
1,Reached goal
2,
" in
  exists t' table table',
    read_table t = Ok table
    /\ table = [[str "id"; str "milestone_text"];
                [str "1"; str "Reached goal"];
                [str "2"; []]]
    /\ Add.migrate_file "log-data.csv" (mkWorld (mkFile (Ok t) true) [])
       = (mkWorld (mkFile (Ok t') true)
                  [Add.Processing "log-data.csv"; Add.Success 3 "log-data.csv"],
          Ok tt)
    /\ read_table t' = Ok table'
    /\ table' = [[str "id"; str "milestone_text"; str "action"; str "is_milestone"];
                 [str "id"; str "milestone_text"; str "milestone_text"; str "1"];
                 [str "1"; str "Reached goal"; str "Reached goal"; str "1"];
                 [str "2"; []; []; str "0"]]
    /\ data_row_count table = 2
    /\ data_row_count table' = 3.
Proof.
  cbv zeta. eexists. eexists. eexists.
  split; [vm_compute; reflexivity|].
  split; [reflexivity|].
  split; [vm_compute; reflexivity|].
  split; [vm_compute; reflexivity|].
  split; [reflexivity|].
  split; reflexivity.
Qed.

(** ** C2: the row the add-variant writes for a row it read *)

Lemma row_dict_split (header : row) : forall r : row,
  map (fun kv => (fst kv, Some (snd kv))) (combine header r)
    ++ map (fun k => (k, @None text)) (skipn (length r) header)
  = row_dict header r.
Proof.
  induction header as [|k header IH]; intros [|v r]; cbn; try reflexivity.
  - f_equal. rewrite <- (IH []), combine_nil. reflexivity.
  - f_equal. apply IH.
Qed.

Lemma fold_set_none_fresh (ks : list text) : forall d,
  NoDup (keys d ++ ks) ->
  fold_left (fun d key => dict_set d key None) ks d
  = d ++ map (fun k => (k, @None text)) ks.
Proof.
  induction ks as [|k ks IH]; intros d Hnd; cbn [fold_left map].
  - rewrite app_nil_r. reflexivity.
  - assert (Hk : ~ In k (keys d)).
    { apply NoDup_remove_2 in Hnd. intros Hin. apply Hnd, in_or_app. left. exact Hin. }
    rewrite dict_set_fresh by assumption. rewrite IH.
    + rewrite <- app_assoc. reflexivity.
    + unfold keys in *. rewrite map_app, <- app_assoc. exact Hnd.
Qed.

Lemma keys_zipped (header r : row) :
  keys (map (fun kv => (fst kv, Some (snd kv))) (combine header r))
  = firstn (length r) header.
Proof.
  unfold keys. rewrite map_map. cbn [fst]. apply combine_fst_firstn.
Qed.

Lemma DictReader_row_short (header r : row) :
  NoDup header -> length r <= length header ->
  DictReader_row header r = mkDict (row_dict header r) None.
Proof.
  intros Hnd Hlen. unfold DictReader_row.
  destruct (Nat.ltb_spec (length header) (length r)); [lia|].
  rewrite (dict_zip_distinct header r Hnd).
  destruct (Nat.ltb_spec (length r) (length header)).
  - rewrite fold_set_none_fresh.
    + rewrite row_dict_split. reflexivity.
    + rewrite keys_zipped, firstn_skipn. exact Hnd.
  - rewrite <- row_dict_split.
    rewrite skipn_all2 by lia. cbn [map]. rewrite app_nil_r. reflexivity.
Qed.

Lemma keys_row_dict (header : row) : forall r, keys (row_dict header r) = header.
Proof.
  unfold keys. induction header as [|k header IH]; intros [|v r]; cbn; try reflexivity;
    f_equal; apply IH.
Qed.

Lemma values_row_dict (header : row) : forall r,
  length r <= length header ->
  map (fun kv => field_text (snd kv)) (row_dict header r)
  = r ++ repeat [] (length header - length r).
Proof.
  induction header as [|k header IH]; intros [|v r] Hlen; cbn in *; try reflexivity.
  - lia.
  - f_equal. rewrite (IH []) by (cbn; lia). cbn. rewrite Nat.sub_0_r. reflexivity.
  - f_equal. apply IH. lia.
Qed.

Lemma first_match_row_dict (header : row) : forall r,
  Add.first_match (row_dict header r)
  = match matching_column header with
    | Some p => Some (nth_error r p)
    | None => None
    end.
Proof.
  induction header as [|k header IH]; intros [|v r];
    cbn [row_dict Add.first_match matching_column]; try reflexivity.
  - destruct (text_eq_dec (lower k) MILESTONE_TEXT); [reflexivity|].
    rewrite (IH []). destruct (matching_column header) as [p|]; cbn [option_map]; [|reflexivity].
    cbn [nth_error]. destruct p; reflexivity.
  - destruct (text_eq_dec (lower k) MILESTONE_TEXT); [reflexivity|].
    rewrite IH. destruct (matching_column header); reflexivity.
Qed.

Lemma find_milestone_text_row_dict (header r : row) :
  Add.find_milestone_text (mkDict (row_dict header r) None)
  = Ok (source_field header r).
Proof.
  unfold Add.find_milestone_text, source_field. cbn [named rest].
  rewrite first_match_row_dict. destruct (matching_column header); reflexivity.
Qed.

Lemma truthy_strip (s : text) : truthy s && truthy (strip s) = truthy (strip s).
Proof. destruct s; reflexivity. Qed.

Lemma migrate_row_columns (r : pydict) (v : option text) :
  Add.find_milestone_text r = Ok v ->
  exists a b,
    derived_columns v = [a; b] /\ Add.migrate_row r = Ok (Add.set_columns r a b).
Proof.
  intros H. unfold Add.migrate_row. rewrite H. cbn [bind].
  destruct v as [s|]; cbn [derived_columns].
  - rewrite truthy_strip. destruct (truthy (strip s)); eauto.
  - eauto.
Qed.

Lemma ACTION_neq_IS_MILESTONE : ACTION <> IS_MILESTONE.
Proof. discriminate. Qed.

Lemma set_columns_fresh (d : list (text * option text)) (a b : text) :
  ~ In ACTION (keys d) -> ~ In IS_MILESTONE (keys d) ->
  named (Add.set_columns (mkDict d None) a b)
  = d ++ [(ACTION, Some a); (IS_MILESTONE, Some b)].
Proof.
  intros HA HI. unfold Add.set_columns. cbn [named].
  rewrite (dict_set_fresh d ACTION) by assumption.
  rewrite dict_set_fresh.
  - rewrite <- app_assoc. reflexivity.
  - unfold keys in *. rewrite map_app, in_app_iff. cbn [map fst In].
    pose proof ACTION_neq_IS_MILESTONE. intuition congruence.
Qed.

Lemma dict_get_distinct (d : list (text * option text)) :
  NoDup (keys d) ->
  map (fun key => match dict_get d key with Some v => v | None => Some [] end) (keys d)
  = map snd d.
Proof.
  unfold keys. induction d as [|[k v] d IH]; intros Hnd; [reflexivity|].
  cbn [map fst snd] in *. inversion Hnd; subst.
  cbn [dict_get]. destruct (text_eq_dec k k); [|congruence].
  f_equal. rewrite <- IH by assumption.
  apply map_ext_in. intros k' Hk'. cbn [dict_get].
  destruct (text_eq_dec k k'); [congruence | reflexivity].
Qed.

Lemma dict_to_list_own_keys (d : list (text * option text)) :
  NoDup (keys d) ->
  _dict_to_list (keys d) (mkDict d None) = Ok (map snd d).
Proof.
  intros Hnd. unfold _dict_to_list, wrong_fields. cbn [named rest].
  rewrite existsb_false_keys by trivial. cbn [orb].
  rewrite dict_get_distinct by assumption. reflexivity.
Qed.

Lemma NoDup_updated (header : row) :
  NoDup header -> ~ In ACTION header -> ~ In IS_MILESTONE header ->
  NoDup (updated header).
Proof.
  intros Hnd HA HI. unfold updated.
  apply NoDup_app; [exact Hnd | | ].
  - repeat constructor; cbn [In]; pose proof ACTION_neq_IS_MILESTONE; intuition congruence.
  - intros x Hx [<-|[<-|[]]]; tauto.
Qed.

(** C2, as the code has it.  Under a header of distinct names that has
    neither [action] nor [is_milestone], a row with no more fields than the
    header is written as: its own fields, in place; an empty field for each
    column of the header it lacks; then [action] and [is_milestone], in
    that order.  They are the trimmed value and ["1"] when the row has a
    non-blank field in the first column whose name is [milestone_text] up
    to case, and [""] and ["0"] otherwise. *)
Theorem C2_add_row_padded_then_derived (header r : row) :
  NoDup header ->
  ~ In ACTION header -> ~ In IS_MILESTONE header ->
  length r <= length header ->
  add_output_row header r
  = Ok (r ++ repeat [] (length header - length r)
          ++ derived_columns (source_field header r)).
Proof.
  intros Hnd HA HI Hlen. unfold add_output_row.
  rewrite (DictReader_row_short header r Hnd Hlen).
  destruct (migrate_row_columns _ _ (find_milestone_text_row_dict header r))
    as (a & b & Hd & ->).
  cbn [bind]. rewrite Hd.
  assert (Hnamed : named (Add.set_columns (mkDict (row_dict header r) None) a b)
                   = row_dict header r ++ [(ACTION, Some a); (IS_MILESTONE, Some b)]).
  { apply set_columns_fresh; rewrite keys_row_dict; assumption. }
  assert (Hkeys : keys (row_dict header r ++ [(ACTION, Some a); (IS_MILESTONE, Some b)])
                  = updated header).
  { unfold keys. rewrite map_app. fold (keys (row_dict header r)).
    rewrite keys_row_dict. reflexivity. }
  replace (Add.set_columns (mkDict (row_dict header r) None) a b)
    with (mkDict (row_dict header r ++ [(ACTION, Some a); (IS_MILESTONE, Some b)]) None)
    by (unfold Add.set_columns in *; cbn [named rest] in *; rewrite Hnamed; reflexivity).
  rewrite <- Hkeys, dict_to_list_own_keys.
  - cbn [bind]. f_equal. rewrite map_map, map_app.
    rewrite values_row_dict by assumption. rewrite <- app_assoc. reflexivity.
  - rewrite Hkeys. apply NoDup_updated; assumption.
Qed.

Lemma C2_witness :
  add_output_row [str "id"; str "Milestone_Text"; str "note"]
                 [str "7"; str "  first run "]
  = Ok ([str "7"; str "  first run "]
          ++ repeat [] (3 - 2)
          ++ derived_columns
               (source_field [str "id"; str "Milestone_Text"; str "note"]
                             [str "7"; str "  first run "])).
Proof.
  apply (C2_add_row_padded_then_derived
           [str "id"; str "Milestone_Text"; str "note"]
           [str "7"; str "  first run "]).
  - repeat constructor; cbn [In]; intuition discriminate.
  - cbn [In]. intuition discriminate.
  - cbn [In]. intuition discriminate.
  - cbn [length]. lia.
Defined.

(** The claim as stated fails on a short row: the row [1,x] under the
    header [id,milestone_text,note] has a non-blank [milestone_text], yet
    it is not written as itself with [x] and [1] appended: an empty field
    for the missing [note] comes first. *)
Lemma C2_counterexample :
  let header := [str "id"; str "milestone_text"; str "note"] in
  let r := [str "1"; str "x"] in
  source_field header r = Some (str "x")
  /\ strip (str "x") = str "x"
  /\ add_output_row header r = Ok [str "1"; str "x"; []; str "x"; str "1"]
  /\ add_output_row header r <> Ok (r ++ [str "x"; str "1"]).
Proof.
  cbv zeta. repeat split; try (vm_compute; reflexivity).
  vm_compute. discriminate.
Qed.

(** ** The header line of a rewritten file *)

Lemma Reader_iternext_within_limit (lines : list text) (r : row) (lines' : list text) :
  Reader_iternext lines = Ok (Some (r, lines')) -> Forall within_limit r.
Proof.
  intros H. unfold Reader_iternext in H.
  apply (reader_inv_loop (fun _ => True)) in H.
  - destruct H as [H _]. eapply Forall_impl; [|exact H]. intros f [_ Hf]. exact Hf.
  - apply Forall_forall. intros l _. apply Forall_forall. trivial.
  - apply reader_inv_reset.
Qed.

Lemma within_limit_ACTION : within_limit ACTION.
Proof. unfold within_limit, field_limit. cbn. lia. Qed.

Lemma within_limit_IS_MILESTONE : within_limit IS_MILESTONE.
Proof. unfold within_limit, field_limit. cbn. lia. Qed.

Lemma within_limit_updated (header : row) :
  Forall within_limit header -> Forall within_limit (updated header).
Proof.
  intros H. unfold updated. apply Forall_app. split; [exact H|].
  repeat constructor; [apply within_limit_ACTION | apply within_limit_IS_MILESTONE].
Qed.

Lemma map_field_text_Some (r : row) : map field_text (map Some r) = r.
Proof. rewrite map_map. cbn [field_text]. apply map_id. Qed.

(** The header line of a rewritten file reads back as the header. *)
Lemma header_reads_back (header : row) (body : text) :
  Forall within_limit header ->
  Reader_iternext (readlines (writerow (map Some header) ++ body))
  = Ok (Some (header, readlines body)).
Proof.
  intros H. rewrite Reader_iternext_writerow; rewrite map_field_text_Some; auto.
Qed.

Lemma DictReader_list_first (header first : row) (cleaned lines' : list text)
      (rows : list pydict) :
  Reader_iternext cleaned = Ok (Some (first, lines')) ->
  first <> [] ->
  DictReader_list header cleaned = Ok rows ->
  rows <> [].
Proof.
  intros Hfirst Hne. unfold DictReader_list.
  rewrite list_reader_eq, Hfirst. cbn [bind].
  destruct (list_reader lines') as [recs|e]; cbn [bind]; [|discriminate].
  destruct first as [|x first]; [congruence|].
  cbn [filter is_blank_record negb map]. intros H. inversion H. discriminate.
Qed.

Lemma progress_only (name : string) (total : nat) (rows : list pydict) :
  forall (row_idx : nat) (m : Add.msg),
  In m (progress name total row_idx rows) -> exists d, m = Add.Progress d total name.
Proof.
  induction rows as [|r rows IH]; intros row_idx m; cbn [progress]; [intros []|].
  destruct (Add.migrate_row r); [|intros []].
  rewrite in_app_iff. intros [H|H]; [|eapply IH; exact H].
  destruct (_ =? 0); [|destruct H]. destruct H as [<-|[]]. eauto.
Qed.

Lemma writerows_cons (r : list (option text)) (rows : list (list (option text))) :
  writerows (r :: rows) = writerow r ++ writerows rows.
Proof. reflexivity. Qed.

(** ** The first line of a rewritten file *)

Lemma lstrip_keeps (c : char) (s : text) :
  In c s -> isspace c = false -> In c (lstrip s).
Proof.
  intros Hin Hc. induction s as [|x s IH]; [destruct Hin|].
  cbn [lstrip]. destruct (isspace x) eqn:Ex; [|exact Hin].
  destruct Hin as [->|Hin]; [congruence | apply IH, Hin].
Qed.

Lemma strip_keeps (c : char) (s : text) :
  In c s -> isspace c = false -> truthy (strip s) = true.
Proof.
  intros Hin Hc. unfold strip, rstrip.
  assert (H : In c (rev (lstrip (rev (lstrip s))))).
  { apply -> in_rev. apply lstrip_keeps; [|exact Hc].
    apply -> in_rev. apply lstrip_keeps; assumption. }
  destruct (rev (lstrip (rev (lstrip s)))); [destruct H | reflexivity].
Qed.

Lemma readlines_from_plain_prefix (p : text) : forall (cur u : text),
  Forall plain p -> readlines_from cur (p ++ u) = readlines_from (rev p ++ cur) u.
Proof.
  induction p as [|c p IH]; intros cur u Hp; [reflexivity|].
  inversion Hp as [|? ? [HLF HCR] Hp']; subst.
  cbn [app readlines_from]. apply N.eqb_neq in HLF, HCR. rewrite HLF, HCR.
  rewrite IH by assumption. cbn [rev]. rewrite <- app_assoc. reflexivity.
Qed.

Lemma readlines_from_first_line (u : text) : forall cur : text,
  cur <> [] ->
  exists l ls suffix, readlines_from cur u = l :: ls /\ l = rev cur ++ suffix.
Proof.
  induction u as [|c u IH]; intros cur Hne.
  - cbn [readlines_from]. destruct cur as [|x cur]; [congruence|].
    exists (rev (x :: cur)), [], []. rewrite app_nil_r. split; reflexivity.
  - cbn [readlines_from]. destruct (c =? LF)%N.
    { exists (rev (c :: cur)), (readlines_from [] u), [c]. split; reflexivity. }
    destruct (c =? CR)%N.
    { destruct u as [|c' u].
      - exists (rev (c :: cur)), [], [c]. split; reflexivity.
      - destruct (c' =? LF)%N.
        + exists (rev (c' :: c :: cur)), (readlines_from [] u), [c; c'].
          split; [reflexivity|]. cbn [rev]. rewrite <- app_assoc. reflexivity.
        + exists (rev (c :: cur)), (readlines_from [] (c' :: u)), [c].
          split; reflexivity. }
    destruct (IH (c :: cur)) as (l & ls & suffix & Hl & ->); [discriminate|].
    exists (rev (c :: cur) ++ suffix), ls, (c :: suffix).
    split; [exact Hl|]. cbn [rev]. rewrite <- app_assoc. reflexivity.
Qed.

(** A line that starts with unquoted characters and then has a character
    that is no white space is a data line. *)
Lemma first_line_marker (p : text) (c : char) (u : text) :
  Forall plain p -> plain c -> isspace c = false ->
  exists l ls, readlines (p ++ c :: u) = l :: ls /\ truthy (strip l) = true.
Proof.
  intros Hp [HLF HCR] Hc. unfold readlines.
  rewrite readlines_from_plain_prefix by assumption.
  cbn [readlines_from]. apply N.eqb_neq in HLF, HCR. rewrite HLF, HCR.
  destruct (readlines_from_first_line u (c :: rev p ++ [])) as (l & ls & suffix & Hl & ->);
    [discriminate|].
  eexists. exists ls. split; [exact Hl|].
  apply (strip_keeps c); [|exact Hc].
  apply in_or_app. left. apply -> in_rev. left. reflexivity.
Qed.

Lemma needs_quote_plain (s : text) :
  existsb needs_quote s = false -> Forall plain s.
Proof.
  intros H. apply Forall_forall. intros c Hc.
  destruct (needs_quote c) eqn:E.
  - assert (existsb needs_quote s = true) by (apply existsb_exists; eauto). congruence.
  - apply needs_quote_false in E. split; tauto.
Qed.

(** The record of two or more fields starts a data line. *)
Lemma written_header_is_data_line (f g : option text) (fs : list (option text))
      (rest : text) :
  exists l ls,
    readlines (writerow (f :: g :: fs) ++ rest) = l :: ls
    /\ truthy (strip l) = true.
Proof.
  unfold writerow, record_text. cbn [join_fields app].
  set (tail := join_append false g ++ join_fields 2 fs).
  assert (Hshape : exists p c u,
             join_append false f ++ COMMA :: tail = p ++ c :: u
             /\ Forall plain p /\ plain c /\ isspace c = false).
  { destruct f as [s|]; cbn [join_append orb].
    - destruct (existsb needs_quote s) eqn:E.
      + exists [], DQUOTE. eexists. split; [reflexivity|].
        split; [constructor|]. split; [split; discriminate | reflexivity].
      + rewrite copy_field_plain by assumption.
        exists s, COMMA, tail. split; [reflexivity|].
        split; [apply needs_quote_plain, E|]. split; [split; discriminate | reflexivity].
    - exists [], COMMA, tail. split; [reflexivity|].
      split; [constructor|]. split; [split; discriminate | reflexivity]. }
  destruct Hshape as (p & c & u & Heq & Hp & Hc & Hs).
  rewrite Heq.
  assert (Hrec : match p ++ c :: u with
                 | [] => join_append true None
                 | c0 :: l0 => c0 :: l0
                 end = p ++ c :: u) by (destruct p; reflexivity).
  rewrite Hrec, <- !app_assoc. cbn [app].
  apply first_line_marker; assumption.
Qed.

Lemma cleaned_lines_data_first (t : text) (l : text) (ls : list text) :
  readlines t = l :: ls -> truthy (strip l) = true ->
  cleaned_lines t = (l :: ls, 0).
Proof.
  intros Hl Hs. unfold cleaned_lines. rewrite Hl.
  cbn [Add.first_data_line]. rewrite Hs. reflexivity.
Qed.

(** ** What the add-variant writes is within the field limit *)

Lemma within_limit_nil : within_limit [].
Proof. unfold within_limit, field_limit. cbn. lia. Qed.

Lemma dict_set_within (d : list (text * option text)) (k : text) (v : option text) :
  dict_within d -> within_limit (field_text v) -> dict_within (dict_set d k v).
Proof.
  unfold dict_within. intros Hd Hv.
  induction Hd as [|[k0 v0] d H0 Hd IH]; cbn [dict_set].
  - repeat constructor. exact Hv.
  - destruct (text_eq_dec k0 k); constructor; assumption.
Qed.

Lemma fold_zip_within (kvs : list (text * text)) : forall d,
  dict_within d -> Forall within_limit (map snd kvs) ->
  dict_within (fold_left zip_step kvs d).
Proof.
  induction kvs as [|[k v] kvs IH]; intros d Hd Hv; [exact Hd|].
  cbn [fold_left map snd] in *. inversion Hv; subst.
  apply IH; [|assumption]. apply dict_set_within; assumption.
Qed.

Lemma fold_none_within (ks : list text) : forall d,
  dict_within d -> dict_within (fold_left (fun d key => dict_set d key None) ks d).
Proof.
  induction ks as [|k ks IH]; intros d Hd; [exact Hd|].
  cbn [fold_left]. apply IH, dict_set_within; [exact Hd | apply within_limit_nil].
Qed.

Lemma combine_snd_Forall {A B : Type} (Q : B -> Prop) (l : list A) : forall l' : list B,
  Forall Q l' -> Forall Q (map snd (combine l l')).
Proof.
  induction l as [|x l IH]; intros l' H; [constructor|].
  destruct H; cbn [combine map snd]; constructor; auto.
Qed.

Lemma DictReader_row_within (header r : row) :
  Forall within_limit r -> dict_within (named (DictReader_row header r)).
Proof.
  intros Hr. unfold DictReader_row.
  assert (Hz : dict_within (dict_zip header r)).
  { rewrite dict_zip_fold. apply fold_zip_within; [constructor|].
    apply combine_snd_Forall, Hr. }
  destruct (length header <? length r); [exact Hz|].
  destruct (length r <? length header); [|exact Hz].
  cbn [named]. apply fold_none_within, Hz.
Qed.

Lemma list_reader_within_limit (lines : list text) (rows : list row) :
  list_reader lines = Ok rows -> Forall (Forall within_limit) rows.
Proof.
  intros H. unfold list_reader in H.
  apply (reader_rounds_inv (fun _ => True)) in H.
  - eapply Forall_impl; [|exact H]. intros r Hr.
    eapply Forall_impl; [|exact Hr]. intros f [_ Hf]. exact Hf.
  - apply Forall_forall. intros l _. apply Forall_forall. trivial.
Qed.

Lemma DictReader_list_within (header : row) (lines : list text) (rows : list pydict) :
  DictReader_list header lines = Ok rows ->
  Forall (fun d => dict_within (named d)) rows.
Proof.
  unfold DictReader_list. intros H.
  apply bind_ok_inv in H. destruct H as (raw & Hraw & H). inversion H; subst.
  apply list_reader_within_limit in Hraw.
  apply Forall_map. apply Forall_forall. intros r Hr.
  apply filter_In in Hr. destruct Hr as [Hr _].
  apply DictReader_row_within. revert r Hr. apply Forall_forall, Hraw.
Qed.

Lemma lstrip_length (s : text) : length (lstrip s) <= length s.
Proof.
  induction s as [|c s IH]; [reflexivity|].
  cbn [lstrip]. destruct (isspace c); cbn [length]; lia.
Qed.

Lemma strip_length (s : text) : length (strip s) <= length s.
Proof.
  unfold strip, rstrip. rewrite length_rev.
  pose proof (lstrip_length (rev (lstrip s))) as H1.
  rewrite length_rev in H1. pose proof (lstrip_length s). lia.
Qed.

Lemma strip_within (s : text) : within_limit s -> within_limit (strip s).
Proof. unfold within_limit. pose proof (strip_length s). lia. Qed.

Lemma first_match_within (d : list (text * option text)) (v : option text) :
  dict_within d -> Add.first_match d = Some v -> within_limit (field_text v).
Proof.
  unfold dict_within. induction 1 as [|[k v0] d H0 Hd IH]; cbn [Add.first_match];
    [discriminate|].
  destruct (text_eq_dec (lower k) MILESTONE_TEXT); [|exact IH].
  intros H. inversion H; subst. exact H0.
Qed.

Lemma within_limit_flag (s : string) :
  (String.length s <= 1)%nat -> within_limit (str s).
Proof.
  intros H. unfold within_limit, str, field_limit.
  rewrite length_map.
  assert (Hl : length (list_ascii_of_string s) = String.length s).
  { clear H. induction s; cbn; congruence. }
  rewrite Hl. lia.
Qed.

Lemma set_columns_within (r : pydict) (a b : text) :
  dict_within (named r) -> within_limit a -> within_limit b ->
  dict_within (named (Add.set_columns r a b)).
Proof.
  intros Hr Ha Hb. unfold Add.set_columns. cbn [named].
  apply dict_set_within; [apply dict_set_within|]; assumption.
Qed.

Lemma migrate_row_within (r r' : pydict) :
  dict_within (named r) -> Add.migrate_row r = Ok r' -> dict_within (named r').
Proof.
  intros Hr. unfold Add.migrate_row, Add.find_milestone_text.
  pose proof (within_limit_flag "1" ltac:(cbn; lia)) as H1.
  pose proof (within_limit_flag "0" ltac:(cbn; lia)) as H0.
  pose proof within_limit_nil as Hnil.
  destruct (Add.first_match (named r)) as [v|] eqn:E.
  - cbn [bind]. apply first_match_within in E; [|exact Hr].
    destruct v as [s|].
    + destruct (truthy s && truthy (strip s)); intros H; inversion H; subst;
        apply set_columns_within; auto using strip_within.
    + intros H; inversion H; subst. apply set_columns_within; auto.
  - destruct (rest r); cbn [bind]; [discriminate|].
    intros H; inversion H; subst. apply set_columns_within; auto.
Qed.

Lemma migrate_each_within (rows : list pydict) : forall migrated,
  Forall (fun d => dict_within (named d)) rows ->
  migrate_each rows = Ok migrated ->
  Forall (fun d => dict_within (named d)) migrated.
Proof.
  induction rows as [|r rows IH]; intros migrated Hrows H; cbn [migrate_each] in H.
  - inversion H; subst. constructor.
  - inversion Hrows; subst.
    apply bind_ok_inv in H. destruct H as (r' & Hr' & H).
    apply bind_ok_inv in H. destruct H as (m & Hm & H). inversion H; subst.
    constructor; [eapply migrate_row_within; eassumption | apply IH; assumption].
Qed.

Lemma migrate_each_length (rows : list pydict) : forall migrated,
  migrate_each rows = Ok migrated -> length migrated = length rows.
Proof.
  induction rows as [|r rows IH]; intros migrated H; cbn [migrate_each] in H.
  - inversion H; subst. reflexivity.
  - apply bind_ok_inv in H. destruct H as (r' & Hr' & H).
    apply bind_ok_inv in H. destruct H as (m & Hm & H). inversion H; subst.
    cbn [length]. f_equal. apply IH, Hm.
Qed.

Lemma dict_get_In (d : list (text * option text)) (k : text) (v : option text) :
  dict_get d k = Some v -> In (k, v) d.
Proof.
  induction d as [|[k0 v0] d IH]; cbn [dict_get]; [discriminate|].
  destruct (text_eq_dec k0 k) as [->|Hne].
  - intros H. inversion H; subst. left. reflexivity.
  - intros H. right. apply IH, H.
Qed.

Lemma dict_to_list_within (fieldnames : list text) (r : pydict) (l : list (option text)) :
  dict_within (named r) -> _dict_to_list fieldnames r = Ok l ->
  Forall within_limit (map field_text l).
Proof.
  intros Hr. unfold _dict_to_list. destruct (wrong_fields fieldnames r); [discriminate|].
  intros H. inversion H; subst. rewrite map_map. apply Forall_map, Forall_forall.
  intros k _. destruct (dict_get (named r) k) as [v|] eqn:E.
  - apply dict_get_In in E. unfold dict_within in Hr.
    apply (proj1 (Forall_forall _ _) Hr (k, v) E).
  - apply within_limit_nil.
Qed.

Lemma rows_written_readable (fieldnames : list text) (rowdicts : list pydict) :
  Forall (fun d => dict_within (named d)) rowdicts ->
  readable (fst (rows_written fieldnames rowdicts)).
Proof.
  induction 1 as [|r rowdicts Hr Hrows IH]; cbn [rows_written fst]; [constructor|].
  destruct (_dict_to_list fieldnames r) as [l|e] eqn:E; [|constructor].
  destruct (rows_written fieldnames rowdicts) as [ls res]. cbn [fst] in *.
  constructor; [eapply dict_to_list_within; eassumption | exact IH].
Qed.

Lemma rows_written_complete (fieldnames : list text) (rowdicts : list pydict) :
  snd (rows_written fieldnames rowdicts) = Ok tt ->
  length (fst (rows_written fieldnames rowdicts)) = length rowdicts.
Proof.
  induction rowdicts as [|r rowdicts IH]; cbn [rows_written]; [reflexivity|].
  destruct (_dict_to_list fieldnames r); [|discriminate].
  destruct (rows_written fieldnames rowdicts) as [ls res]. cbn [fst snd length] in *.
  intros H. f_equal. apply IH, H.
Qed.

(** What [add_core] writes: the header line of the updated field names
    and records within the field limit. *)
Lemma add_core_writes (name : string) (wr : bool) (cleaned : list text)
      (body : text) (log : list Add.msg) :
  add_core name wr cleaned = (Some body, log) ->
  exists header ls,
    body = writerows (map Some (updated header) :: ls)
    /\ Forall within_limit header
    /\ readable ls
    /\ (forall n, In (Add.Success n name) log -> length ls = n).
Proof.
  unfold add_core.
  destruct (Reader_iternext cleaned) as [[[header lines']|]|e] eqn:Hh; try discriminate.
  destruct (contains header ACTION && contains header IS_MILESTONE); [discriminate|].
  destruct (DictReader_list header cleaned) as [[|r rows]|e] eqn:Hrows; try discriminate.
  remember (r :: rows) as rows0 eqn:Hrows0.
  destruct (migrate_each rows0) as [migrated|e] eqn:Hmig; [|discriminate].
  destruct wr; [|discriminate].
  destruct (rows_written (updated header) migrated) as [ls res] eqn:Hw.
  intros H. injection H as <- <-.
  exists header, ls. split; [reflexivity|].
  split; [eapply Reader_iternext_within_limit; exact Hh|].
  assert (Hwithin : Forall (fun d => dict_within (named d)) migrated).
  { eapply migrate_each_within; [|exact Hmig].
    eapply DictReader_list_within; exact Hrows. }
  split.
  - pose proof (rows_written_readable (updated header) migrated Hwithin) as Hr.
    rewrite Hw in Hr. exact Hr.
  - intros n Hin. apply in_app_iff in Hin. destruct Hin as [Hin|Hin].
    + apply progress_only in Hin. destruct Hin as [d Hd]. discriminate.
    + destruct res as [[]|e].
      * destruct Hin as [Hin|[]]. inversion Hin; subst.
        pose proof (rows_written_complete (updated header) migrated) as Hc.
        rewrite Hw in Hc. cbn [fst snd] in Hc. apply Hc. reflexivity.
      * cbn [failure In] in Hin. intuition discriminate.
Qed.

Lemma add_core_success (name : string) (wr : bool) (cleaned : list text)
      (log : list Add.msg) (n : nat) :
  add_core name wr cleaned = (None, log) -> ~ In (Add.Success n name) log.
Proof.
  unfold add_core.
  destruct (Reader_iternext cleaned) as [[[header lines']|]|e].
  2,3: intros H; inversion H; subst; cbn [failure In]; intuition discriminate.
  destruct (contains header ACTION && contains header IS_MILESTONE).
  { intros H; inversion H; subst; cbn [In]; intuition discriminate. }
  destruct (DictReader_list header cleaned) as [[|r rows]|e].
  1,3: intros H; inversion H; subst; cbn [failure In]; intuition discriminate.
  remember (r :: rows) as rows0 eqn:Hrows0.
  assert (Hlog : forall e, ~ In (Add.Success n name)
             (progress name (length rows0) 0 rows0 ++ failure name e)).
  { intros e Hin. apply in_app_iff in Hin. destruct Hin as [Hin|Hin].
    - apply progress_only in Hin. destruct Hin as [d Hd]. discriminate.
    - cbn [failure In] in Hin. intuition discriminate. }
  destruct (migrate_each rows0) as [migrated|e].
  2: { intros H; inversion H; subst. apply Hlog. }
  destruct wr.
  - destruct (rows_written (updated header) migrated). discriminate.
  - intros H; inversion H; subst. apply Hlog.
Qed.

(** A run that reports success has rewritten the file with the updated
    header and one record for each reported session. *)
Lemma add_success_inv (name : string) (f : file) (n : nat) :
  In (Add.Success n name) (snd (add_effect name f)) ->
  exists header ls,
    fst (add_effect name f)
    = mkFile (Ok (writerows (map Some (updated header) :: ls))) true
    /\ Forall within_limit header /\ readable ls /\ length ls = n.
Proof.
  unfold add_effect. destruct (data f) as [t|e].
  2: { cbn [snd failure In]. intuition discriminate. }
  destruct (cleaned_lines t) as [cleaned k].
  destruct cleaned as [|line cleaned].
  { cbn [snd In]. intuition discriminate. }
  destruct (add_core name (writable f) (line :: cleaned)) as [[body|] log] eqn:Hcore;
    cbn [fst snd]; intros Hin; apply in_app_iff in Hin.
  - destruct (add_core_writes _ _ _ _ _ Hcore) as (header & ls & -> & Hh & Hls & Hn).
    exists header, ls. repeat split; try assumption.
    apply Hn. destruct Hin as [Hin|Hin]; [|exact Hin].
    unfold leading_msg in Hin. destruct (0 <? k); [|destruct Hin].
    destruct Hin as [Hin|[]]. discriminate.
  - exfalso. destruct Hin as [Hin|Hin].
    + unfold leading_msg in Hin. destruct (0 <? k); [|destruct Hin].
      destruct Hin as [Hin|[]]. discriminate.
    + eapply add_core_success; eassumption.
Qed.

(** A file that starts with the updated header is taken as migrated. *)
Lemma add_effect_migrated (name : string) (header : row) (ls : list (list (option text))) :
  Forall within_limit header ->
  let f := mkFile (Ok (writerows (map Some (updated header) :: ls))) true in
  add_effect name f = (f, [Add.AlreadyMigrated name]).
Proof.
  intros Hh f. unfold add_effect, f. cbn [data writable].
  rewrite writerows_cons.
  destruct (written_header_is_data_line
              (match map Some header with x :: _ => x | [] => Some ACTION end)
              (match map Some header with
               | _ :: y :: _ => y
               | [_] => Some ACTION
               | [] => Some IS_MILESTONE
               end)
              (match map Some header with
               | _ :: _ :: l => l ++ [Some ACTION; Some IS_MILESTONE]
               | [_] => [Some IS_MILESTONE]
               | [] => []
               end)
              (writerows ls)) as (l & lines & Hl & Hs).
  assert (Hshape : map Some (updated header)
                   = (match map Some header with x :: _ => x | [] => Some ACTION end)
                       :: (match map Some header with
                           | _ :: y :: _ => y
                           | [_] => Some ACTION
                           | [] => Some IS_MILESTONE
                           end)
                       :: (match map Some header with
                           | _ :: _ :: l => l ++ [Some ACTION; Some IS_MILESTONE]
                           | [_] => [Some IS_MILESTONE]
                           | [] => []
                           end)).
  { unfold updated. rewrite map_app. destruct header as [|x [|y header]]; reflexivity. }
  rewrite <- Hshape in Hl.
  rewrite (cleaned_lines_data_first _ l lines Hl Hs).
  unfold add_core. rewrite <- Hl.
  rewrite header_reads_back by (apply within_limit_updated, Hh).
  assert (HA : contains (updated header) ACTION = true).
  { apply contains_true. unfold updated. apply in_or_app. right. left. reflexivity. }
  assert (HI : contains (updated header) IS_MILESTONE = true).
  { apply contains_true. unfold updated. apply in_or_app. right. right. left. reflexivity. }
  rewrite HA, HI. reflexivity.
Qed.

(** ** C4: running a migration again *)

Lemma drop_run_no_column (name : string) (t : text) (wr : bool) (out : list Drop.msg)
      (header : row) (rows : list row) :
  read_table_universal t = Ok (header :: rows) ->
  index MILESTONE_TEXT header = None ->
  Drop.migrate_csv_file name (mkWorld (mkFile (Ok t) wr) out)
  = (mkWorld (mkFile (Ok t) wr) (out ++ [Drop.Processing name; Drop.NoColumn]), Ok false).
Proof.
  intros Hread Hidx. unfold read_table_universal in Hread.
  unfold Drop.migrate_csv_file, bind_io, try_except, print, read_text_universal,
    lift, ret.
  cbn [st stdout data writable bind]. rewrite Hread, Hidx.
  cbn [st stdout]. rewrite <- !app_assoc. reflexivity.
Qed.

Lemma count_occ_zero_index (x : text) (l : list text) :
  count_occ text_eq_dec l x = 0 -> index x l = None.
Proof.
  intros H. apply index_none. apply (count_occ_not_In text_eq_dec). exact H.
Qed.

(** C4, as the code has it.  A second run of the add-variant after a run
    that reported success finds the two columns in the header, prints that
    the file is migrated and leaves the file as it is.  A second run of the
    drop-variant after a run that returned [True] finds no [milestone_text]
    column and leaves the file as it is, when the header of the first run
    named [milestone_text] once only. *)
Theorem C4_second_run_is_a_no_op :
  (forall (name : string) (f : file) (n : nat) (w1 : world Add.msg file),
      Add.migrate_file name (mkWorld f []) = (w1, Ok tt) ->
      In (Add.Success n name) (stdout w1) ->
      forall out2,
        Add.migrate_file name (mkWorld (st w1) out2)
        = (mkWorld (st w1) (out2 ++ [Add.Processing name; Add.AlreadyMigrated name]),
           Ok tt))
  /\
  (forall (name : string) (t : text) (out : list Drop.msg) (header : row)
          (rows : list row) (w1 : world Drop.msg file),
      read_table_universal t = Ok (header :: rows) ->
      count_occ text_eq_dec header MILESTONE_TEXT <= 1 ->
      Drop.migrate_csv_file name (mkWorld (mkFile (Ok t) true) out) = (w1, Ok true) ->
      forall out2,
        Drop.migrate_csv_file name (mkWorld (st w1) out2)
        = (mkWorld (st w1) (out2 ++ [Drop.Processing name; Drop.NoColumn]), Ok false)).
Proof.
  split.
  - intros name f n w1 Hrun Hsucc out2.
    rewrite migrate_file_run in Hrun. injection Hrun as <-.
    cbn [stdout st app] in *.
    destruct Hsucc as [Hsucc|Hsucc]; [discriminate|].
    destruct (add_success_inv name f n Hsucc) as (header & ls & Hf & Hh & _ & _).
    rewrite Hf, migrate_file_run.
    rewrite (add_effect_migrated name header ls Hh). reflexivity.
  - intros name t out header rows w1 Hread Hcount Hrun out2.
    destruct (drop_run_true_inv name _ out w1 Hrun) as (t0 & header0 & rows0 & i & Hf & Hread0 & Hidx).
    injection Hf as <-. rewrite Hread in Hread0. injection Hread0 as <- <-.
    rewrite (drop_run_migrated name t out header rows i Hread Hidx) in Hrun.
    injection Hrun as <-. cbn [st].
    assert (Hclean : Forall (Forall clean_field) (drop_table i header rows)).
    { apply drop_table_clean. eapply read_table_universal_clean, Hread. }
    apply (drop_run_no_column name _ true out2 (Drop.cut i header)
             (map (Drop.new_row i) rows)).
    + apply (clean_table_reads_back _ Hclean).
    + apply count_occ_zero_index. rewrite cut_remove_at.
      rewrite (remove_at_index_count _ _ _ Hidx). lia.
Qed.

Lemma C4_witness :
  (exists w1,
      Add.migrate_file "log-data.csv"
        (mkWorld (mkFile (Ok (str "id,milestone_text
1,Reached goal
")) true) []) = (w1, Ok tt)
      /\ In (Add.Success 2 "log-data.csv") (stdout w1)
      /\ Add.migrate_file "log-data.csv" (mkWorld (st w1) [])
         = (mkWorld (st w1)
                    ([] ++ [Add.Processing "log-data.csv";
                            Add.AlreadyMigrated "log-data.csv"]),
            Ok tt))
  /\
  (exists w1,
      Drop.migrate_csv_file "log-data.csv"
        (mkWorld (mkFile (Ok (str "id,milestone_text
1,Reached goal
")) true) []) = (w1, Ok true)
      /\ Drop.migrate_csv_file "log-data.csv" (mkWorld (st w1) [])
         = (mkWorld (st w1) ([] ++ [Drop.Processing "log-data.csv"; Drop.NoColumn]),
            Ok false)).
Proof.
  split.
  - eexists. split; [vm_compute; reflexivity|].
    split; [right; left; reflexivity|].
    eapply (proj1 C4_second_run_is_a_no_op "log-data.csv"%string
              (mkFile (Ok (str "id,milestone_text
1,Reached goal
")) true) 2).
    + vm_compute. reflexivity.
    + right. left. reflexivity.
  - eexists. split; [vm_compute; reflexivity|].
    eapply (proj2 C4_second_run_is_a_no_op "log-data.csv"%string
              (str "id,milestone_text
1,Reached goal
") []
              [str "id"; str "milestone_text"] [[str "1"; str "Reached goal"]]).
    + vm_compute. reflexivity.
    + vm_compute. lia.
    + vm_compute. reflexivity.
Defined.

(** The drop-variant is not idempotent when the header names
    [milestone_text] twice: the first run leaves one such column, and the
    second run, returning [True] again, removes it and rewrites the
    file. *)
Lemma C4_counterexample :
  let f := mkFile (Ok (str "milestone_text,milestone_text
1,2
")) true in
  exists w1 w2,
    Drop.migrate_csv_file "log-data.csv" (mkWorld f []) = (w1, Ok true)
    /\ data (st w1) = Ok (str "milestone_text" ++ [CR; LF] ++ str "2" ++ [CR; LF])
    /\ Drop.migrate_csv_file "log-data.csv" (mkWorld (st w1) []) = (w2, Ok true)
    /\ data (st w2) = Ok ([CR; LF] ++ [CR; LF])
    /\ st w2 <> st w1.
Proof.
  cbv zeta. eexists. eexists.
  split; [vm_compute; reflexivity|].
  split; [vm_compute; reflexivity|].
  split; [vm_compute; reflexivity|].
  split; [vm_compute; reflexivity|].
  vm_compute. discriminate.
Qed.

(** ** Quoted fields, and what a run can leave *)

Lemma join_append_quoting (s : text) :
  join_append false (Some s)
  = if existsb needs_quote s then DQUOTE :: copy_field s ++ [DQUOTE] else s.
Proof.
  cbn [join_append orb]. destruct (existsb needs_quote s) eqn:E; [reflexivity|].
  apply copy_field_plain, E.
Qed.

Lemma needs_quote_spec (c : char) :
  needs_quote c = true <-> c = COMMA \/ c = DQUOTE \/ c = CR \/ c = LF.
Proof.
  unfold needs_quote. rewrite !orb_true_iff, !N.eqb_eq. tauto.
Qed.

Lemma copy_field_doubles (s s' : text) :
  copy_field (s ++ DQUOTE :: s') = copy_field s ++ DQUOTE :: DQUOTE :: copy_field s'.
Proof.
  induction s as [|c s IH]; [reflexivity|].
  cbn [app copy_field]. rewrite IH. destruct (c =? DQUOTE)%N; reflexivity.
Qed.

(** ** C5: leading blank lines *)

(** The lines of a text that ends with a line terminator, followed by
    another text: no line runs across the border (a carriage return at the
    end must not meet a line feed). *)
Lemma readlines_from_app_terminated (x : char) (rest : text) :
  x = LF \/ (x = CR /\ forall r, rest <> LF :: r) ->
  forall (n : nat) (a cur : text),
    length a <= n ->
    readlines_from cur (a ++ x :: rest)
    = readlines_from cur (a ++ [x]) ++ readlines rest.
Proof.
  intros Hx.
  assert (Hbase : forall cur,
             readlines_from cur (x :: rest) = readlines_from cur [x] ++ readlines rest).
  { intros cur. destruct Hx as [-> | [-> Hrest]].
    - reflexivity.
    - cbn [readlines_from]. change (CR =? LF)%N with false.
      change (CR =? CR)%N with true. cbv iota.
      destruct rest as [|c' rest']; [reflexivity|].
      destruct (c' =? LF)%N eqn:E; [|reflexivity].
      apply N.eqb_eq in E. subst c'. exfalso. apply (Hrest rest'). reflexivity. }
  induction n as [|n IH]; intros a cur Hlen.
  - destruct a; [|cbn in Hlen; lia]. apply Hbase.
  - destruct a as [|c a]; [apply Hbase|].
    cbn [length] in Hlen. cbn [app readlines_from].
    destruct (c =? LF)%N.
    { rewrite (IH a []) by lia. reflexivity. }
    destruct (c =? CR)%N.
    + destruct a as [|c' a].
      * cbn [app]. destruct Hx as [-> | [-> Hrest]].
        -- reflexivity.
        -- change (CR =? LF)%N with false. cbv iota.
           rewrite (Hbase []). reflexivity.
      * cbn [app length] in *. destruct (c' =? LF)%N.
        -- rewrite (IH a []) by lia. reflexivity.
        -- change (c' :: a ++ x :: rest) with ((c' :: a) ++ x :: rest).
           rewrite (IH (c' :: a) []) by (cbn [length]; lia). reflexivity.
    + rewrite (IH a (c :: cur)) by lia. reflexivity.
Qed.

Lemma readlines_app_terminated (blanks rest : text) :
  (blanks = [] \/ exists b x, blanks = b ++ [x] /\ (x = LF \/ x = CR)) ->
  (forall r, rest <> LF :: r) ->
  readlines (blanks ++ rest) = readlines blanks ++ readlines rest.
Proof.
  intros [-> | (b & x & -> & Hx)] Hrest; [reflexivity|].
  unfold readlines. rewrite <- app_assoc. cbn [app].
  apply (readlines_from_app_terminated x rest) with (n := length b); [|reflexivity].
  destruct Hx as [-> | ->]; [left; reflexivity | right; split; [reflexivity | exact Hrest]].
Qed.

Lemma lstrip_all_space (s : text) : all_space s -> lstrip s = [].
Proof.
  induction 1 as [|c s Hc Hs IH]; [reflexivity|].
  cbn [lstrip]. rewrite Hc. exact IH.
Qed.

Lemma strip_all_space (s : text) : all_space s -> truthy (strip s) = false.
Proof.
  intros H. unfold strip. rewrite lstrip_all_space by assumption. reflexivity.
Qed.

Lemma first_data_line_after_blanks (bl ls : list text) :
  Forall all_space bl ->
  Add.first_data_line (bl ++ ls)
  = option_map (fun i => length bl + i) (Add.first_data_line ls).
Proof.
  induction 1 as [|l bl Hl Hbl IH]; cbn [app Add.first_data_line length].
  - destruct (Add.first_data_line ls); reflexivity.
  - rewrite (strip_all_space l Hl), IH.
    destruct (Add.first_data_line ls); reflexivity.
Qed.

Lemma cleaned_lines_after_blanks (blanks rest : text) (l : text) (ls : list text) :
  all_space blanks ->
  (blanks = [] \/ exists b x, blanks = b ++ [x] /\ (x = LF \/ x = CR)) ->
  readlines rest = l :: ls -> truthy (strip l) = true ->
  cleaned_lines (blanks ++ rest) = (l :: ls, length (readlines blanks)).
Proof.
  intros Hsp Hend Hl Hs.
  assert (Hrest : forall r, rest <> LF :: r).
  { intros r ->. cbn in Hl. injection Hl as <- _. discriminate. }
  unfold cleaned_lines. rewrite (readlines_app_terminated blanks rest Hend Hrest).
  rewrite first_data_line_after_blanks.
  - rewrite Hl. cbn [Add.first_data_line]. rewrite Hs. cbn [option_map].
    rewrite Nat.add_0_r, skipn_app, skipn_all, Nat.sub_diag. reflexivity.
  - apply (readlines_from_chars (fun c => isspace c = true)); [constructor | exact Hsp].
Qed.

(** C5, as the code has it, for the add-variant.  A file made of leading
    blank lines (white space only, ended by a line terminator) and then a
    text whose first line is a data line is treated as that text alone: the
    same content is written to both, or both are left as they are, and the
    same lines are printed but for the notice of the skipped lines. *)
Theorem C5_add_skips_leading_blank_lines
        (name : string) (blanks rest : text) (wr : bool) (out : list Add.msg)
        (l : text) (ls : list text) :
  all_space blanks ->
  (blanks = [] \/ exists b x, blanks = b ++ [x] /\ (x = LF \/ x = CR)) ->
  readlines rest = l :: ls -> truthy (strip l) = true ->
  exists (rewritten : option text) (log : list Add.msg),
    let left_as (t : text) :=
      match rewritten with
      | Some body => mkFile (Ok body) true
      | None => mkFile (Ok t) wr
      end in
    Add.migrate_file name (mkWorld (mkFile (Ok (blanks ++ rest)) wr) out)
    = (mkWorld (left_as (blanks ++ rest))
               (out ++ Add.Processing name
                    :: (if 0 <? length (readlines blanks)
                        then [Add.LeadingEmpty (length (readlines blanks)) name]
                        else []) ++ log),
       Ok tt)
    /\ Add.migrate_file name (mkWorld (mkFile (Ok rest) wr) out)
       = (mkWorld (left_as rest) (out ++ Add.Processing name :: log), Ok tt).
Proof.
  intros Hsp Hend Hl Hs.
  exists (fst (add_core name wr (l :: ls))), (snd (add_core name wr (l :: ls))).
  cbv zeta. rewrite !migrate_file_run. unfold add_effect. cbn [data writable].
  rewrite (cleaned_lines_after_blanks blanks rest l ls Hsp Hend Hl Hs).
  rewrite (cleaned_lines_data_first rest l ls Hl Hs).
  destruct (add_core name wr (l :: ls)) as [[body|] log]; cbn [fst snd];
    split; reflexivity.
Qed.

Lemma C5_witness :
  exists (rewritten : option text) (log : list Add.msg),
    let left_as (t : text) :=
      match rewritten with
      | Some body => mkFile (Ok body) true
      | None => mkFile (Ok t) true
      end in
    Add.migrate_file "log-data.csv"
      (mkWorld (mkFile (Ok (str "
  
" ++ str "id,milestone_text
1,x
")) true) [])
    = (mkWorld (left_as (str "
  
" ++ str "id,milestone_text
1,x
"))
               ([] ++ Add.Processing "log-data.csv"
                   :: (if 0 <? length (readlines (str "
  
"))
                       then [Add.LeadingEmpty (length (readlines (str "
  
"))) "log-data.csv"]
                       else []) ++ log),
       Ok tt)
    /\ Add.migrate_file "log-data.csv"
         (mkWorld (mkFile (Ok (str "id,milestone_text
1,x
")) true) [])
       = (mkWorld (left_as (str "id,milestone_text
1,x
")) ([] ++ Add.Processing "log-data.csv" :: log), Ok tt).
Proof.
  eapply (C5_add_skips_leading_blank_lines "log-data.csv" (str "
  
") (str "id,milestone_text
1,x
") true []).
  - repeat constructor.
  - right. exists (str "
  "), LF. split; [reflexivity | left; reflexivity].
  - vm_compute. reflexivity.
  - vm_compute. reflexivity.
Defined.

(** The drop-variant has no such tolerance: with one blank line before
    the header the first record is empty, no [milestone_text] column is
    found and the file is left as it is, while the same file without the
    blank line is rewritten. *)
Lemma C5_counterexample :
  let rest := str "id,milestone_text
1,x
" in
  Drop.migrate_csv_file "log-data.csv" (mkWorld (mkFile (Ok (LF :: rest)) true) [])
  = (mkWorld (mkFile (Ok (LF :: rest)) true)
             [Drop.Processing "log-data.csv"; Drop.NoColumn], Ok false)
  /\ Drop.migrate_csv_file "log-data.csv" (mkWorld (mkFile (Ok rest) true) [])
     = (mkWorld (mkFile (Ok (str "id" ++ [CR; LF] ++ str "1" ++ [CR; LF])) true)
                [Drop.Processing "log-data.csv"; Drop.FoundAt 1; Drop.Migrated 1;
                 Drop.NewHeader (str "id")], Ok true)
  /\ fst (Drop.migrate_csv_file "log-data.csv" (mkWorld (mkFile (Ok (LF :: rest)) true) []))
     <> fst (Drop.migrate_csv_file "log-data.csv" (mkWorld (mkFile (Ok rest) true) [])).
Proof.
  cbv zeta. split; [vm_compute; reflexivity|].
  split; [vm_compute; reflexivity|].
  vm_compute. discriminate.
Qed.

(** ** A run on one file, as the batch sees it *)

Lemma drop_run_frame (name : string) (f : file) (out : list Drop.msg) :
  Drop.migrate_csv_file name (mkWorld f out)
  = (mkWorld (drop_file name f) (out ++ drop_log name f), Ok (drop_ok name f)).
Proof.
  unfold drop_file, drop_log, drop_ok, drop_result.
  unfold Drop.migrate_csv_file, bind_io, try_except, print, read_text_universal,
    lift, open_w, write, ret.
  destruct f as [[t|e] wr]; cbn [st stdout data writable bind fst snd app].
  2: { rewrite <- !app_assoc. reflexivity. }
  destruct (list_reader (readlines (translate_newlines t))) as [[|header rows]|e];
    cbn [st stdout data writable bind fst snd app].
  1,3: rewrite <- !app_assoc; reflexivity.
  destruct (index MILESTONE_TEXT header) as [i|];
    cbn [st stdout data writable bind fst snd app].
  2: rewrite <- !app_assoc; reflexivity.
  destruct wr; cbn [st stdout data writable bind fst snd app];
    rewrite <- !app_assoc; reflexivity.
Qed.

(** A file that cannot be read, or whose content the reader rejects, is
    left as it is, its error is printed and the call returns [False]. *)
Lemma drop_failure (name : string) (f : file) (e : exn) :
  (t <- data f ;; read_table_universal t) = Raise e ->
  drop_file name f = f
  /\ drop_log name f = [Drop.Processing name; Drop.ErrorProcessing e]
  /\ drop_ok name f = false.
Proof.
  unfold drop_file, drop_log, drop_ok, drop_result, read_table_universal.
  unfold Drop.migrate_csv_file, bind_io, try_except, print, read_text_universal,
    lift, open_w, write, ret.
  destruct f as [[t|e0] wr]; cbn [st stdout data writable bind fst snd app].
  - intros H. rewrite H. cbn [st stdout fst snd app]. auto.
  - intros H. inversion H; subst. auto.
Qed.

Lemma add_alone_effect (name : string) (f : file) :
  add_alone name f
  = mkWorld (fst (add_effect name f)) (Add.Processing name :: snd (add_effect name f)).
Proof. unfold add_alone. rewrite migrate_file_run. reflexivity. Qed.

(** * Further properties *)

(** ** The lines of a file and its leading blank lines *)

Lemma concat_readlines_from (t : text) : forall cur,
  concat (readlines_from cur t) = rev cur ++ t.
Proof.
  assert (Hstrong : forall n t, length t <= n -> forall cur,
             concat (readlines_from cur t) = rev cur ++ t).
  { induction n as [|n IH]; intros u Hn cur.
    - destruct u; [|cbn in Hn; lia]. cbn [readlines_from].
      destruct cur; [reflexivity|]. cbn [concat]. rewrite !app_nil_r. reflexivity.
    - destruct u as [|c u].
      + cbn [readlines_from].
        destruct cur; [reflexivity|]. cbn [concat]. rewrite !app_nil_r. reflexivity.
      + cbn [length] in Hn. cbn [readlines_from].
        destruct (c =? LF)%N.
        { cbn [concat]. rewrite IH by lia. cbn [rev app].
          rewrite <- app_assoc. reflexivity. }
        destruct (c =? CR)%N.
        { destruct u as [|c' u].
          - cbn [concat rev]. rewrite app_nil_r. reflexivity.
          - cbn [length] in Hn. destruct (c' =? LF)%N.
            + cbn [concat]. rewrite IH by lia. cbn [rev app].
              rewrite <- !app_assoc. reflexivity.
            + cbn [concat]. rewrite IH by (cbn [length]; lia). cbn [rev app].
              rewrite <- app_assoc. reflexivity. }
        rewrite IH by lia. cbn [rev]. rewrite <- app_assoc. reflexivity. }
  intros cur. apply (Hstrong (length t) t). reflexivity.
Qed.

Lemma concat_readlines (t : text) : concat (readlines t) = t.
Proof. apply (concat_readlines_from t []). Qed.

Lemma first_data_line_some (lines : list text) : forall k,
  Add.first_data_line lines = Some k ->
  Forall blank_line (firstn k lines)
  /\ exists l ls, skipn k lines = l :: ls /\ truthy (strip l) = true.
Proof.
  induction lines as [|line lines IH]; intros k; cbn [Add.first_data_line];
    [discriminate|].
  destruct (truthy (strip line)) eqn:E.
  - intros H; inversion H; subst. split; [constructor|].
    exists line, lines. split; [reflexivity | exact E].
  - destruct (Add.first_data_line lines) as [i|]; [|discriminate].
    intros H; inversion H; subst.
    destruct (IH i eq_refl) as [Hb (l & ls & Hs & Hl)].
    split; [constructor; assumption|]. exists l, ls. split; assumption.
Qed.

Lemma first_data_line_none (lines : list text) :
  Add.first_data_line lines = None -> Forall blank_line lines.
Proof.
  induction lines as [|line lines IH]; cbn [Add.first_data_line]; [constructor|].
  destruct (truthy (strip line)) eqn:E; [discriminate|].
  destruct (Add.first_data_line lines); [discriminate|].
  intros _. constructor; [exact E | apply IH; reflexivity].
Qed.

Lemma lstrip_empty (s : text) : lstrip s = [] -> all_space s.
Proof.
  induction s as [|c s IH]; cbn [lstrip]; [constructor|].
  destruct (isspace c) eqn:E; [|discriminate].
  intros H. constructor; [exact E | exact (IH H)].
Qed.

Lemma all_space_rev (s : text) : all_space (rev s) -> all_space s.
Proof.
  unfold all_space. rewrite !Forall_forall. intros H x Hx.
  apply H. apply in_rev. rewrite rev_involutive. exact Hx.
Qed.

Lemma lstrip_fixed (s : text) :
  match s with [] => True | c :: _ => isspace c = false end -> lstrip s = s.
Proof. destruct s as [|c s]; [reflexivity|]. cbn [lstrip]. intros ->. reflexivity. Qed.

Lemma lstrip_head (s : text) :
  match lstrip s with [] => True | c :: _ => isspace c = false end.
Proof.
  induction s as [|c s IH]; cbn [lstrip]; [exact I|].
  destruct (isspace c) eqn:E; [exact IH | exact E].
Qed.

Lemma lstrip_suffix (s : text) : exists p, s = p ++ lstrip s /\ all_space p.
Proof.
  induction s as [|c s (p & Hp & Hsp)]; cbn [lstrip].
  - exists []. split; [reflexivity | constructor].
  - destruct (isspace c) eqn:E.
    + exists (c :: p). split; [cbn [app]; f_equal; exact Hp | constructor; assumption].
    + exists []. split; [reflexivity | constructor].
Qed.

Lemma blank_line_all_space (l : text) : blank_line l -> all_space l.
Proof.
  unfold blank_line, strip, rstrip. intros H.
  assert (Hr : lstrip (rev (lstrip l)) = []).
  { destruct (lstrip (rev (lstrip l))) as [|c u] eqn:E; [reflexivity|].
    cbn [rev] in H. destruct (rev u ++ [c]) eqn:E'; [|discriminate].
    destruct (rev u); discriminate. }
  apply lstrip_empty, all_space_rev in Hr.
  pose proof (lstrip_head l) as Hh.
  destruct (lstrip l) as [|c u] eqn:E.
  - apply lstrip_empty. exact E.
  - inversion Hr; subst. congruence.
Qed.

Lemma all_space_concat (ls : list text) : Forall all_space ls -> all_space (concat ls).
Proof.
  induction 1 as [|l ls Hl Hls IH]; cbn [concat]; [constructor|].
  apply Forall_app. split; assumption.
Qed.

Lemma cleaned_lines_blank (t : text) :
  all_space t -> cleaned_lines t = ([], length (readlines t)).
Proof.
  intros H. unfold cleaned_lines.
  assert (Hl : Forall all_space (readlines t)).
  { apply (readlines_from_chars (fun c => isspace c = true)); [constructor | exact H]. }
  pose proof (first_data_line_after_blanks (readlines t) [] Hl) as E.
  rewrite app_nil_r in E. rewrite E. reflexivity.
Qed.

(** X1. For a file that can be read, [clean_csv_file_content] returns the
    lines of the file from the first one that [strip] leaves non-empty,
    and the number of the lines before it.  The skipped lines followed by
    the returned ones are the lines of the file, and their characters are
    those of the file, in order; each skipped line is blank; the first
    returned line is not.  No line is returned exactly when the file holds
    white space only. *)
Theorem clean_csv_file_content_skips_blank_prefix
        (t : text) (wr : bool) (out : list Add.msg) :
  exists skipped cleaned,
    Add.clean_csv_file_content (mkWorld (mkFile (Ok t) wr) out)
    = (mkWorld (mkFile (Ok t) wr) out, Ok (cleaned, length skipped))
    /\ readlines t = skipped ++ cleaned
    /\ concat skipped ++ concat cleaned = t
    /\ Forall blank_line skipped
    /\ match cleaned with [] => True | l :: _ => truthy (strip l) = true end
    /\ (cleaned = [] <-> all_space t).
Proof.
  rewrite clean_run. cbn [data bind]. unfold cleaned_lines.
  destruct (Add.first_data_line (readlines t)) as [k|] eqn:E.
  - destruct (first_data_line_some _ _ E) as [Hb (l & ls & Hs & Hl)].
    exists (firstn k (readlines t)), (skipn k (readlines t)).
    assert (Hk : k < length (readlines t)).
    { destruct (Nat.lt_ge_cases k (length (readlines t))) as [Hlt|Hge]; [exact Hlt|].
      rewrite skipn_all2 in Hs by exact Hge. discriminate. }
    rewrite length_firstn, Nat.min_l by lia.
    split; [reflexivity|].
    split; [symmetry; apply firstn_skipn|].
    split.
    { rewrite <- concat_app, firstn_skipn. apply concat_readlines. }
    split; [exact Hb|].
    rewrite Hs. split; [exact Hl|].
    split; [discriminate|].
    intros Hsp. pose proof (cleaned_lines_blank t Hsp) as Hc.
    unfold cleaned_lines in Hc. rewrite E in Hc. inversion Hc. congruence.
  - exists (readlines t), [].
    split; [reflexivity|].
    split; [symmetry; apply app_nil_r|].
    split; [cbn [concat]; rewrite app_nil_r; apply concat_readlines|].
    split; [apply first_data_line_none; exact E|].
    split; [exact I|].
    split; [|reflexivity]. intros _.
    rewrite <- (concat_readlines t). apply all_space_concat.
    eapply Forall_impl; [|apply first_data_line_none; exact E].
    intros l. apply blank_line_all_space.
Qed.

(** X2. A file that holds white space only, the empty file among them,
    is reported as having no data and is left as it is, writable or
    not. *)
Theorem add_leaves_a_blank_file (name : string) (t : text) (wr : bool)
        (out : list Add.msg) :
  all_space t ->
  Add.migrate_file name (mkWorld (mkFile (Ok t) wr) out)
  = (mkWorld (mkFile (Ok t) wr) (out ++ [Add.Processing name; Add.NoData name]), Ok tt).
Proof.
  intros H. rewrite migrate_file_run. unfold add_effect. cbn [data].
  rewrite (cleaned_lines_blank t H). reflexivity.
Qed.

Lemma add_leaves_a_blank_file_witness :
  Add.migrate_file "log-data.csv" (mkWorld (mkFile (Ok blank_text) true) [])
  = (mkWorld (mkFile (Ok blank_text) true)
             ([] ++ [Add.Processing "log-data.csv"; Add.NoData "log-data.csv"]), Ok tt).
Proof.
  apply (add_leaves_a_blank_file "log-data.csv"%string blank_text true []).
  repeat constructor.
Defined.


(** ** The shape of the lines and what the reader makes of them *)

Lemma readlines_from_shape (t : text) : forall cur,
  Forall plain cur -> Forall line_shape (readlines_from cur t).
Proof.
  assert (Hrev : forall l, Forall plain l -> Forall plain (rev l)).
  { intros l Hl. apply Forall_forall. intros x Hx.
    apply in_rev in Hx. revert x Hx. apply Forall_forall, Hl. }
  assert (Hend : forall cur term, Forall plain cur -> Forall newline term ->
             line_shape (rev cur ++ term)).
  { intros cur term Hc Ht. exists (rev cur), term. auto. }
  assert (Hstrong : forall n t, length t <= n -> forall cur,
             Forall plain cur -> Forall line_shape (readlines_from cur t)).
  { induction n as [|n IH]; intros u Hn cur Hcur.
    - destruct u; [|cbn in Hn; lia]. cbn [readlines_from].
      destruct cur; [constructor|]. constructor; [|constructor].
      rewrite <- (app_nil_r (rev _)). apply Hend; [assumption | constructor].
    - destruct u as [|c u].
      + cbn [readlines_from].
        destruct cur; [constructor|]. constructor; [|constructor].
        rewrite <- (app_nil_r (rev _)). apply Hend; [assumption | constructor].
      + cbn [length] in Hn. cbn [readlines_from].
        destruct (N.eqb_spec c LF) as [->|HLF].
        { constructor; [|apply IH; [lia | constructor]].
          cbn [rev]. apply Hend; [assumption|]. repeat constructor. }
        destruct (N.eqb_spec c CR) as [->|HCR].
        { destruct u as [|c' u].
          - constructor; [|constructor].
            cbn [rev]. apply Hend; [assumption|].
            constructor; [right; reflexivity | constructor].
          - cbn [length] in Hn. destruct (N.eqb_spec c' LF) as [->|HLF'].
            + constructor; [|apply IH; [lia | constructor]].
              cbn [rev]. rewrite <- app_assoc. apply Hend; [assumption|].
              constructor; [right; reflexivity|].
              constructor; [left; reflexivity | constructor].
            + constructor; [|apply IH; [cbn [length]; lia | constructor]].
              cbn [rev]. apply Hend; [assumption|].
              constructor; [right; reflexivity | constructor]. }
        apply IH; [lia|]. constructor; [split; assumption | assumption]. }
  intros cur. apply (Hstrong (length t) t). reflexivity.
Qed.

Lemma readlines_shape (t : text) : Forall line_shape (readlines t).
Proof. apply readlines_from_shape. constructor. Qed.

Lemma step_plain (self : ReaderObj) (c : char) :
  state self <> EAT_CRNL -> plain c ->
  match parse_process_char self (Ch c) with
  | Ok s => state s <> EAT_CRNL
  | Raise e => e = CsvFieldLimit
  end.
Proof.
  intros Hs [HLF HCR].
  apply N.eqb_neq in HLF. apply N.eqb_neq in HCR.
  unfold parse_process_char, parse_start_field, parse_add_char.
  rewrite HLF, HCR. cbn [orb].
  destruct (state self) eqn:E; try congruence;
    repeat match goal with
           | |- context [if ?b then _ else _] => destruct b
           end;
    cbn [bind set_state parse_save_field state]; try rewrite E;
    first [reflexivity | discriminate].
Qed.

Lemma step_newline (self : ReaderObj) (c : char) :
  newline c -> only_field_limit (parse_process_char self (Ch c)).
Proof.
  intros [->| ->];
    unfold parse_process_char, parse_start_field, parse_add_char;
    destruct (state self); cbn;
    repeat match goal with
           | |- context [if ?b then _ else _] => destruct b
           end;
    cbn; first [exact I | reflexivity].
Qed.

Lemma step_EOL (self : ReaderObj) :
  exists s, parse_process_char self EOL = Ok s
            /\ (state s = START_RECORD \/ state s = IN_QUOTED_FIELD).
Proof.
  unfold parse_process_char, parse_start_field.
  destruct (state self) eqn:E; eexists; (split; [reflexivity|]);
    cbn [set_state parse_save_field state]; auto.
Qed.

Lemma parse_chars_plain (body : text) : forall self,
  Forall plain body -> state self <> EAT_CRNL ->
  match parse_chars self body with
  | Ok s => state s <> EAT_CRNL
  | Raise e => e = CsvFieldLimit
  end.
Proof.
  induction body as [|c body IH]; intros self Hb Hs; cbn [parse_chars].
  - exact Hs.
  - inversion Hb; subst.
    pose proof (step_plain self c Hs H1) as Hc.
    destruct (parse_process_char self (Ch c)) as [s|e]; cbn [bind]; [|exact Hc].
    apply IH; assumption.
Qed.

Lemma parse_chars_newlines (term : text) : forall self,
  Forall newline term -> only_field_limit (parse_chars self term).
Proof.
  induction term as [|c term IH]; intros self Ht; cbn [parse_chars]; [exact I|].
  inversion Ht; subst.
  pose proof (step_newline self c H1) as Hc.
  destruct (parse_process_char self (Ch c)) as [s|e]; cbn [bind]; [|exact Hc].
  apply IH; assumption.
Qed.

Lemma parse_line_shape (l : text) (self : ReaderObj) :
  line_shape l -> state self <> EAT_CRNL ->
  match parse_line self l with
  | Ok s => state s = START_RECORD \/ state s = IN_QUOTED_FIELD
  | Raise e => e = CsvFieldLimit
  end.
Proof.
  intros (body & term & -> & Hb & Ht) Hs.
  rewrite parse_line_app.
  pose proof (parse_chars_plain body self Hb Hs) as H1.
  destruct (parse_chars self body) as [s1|e]; cbn [bind]; [|exact H1].
  unfold parse_line.
  pose proof (parse_chars_newlines term s1 Ht) as H2.
  destruct (parse_chars s1 term) as [s2|e]; cbn [bind]; [|exact H2].
  destruct (step_EOL s2) as (s3 & -> & H3). exact H3.
Qed.

Lemma Reader_loop_shape (lines : list text) : forall self,
  Forall line_shape lines -> state self <> EAT_CRNL ->
  match Reader_loop self lines with
  | Ok (Some (_, lines')) => Forall line_shape lines'
  | Ok None => True
  | Raise e => e = CsvFieldLimit
  end.
Proof.
  induction lines as [|l lines IH]; intros self Hl Hs; cbn [Reader_loop].
  - destruct (_ || _); [constructor | exact I].
  - inversion Hl; subst.
    pose proof (parse_line_shape l self H1 Hs) as Hp.
    destruct (parse_line self l) as [s|e]; cbn [bind]; [|exact Hp].
    destruct Hp as [E|E]; rewrite E; [exact H2|].
    apply IH; [exact H2 | congruence].
Qed.

Lemma reader_rounds_shape (n : nat) : forall lines,
  Forall line_shape lines -> only_field_limit (reader_rounds n lines).
Proof.
  induction n as [|n IH]; intros lines Hl; cbn [reader_rounds]; [exact I|].
  assert (Hs : state parse_reset <> EAT_CRNL) by discriminate.
  pose proof (Reader_loop_shape lines parse_reset Hl Hs) as Hr.
  unfold Reader_iternext.
  destruct (Reader_loop parse_reset lines) as [[[rec lines']|]|e]; cbn [bind];
    [|exact I|exact Hr].
  pose proof (IH lines' Hr) as Hrest.
  destruct (reader_rounds n lines') as [recs|e]; cbn [bind]; [exact I | exact Hrest].
Qed.

(** X3. Whatever a file holds, the reader raises no exception on it but
    that of the field limit, in the add-variant (the file opened with
    [newline='']) and in the drop-variant (universal newlines): in a line
    of a file nothing follows the line end, so the error of a new-line
    character in an unquoted field cannot occur. *)
Theorem reading_fails_only_on_the_field_limit (t : text) :
  only_field_limit (read_table t) /\ only_field_limit (read_table_universal t).
Proof.
  split; apply reader_rounds_shape, readlines_shape.
Qed.

(** ** The branches of the add-variant that no file reaches *)

Lemma record_begun_step (self : ReaderObj) (i : input) (s : ReaderObj) :
  record_begun self -> parse_process_char self i = Ok s -> record_begun s.
Proof.
  unfold record_begun. intros Hb.
  unfold parse_process_char, parse_start_field, parse_add_char.
  destruct (state self) eqn:E; destruct i as [c|];
    repeat match goal with
           | |- context [if ?b then _ else _] => destruct b
           end;
    cbn [bind]; intros H; try discriminate; inversion H; subst;
    cbn [set_state parse_save_field state fields]; try rewrite E;
    first [ exact I | exact Hb
          | intros Hnil; apply app_eq_nil in Hnil; destruct Hnil; discriminate ].
Qed.

Lemma first_plain_begun (c : char) (s : ReaderObj) :
  plain c -> parse_process_char parse_reset (Ch c) = Ok s -> record_begun s.
Proof.
  intros [HLF HCR].
  apply N.eqb_neq in HLF. apply N.eqb_neq in HCR.
  unfold record_begun, parse_process_char, parse_start_field, parse_add_char.
  cbn [parse_reset state set_state]. rewrite HLF, HCR. cbn [orb].
  repeat match goal with
         | |- context [if ?b then _ else _] => destruct b
         end;
    cbn [bind]; intros H; try discriminate; inversion H; subst;
    cbn [set_state parse_save_field state fields]; exact I.
Qed.

Lemma record_begun_chars (l : text) : forall self s,
  record_begun self -> parse_chars self l = Ok s -> record_begun s.
Proof.
  induction l as [|c l IH]; intros self s Hb H; cbn [parse_chars] in H.
  - inversion H; subst. exact Hb.
  - apply bind_ok_inv in H. destruct H as (s1 & H1 & H).
    eapply IH; [|exact H]. eapply record_begun_step; eassumption.
Qed.

Lemma Reader_loop_begun (lines : list text) : forall self r lines',
  record_begun self ->
  Reader_loop self lines = Ok (Some (r, lines')) -> r <> [].
Proof.
  induction lines as [|l lines IH]; intros self r lines' Hb H; cbn [Reader_loop] in H.
  - destruct (_ || _); inversion H; subst.
    cbn [parse_save_field fields]. intros Hnil.
    apply app_eq_nil in Hnil. destruct Hnil; discriminate.
  - apply bind_ok_inv in H. destruct H as (s & Hl & H).
    unfold parse_line in Hl. apply bind_ok_inv in Hl. destruct Hl as (s1 & H1 & HE).
    assert (Hs : record_begun s).
    { eapply record_begun_step; [|exact HE]. eapply record_begun_chars; eassumption. }
    destruct (state s) eqn:E; try (eapply IH; [exact Hs | exact H]).
    inversion H; subst. unfold record_begun in Hs. rewrite E in Hs. exact Hs.
Qed.

Lemma Reader_iternext_begun (c : char) (l : text) (ls : list text)
      (r : row) (lines' : list text) :
  plain c ->
  Reader_iternext ((c :: l) :: ls) = Ok (Some (r, lines')) -> r <> [].
Proof.
  intros Hc H. unfold Reader_iternext in H.
  change (c :: l) with ([c] ++ l) in H.
  rewrite Reader_loop_split_line in H.
  apply bind_ok_inv in H. destruct H as (s & Hs & H).
  cbn [parse_chars] in Hs. apply bind_ok_inv in Hs. destruct Hs as (s1 & H1 & Hs).
  inversion Hs; subst.
  eapply Reader_loop_begun; [|exact H]. eapply first_plain_begun; eassumption.
Qed.

Lemma Reader_loop_not_none (lines : list text) : forall self,
  lines <> [] \/ state self = IN_QUOTED_FIELD ->
  Reader_loop self lines <> Ok None.
Proof.
  induction lines as [|l lines IH]; intros self Hor; cbn [Reader_loop].
  - destruct Hor as [Hne|E]; [congruence|]. rewrite E.
    destruct (ParserState_eq_dec IN_QUOTED_FIELD IN_QUOTED_FIELD); [|congruence].
    rewrite orb_true_r. discriminate.
  - unfold parse_line.
    destruct (parse_chars self l) as [s1|e]; cbn [bind]; [|discriminate].
    destruct (step_EOL s1) as (s & -> & [E|E]); cbn [bind]; rewrite E; [discriminate|].
    apply IH. right. exact E.
Qed.

Lemma newline_isspace (c : char) : newline c -> isspace c = true.
Proof. intros [->| ->]; reflexivity. Qed.

Lemma shaped_line_head (l : text) :
  line_shape l -> truthy (strip l) = true -> exists c l', l = c :: l' /\ plain c.
Proof.
  intros (body & term & -> & Hb & Ht) Hs.
  destruct body as [|c body].
  - cbn [app] in Hs. rewrite strip_all_space in Hs; [discriminate|].
    eapply Forall_impl; [|exact Ht]. apply newline_isspace.
  - inversion Hb; subst. exists c, (body ++ term). split; [reflexivity | assumption].
Qed.

Lemma cleaned_lines_head (t : text) (l : text) (ls : list text) (k : nat) :
  cleaned_lines t = (l :: ls, k) -> exists c l', l = c :: l' /\ plain c.
Proof.
  unfold cleaned_lines.
  destruct (Add.first_data_line (readlines t)) as [i|] eqn:E; [|discriminate].
  intros H. inversion H; subst.
  destruct (first_data_line_some _ _ E) as [_ (l0 & ls0 & Hs & Hl)].
  rewrite H1 in Hs. inversion Hs; subst.
  apply shaped_line_head; [|exact Hl].
  pose proof (readlines_shape t) as Hsh.
  rewrite <- (firstn_skipn k (readlines t)), H1 in Hsh.
  apply Forall_app in Hsh. destruct Hsh as [_ Hsh]. inversion Hsh; assumption.
Qed.

Lemma add_core_log (name : string) (wr : bool) (c : char) (l : text) (ls : list text) :
  plain c ->
  forall m, In m (snd (add_core name wr ((c :: l) :: ls))) ->
  m = Add.AlreadyMigrated name
  \/ (exists d total, m = Add.Progress d total name)
  \/ (exists n, m = Add.Success n name)
  \/ (exists e, m = Add.ErrorProcessing name e)
  \/ m = Add.Traceback.
Proof.
  intros Hc m. unfold add_core.
  assert (Hfail : forall e, In m (failure name e) ->
            (exists e, m = Add.ErrorProcessing name e) \/ m = Add.Traceback).
  { intros e [<-|[<-|[]]]; [left; eauto | right; reflexivity]. }
  destruct (Reader_iternext ((c :: l) :: ls)) as [[[header lines']|]|e] eqn:E1.
  3: { cbn [snd]. intros H. right. right. right. eapply Hfail; exact H. }
  2: { exfalso. revert E1. apply Reader_loop_not_none. left. discriminate. }
  destruct (contains header ACTION && contains header IS_MILESTONE).
  { cbn [snd]. intros [<-|[]]. left. reflexivity. }
  destruct (DictReader_list header ((c :: l) :: ls)) as [rows|e] eqn:E2.
  2: { cbn [snd]. intros H. right. right. right. eapply Hfail; exact H. }
  assert (Hne : rows <> []).
  { eapply DictReader_list_first; [exact E1 | | exact E2].
    eapply Reader_iternext_begun; eassumption. }
  destruct rows as [|r0 rows]; [congruence|].
  remember (r0 :: rows) as rows0 eqn:Hrows0.
  assert (Hprog : In m (progress name (length rows0) 0 rows0) ->
            exists d total, m = Add.Progress d total name).
  { intros H. apply progress_only in H. destruct H as (d & ->). eauto. }
  destruct (migrate_each rows0) as [migrated|e].
  2: { cbn [snd]. rewrite in_app_iff. intros [H|H]; [right; left; auto|].
       right. right. right. eapply Hfail; exact H. }
  destruct wr.
  2: { cbn [snd]. rewrite in_app_iff. intros [H|H]; [right; left; auto|].
       right. right. right. eapply Hfail; exact H. }
  destruct (rows_written (updated header) migrated) as [written res].
  cbn [snd]. rewrite in_app_iff. intros [H|H]; [right; left; auto|].
  destruct res as [[]|e].
  - destruct H as [<-|[]]. right. right. left. eauto.
  - right. right. right. eapply Hfail; exact H.
Qed.

Lemma add_effect_log (name : string) (f : file) (m : Add.msg) :
  In m (snd (add_effect name f)) ->
  m = Add.NoData name
  \/ (exists k, m = Add.LeadingEmpty k name)
  \/ m = Add.AlreadyMigrated name
  \/ (exists d total, m = Add.Progress d total name)
  \/ (exists n, m = Add.Success n name)
  \/ (exists e, m = Add.ErrorProcessing name e)
  \/ m = Add.Traceback.
Proof.
  unfold add_effect. destruct (data f) as [t|e].
  2: { cbn [snd failure In]. intros [<-|[<-|[]]]; [do 5 right; left; eauto | do 6 right; reflexivity]. }
  destruct (cleaned_lines t) as [[|l ls] k] eqn:E.
  { cbn [snd In]. intros [<-|[]]. left. reflexivity. }
  destruct (cleaned_lines_head t l ls k E) as (c & l' & -> & Hc).
  pose proof (add_core_log name (writable f) c l' ls Hc m) as Hcore.
  match goal with
  | |- context [add_core ?a ?b ?x] =>
      change (add_core name (writable f) ((c :: l') :: ls)) with (add_core a b x) in Hcore;
      destruct (add_core a b x) as [body log]
  end.
  cbn [snd] in *. rewrite in_app_iff. intros [H|H].
  - unfold leading_msg in H. destruct (0 <? k); [|destruct H].
    destruct H as [<-|[]]. right. left. eauto.
  - right. right. exact (Hcore H).
Qed.

(** X4. The add-variant never reports that no header was found, and never
    that there are no data rows, for any file: once the blank lines are
    skipped the first line starts with a character that is no line end,
    so [next(reader)] returns a record with a field or raises, and
    [DictReader], which is given the field names, returns that record as
    its first row. *)
Theorem add_header_and_rows_are_always_found (name other : string) (f : file) :
  ~ In (Add.NoHeader other) (stdout (add_alone name f))
  /\ ~ In (Add.NoDataRows other) (stdout (add_alone name f)).
Proof.
  rewrite add_alone_effect. cbn [stdout In].
  split; intros [H|H]; try discriminate;
    apply add_effect_log in H;
    repeat match goal with
           | H : _ \/ _ |- _ => destruct H as [H|H]
           | H : exists _, _ |- _ => destruct H as [? H]
           end; discriminate.
Qed.

(** ** The two columns of a migrated row *)

Lemma strip_strip (s : text) : strip (strip s) = strip s.
Proof.
  assert (Hw : lstrip (lstrip (rev (lstrip s))) = lstrip (rev (lstrip s))).
  { apply lstrip_fixed, lstrip_head. }
  assert (Hu : lstrip (rev (lstrip (rev (lstrip s)))) = rev (lstrip (rev (lstrip s)))).
  { apply lstrip_fixed.
    destruct (lstrip_suffix (rev (lstrip s))) as (p & Hp & _).
    assert (Hv : lstrip s = rev (lstrip (rev (lstrip s))) ++ rev p).
    { rewrite <- rev_app_distr, <- Hp, rev_involutive. reflexivity. }
    pose proof (lstrip_head s) as Hh. rewrite Hv in Hh.
    destruct (rev (lstrip (rev (lstrip s)))); [exact I | exact Hh]. }
  unfold strip, rstrip. rewrite Hu, rev_involutive, Hw. reflexivity.
Qed.

Lemma migrate_row_inv (r r' : pydict) :
  Add.migrate_row r = Ok r' ->
  exists a b,
    r' = Add.set_columns r a b
    /\ ((b = str "1" /\ a <> [] /\ strip a = a) \/ (b = str "0" /\ a = [])).
Proof.
  unfold Add.migrate_row.
  destruct (Add.find_milestone_text r) as [[s|]|e]; cbn [bind]; [| |discriminate].
  - rewrite truthy_strip. destruct (truthy (strip s)) eqn:E; intros H; inversion H; subst.
    + exists (strip s), (str "1"). split; [reflexivity|]. left.
      split; [reflexivity|]. split; [|apply strip_strip].
      destruct (strip s); discriminate.
    + exists [], (str "0"). split; [reflexivity|]. right. split; reflexivity.
  - intros H; inversion H; subst.
    exists [], (str "0"). split; [reflexivity|]. right. split; reflexivity.
Qed.

(** X5. A row the loop body has processed has the two new columns, and
    they agree: either [is_milestone] is 1 and [action] is non-empty and
    has no white space at either end, or [is_milestone] is 0 and [action]
    is empty.  Every other column of the row, and its surplus fields, are
    as they were. *)
Theorem migrate_row_sets_a_trimmed_action_and_its_flag (r r' : pydict) :
  Add.migrate_row r = Ok r' ->
  exists a b,
    dict_get (named r') ACTION = Some (Some a)
    /\ dict_get (named r') IS_MILESTONE = Some (Some b)
    /\ ((b = str "1" /\ a <> [] /\ strip a = a) \/ (b = str "0" /\ a = []))
    /\ (forall k, k <> ACTION -> k <> IS_MILESTONE ->
          dict_get (named r') k = dict_get (named r) k)
    /\ rest r' = rest r.
Proof.
  intros H. destruct (migrate_row_inv r r' H) as (a & b & -> & Hab).
  exists a, b. unfold Add.set_columns. cbn [named rest].
  split.
  { rewrite !dict_get_set.
    destruct (text_eq_dec IS_MILESTONE ACTION) as [E|_]; [discriminate E|].
    destruct (text_eq_dec ACTION ACTION); [reflexivity | congruence]. }
  split.
  { rewrite dict_get_set.
    destruct (text_eq_dec IS_MILESTONE IS_MILESTONE); [reflexivity | congruence]. }
  split; [exact Hab|].
  split; [|reflexivity].
  intros k HA HI. rewrite !dict_get_set.
  destruct (text_eq_dec IS_MILESTONE k); [congruence|].
  destruct (text_eq_dec ACTION k); [congruence | reflexivity].
Qed.

Lemma migrate_row_sets_a_trimmed_action_and_its_flag_witness :
  exists a b,
    dict_get [(str "milestone_text", Some (str " x ")); (ACTION, Some (str "x"));
              (IS_MILESTONE, Some (str "1"))] ACTION = Some (Some a)
    /\ dict_get [(str "milestone_text", Some (str " x ")); (ACTION, Some (str "x"));
                 (IS_MILESTONE, Some (str "1"))] IS_MILESTONE = Some (Some b)
    /\ ((b = str "1" /\ a <> [] /\ strip a = a) \/ (b = str "0" /\ a = []))
    /\ (forall k, k <> ACTION -> k <> IS_MILESTONE ->
          dict_get [(str "milestone_text", Some (str " x ")); (ACTION, Some (str "x"));
                    (IS_MILESTONE, Some (str "1"))] k
          = dict_get [(str "milestone_text", Some (str " x "))] k)
    /\ @None (list text) = None.
Proof.
  apply (migrate_row_sets_a_trimmed_action_and_its_flag
           (mkDict [(str "milestone_text", Some (str " x "))] None)
           (mkDict [(str "milestone_text", Some (str " x ")); (ACTION, Some (str "x"));
                    (IS_MILESTONE, Some (str "1"))] None)).
  vm_compute. reflexivity.
Defined.


(** ** Rows longer than the header *)

Lemma fold_zip_keys (kvs : list (text * text)) : forall d k,
  In k (keys (fold_left zip_step kvs d)) <-> In k (keys d) \/ In k (map fst kvs).
Proof.
  induction kvs as [|[k0 v0] kvs IH]; intros d k; cbn [fold_left map In fst].
  - tauto.
  - rewrite IH. unfold zip_step at 1. cbn [fst snd]. rewrite dict_set_keys.
    intuition congruence.
Qed.

Lemma fold_none_keys (ks : list text) : forall d k,
  In k (keys (fold_left (fun d key => dict_set d key None) ks d))
  <-> In k (keys d) \/ In k ks.
Proof.
  induction ks as [|k0 ks IH]; intros d k; cbn [fold_left In].
  - tauto.
  - rewrite IH, dict_set_keys. intuition congruence.
Qed.

Lemma dict_zip_keys (header r : row) (k : text) :
  In k (keys (dict_zip header r)) <-> In k (firstn (length r) header).
Proof.
  rewrite dict_zip_fold, fold_zip_keys, combine_fst_firstn.
  cbn [keys map In]. tauto.
Qed.

Lemma DictReader_row_keys (header r : row) (k : text) :
  In k (keys (named (DictReader_row header r))) -> In k header.
Proof.
  assert (Hz : In k (keys (dict_zip header r)) -> In k header).
  { rewrite dict_zip_keys. intros H.
    rewrite <- (firstn_skipn (length r) header). apply in_or_app. left. exact H. }
  unfold DictReader_row.
  destruct (length header <? length r); cbn [named]; [exact Hz|].
  destruct (length r <? length header); cbn [named]; [|exact Hz].
  rewrite fold_none_keys. intros [H|H]; [exact (Hz H)|].
  rewrite <- (firstn_skipn (length r) header). apply in_or_app. right. exact H.
Qed.

Lemma DictReader_row_rest (header r : row) :
  rest (DictReader_row header r)
  = if length header <? length r then Some (skipn (length header) r) else None.
Proof.
  unfold DictReader_row.
  destruct (length header <? length r); [reflexivity|].
  destruct (length r <? length header); reflexivity.
Qed.

Lemma first_match_none (items : list (text * option text)) :
  Add.first_match items = None
  <-> forall k, In k (keys items) -> lower k <> MILESTONE_TEXT.
Proof.
  induction items as [|[k0 v0] items IH]; cbn [Add.first_match keys map In fst].
  - split; [intros _ k [] | reflexivity].
  - destruct (text_eq_dec (lower k0) MILESTONE_TEXT) as [E|E].
    + split; [discriminate|]. intros H. exfalso. apply (H k0); [left; reflexivity | exact E].
    + rewrite IH. unfold keys. split.
      * intros H k [<-|Hk]; [exact E | apply H, Hk].
      * intros H k Hk. apply H. right. exact Hk.
Qed.

Lemma matching_column_none (header : row) :
  matching_column header = None
  <-> forall k, In k header -> lower k <> MILESTONE_TEXT.
Proof.
  induction header as [|k0 header IH]; cbn [matching_column In].
  - split; [intros _ k [] | reflexivity].
  - destruct (text_eq_dec (lower k0) MILESTONE_TEXT) as [E|E].
    + split; [discriminate|]. intros H. exfalso. apply (H k0); [left; reflexivity | exact E].
    + destruct (matching_column header) as [p|]; cbn [option_map].
      * split; [discriminate|]. intros H. exfalso.
        assert (Hp : Some p = None); [|discriminate Hp].
        apply IH. intros k Hk. apply H. right. exact Hk.
      * split; [|reflexivity]. intros _ k [<-|Hk]; [exact E|].
        apply (proj1 IH); [reflexivity | exact Hk].
Qed.

(** A row longer than the header has an entry under the key [None]; the
    search through its keys reaches it when no column matches. *)
Lemma long_row_without_column (header r : row) :
  length header < length r -> matching_column header = None ->
  Add.migrate_row (DictReader_row header r) = Raise AttributeError.
Proof.
  intros Hlen Hnone. unfold Add.migrate_row, Add.find_milestone_text.
  rewrite DictReader_row_rest.
  destruct (Nat.ltb_spec (length header) (length r)); [|lia].
  assert (Hm : Add.first_match (named (DictReader_row header r)) = None).
  { apply first_match_none. intros k Hk.
    apply (proj1 (matching_column_none header) Hnone).
    eapply DictReader_row_keys; exact Hk. }
  rewrite Hm. reflexivity.
Qed.

Lemma row_with_column (header r : row) :
  matching_column header <> None ->
  exists r', Add.migrate_row (DictReader_row header r) = Ok r'.
Proof.
  intros Hsome. unfold Add.migrate_row, Add.find_milestone_text.
  rewrite DictReader_row_rest.
  destruct (Add.first_match (named (DictReader_row header r))) as [v|] eqn:Hm.
  { cbn [bind]. destruct v as [s|]; [destruct (truthy s && truthy (strip s))|]; eauto. }
  destruct (Nat.ltb_spec (length header) (length r)) as [Hlen|Hlen];
    [|cbn [bind]; eauto].
  exfalso. apply Hsome. apply matching_column_none. intros k Hk.
  apply (proj1 (first_match_none _) Hm).
  unfold DictReader_row. destruct (Nat.ltb_spec (length header) (length r)); [|lia].
  cbn [named]. apply dict_zip_keys.
  rewrite firstn_all2 by lia. exact Hk.
Qed.

Lemma migrate_row_raises (r : pydict) (e : exn) :
  Add.migrate_row r = Raise e -> e = AttributeError.
Proof.
  unfold Add.migrate_row, Add.find_milestone_text.
  destruct (Add.first_match (named r)) as [[s|]|]; cbn [bind].
  - destruct (truthy s && truthy (strip s)); discriminate.
  - discriminate.
  - destruct (rest r); cbn [bind]; [|discriminate]. intros H; inversion H; reflexivity.
Qed.

Lemma migrate_each_Forall2 (rows : list pydict) : forall migrated,
  migrate_each rows = Ok migrated <->
  Forall2 (fun r r' => Add.migrate_row r = Ok r') rows migrated.
Proof.
  induction rows as [|r rows IH]; intros migrated; cbn [migrate_each].
  - split; intros H; inversion H; subst; [constructor | reflexivity].
  - split.
    + intros H. apply bind_ok_inv in H. destruct H as (r' & Hr' & H).
      apply bind_ok_inv in H. destruct H as (m & Hm & H). inversion H; subst.
      constructor; [exact Hr' | apply IH, Hm].
    + intros H. inversion H; subst. rewrite H2. cbn [bind].
      rewrite (proj2 (IH _) H4). reflexivity.
Qed.

Lemma migrate_each_raises (rows : list pydict) (e : exn) :
  migrate_each rows = Raise e -> e = AttributeError.
Proof.
  induction rows as [|r rows IH]; cbn [migrate_each]; [discriminate|].
  destruct (Add.migrate_row r) as [r'|e'] eqn:E; cbn [bind].
  - destruct (migrate_each rows) as [m|e'']; cbn [bind]; [discriminate|].
    intros H; inversion H; subst. apply IH. reflexivity.
  - intros H; inversion H; subst. eapply migrate_row_raises; exact E.
Qed.

Lemma migrate_row_keys (r r' : pydict) (k : text) :
  Add.migrate_row r = Ok r' -> In k (keys (named r')) ->
  In k (keys (named r)) \/ k = ACTION \/ k = IS_MILESTONE.
Proof.
  intros H. destruct (migrate_row_inv r r' H) as (a & b & -> & _).
  unfold Add.set_columns. cbn [named]. rewrite !dict_set_keys. tauto.
Qed.

Lemma migrate_row_rest (r r' : pydict) :
  Add.migrate_row r = Ok r' -> rest r' = rest r.
Proof.
  intros H. destruct (migrate_row_inv r r' H) as (a & b & -> & _). reflexivity.
Qed.

Lemma dict_to_list_width (fieldnames : list text) (d : pydict) (l : list (option text)) :
  _dict_to_list fieldnames d = Ok l -> length l = length fieldnames.
Proof.
  unfold _dict_to_list. destruct (wrong_fields fieldnames d); [discriminate|].
  intros H. inversion H; subst. apply length_map.
Qed.

Lemma dict_to_list_long (fieldnames : list text) (d : pydict) :
  rest d <> None -> _dict_to_list fieldnames d = Raise ValueError.
Proof.
  intros H. unfold _dict_to_list, wrong_fields.
  destruct (rest d); [|congruence]. rewrite orb_true_r. reflexivity.
Qed.

Lemma dict_to_list_short (fieldnames : list text) (d : pydict) :
  rest d = None -> (forall k, In k (keys (named d)) -> In k fieldnames) ->
  exists l, _dict_to_list fieldnames d = Ok l.
Proof.
  intros Hr Hk. unfold _dict_to_list, wrong_fields.
  rewrite Hr, existsb_false_keys by exact Hk. cbn [orb]. eauto.
Qed.

(** The row written for a record that is not longer than the header,
    and the exception of the writer for one that is. *)
Lemma output_of_short_row (header r : row) (d' : pydict) :
  length r <= length header ->
  Add.migrate_row (DictReader_row header r) = Ok d' ->
  exists l, _dict_to_list (updated header) d' = Ok l.
Proof.
  intros Hlen H. apply dict_to_list_short.
  - rewrite (migrate_row_rest _ _ H), DictReader_row_rest.
    destruct (Nat.ltb_spec (length header) (length r)); [lia | reflexivity].
  - intros k Hk. unfold updated. apply in_or_app.
    destruct (migrate_row_keys _ _ k H Hk) as [Hin|[->| ->]].
    + left. eapply DictReader_row_keys; exact Hin.
    + right. left. reflexivity.
    + right. right. left. reflexivity.
Qed.

Lemma output_of_long_row (header r : row) (d' : pydict) :
  length header < length r ->
  Add.migrate_row (DictReader_row header r) = Ok d' ->
  _dict_to_list (updated header) d' = Raise ValueError.
Proof.
  intros Hlen H. apply dict_to_list_long.
  rewrite (migrate_row_rest _ _ H), DictReader_row_rest.
  destruct (Nat.ltb_spec (length header) (length r)); [discriminate | lia].
Qed.

Lemma rows_written_Forall2 (fieldnames : list text) (ds : list pydict) :
  forall ls,
    rows_written fieldnames ds = (ls, Ok tt) <->
    Forall2 (fun d l => _dict_to_list fieldnames d = Ok l) ds ls.
Proof.
  induction ds as [|d ds IH]; intros ls; cbn [rows_written].
  - split; intros H; inversion H; subst; [constructor | reflexivity].
  - split.
    + destruct (_dict_to_list fieldnames d) as [l|e] eqn:E; [|discriminate].
      destruct (rows_written fieldnames ds) as [ls' res].
      intros H. inversion H; subst. constructor; [exact E|].
      apply IH. reflexivity.
    + intros H. inversion H; subst. rewrite H2.
      rewrite (proj2 (IH _) H4). reflexivity.
Qed.

Lemma rows_written_app (fieldnames : list text) (post : list pydict) :
  forall (pre : list pydict) (ls : list (list (option text))),
    Forall2 (fun d l => _dict_to_list fieldnames d = Ok l) pre ls ->
    rows_written fieldnames (pre ++ post)
    = (ls ++ fst (rows_written fieldnames post), snd (rows_written fieldnames post)).
Proof.
  induction 1 as [|d l pre ls Hd Hpre IH]; cbn [app rows_written].
  - destruct (rows_written fieldnames post). reflexivity.
  - rewrite Hd, IH. reflexivity.
Qed.

Lemma rows_written_width (fieldnames : list text) (ds : list pydict) :
  Forall (fun l => length l = length fieldnames) (fst (rows_written fieldnames ds)).
Proof.
  induction ds as [|d ds IH]; cbn [rows_written]; [constructor|].
  destruct (_dict_to_list fieldnames d) as [l|e] eqn:E; [|constructor].
  destruct (rows_written fieldnames ds) as [ls res]. cbn [fst] in *.
  constructor; [eapply dict_to_list_width; exact E | exact IH].
Qed.

Lemma migrate_each_total (header : row) (recs : list row) :
  matching_column header <> None ->
  exists migrated, migrate_each (map (DictReader_row header) recs) = Ok migrated.
Proof.
  intros Hc. induction recs as [|r recs (m & IH)]; cbn [map migrate_each]; [eauto|].
  destruct (row_with_column header r Hc) as (r' & ->). cbn [bind].
  rewrite IH. cbn [bind]. eauto.
Qed.

Lemma cleaned_header_nonempty (t : text) (header : row) (lines' : list text) :
  Reader_iternext (fst (cleaned_lines t)) = Ok (Some (header, lines')) ->
  header <> [].
Proof.
  destruct (cleaned_lines t) as [[|l ls] k] eqn:E; cbn [fst]; [discriminate|].
  destruct (cleaned_lines_head t l ls k E) as (c & l' & -> & Hc).
  apply Reader_iternext_begun. exact Hc.
Qed.

Lemma nonblank_cons (header : row) (recs : list row) :
  header <> [] -> nonblank (header :: recs) = header :: nonblank recs.
Proof.
  intros H. unfold nonblank. cbn [filter].
  destruct header; [congruence | reflexivity].
Qed.

Lemma add_effect_found (name : string) (t : text) (wr : bool) :
  fst (cleaned_lines t) <> [] ->
  add_effect name (mkFile (Ok t) wr)
  = let (body, log) := add_core name wr (fst (cleaned_lines t)) in
    (match body with
     | Some body => mkFile (Ok body) true
     | None => mkFile (Ok t) wr
     end, leading_msg (snd (cleaned_lines t)) name ++ log).
Proof.
  unfold add_effect. cbn [data writable].
  destruct (cleaned_lines t) as [[|l ls] k]; cbn [fst snd]; [congruence | reflexivity].
Qed.

(** What a run does once the header is found and is not that of a
    migrated file, in terms of the records of the file. *)
Lemma add_core_rows (name : string) (wr : bool) (cleaned : list text)
      (header : row) (lines' : list text) (records : list row) :
  Reader_iternext cleaned = Ok (Some (header, lines')) ->
  header <> [] ->
  contains header ACTION && contains header IS_MILESTONE = false ->
  list_reader cleaned = Ok records ->
  add_core name wr cleaned
  = match migrate_each (map (DictReader_row header) (nonblank records)) with
    | Raise e =>
        (None,
         progress name (length (nonblank records)) 0
                  (map (DictReader_row header) (nonblank records))
           ++ failure name e)
    | Ok migrated =>
        if wr then
          (Some (writerows (map Some (updated header)
                              :: fst (rows_written (updated header) migrated))),
           progress name (length (nonblank records)) 0
                    (map (DictReader_row header) (nonblank records))
             ++ match snd (rows_written (updated header) migrated) with
                | Ok _ => [Add.Success (length migrated) name]
                | Raise e => failure name e
                end)
        else
          (None,
           progress name (length (nonblank records)) 0
                    (map (DictReader_row header) (nonblank records))
             ++ failure name OSError)
    end.
Proof.
  intros Hh Hne Hc Hr. unfold add_core. rewrite Hh, Hc.
  unfold DictReader_list. rewrite Hr. cbn [bind].
  change (filter (fun r => negb (is_blank_record r)) records) with (nonblank records).
  assert (Hrec : exists recs, records = header :: recs).
  { rewrite list_reader_eq, Hh in Hr. cbn [bind] in Hr.
    destruct (list_reader lines') as [recs|e]; cbn [bind] in Hr; [|discriminate].
    inversion Hr. eauto. }
  destruct Hrec as (recs & ->). rewrite (nonblank_cons header recs Hne).
  cbn [map]. remember (DictReader_row header header :: map (DictReader_row header) (nonblank recs))
    as rows eqn:Hrows.
  assert (Hlen : length rows = length (header :: nonblank recs)).
  { rewrite Hrows. cbn [length]. rewrite length_map. reflexivity. }
  rewrite <- Hlen.
  replace (match rows with
           | [] => (@None text, [Add.NoDataRows name])
           | _ :: _ =>
               let log := progress name (length rows) 0 rows in
               match migrate_each rows with
               | Ok migrated =>
                   if wr
                   then
                     let (ls, res) := rows_written (updated header) migrated in
                     (Some (writerows (map Some (updated header) :: ls)),
                      log ++ match res with
                             | Ok _ => [Add.Success (length migrated) name]
                             | Raise e => failure name e
                             end)
                   else (None, log ++ failure name OSError)
               | Raise e => (None, log ++ failure name e)
               end
           end)
    with (let log := progress name (length rows) 0 rows in
          match migrate_each rows with
          | Ok migrated =>
              if wr
              then
                let (ls, res) := rows_written (updated header) migrated in
                (Some (writerows (map Some (updated header) :: ls)),
                 log ++ match res with
                        | Ok _ => [Add.Success (length migrated) name]
                        | Raise e => failure name e
                        end)
              else (None, log ++ failure name OSError)
          | Raise e => (None, log ++ failure name e)
          end)
    by (rewrite Hrows; reflexivity).
  cbv zeta. destruct (migrate_each rows) as [migrated|e]; [|reflexivity].
  destruct wr; [|reflexivity].
  destruct (rows_written (updated header) migrated) as [ls res]. reflexivity.
Qed.

Lemma short_rows_written (header : row) (pre : list row) :
  forall m1,
    Forall (fun r => length r <= length header) pre ->
    Forall2 (fun r d' => Add.migrate_row r = Ok d') (map (DictReader_row header) pre) m1 ->
    exists ls,
      Forall2 (fun d l => _dict_to_list (updated header) d = Ok l) m1 ls
      /\ Forall2 (fun r l => add_output_row header r = Ok (map field_text l)) pre ls.
Proof.
  induction pre as [|r pre IH]; intros m1 Hlen H; cbn [map] in H.
  - inversion H; subst. exists []. split; constructor.
  - inversion H as [|x y l0 l1 Hxy Hrest]; subst.
    inversion Hlen as [|x' l2 Hr Hpre']; subst.
    destruct (IH _ Hpre' Hrest) as (ls & Hls & Hout).
    destruct (output_of_short_row header r y Hr Hxy) as (l & Hl).
    exists (l :: ls). split; constructor; try assumption.
    unfold add_output_row. rewrite Hxy. cbn [bind]. rewrite Hl. reflexivity.
Qed.

Lemma Forall2_In_left {A B : Type} (R : A -> B -> Prop) (l : list A) :
  forall (l' : list B) (x : A), Forall2 R l l' -> In x l -> exists y, R x y.
Proof.
  induction l as [|a l IH]; intros l' x H Hin; [destruct Hin|].
  inversion H; subst. destruct Hin as [<-|Hin]; [eauto|]. eapply IH; eassumption.
Qed.

Lemma no_success_in (name : string) (k : nat) (rows : list pydict) (total : nat) (n : nat) :
  ~ In (Add.Success n name) (leading_msg k name ++ progress name total 0 rows).
Proof.
  rewrite in_app_iff. intros [H|H].
  - unfold leading_msg in H. destruct (0 <? k); [|destruct H].
    destruct H as [H|[]]. discriminate.
  - apply progress_only in H. destruct H as (d & H). discriminate.
Qed.

Lemma cleaned_nonempty (t : text) (header : row) (lines' : list text) :
  Reader_iternext (fst (cleaned_lines t)) = Ok (Some (header, lines')) ->
  fst (cleaned_lines t) <> [].
Proof. intros H E. rewrite E in H. discriminate. Qed.

(** X6. When a column of the header matches [milestone_text] and a row
    is longer than the header, the add-variant has already opened the
    file for writing when [DictWriter] raises [ValueError] on that row:
    the file is left with the new header and the rows written for the
    records before the first long one, each as the add-variant writes it;
    the long row and every row after it are gone, the error is reported
    and no success. *)
Theorem add_long_row_loses_the_rows_from_it_on
        (name : string) (t : text) (out : list Add.msg)
        (header : row) (lines' : list text) (records pre : list row) (long : row)
        (post : list row) :
  Reader_iternext (fst (cleaned_lines t)) = Ok (Some (header, lines')) ->
  contains header ACTION && contains header IS_MILESTONE = false ->
  matching_column header <> None ->
  list_reader (fst (cleaned_lines t)) = Ok records ->
  nonblank records = pre ++ long :: post ->
  Forall (fun r => length r <= length header) pre ->
  length header < length long ->
  exists ls log,
    Add.migrate_file name (mkWorld (mkFile (Ok t) true) out)
    = (mkWorld (mkFile (Ok (writerows (map Some (updated header) :: ls))) true)
               (out ++ Add.Processing name
                    :: log ++ [Add.ErrorProcessing name ValueError; Add.Traceback]),
       Ok tt)
    /\ Forall2 (fun r l => add_output_row header r = Ok (map field_text l)) pre ls
    /\ forall n, ~ In (Add.Success n name) log.
Proof.
  intros Hh Hc Hcol Hr Hsplit Hpre Hlong.
  pose proof (cleaned_header_nonempty t header lines' Hh) as Hne.
  rewrite migrate_file_run.
  rewrite (add_effect_found name t true (cleaned_nonempty t header lines' Hh)).
  rewrite (add_core_rows name true _ header lines' records Hh Hne Hc Hr).
  destruct (migrate_each_total header (nonblank records) Hcol) as (migrated & Hm).
  rewrite Hm.
  apply migrate_each_Forall2 in Hm. rewrite Hsplit, map_app in Hm.
  apply Forall2_app_inv_l in Hm. destruct Hm as (m1 & m2 & H1 & H2 & ->).
  cbn [map] in H2. inversion H2 as [|x y l0 m3 Hxy Hrest]; subst.
  destruct (short_rows_written header pre m1 Hpre H1) as (ls & Hls & Hout).
  rewrite (rows_written_app (updated header) (y :: m3) m1 ls Hls).
  cbn [rows_written]. rewrite (output_of_long_row header long y Hlong Hxy).
  cbn [fst snd]. rewrite app_nil_r.
  exists ls. eexists. split; [|split; [exact Hout|]].
  - cbn [fst snd failure]. rewrite app_assoc. reflexivity.
  - intros n. apply no_success_in.
Qed.

Lemma add_long_row_loses_the_rows_from_it_on_witness :
  exists ls log,
    Add.migrate_file "log-data.csv" (mkWorld (mkFile (Ok long_row_text) true) [])
    = (mkWorld (mkFile (Ok (writerows (map Some (updated [str "id"; str "milestone_text"])
                                         :: ls))) true)
               ([] ++ Add.Processing "log-data.csv"
                   :: log ++ [Add.ErrorProcessing "log-data.csv" ValueError;
                              Add.Traceback]),
       Ok tt)
    /\ Forall2 (fun r l => add_output_row [str "id"; str "milestone_text"] r
                           = Ok (map field_text l))
               [[str "id"; str "milestone_text"]; [str "1"; str "x"]] ls
    /\ forall n, ~ In (Add.Success n "log-data.csv") log.
Proof.
  eapply (add_long_row_loses_the_rows_from_it_on
            "log-data.csv"%string long_row_text [] [str "id"; str "milestone_text"] _
            [[str "id"; str "milestone_text"]; [str "1"; str "x"];
             [str "2"; str "y"; str "extra"]; [str "3"; str "z"]]
            [[str "id"; str "milestone_text"]; [str "1"; str "x"]]
            [str "2"; str "y"; str "extra"]
            [[str "3"; str "z"]]).
  - vm_compute. reflexivity.
  - vm_compute. reflexivity.
  - vm_compute. discriminate.
  - vm_compute. reflexivity.
  - vm_compute. reflexivity.
  - repeat constructor.
  - cbn [length]. lia.
Defined.


(** X7. When no column of the header matches [milestone_text] and a row
    is longer than the header, the search through the keys of that row
    reaches the key [None] and raises [AttributeError] before the file is
    opened for writing: the file is left as it is, the error is reported
    and no success. *)
Theorem add_long_row_without_the_column_changes_nothing
        (name : string) (t : text) (wr : bool) (out : list Add.msg)
        (header : row) (lines' : list text) (records : list row) (long : row) :
  Reader_iternext (fst (cleaned_lines t)) = Ok (Some (header, lines')) ->
  contains header ACTION && contains header IS_MILESTONE = false ->
  matching_column header = None ->
  list_reader (fst (cleaned_lines t)) = Ok records ->
  In long records -> length header < length long ->
  exists log,
    Add.migrate_file name (mkWorld (mkFile (Ok t) wr) out)
    = (mkWorld (mkFile (Ok t) wr)
               (out ++ Add.Processing name
                    :: log ++ [Add.ErrorProcessing name AttributeError; Add.Traceback]),
       Ok tt)
    /\ forall n, ~ In (Add.Success n name) log.
Proof.
  intros Hh Hc Hcol Hr Hin Hlong.
  pose proof (cleaned_header_nonempty t header lines' Hh) as Hne.
  rewrite migrate_file_run.
  rewrite (add_effect_found name t wr (cleaned_nonempty t header lines' Hh)).
  rewrite (add_core_rows name wr _ header lines' records Hh Hne Hc Hr).
  assert (Hrow : In (DictReader_row header long)
                    (map (DictReader_row header) (nonblank records))).
  { apply in_map. unfold nonblank. apply filter_In. split; [exact Hin|].
    destruct long; [cbn [length] in Hlong; lia | reflexivity]. }
  destruct (migrate_each (map (DictReader_row header) (nonblank records)))
    as [migrated|e] eqn:Hm.
  - exfalso. apply migrate_each_Forall2 in Hm.
    destruct (Forall2_In_left _ _ _ _ Hm Hrow) as (r' & Hr').
    rewrite (long_row_without_column header long Hlong Hcol) in Hr'. discriminate.
  - apply migrate_each_raises in Hm. subst e.
    eexists. split.
    + cbn [fst snd failure]. rewrite app_assoc. reflexivity.
    + intros n. apply no_success_in.
Qed.

Lemma add_long_row_without_the_column_changes_nothing_witness :
  exists log,
    Add.migrate_file "log-data.csv"
      (mkWorld (mkFile (Ok long_row_no_column_text) true) [])
    = (mkWorld (mkFile (Ok long_row_no_column_text) true)
               ([] ++ Add.Processing "log-data.csv"
                   :: log ++ [Add.ErrorProcessing "log-data.csv" AttributeError;
                              Add.Traceback]),
       Ok tt)
    /\ forall n, ~ In (Add.Success n "log-data.csv") log.
Proof.
  eapply (add_long_row_without_the_column_changes_nothing
            "log-data.csv"%string long_row_no_column_text true []
            [str "id"; str "note"] _
            [[str "id"; str "note"]; [str "1"; str "a"; str "b"]]
            [str "1"; str "a"; str "b"]).
  - vm_compute. reflexivity.
  - vm_compute. reflexivity.
  - vm_compute. reflexivity.
  - vm_compute. reflexivity.
  - right. left. reflexivity.
  - cbn [length]. lia.
Defined.


(** ** What a successful run of the add-variant has written *)

Lemma add_core_some_inv (name : string) (wr : bool) (cleaned : list text)
      (body : text) (log : list Add.msg) :
  add_core name wr cleaned = (Some body, log) ->
  exists header lines' records migrated,
    Reader_iternext cleaned = Ok (Some (header, lines'))
    /\ contains header ACTION && contains header IS_MILESTONE = false
    /\ list_reader cleaned = Ok records
    /\ migrate_each (map (DictReader_row header) (nonblank records)) = Ok migrated
    /\ wr = true.
Proof.
  unfold add_core, DictReader_list.
  destruct (Reader_iternext cleaned) as [[[header lines']|]|e] eqn:Hh; try discriminate.
  destruct (contains header ACTION && contains header IS_MILESTONE) eqn:Hc;
    [discriminate|].
  destruct (list_reader cleaned) as [records|e] eqn:Hr; cbn [bind]; [|discriminate].
  change (filter (fun r => negb (is_blank_record r)) records) with (nonblank records).
  destruct (map (DictReader_row header) (nonblank records)) as [|r rows] eqn:Hrows;
    [discriminate|].
  remember (r :: rows) as rows0 eqn:Hrows0.
  destruct (migrate_each rows0) as [migrated|e] eqn:Hmig; [|discriminate].
  destruct wr; [|discriminate].
  intros _. exists header, lines', records, migrated.
  repeat split; try assumption. rewrite Hrows. exact Hmig.
Qed.

(** X8. A run of the add-variant that reports the success of [n]
    sessions has read the records of the file after its leading blank
    lines, header line first, and has written the new header followed by
    one row for every record that has a field, the header line among
    them, each row as the add-variant writes it for that record; [n] is
    one more than the number of such records after the header line. *)
Theorem add_success_writes_every_nonblank_record
        (name : string) (f : file) (n : nat) :
  In (Add.Success n name) (stdout (add_alone name f)) ->
  exists t header recs ls,
    data f = Ok t
    /\ list_reader (fst (cleaned_lines t)) = Ok (header :: recs)
    /\ st (add_alone name f)
       = mkFile (Ok (writerows (map Some (updated header) :: ls))) true
    /\ Forall2 (fun r l => add_output_row header r = Ok (map field_text l))
               (header :: nonblank recs) ls
    /\ n = S (length (nonblank recs)).
Proof.
  rewrite add_alone_effect. cbn [stdout st In].
  intros [Hin|Hin]; [discriminate|].
  destruct f as [[t|e] wr].
  2: { unfold add_effect in Hin. cbn [data snd failure In] in Hin.
       intuition discriminate. }
  destruct (fst (cleaned_lines t)) as [|l ls0] eqn:Hcl.
  { unfold add_effect in Hin. cbn [data] in Hin.
    destruct (cleaned_lines t) as [cleaned k]. cbn [fst] in Hcl. subst cleaned.
    cbn [snd In] in Hin. intuition discriminate. }
  assert (Hne : fst (cleaned_lines t) <> []) by (rewrite Hcl; discriminate).
  rewrite (add_effect_found name t wr Hne) in *.
  destruct (add_core name wr (fst (cleaned_lines t))) as [[body|] log] eqn:Hcore.
  2: { exfalso. cbn [snd] in Hin. apply in_app_iff in Hin. destruct Hin as [Hin|Hin].
       - unfold leading_msg in Hin. destruct (0 <? _); [|destruct Hin].
         destruct Hin as [Hin|[]]. discriminate.
       - eapply add_core_success; eassumption. }
  destruct (add_core_some_inv _ _ _ _ _ Hcore)
    as (header & lines' & records & migrated & Hh & Hc & Hr & Hm & ->).
  pose proof (cleaned_header_nonempty t header lines' Hh) as Hhne.
  rewrite (add_core_rows name true _ header lines' records Hh Hhne Hc Hr), Hm in Hcore.
  inversion Hcore; subst body log. clear Hcore.
  assert (Hrec : exists recs, records = header :: recs).
  { rewrite list_reader_eq, Hh in Hr. cbn [bind] in Hr.
    destruct (list_reader lines') as [recs|e]; cbn [bind] in Hr; [|discriminate].
    inversion Hr. eauto. }
  destruct Hrec as (recs & ->).
  rewrite (nonblank_cons header recs Hhne) in *.
  cbn [snd fst] in *.
  apply in_app_iff in Hin. destruct Hin as [Hin|Hin].
  { exfalso. unfold leading_msg in Hin. destruct (0 <? _); [|destruct Hin].
    destruct Hin as [Hin|[]]. discriminate. }
  apply in_app_iff in Hin. destruct Hin as [Hin|Hin].
  { exfalso. apply progress_only in Hin. destruct Hin as (d & Hd). discriminate. }
  destruct (rows_written (updated header) migrated) as [ls res] eqn:Hw.
  cbn [fst snd] in *.
  destruct res as [[]|e]; [|cbn [failure In] in Hin; intuition discriminate].
  destruct Hin as [Hin|[]]. inversion Hin; subst n.
  apply rows_written_Forall2 in Hw. apply migrate_each_Forall2 in Hm.
  exists t, header, recs, ls.
  split; [reflexivity|]. split; [exact Hr|]. split; [reflexivity|].
  split.
  - clear - Hm Hw. remember (header :: nonblank recs) as rs eqn:Hrs. clear Hrs.
    revert migrated ls Hm Hw.
    induction rs as [|r rs IH]; intros migrated ls Hm Hw; cbn [map] in Hm.
    + inversion Hm; subst. inversion Hw; subst. constructor.
    + inversion Hm as [|x y l0 l1 Hxy Hrest]; subst.
      inversion Hw as [|x' y' l2 l3 Hxy' Hrest']; subst.
      constructor; [|eapply IH; eassumption].
      unfold add_output_row. rewrite Hxy. cbn [bind]. rewrite Hxy'. reflexivity.
  - apply Forall2_length in Hm. rewrite length_map in Hm. cbn [length] in Hm.
    symmetry. exact Hm.
Qed.

Lemma add_success_writes_every_nonblank_record_witness :
  exists t header recs ls,
    data (mkFile (Ok small_table_text) true) = Ok t
    /\ list_reader (fst (cleaned_lines t)) = Ok (header :: recs)
    /\ st (add_alone "log-data.csv" (mkFile (Ok small_table_text) true))
       = mkFile (Ok (writerows (map Some (updated header) :: ls))) true
    /\ Forall2 (fun r l => add_output_row header r = Ok (map field_text l))
               (header :: nonblank recs) ls
    /\ 2 = S (length (nonblank recs)).
Proof.
  apply (add_success_writes_every_nonblank_record
           "log-data.csv"%string (mkFile (Ok small_table_text) true) 2).
  vm_compute. right. left. reflexivity.
Defined.


(** The rows [DictWriter.writerows] has written are those of the records
    before the first one that it rejects. *)
Lemma written_prefix (header : row) :
  forall (rs : list row) (migrated : list pydict),
    Forall2 (fun r d' => Add.migrate_row r = Ok d') (map (DictReader_row header) rs) migrated ->
    exists pre post,
      rs = pre ++ post
      /\ Forall2 (fun r l => add_output_row header r = Ok (map field_text l))
                 pre (fst (rows_written (updated header) migrated))
      /\ match snd (rows_written (updated header) migrated) with
         | Ok _ => post = []
         | Raise e => exists r post', post = r :: post' /\ add_output_row header r = Raise e
         end.
Proof.
  induction rs as [|r rs IH]; intros migrated H; cbn [map] in H.
  - inversion H; subst. exists [], []. cbn. repeat split; constructor.
  - inversion H as [|x d l0 migrated' Hd Hrest]; subst.
    cbn [rows_written].
    destruct (_dict_to_list (updated header) d) as [l|e] eqn:Hl.
    + destruct (IH migrated' Hrest) as (pre & post & Hrs & Hpre & Hpost).
      destruct (rows_written (updated header) migrated') as [ls res]. cbn [fst snd] in *.
      exists (r :: pre), post. split; [rewrite Hrs; reflexivity|]. split; [|exact Hpost].
      constructor; [|exact Hpre].
      unfold add_output_row. rewrite Hd. cbn [bind]. rewrite Hl. reflexivity.
    + exists [], (r :: rs). cbn [fst snd app]. split; [reflexivity|]. split; [constructor|].
      exists r, rs. split; [reflexivity|].
      unfold add_output_row. rewrite Hd. cbn [bind]. rewrite Hl. reflexivity.
Qed.

(** A run of the add-variant leaves the file as it is, or has written
    the header of the file with the two names appended and then the rows
    of the records up to the first one that the writer rejects. *)
Lemma add_rewrite_inv (name : string) (f : file) :
  fst (add_effect name f) = f
  \/ exists t header recs pre post ls,
       data f = Ok t
       /\ list_reader (fst (cleaned_lines t)) = Ok (header :: recs)
       /\ header :: nonblank recs = pre ++ post
       /\ Forall2 (fun r l => add_output_row header r = Ok (map field_text l)) pre ls
       /\ (post = []
           \/ exists r post' e, post = r :: post' /\ add_output_row header r = Raise e)
       /\ fst (add_effect name f)
          = mkFile (Ok (writerows (map Some (updated header) :: ls))) true
       /\ read_table (writerows (map Some (updated header) :: ls))
          = Ok (updated header :: map (map field_text) ls)
       /\ Forall (fun l => length l = length (updated header)) ls.
Proof.
  destruct f as [[t|e] wr]; [|left; reflexivity].
  destruct (fst (cleaned_lines t)) as [|l ls0] eqn:Hcl.
  { left. unfold add_effect. cbn [data].
    destruct (cleaned_lines t) as [cleaned k]. cbn [fst] in Hcl. subst cleaned.
    reflexivity. }
  assert (Hne : fst (cleaned_lines t) <> []) by (rewrite Hcl; discriminate).
  rewrite (add_effect_found name t wr Hne).
  destruct (add_core name wr (fst (cleaned_lines t))) as [[body|] log] eqn:Hcore;
    [|left; reflexivity].
  right.
  destruct (add_core_some_inv _ _ _ _ _ Hcore)
    as (header & lines' & records & migrated & Hh & Hc & Hr & Hm & ->).
  pose proof (cleaned_header_nonempty t header lines' Hh) as Hhne.
  rewrite (add_core_rows name true _ header lines' records Hh Hhne Hc Hr), Hm in Hcore.
  inversion Hcore; subst body log. clear Hcore.
  assert (Hrec : exists recs, records = header :: recs).
  { rewrite list_reader_eq, Hh in Hr. cbn [bind] in Hr.
    destruct (list_reader lines') as [recs|e]; cbn [bind] in Hr; [|discriminate].
    inversion Hr. eauto. }
  destruct Hrec as (recs & ->).
  rewrite (nonblank_cons header recs Hhne) in Hm.
  pose proof Hm as Hm2. apply migrate_each_Forall2 in Hm2.
  destruct (written_prefix header _ _ Hm2) as (pre & post & Hsplit & Hpre & Hpost).
  exists t, header, recs, pre, post, (fst (rows_written (updated header) migrated)).
  cbn [fst]. split; [reflexivity|]. split; [exact Hr|]. split; [exact Hsplit|].
  split; [exact Hpre|]. split.
  { destruct (snd (rows_written (updated header) migrated)) as [u|e]; [left; exact Hpost|].
    right. destruct Hpost as (r & post' & Hp & He). exists r, post', e. auto. }
  split; [reflexivity|]. split.
  - unfold read_table. rewrite list_reader_writerows.
    + cbn [map]. rewrite map_field_text_Some. reflexivity.
    + constructor.
      * rewrite map_field_text_Some. apply within_limit_updated.
        eapply Reader_iternext_within_limit; exact Hh.
      * apply rows_written_readable.
        eapply migrate_each_within; [|exact Hm].
        eapply (DictReader_list_within header).
        unfold DictReader_list. rewrite Hr.
        rewrite <- (nonblank_cons header recs Hhne). reflexivity.
  - apply rows_written_width.
Qed.


(** ** The outcomes of the drop-variant on one file *)

Lemma list_reader_nil (lines : list text) : list_reader lines = Ok [] -> lines = [].
Proof.
  destruct lines as [|l ls]; [reflexivity|].
  rewrite list_reader_eq.
  pose proof (Reader_loop_not_none (l :: ls) parse_reset) as Hn.
  unfold Reader_iternext.
  destruct (Reader_loop parse_reset (l :: ls)) as [[[rec lines']|]|e]; cbn [bind].
  - destruct (list_reader lines'); cbn [bind]; discriminate.
  - exfalso. apply Hn; [left; discriminate | reflexivity].
  - discriminate.
Qed.

Lemma readlines_nil (t : text) : readlines t = [] -> t = [].
Proof. intros H. rewrite <- (concat_readlines t), H. reflexivity. Qed.

Lemma translate_newlines_nil (t : text) : translate_newlines t = [] -> t = [].
Proof.
  destruct t as [|c t]; [reflexivity|]. cbn [translate_newlines].
  destruct (c =? CR)%N; [|discriminate].
  destruct t as [|c' t]; [discriminate|]. destruct (c' =? LF)%N; discriminate.
Qed.

Lemma read_table_universal_nil (t : text) : read_table_universal t = Ok [] -> t = [].
Proof.
  intros H. apply translate_newlines_nil, readlines_nil, list_reader_nil. exact H.
Qed.

(** X10. The outcomes of the drop-variant on one file.  Either the file
    is writable, its table has a header with a [milestone_text] column,
    the table without that column is written, the position, the number of
    data rows and the new header are printed and [True] is returned; or
    the file is left as it is, [False] is returned and just one reason is
    printed: the file is empty (it has no character at all), the header
    has no such column, the reader met the field limit, the file could
    not be opened for writing (after the position was printed), or the
    file could not be read. *)
Theorem drop_outcomes (name : string) (f : file) (out : list Drop.msg) :
  (exists t header rows i,
      f = mkFile (Ok t) true
      /\ read_table_universal t = Ok (header :: rows)
      /\ index MILESTONE_TEXT header = Some i
      /\ Drop.migrate_csv_file name (mkWorld f out)
         = (mkWorld (mkFile (Ok (writerows (map Drop.as_fields (drop_table i header rows))))
                            true)
                    (out ++ [Drop.Processing name; Drop.FoundAt i;
                             Drop.Migrated (length rows);
                             Drop.NewHeader (join_comma (Drop.cut i header))]),
            Ok true))
  \/ (exists log,
        Drop.migrate_csv_file name (mkWorld f out)
        = (mkWorld f (out ++ Drop.Processing name :: log), Ok false)
        /\ ((log = [Drop.FileEmpty] /\ data f = Ok [])
            \/ (log = [Drop.NoColumn]
                /\ exists t header rows,
                     data f = Ok t /\ read_table_universal t = Ok (header :: rows)
                     /\ index MILESTONE_TEXT header = None)
            \/ (log = [Drop.ErrorProcessing CsvFieldLimit]
                /\ exists t, data f = Ok t
                             /\ read_table_universal t = Raise CsvFieldLimit)
            \/ (exists t header rows i,
                  log = [Drop.FoundAt i; Drop.ErrorProcessing OSError]
                  /\ writable f = false
                  /\ data f = Ok t /\ read_table_universal t = Ok (header :: rows)
                  /\ index MILESTONE_TEXT header = Some i)
            \/ (exists e, log = [Drop.ErrorProcessing e] /\ data f = Raise e))).
Proof.
  destruct f as [[t|e] wr].
  2: { right. exists [Drop.ErrorProcessing e]. split.
       - unfold Drop.migrate_csv_file, bind_io, try_except, print, read_text_universal,
           lift, ret. cbn [st stdout data bind]. rewrite <- !app_assoc. reflexivity.
       - do 4 right. exists e. split; reflexivity. }
  destruct (read_table_universal t) as [[|header rows]|e] eqn:Hread.
  - right. exists [Drop.FileEmpty].
    pose proof (read_table_universal_nil t Hread) as ->.
    split; [|left; split; reflexivity].
    unfold Drop.migrate_csv_file, bind_io, try_except, print, read_text_universal,
      lift, ret. cbn. rewrite <- !app_assoc. reflexivity.
  - destruct (index MILESTONE_TEXT header) as [i|] eqn:Hidx.
    + destruct wr.
      * left. exists t, header, rows, i. repeat split; try assumption.
        apply drop_run_migrated; assumption.
      * right. exists [Drop.FoundAt i; Drop.ErrorProcessing OSError]. split.
        -- unfold read_table_universal in Hread.
           unfold Drop.migrate_csv_file, bind_io, try_except, print, read_text_universal,
             lift, open_w, write, ret.
           cbn [st stdout data writable bind]. rewrite Hread, Hidx.
           cbn [st stdout data writable bind]. rewrite <- !app_assoc. reflexivity.
        -- do 3 right. left. exists t, header, rows, i. repeat split; assumption.
    + right. exists [Drop.NoColumn]. split.
      * apply (drop_run_no_column name t wr out header rows); assumption.
      * right. left. split; [reflexivity|]. exists t, header, rows. repeat split; assumption.
  - right. exists [Drop.ErrorProcessing e].
    assert (He : e = CsvFieldLimit).
    { pose proof (reader_rounds_shape
                    (S (length (readlines (translate_newlines t)))) _
                    (readlines_shape (translate_newlines t))) as H.
      unfold read_table_universal, list_reader in Hread. rewrite Hread in H. exact H. }
    subst e. split.
    + unfold read_table_universal in Hread.
      unfold Drop.migrate_csv_file, bind_io, try_except, print, read_text_universal,
        lift, ret.
      cbn [st stdout data bind]. rewrite Hread.
      cbn [st stdout]. rewrite <- !app_assoc. reflexivity.
    + do 2 right. left. split; [reflexivity|]. exists t. split; [reflexivity | assumption].
Qed.

Lemma translate_leading_newline (c : char) (t : text) :
  newline c -> exists u, translate_newlines (c :: t) = LF :: u.
Proof.
  intros [->| ->]; cbn [translate_newlines].
  - change (LF =? CR)%N with false. eauto.
  - change (CR =? CR)%N with true.
    destruct t as [|c' t]; [eauto|]. destruct (c' =? LF)%N; eauto.
Qed.

Lemma read_after_an_empty_line (u : text) :
  list_reader (readlines (LF :: u))
  = recs <- list_reader (readlines u) ;; Ok ([] :: recs).
Proof.
  change (readlines (LF :: u)) with ([LF] :: readlines u).
  rewrite list_reader_eq. reflexivity.
Qed.

(** X11. A file that begins with a line end is never migrated by the
    drop-variant: its first record is empty, so the header has no
    [milestone_text] column; the file is left as it is and [False] is
    returned (after the error of the field limit, if a later record
    raises it). *)
Theorem drop_skips_a_file_that_begins_with_a_line_end
        (name : string) (c : char) (t : text) (wr : bool) (out : list Drop.msg) :
  newline c ->
  exists reason,
    Drop.migrate_csv_file name (mkWorld (mkFile (Ok (c :: t)) wr) out)
    = (mkWorld (mkFile (Ok (c :: t)) wr) (out ++ [Drop.Processing name; reason]),
       Ok false)
    /\ (reason = Drop.NoColumn \/ reason = Drop.ErrorProcessing CsvFieldLimit).
Proof.
  intros Hc. destruct (translate_leading_newline c t Hc) as (u & Hu).
  assert (Hread : read_table_universal (c :: t)
                  = recs <- list_reader (readlines u) ;; Ok ([] :: recs)).
  { unfold read_table_universal. rewrite Hu. apply read_after_an_empty_line. }
  pose proof (reader_rounds_shape (S (length (readlines u))) (readlines u)
                (readlines_shape u)) as Herr.
  fold (list_reader (readlines u)) in Herr.
  destruct (list_reader (readlines u)) as [recs|e]; cbn [bind] in Hread.
  - exists Drop.NoColumn. split; [|left; reflexivity].
    apply (drop_run_no_column name (c :: t) wr out [] recs); [exact Hread | reflexivity].
  - cbn [only_field_limit] in Herr. subst e.
    exists (Drop.ErrorProcessing CsvFieldLimit). split; [|right; reflexivity].
    unfold read_table_universal in Hread.
    unfold Drop.migrate_csv_file, bind_io, try_except, print, read_text_universal,
      lift, ret.
    cbn [st stdout data bind]. rewrite Hread.
    cbn [st stdout]. rewrite <- !app_assoc. reflexivity.
Qed.

Lemma drop_skips_a_file_that_begins_with_a_line_end_witness :
  exists reason,
    Drop.migrate_csv_file "log-data.csv"
      (mkWorld (mkFile (Ok (LF :: small_table_text)) true) [])
    = (mkWorld (mkFile (Ok (LF :: small_table_text)) true)
               ([] ++ [Drop.Processing "log-data.csv"; reason]),
       Ok false)
    /\ (reason = Drop.NoColumn \/ reason = Drop.ErrorProcessing CsvFieldLimit).
Proof.
  apply (drop_skips_a_file_that_begins_with_a_line_end
           "log-data.csv"%string LF small_table_text true []).
  left. reflexivity.
Defined.


(** ** Files within the field limit are always read *)

Lemma step_room (self : ReaderObj) (c : char) :
  (N.of_nat (length (field self)) < field_limit)%N ->
  match parse_process_char self (Ch c) with
  | Ok s => length (field s) <= S (length (field self))
  | Raise e => e = CsvNewlineInField
  end.
Proof.
  intros Hroom. apply N.leb_gt in Hroom.
  unfold parse_process_char, parse_start_field, parse_add_char.
  cbn [set_state field]. rewrite Hroom.
  destruct (state self);
    repeat match goal with
           | |- context [if ?b then _ else _] => destruct b
           end;
    cbn [bind set_state parse_save_field field length];
    first [reflexivity | rewrite length_app; cbn [length]; lia | lia].
Qed.

Lemma step_EOL_room (self : ReaderObj) :
  match parse_process_char self EOL with
  | Ok s => length (field s) <= length (field self)
  | Raise _ => False
  end.
Proof.
  unfold parse_process_char, parse_start_field.
  destruct (state self); cbn [set_state parse_save_field field length]; lia.
Qed.

Lemma parse_chars_room (l : text) : forall self,
  (N.of_nat (length (field self) + length l) <= field_limit)%N ->
  match parse_chars self l with
  | Ok s => length (field s) <= length (field self) + length l
  | Raise e => e = CsvNewlineInField
  end.
Proof.
  induction l as [|c l IH]; intros self Hroom; cbn [parse_chars].
  - lia.
  - cbn [length] in Hroom.
    assert (H1 : (N.of_nat (length (field self)) < field_limit)%N) by lia.
    pose proof (step_room self c H1) as Hc.
    destruct (parse_process_char self (Ch c)) as [s|e]; cbn [bind]; [|exact Hc].
    assert (H2 : (N.of_nat (length (field s) + length l) <= field_limit)%N) by lia.
    pose proof (IH s H2) as Hl.
    destruct (parse_chars s l) as [s'|e]; [|exact Hl].
    cbn [length]. lia.
Qed.

Lemma parse_line_room (l : text) (self : ReaderObj) :
  (N.of_nat (length (field self) + length l) <= field_limit)%N ->
  match parse_line self l with
  | Ok s => length (field s) <= length (field self) + length l
  | Raise e => e = CsvNewlineInField
  end.
Proof.
  intros Hroom. unfold parse_line.
  pose proof (parse_chars_room l self Hroom) as Hl.
  destruct (parse_chars self l) as [s|e]; cbn [bind]; [|exact Hl].
  pose proof (step_EOL_room s) as He.
  destruct (parse_process_char s EOL) as [s'|e]; [lia | destruct He].
Qed.

Lemma Reader_loop_room (lines : list text) : forall self,
  (N.of_nat (length (field self) + length (concat lines)) <= field_limit)%N ->
  match Reader_loop self lines with
  | Ok (Some (_, lines')) => length (concat lines') <= length (concat lines)
  | Ok None => True
  | Raise e => e = CsvNewlineInField
  end.
Proof.
  induction lines as [|l lines IH]; intros self Hroom; cbn [Reader_loop].
  - destruct (_ || _); [cbn [concat length]; lia | exact I].
  - cbn [concat] in *. rewrite length_app in *.
    assert (H1 : (N.of_nat (length (field self) + length l) <= field_limit)%N) by lia.
    pose proof (parse_line_room l self H1) as Hl.
    destruct (parse_line self l) as [s|e]; cbn [bind]; [|exact Hl].
    assert (H2 : (N.of_nat (length (field s) + length (concat lines)) <= field_limit)%N)
      by lia.
    pose proof (IH s H2) as Hrest.
    destruct (state s); try lia;
      destruct (Reader_loop s lines) as [[[r lines']|]|e]; try exact Hrest; try exact I; lia.
Qed.

Lemma reader_rounds_room (n : nat) : forall lines,
  (N.of_nat (length (concat lines)) <= field_limit)%N ->
  match reader_rounds n lines with
  | Ok _ => True
  | Raise e => e = CsvNewlineInField
  end.
Proof.
  induction n as [|n IH]; intros lines Hroom; cbn [reader_rounds]; [exact I|].
  pose proof (Reader_loop_room lines parse_reset Hroom) as Hr.
  unfold Reader_iternext.
  destruct (Reader_loop parse_reset lines) as [[[rec lines']|]|e]; cbn [bind];
    [|exact I|exact Hr].
  assert (H2 : (N.of_nat (length (concat lines')) <= field_limit)%N) by lia.
  pose proof (IH lines' H2) as Hrest.
  destruct (reader_rounds n lines') as [recs|e]; cbn [bind]; [exact I | exact Hrest].
Qed.

Lemma translate_newlines_length (t : text) :
  length (translate_newlines t) <= length t.
Proof.
  assert (Hstrong : forall n t, length t <= n ->
                                length (translate_newlines t) <= length t).
  { induction n as [|n IH]; intros u Hn.
    - destruct u; [reflexivity | cbn in Hn; lia].
    - destruct u as [|c u]; [reflexivity|].
      cbn [length] in Hn. cbn [translate_newlines].
      destruct (c =? CR)%N.
      + destruct u as [|c' u]; [reflexivity|]. cbn [length] in Hn.
        destruct (c' =? LF)%N; cbn [length].
        * assert (length (translate_newlines u) <= length u) by (apply IH; lia). lia.
        * assert (length (translate_newlines (c' :: u)) <= length (c' :: u))
            by (apply IH; cbn [length]; lia).
          cbn [length] in *. lia.
      + cbn [length]. assert (length (translate_newlines u) <= length u) by (apply IH; lia).
        lia. }
  apply (Hstrong (length t)). reflexivity.
Qed.

Lemma small_text_is_read (t : text) :
  within_limit t -> exists rows, list_reader (readlines t) = Ok rows.
Proof.
  intros Ht.
  pose proof (reader_rounds_shape (S (length (readlines t))) (readlines t)
                (readlines_shape t)) as H1.
  assert (Hroom : (N.of_nat (length (concat (readlines t))) <= field_limit)%N).
  { rewrite concat_readlines. exact Ht. }
  pose proof (reader_rounds_room (S (length (readlines t))) (readlines t) Hroom) as H2.
  unfold list_reader.
  destruct (reader_rounds (S (length (readlines t))) (readlines t)) as [rows|e]; [eauto|].
  cbn [only_field_limit] in H1. subst e. discriminate.
Qed.

(** X12. A file that holds no more characters than the field limit is
    always read, by either script; so the drop-variant reports no error
    for such a file when it is writable. *)
Theorem files_within_the_field_limit_are_read (t : text) :
  within_limit t ->
  (exists rows, read_table t = Ok rows)
  /\ (exists rows, read_table_universal t = Ok rows)
  /\ forall name e, ~ In (Drop.ErrorProcessing e) (drop_log name (mkFile (Ok t) true)).
Proof.
  intros Ht.
  assert (Hu : exists rows, read_table_universal t = Ok rows).
  { apply small_text_is_read. unfold within_limit in *.
    pose proof (translate_newlines_length t). lia. }
  split; [apply small_text_is_read; exact Ht|]. split; [exact Hu|].
  intros name e. destruct Hu as (rows & Hrows).
  unfold drop_log, drop_result.
  destruct rows as [|header rows].
  - pose proof (read_table_universal_nil t Hrows) as ->.
    cbn. intuition discriminate.
  - destruct (index MILESTONE_TEXT header) as [i|] eqn:Hidx.
    + rewrite (drop_run_migrated name t [] header rows i Hrows Hidx).
      cbn. intuition discriminate.
    + rewrite (drop_run_no_column name t true [] header rows Hrows Hidx).
      cbn. intuition discriminate.
Qed.

Lemma files_within_the_field_limit_are_read_witness :
  (exists rows, read_table small_table_text = Ok rows)
  /\ (exists rows, read_table_universal small_table_text = Ok rows)
  /\ forall name e,
       ~ In (Drop.ErrorProcessing e) (drop_log name (mkFile (Ok small_table_text) true)).
Proof.
  apply (files_within_the_field_limit_are_read small_table_text).
  unfold within_limit, field_limit. vm_compute. discriminate.
Defined.


(** ** When the add-variant succeeds *)

Lemma short_row_migrates (header r : row) :
  length r <= length header ->
  exists r', Add.migrate_row (DictReader_row header r) = Ok r'.
Proof.
  intros Hlen. unfold Add.migrate_row, Add.find_milestone_text.
  rewrite DictReader_row_rest.
  destruct (Nat.ltb_spec (length header) (length r)); [lia|].
  destruct (Add.first_match (named (DictReader_row header r))) as [[s|]|]; cbn [bind];
    [destruct (truthy s && truthy (strip s))| |]; eauto.
Qed.

Lemma short_rows_migrate (header : row) (rs : list row) :
  Forall (fun r => length r <= length header) rs ->
  exists migrated,
    Forall2 (fun r d' => Add.migrate_row r = Ok d') (map (DictReader_row header) rs) migrated.
Proof.
  induction 1 as [|r rs Hr Hrs (m & IH)]; cbn [map].
  - exists []. constructor.
  - destruct (short_row_migrates header r Hr) as (r' & Hr').
    exists (r' :: m). constructor; assumption.
Qed.

Lemma list_reader_head (lines : list text) (header : row) (recs : list row) :
  list_reader lines = Ok (header :: recs) ->
  exists lines', Reader_iternext lines = Ok (Some (header, lines')).
Proof.
  rewrite list_reader_eq.
  destruct (Reader_iternext lines) as [[[rec lines']|]|e]; cbn [bind]; try discriminate.
  destruct (list_reader lines'); cbn [bind]; [|discriminate].
  intros H. inversion H; subst. eauto.
Qed.

(** X13. When the header does not hold both [action] and [is_milestone]
    and no record is longer than the header, the add-variant succeeds on
    a writable file: it writes the new header and one row for the header
    line and for every later record that has a field, each row as the
    add-variant writes it, and reports their number; no error is
    printed. *)
Theorem add_succeeds_when_no_row_is_longer_than_the_header
        (name : string) (t : text) (out : list Add.msg) (header : row) (recs : list row) :
  list_reader (fst (cleaned_lines t)) = Ok (header :: recs) ->
  contains header ACTION && contains header IS_MILESTONE = false ->
  Forall (fun r => length r <= length header) recs ->
  exists ls log,
    Add.migrate_file name (mkWorld (mkFile (Ok t) true) out)
    = (mkWorld (mkFile (Ok (writerows (map Some (updated header) :: ls))) true)
               (out ++ Add.Processing name
                    :: log ++ [Add.Success (S (length (nonblank recs))) name]),
       Ok tt)
    /\ Forall2 (fun r l => add_output_row header r = Ok (map field_text l))
               (header :: nonblank recs) ls
    /\ forall e, ~ In (Add.ErrorProcessing name e) log.
Proof.
  intros Hr Hc Hshort.
  destruct (list_reader_head _ _ _ Hr) as (lines' & Hh).
  pose proof (cleaned_header_nonempty t header lines' Hh) as Hne.
  rewrite migrate_file_run.
  rewrite (add_effect_found name t true (cleaned_nonempty t header lines' Hh)).
  rewrite (add_core_rows name true _ header lines' (header :: recs) Hh Hne Hc Hr).
  rewrite (nonblank_cons header recs Hne).
  assert (Hall : Forall (fun r => length r <= length header) (header :: nonblank recs)).
  { constructor; [reflexivity|]. unfold nonblank.
    apply Forall_forall. intros r Hin. apply filter_In in Hin.
    revert r Hin. intros r [Hin _]. revert r Hin. apply Forall_forall. exact Hshort. }
  destruct (short_rows_migrate header _ Hall) as (migrated & Hm).
  destruct (short_rows_written header _ migrated Hall Hm) as (ls & Hls & Hout).
  rewrite (proj2 (migrate_each_Forall2 _ _) Hm).
  rewrite (proj2 (rows_written_Forall2 _ _ _) Hls).
  cbn [fst snd].
  assert (Hlen : length migrated = S (length (nonblank recs))).
  { apply Forall2_length in Hm. rewrite length_map in Hm. cbn [length] in Hm.
    symmetry. exact Hm. }
  rewrite Hlen.
  exists ls. eexists. split; [|split; [exact Hout|]].
  - rewrite app_assoc. reflexivity.
  - intros e Hin. apply in_app_iff in Hin. destruct Hin as [Hin|Hin].
    + unfold leading_msg in Hin. destruct (0 <? _); [|destruct Hin].
      destruct Hin as [Hin|[]]. discriminate.
    + apply progress_only in Hin. destruct Hin as (d & Hd). discriminate.
Qed.

Lemma add_succeeds_when_no_row_is_longer_than_the_header_witness :
  exists ls log,
    Add.migrate_file "log-data.csv" (mkWorld (mkFile (Ok small_table_text) true) [])
    = (mkWorld (mkFile (Ok (writerows (map Some (updated [str "id"; str "milestone_text"])
                                         :: ls))) true)
               ([] ++ Add.Processing "log-data.csv"
                   :: log ++ [Add.Success (S (length (nonblank [[str "1"; str "x"]])))
                                          "log-data.csv"]),
       Ok tt)
    /\ Forall2 (fun r l => add_output_row [str "id"; str "milestone_text"] r
                           = Ok (map field_text l))
               ([str "id"; str "milestone_text"] :: nonblank [[str "1"; str "x"]]) ls
    /\ forall e, ~ In (Add.ErrorProcessing "log-data.csv" e) log.
Proof.
  apply (add_succeeds_when_no_row_is_longer_than_the_header
           "log-data.csv"%string small_table_text []
           [str "id"; str "milestone_text"] [[str "1"; str "x"]]).
  - vm_compute. reflexivity.
  - vm_compute. reflexivity.
  - repeat constructor.
Defined.


(** ** Carriage returns and the drop-variant *)

(** X16. A file the drop-variant has rewritten holds no carriage return
    in any field, though the file it read may have had one inside a
    quoted field: the file is read with universal newlines, which turn
    the line ends inside quoted fields into line feeds too. *)
Theorem drop_leaves_no_carriage_return_in_a_field (name : string) (t : text) :
  drop_ok name (mkFile (Ok t) true) = true ->
  exists table,
    drop_file name (mkFile (Ok t) true)
    = mkFile (Ok (writerows (map Drop.as_fields table))) true
    /\ read_table (writerows (map Drop.as_fields table)) = Ok table
    /\ Forall (Forall no_CR) table.
Proof.
  intros Hok.
  pose proof (drop_run_frame name (mkFile (Ok t) true) []) as Hrun.
  rewrite Hok in Hrun.
  destruct (drop_run_true_inv _ _ _ _ Hrun) as (t0 & header & rows & i & Hf & Hread & Hidx).
  inversion Hf; subst t0.
  rewrite (drop_run_migrated name t [] header rows i Hread Hidx) in Hrun.
  assert (Hfile : drop_file name (mkFile (Ok t) true)
                  = mkFile (Ok (writerows (map Drop.as_fields (drop_table i header rows))))
                           true).
  { apply (f_equal (fun p => st (fst p))) in Hrun. cbn [fst st] in Hrun.
    symmetry. exact Hrun. }
  exists (drop_table i header rows).
  pose proof (drop_table_clean i header rows (read_table_universal_clean t _ Hread))
    as Hclean.
  split; [exact Hfile|]. split.
  - unfold read_table. rewrite list_reader_writerows.
    + rewrite as_fields_table. reflexivity.
    + apply Forall_map. eapply Forall_impl; [|exact Hclean]. intros r Hr. cbn beta.
      rewrite as_fields_text. eapply Forall_impl; [|exact Hr]. intros f Hf'. apply Hf'.
  - eapply Forall_impl; [|exact Hclean]. intros r Hr.
    eapply Forall_impl; [|exact Hr]. intros f Hf'. apply Hf'.
Qed.

Lemma drop_leaves_no_carriage_return_in_a_field_witness :
  read_table windows_note
  = Ok [[str "milestone_text"; str "note"]; [str "x"; str "a" ++ [CR; LF] ++ str "b"]]
  /\ exists table,
       drop_file "log-data.csv" (mkFile (Ok windows_note) true)
       = mkFile (Ok (writerows (map Drop.as_fields table))) true
       /\ read_table (writerows (map Drop.as_fields table)) = Ok table
       /\ Forall (Forall no_CR) table.
Proof.
  split; [vm_compute; reflexivity|].
  apply (drop_leaves_no_carriage_return_in_a_field "log-data.csv"%string windows_note).
  vm_compute. reflexivity.
Defined.

Example drop_rewrites_the_line_end_inside_a_field :
  drop_file "log-data.csv" (mkFile (Ok windows_note) true)
  = mkFile (Ok (writerows [[Some (str "note")];
                           [Some (str "a" ++ [LF] ++ str "b")]])) true.
Proof. vm_compute. reflexivity. Qed.

(** ** Column names that occur more than once *)

Lemma fold_left_map_fun {A B C : Type} (f : A -> C -> A) (g : B -> C) (l : list B) :
  forall a, fold_left f (map g l) a = fold_left (fun a x => f a (g x)) l a.
Proof. induction l as [|x l IH]; intros a; cbn [map fold_left]; [reflexivity | apply IH]. Qed.

Lemma named_DictReader_row (header r : row) :
  length r <= length header ->
  DictReader_row header r = mkDict (fold_left set_entry (row_dict header r) []) None.
Proof.
  intros Hlen. rewrite <- row_dict_split, fold_left_app, !fold_left_map_fun.
  unfold DictReader_row.
  destruct (Nat.ltb_spec (length header) (length r)); [lia|].
  destruct (Nat.ltb_spec (length r) (length header)); [reflexivity|].
  rewrite skipn_all2 by lia. reflexivity.
Qed.

Lemma fold_set_get (kvs : list (text * option text)) : forall d k,
  dict_get (fold_left set_entry kvs d) k
  = match last_assoc kvs k with
    | Some v => Some v
    | None => dict_get d k
    end.
Proof.
  induction kvs as [|[k0 v0] kvs IH]; intros d k; cbn [fold_left last_assoc];
    [reflexivity|].
  rewrite IH. destruct (last_assoc kvs k); [reflexivity|].
  unfold set_entry. cbn [fst snd]. rewrite dict_get_set.
  destruct (text_eq_dec k0 k); [reflexivity|].
  reflexivity.
Qed.

Lemma last_assoc_absent (kvs : list (text * option text)) (k : text) :
  ~ In k (keys kvs) -> last_assoc kvs k = None.
Proof.
  induction kvs as [|[k0 v0] kvs IH]; cbn [keys map fst In last_assoc]; [reflexivity|].
  intros H. rewrite IH by (intros Hin; apply H; right; exact Hin).
  destruct (text_eq_dec k0 k); [exfalso; apply H; left; assumption | reflexivity].
Qed.

Lemma last_assoc_row_dict (header : row) : forall r k,
  In k header ->
  last_assoc (row_dict header r) k = Some (nth_error r (last_pos k header)).
Proof.
  induction header as [|x header IH]; intros r k Hin; [destruct Hin|].
  assert (Hstep : forall v r',
             last_assoc ((x, v) :: row_dict header r') k
             = Some (if in_dec text_eq_dec k header
                     then nth_error r' (last_pos k header) else v)).
  { intros v r'. cbn [last_assoc].
    destruct (in_dec text_eq_dec k header) as [Hk|Hk].
    - rewrite (IH r' k Hk). reflexivity.
    - rewrite last_assoc_absent by (rewrite keys_row_dict; exact Hk).
      destruct Hin as [->|Hin]; [|contradiction].
      destruct (text_eq_dec k k); [reflexivity | congruence]. }
  destruct r as [|v r]; cbn [row_dict last_pos]; rewrite Hstep.
  - destruct (in_dec text_eq_dec k header); [|reflexivity].
    destruct (last_pos k header); reflexivity.
  - destruct (in_dec text_eq_dec k header); reflexivity.
Qed.

Lemma find_app_first {A : Type} (P : A -> bool) (l l' : list A) :
  find P (l ++ l')
  = match find P l with Some x => Some x | None => find P l' end.
Proof.
  induction l as [|x l IH]; cbn [app find]; [reflexivity|].
  destruct (P x); [reflexivity | exact IH].
Qed.

Lemma find_keys_set (P : text -> bool) (d : list (text * option text))
      (k : text) (v : option text) :
  find P (keys (dict_set d k v)) = find P (keys d ++ [k]).
Proof.
  unfold keys. induction d as [|[k0 v0] d IH]; cbn [dict_set map fst app find];
    [reflexivity|].
  destruct (text_eq_dec k0 k) as [->|Hne]; cbn [map fst find].
  - destruct (P k) eqn:E; [reflexivity|].
    rewrite find_app_first. destruct (find P (map fst d)); [reflexivity|].
    cbn [find]. rewrite E. reflexivity.
  - destruct (P k0); [reflexivity | exact IH].
Qed.

Lemma find_keys_fold (P : text -> bool) (kvs : list (text * option text)) : forall d,
  find P (keys (fold_left set_entry kvs d)) = find P (keys d ++ map fst kvs).
Proof.
  induction kvs as [|[k0 v0] kvs IH]; intros d; cbn [fold_left map fst].
  - rewrite app_nil_r. reflexivity.
  - rewrite IH. unfold set_entry at 1. cbn [fst snd].
    rewrite !find_app_first, find_keys_set, find_app_first.
    destruct (find P (keys d)); [reflexivity|]. cbn [find].
    destruct (P k0); reflexivity.
Qed.

Lemma first_match_find (d : list (text * option text)) :
  Add.first_match d
  = match find matches (keys d) with
    | Some k => dict_get d k
    | None => None
    end.
Proof.
  unfold keys. induction d as [|[k0 v0] d IH]; cbn [Add.first_match map fst find];
    [reflexivity|].
  unfold matches at 1.
  destruct (text_eq_dec (lower k0) MILESTONE_TEXT) as [E|E].
  - cbn [dict_get]. destruct (text_eq_dec k0 k0); [reflexivity | congruence].
  - rewrite IH. destruct (find matches (map fst d)) as [k|] eqn:Hf; [|reflexivity].
    cbn [dict_get]. destruct (text_eq_dec k0 k) as [->|_]; [|reflexivity].
    apply find_some in Hf. destruct Hf as [_ Hm]. unfold matches in Hm.
    destruct (text_eq_dec (lower k) MILESTONE_TEXT); [contradiction | discriminate].
Qed.

Lemma field_text_nth_error (r : row) (p : nat) :
  field_text (nth_error r p) = nth p r [].
Proof.
  revert p. induction r as [|v r IH]; intros [|p]; cbn [nth_error nth field_text];
    try reflexivity. apply IH.
Qed.

Lemma add_output_row_last_values (header r : row) :
  length r <= length header ->
  ~ In ACTION header -> ~ In IS_MILESTONE header ->
  add_output_row header r
  = Ok (map (fun k => nth (last_pos k header) r []) header
          ++ derived_columns
               (match find matches header with
                | Some k => nth_error r (last_pos k header)
                | None => None
                end)).
Proof.
  intros Hlen HA HI.
  pose proof (named_DictReader_row header r Hlen) as HD.
  assert (Hget : forall k, In k header ->
            dict_get (named (DictReader_row header r)) k
            = Some (nth_error r (last_pos k header))).
  { intros k Hk. rewrite HD. cbn [named].
    rewrite fold_set_get, (last_assoc_row_dict header r k Hk). reflexivity. }
  assert (Hfind : Add.find_milestone_text (DictReader_row header r)
                  = Ok (match find matches header with
                        | Some k => nth_error r (last_pos k header)
                        | None => None
                        end)).
  { unfold Add.find_milestone_text. rewrite first_match_find.
    assert (Hk : find matches (keys (named (DictReader_row header r)))
                 = find matches header).
    { rewrite HD. cbn [named]. rewrite find_keys_fold. cbn [keys map app].
      change (map fst (row_dict header r)) with (keys (row_dict header r)).
      rewrite keys_row_dict. reflexivity. }
    rewrite Hk. destruct (find matches header) as [k|] eqn:Hf.
    - apply find_some in Hf. destruct Hf as [Hin _].
      rewrite (Hget k Hin). reflexivity.
    - rewrite HD. reflexivity. }
  destruct (migrate_row_columns _ _ Hfind) as (a & b & Hab & Hrow).
  unfold add_output_row. rewrite Hrow. cbn [bind].
  unfold _dict_to_list, wrong_fields. unfold Add.set_columns at 1. cbn [named rest].
  rewrite existsb_false_keys.
  2: { intros k. rewrite !dict_set_keys. unfold updated. rewrite in_app_iff.
       cbn [In]. intros [->|[->|Hk]]; [tauto | tauto|].
       left. eapply DictReader_row_keys; exact Hk. }
  assert (Hrest : rest (Add.set_columns (DictReader_row header r) a b) = None).
  { cbn [Add.set_columns rest]. rewrite HD. reflexivity. }
  rewrite Hrest. cbn [orb bind]. f_equal.
  unfold updated. rewrite !map_app, Hab. f_equal.
  - rewrite map_map. apply map_ext_in. intros k Hk.
    unfold Add.set_columns. cbn [named]. rewrite !dict_get_set.
    destruct (text_eq_dec IS_MILESTONE k) as [<-|_]; [contradiction|].
    destruct (text_eq_dec ACTION k) as [<-|_]; [contradiction|].
    rewrite (Hget k Hk). apply field_text_nth_error.
  - unfold Add.set_columns. cbn [named map]. rewrite !dict_get_set.
    destruct (text_eq_dec IS_MILESTONE ACTION) as [E|_]; [discriminate E|].
    destruct (text_eq_dec ACTION ACTION); [|congruence].
    destruct (text_eq_dec IS_MILESTONE IS_MILESTONE); [|congruence].
    reflexivity.
Qed.

(** X17. The row the add-variant writes for a record no longer than the
    header, when the header may name a column more than once (and names
    neither [action] nor [is_milestone]): every column holds the field
    under the last column of the same name, or the empty string when the
    record is too short for it; [action] and [is_milestone] derive from
    the field under the last column that has the name of the first
    column matching [milestone_text].  The last column of a name is at
    [last_pos]: the name is there and at no later position. *)
Theorem add_row_under_repeated_names (header r : row) :
  length r <= length header ->
  ~ In ACTION header -> ~ In IS_MILESTONE header ->
  add_output_row header r
  = Ok (map (fun k => nth (last_pos k header) r []) header
          ++ derived_columns
               (match find matches header with
                | Some k => nth_error r (last_pos k header)
                | None => None
                end))
  /\ forall k, In k header ->
       nth_error header (last_pos k header) = Some k
       /\ forall j, last_pos k header < j -> nth_error header j <> Some k.
Proof.
  intros Hlen HA HI. split; [exact (add_output_row_last_values header r Hlen HA HI)|].
  clear. induction header as [|x header IH]; intros k Hin; [destruct Hin|].
  cbn [last_pos]. destruct (in_dec text_eq_dec k header) as [Hk|Hk].
  - destruct (IH k Hk) as [Hat Hlater]. split; [exact Hat|].
    intros [|j] Hj; [lia|]. cbn [nth_error]. apply Hlater. lia.
  - destruct Hin as [->|Hin]; [|contradiction]. split; [reflexivity|].
    intros [|j] Hj; [lia|]. cbn [nth_error]. intros Hnth.
    apply Hk. eapply nth_error_In. exact Hnth.
Qed.

Lemma add_row_under_repeated_names_witness :
  add_output_row [str "id"; str "note"; str "id"] [str "1"; str "n"; str "2"]
  = Ok (map (fun k => nth (last_pos k [str "id"; str "note"; str "id"])
                          [str "1"; str "n"; str "2"] [])
            [str "id"; str "note"; str "id"]
          ++ derived_columns
               (match find matches [str "id"; str "note"; str "id"] with
                | Some k => nth_error [str "1"; str "n"; str "2"]
                                      (last_pos k [str "id"; str "note"; str "id"])
                | None => None
                end))
  /\ forall k, In k [str "id"; str "note"; str "id"] ->
       nth_error [str "id"; str "note"; str "id"]
                 (last_pos k [str "id"; str "note"; str "id"]) = Some k
       /\ forall j, last_pos k [str "id"; str "note"; str "id"] < j ->
                    nth_error [str "id"; str "note"; str "id"] j <> Some k.
Proof.
  apply (add_row_under_repeated_names
           [str "id"; str "note"; str "id"] [str "1"; str "n"; str "2"]).
  - cbn [length]. lia.
  - cbn [In]. intuition discriminate.
  - cbn [In]. intuition discriminate.
Defined.

(** The row written under the header [id,note,id] for the row [1,n,2]:
    both [id] columns hold [2]. *)
Example repeated_name_takes_the_last_value :
  add_output_row [str "id"; str "note"; str "id"] [str "1"; str "n"; str "2"]
  = Ok [str "2"; str "n"; str "2"; []; str "0"].
Proof. vm_compute. reflexivity. Qed.


(** ** The files the add-variant takes as migrated *)

Lemma add_core_migrated (name : string) (wr : bool) (cleaned : list text) :
  In (Add.AlreadyMigrated name) (snd (add_core name wr cleaned)) <->
  exists header lines',
    Reader_iternext cleaned = Ok (Some (header, lines'))
    /\ contains header ACTION && contains header IS_MILESTONE = true.
Proof.
  unfold add_core.
  assert (Hfail : forall e, ~ In (Add.AlreadyMigrated name) (failure name e)).
  { intros e H. cbn [failure In] in H. intuition discriminate. }
  assert (Hprog : forall total rows l,
             ~ In (Add.AlreadyMigrated name) l ->
             ~ In (Add.AlreadyMigrated name) (progress name total 0 rows ++ l)).
  { intros total rows l Hl H. apply in_app_iff in H. destruct H as [H|H]; [|auto].
    apply progress_only in H. destruct H as (d & H). discriminate. }
  destruct (Reader_iternext cleaned) as [[[header lines']|]|e].
  - destruct (contains header ACTION && contains header IS_MILESTONE) eqn:Hc.
    + cbn [snd In]. split; [intros _; eauto | intros _; left; reflexivity].
    + split.
      2: { intros (h & l & Heq & Hb). inversion Heq; subst. congruence. }
      intros H. exfalso. revert H.
      destruct (DictReader_list header cleaned) as [[|r rows]|e]; cbn [snd].
      * cbn [In]. intuition discriminate.
      * remember (r :: rows) as rows0 eqn:Hrows0.
        destruct (migrate_each rows0) as [migrated|e]; [|apply Hprog, Hfail].
        destruct wr; [|apply Hprog, Hfail].
        destruct (rows_written (updated header) migrated) as [ls res]. cbn [snd].
        apply Hprog. destruct res as [[]|e]; [|apply Hfail].
        cbn [In]. intuition discriminate.
      * apply Hfail.
  - cbn [snd In]. split; [intuition discriminate|].
    intros (h & l & Heq & _). discriminate.
  - cbn [snd]. split; [intros H; exfalso; exact (Hfail e H)|].
    intros (h & l & Heq & _). discriminate.
Qed.

Lemma add_core_migrated_untouched (name : string) (wr : bool) (cleaned : list text) :
  In (Add.AlreadyMigrated name) (snd (add_core name wr cleaned)) ->
  fst (add_core name wr cleaned) = None.
Proof.
  intros H. apply add_core_migrated in H. destruct H as (header & lines' & Hh & Hc).
  unfold add_core. rewrite Hh, Hc. reflexivity.
Qed.

(** X18. The add-variant reports a file as migrated exactly when the
    first record after the leading blank lines holds both [action] and
    [is_milestone]; such a file is left as it is, whatever its rows. *)
Theorem add_takes_as_migrated_the_headers_with_both_columns (name : string) (f : file) :
  (In (Add.AlreadyMigrated name) (stdout (add_alone name f)) <->
   exists t header lines',
     data f = Ok t
     /\ Reader_iternext (fst (cleaned_lines t)) = Ok (Some (header, lines'))
     /\ In ACTION header /\ In IS_MILESTONE header)
  /\ (In (Add.AlreadyMigrated name) (stdout (add_alone name f)) ->
      st (add_alone name f) = f).
Proof.
  rewrite add_alone_effect. cbn [stdout st In].
  assert (Hhead : In (Add.AlreadyMigrated name) (snd (add_effect name f)) <->
                  (Add.Processing name = Add.AlreadyMigrated name
                   \/ In (Add.AlreadyMigrated name) (snd (add_effect name f)))).
  { split; [auto | intros [H|H]; [discriminate | exact H]]. }
  rewrite <- Hhead. clear Hhead.
  destruct f as [[t|e] wr].
  2: { unfold add_effect. cbn [data snd fst failure In]. split.
       - split; [intuition discriminate|]. intros (t & h & l & Hd & _). discriminate.
       - reflexivity. }
  destruct (fst (cleaned_lines t)) as [|l ls0] eqn:Hcl.
  { assert (Heff : add_effect name (mkFile (Ok t) wr)
                   = (mkFile (Ok t) wr, [Add.NoData name])).
    { unfold add_effect. cbn [data].
      destruct (cleaned_lines t) as [cleaned k]. cbn [fst] in Hcl. subst cleaned.
      reflexivity. }
    rewrite Heff. cbn [fst snd In data]. split; [|reflexivity].
    split; [intuition discriminate|].
    intros (t0 & h & lines' & Hd & Hh & _). inversion Hd; subst t0.
    rewrite Hcl in Hh. discriminate. }
  assert (Hne : fst (cleaned_lines t) <> []) by (rewrite Hcl; discriminate).
  rewrite (add_effect_found name t wr Hne).
  pose proof (add_core_migrated name wr (fst (cleaned_lines t))) as Hiff.
  pose proof (add_core_migrated_untouched name wr (fst (cleaned_lines t))) as Hun.
  destruct (add_core name wr (fst (cleaned_lines t))) as [body log].
  cbn [fst snd data] in *.
  assert (Hlead : In (Add.AlreadyMigrated name)
                     (leading_msg (snd (cleaned_lines t)) name ++ log)
                  <-> In (Add.AlreadyMigrated name) log).
  { rewrite in_app_iff. split; [|auto]. intros [H|H]; [|exact H].
    unfold leading_msg in H. destruct (0 <? _); [|destruct H].
    destruct H as [H|[]]. discriminate. }
  rewrite Hlead. split.
  - rewrite Hiff. split.
    + intros (header & lines' & Hh & Hc). apply andb_true_iff in Hc.
      destruct Hc as [HA HI]. apply contains_true in HA. apply contains_true in HI.
      exists t, header, lines'. auto.
    + intros (t0 & header & lines' & Hd & Hh & HA & HI). inversion Hd; subst t0.
      exists header, lines'. split; [exact Hh|].
      apply andb_true_iff. split; apply contains_true; assumption.
  - intros H. rewrite (Hun H). reflexivity.
Qed.

(** ** The drop-variant on what the add-variant wrote *)

Lemma lstrip_chars (P : char -> Prop) (s : text) : Forall P s -> Forall P (lstrip s).
Proof.
  intros H. destruct (lstrip_suffix s) as (p & Hp & _).
  rewrite Hp in H. apply Forall_app in H. apply H.
Qed.

Lemma strip_chars (P : char -> Prop) (s : text) : Forall P s -> Forall P (strip s).
Proof.
  intros H. unfold strip, rstrip.
  apply Forall_rev, lstrip_chars, Forall_rev, lstrip_chars, H.
Qed.

Lemma derived_columns_chars (P : char -> Prop) (v : option text) :
  Forall P (str "0") -> Forall P (str "1") ->
  match v with Some s => Forall P s | None => True end ->
  Forall (Forall P) (derived_columns v).
Proof.
  intros H0 H1 Hv. unfold derived_columns.
  assert (Hzero : Forall (Forall P) [[]; str "0"]).
  { constructor; [constructor | constructor; [exact H0 | constructor]]. }
  destruct v as [s|]; [destruct (truthy (strip s))|]; try exact Hzero.
  constructor; [apply strip_chars, Hv | constructor; [exact H1 | constructor]].
Qed.

Lemma add_output_row_chars (P : char -> Prop) (header r out : row) :
  length r <= length header ->
  ~ In ACTION header -> ~ In IS_MILESTONE header ->
  Forall P (str "0") -> Forall P (str "1") ->
  Forall (Forall P) r ->
  add_output_row header r = Ok out -> Forall (Forall P) out.
Proof.
  intros Hlen HA HI H0 H1 Hr.
  rewrite (add_output_row_last_values header r Hlen HA HI).
  intros H. inversion H; subst out. clear H.
  apply Forall_app. split.
  - apply Forall_map, Forall_forall. intros k _.
    destruct (nth_in_or_default (last_pos k header) r []) as [Hin|Hd]; [|rewrite Hd; constructor].
    revert Hin. apply Forall_forall. exact Hr.
  - apply derived_columns_chars; try assumption.
    destruct (find matches header) as [k|]; [|exact I].
    destruct (nth_error r (last_pos k header)) as [s|] eqn:E; [|exact I].
    apply nth_error_In in E. revert E. apply Forall_forall. exact Hr.
Qed.

Lemma add_output_row_width (header r out : row) :
  add_output_row header r = Ok out -> length out = length header + 2.
Proof.
  unfold add_output_row. intros H.
  apply bind_ok_inv in H. destruct H as (d & _ & H).
  apply bind_ok_inv in H. destruct H as (l & Hl & H). inversion H; subst out.
  rewrite length_map, (dict_to_list_width _ _ _ Hl).
  unfold updated. rewrite length_app. reflexivity.
Qed.

Lemma index_app_left (x : text) (l' : list text) : forall (l : list text) (i : nat),
  index x l = Some i -> index x (l ++ l') = Some i.
Proof.
  induction l as [|y l IH]; intros i H; [discriminate|].
  cbn [index app] in *. destruct (text_eq_dec y x); [exact H|].
  destruct (index x l) as [j|]; [|discriminate].
  rewrite (IH j eq_refl). exact H.
Qed.

Lemma remove_at_app_left {A : Type} (l' : list A) : forall (i : nat) (l : list A),
  i < length l -> remove_at i (l ++ l') = remove_at i l ++ l'.
Proof.
  induction i as [|i IH]; intros [|x l] H; cbn [length] in H; try lia;
    cbn [app remove_at]; [reflexivity|].
  rewrite IH by lia. reflexivity.
Qed.

Lemma Forall2_map_right {A B C : Type} (R : A -> C -> Prop) (g : B -> C)
      (l : list A) : forall l' : list B,
  Forall2 (fun a b => R a (g b)) l l' -> Forall2 R l (map g l').
Proof.
  induction l as [|a l IH]; intros l' H; inversion H; subst; cbn [map]; constructor;
    [assumption | apply IH; assumption].
Qed.

(** X20. The drop-variant on what the add-variant wrote.  For a file
    whose header has a [milestone_text] column at position [i] and names
    neither [action] nor [is_milestone], with no record longer than the
    header and no carriage return in a field: after the add-variant and
    then the drop-variant the file holds the header without that column
    and with [action] and [is_milestone], and for each row the add-variant
    wrote that row without its field at [i]. *)
Theorem drop_after_add_removes_the_column_and_keeps_the_new_ones
        (name : string) (t : text) (header : row) (recs : list row) (i : nat) :
  list_reader (fst (cleaned_lines t)) = Ok (header :: recs) ->
  ~ In ACTION header -> ~ In IS_MILESTONE header ->
  Forall (fun r => length r <= length header) recs ->
  Forall (Forall no_CR) (header :: recs) ->
  index MILESTONE_TEXT header = Some i ->
  exists rows_out,
    Forall2 (fun r out => add_output_row header r = Ok out)
            (header :: nonblank recs) rows_out
    /\ Drop.migrate_csv_file name
         (mkWorld (st (add_alone name (mkFile (Ok t) true))) [])
       = (mkWorld
            (mkFile (Ok (writerows
                           (map Drop.as_fields
                                ((remove_at i header ++ [ACTION; IS_MILESTONE])
                                   :: map (remove_at i) rows_out)))) true)
            [Drop.Processing name; Drop.FoundAt i;
             Drop.Migrated (length rows_out);
             Drop.NewHeader (join_comma (remove_at i header ++ [ACTION; IS_MILESTONE]))],
          Ok true).
Proof.
  intros Hr HA HI Hshort Hcr Hidx.
  destruct (list_reader_head _ _ _ Hr) as (lines' & Hh).
  pose proof (cleaned_header_nonempty t header lines' Hh) as Hne.
  assert (Hc : contains header ACTION && contains header IS_MILESTONE = false).
  { apply andb_false_iff. left. apply contains_false. exact HA. }
  assert (Hi : i < length header).
  { destruct (index_first _ _ _ Hidx) as [Hn _].
    apply nth_error_Some. rewrite Hn. discriminate. }
  (* the run of the add-variant *)
  rewrite add_alone_effect. cbn [st].
  rewrite (add_effect_found name t true (cleaned_nonempty t header lines' Hh)).
  rewrite (add_core_rows name true _ header lines' (header :: recs) Hh Hne Hc Hr).
  rewrite (nonblank_cons header recs Hne).
  assert (Hin : forall r, In r (header :: nonblank recs) -> In r (header :: recs)).
  { intros r [<-|Hin]; [left; reflexivity|]. right.
    unfold nonblank in Hin. apply filter_In in Hin. apply Hin. }
  assert (Hall : Forall (fun r => length r <= length header) (header :: nonblank recs)).
  { apply Forall_forall. intros r Hr'. apply Hin in Hr'.
    destruct Hr' as [<-|Hr']; [reflexivity|].
    revert r Hr'. apply Forall_forall. exact Hshort. }
  destruct (short_rows_migrate header _ Hall) as (migrated & Hm).
  destruct (short_rows_written header _ migrated Hall Hm) as (ls & Hls & Hout).
  rewrite (proj2 (migrate_each_Forall2 _ _) Hm).
  rewrite (proj2 (rows_written_Forall2 _ _ _) Hls).
  cbn [fst snd].
  exists (map (map field_text) ls).
  split; [apply Forall2_map_right; exact Hout|].
  (* what it wrote, as the drop-variant reads it *)
  assert (Hwithin : Forall within_limit header)
    by (eapply Reader_iternext_within_limit; exact Hh).
  assert (Hreadable : readable (map Some (updated header) :: ls)).
  { constructor.
    - rewrite map_field_text_Some. apply within_limit_updated, Hwithin.
    - pose proof (rows_written_readable (updated header) migrated) as Hrd.
      rewrite (proj2 (rows_written_Forall2 _ _ _) Hls) in Hrd. apply Hrd.
      eapply migrate_each_within; [|apply migrate_each_Forall2; exact Hm].
      eapply (DictReader_list_within header (fst (cleaned_lines t))).
      unfold DictReader_list. rewrite Hr. cbn [bind].
      change (filter (fun r => negb (is_blank_record r)) (header :: recs))
        with (nonblank (header :: recs)).
      rewrite (nonblank_cons header recs Hne). reflexivity. }
  assert (Hfree : CR_free (map Some (updated header) :: ls)).
  { constructor.
    - rewrite map_field_text_Some. unfold updated. apply Forall_app. split.
      + inversion Hcr; assumption.
      + repeat constructor; discriminate.
    - clear - Hout Hall Hin Hcr HA HI.
      assert (Hrows : Forall (fun r => length r <= length header /\ Forall no_CR r)
                             (header :: nonblank recs)).
      { apply Forall_forall. intros r Hr'. split.
        - revert r Hr'. apply Forall_forall. exact Hall.
        - apply Hin in Hr'. revert r Hr'. apply Forall_forall. exact Hcr. }
      clear Hall Hin Hcr.
      induction Hout as [|r l rs ls Hrl Hrest IH]; [constructor|].
      inversion Hrows as [|r0 rs0 [Hlen Hno] Hrows']; subst.
      constructor; [|apply IH; exact Hrows'].
      eapply (add_output_row_chars (fun c => c <> CR)); try eassumption;
        repeat constructor; discriminate. }
  assert (Hread : read_table_universal (writerows (map Some (updated header) :: ls))
                  = Ok (updated header :: map (map field_text) ls)).
  { unfold read_table_universal.
    rewrite (list_reader_writerows_universal _ Hreadable Hfree).
    cbn [map]. rewrite map_field_text_Some. reflexivity. }
  assert (Hidx' : index MILESTONE_TEXT (updated header) = Some i)
    by (apply index_app_left; exact Hidx).
  rewrite (drop_run_migrated name _ [] (updated header) (map (map field_text) ls) i
             Hread Hidx').
  rewrite drop_table_spec, cut_remove_at.
  unfold updated. rewrite (remove_at_app_left _ i header Hi).
  assert (Hrows : map (drop_field i) (map (map field_text) ls)
                  = map (remove_at i) (map (map field_text) ls)).
  { apply map_ext_in. intros out Hinout. unfold drop_field.
    assert (Hw : length out = length header + 2).
    { clear - Hout Hinout. apply in_map_iff in Hinout.
      destruct Hinout as (l & <- & Hl).
      induction Hout as [|r l0 rs ls Hrl Hrest IH]; [destruct Hl|].
      destruct Hl as [->|Hl]; [|apply IH; exact Hl].
      eapply add_output_row_width; exact Hrl. }
    destruct (Nat.ltb_spec i (length out)); [reflexivity | lia]. }
  rewrite Hrows. reflexivity.
Qed.

Lemma drop_after_add_removes_the_column_and_keeps_the_new_ones_witness :
  exists rows_out,
    Forall2 (fun r out => add_output_row [str "id"; str "milestone_text"] r = Ok out)
            ([str "id"; str "milestone_text"] :: nonblank [[str "1"; str "x"]]) rows_out
    /\ Drop.migrate_csv_file "log-data.csv"
         (mkWorld (st (add_alone "log-data.csv" (mkFile (Ok small_table_text) true))) [])
       = (mkWorld
            (mkFile (Ok (writerows
                           (map Drop.as_fields
                                ((remove_at 1 [str "id"; str "milestone_text"]
                                    ++ [ACTION; IS_MILESTONE])
                                   :: map (remove_at 1) rows_out)))) true)
            [Drop.Processing "log-data.csv"; Drop.FoundAt 1;
             Drop.Migrated (length rows_out);
             Drop.NewHeader (join_comma (remove_at 1 [str "id"; str "milestone_text"]
                                           ++ [ACTION; IS_MILESTONE]))],
          Ok true).
Proof.
  apply (drop_after_add_removes_the_column_and_keeps_the_new_ones
           "log-data.csv"%string small_table_text
           [str "id"; str "milestone_text"] [[str "1"; str "x"]] 1).
  - vm_compute. reflexivity.
  - cbn [In]. intuition discriminate.
  - cbn [In]. intuition discriminate.
  - repeat constructor.
  - repeat (constructor; try discriminate).
  - vm_compute. reflexivity.
Defined.

(** The small table after the add-variant and then the drop-variant: the
    header line of the first file is among the rows. *)
Example add_then_drop_on_the_small_table :
  data (drop_file "log-data.csv"
          (st (add_alone "log-data.csv" (mkFile (Ok small_table_text) true))))
  = Ok (writerows [[Some (str "id"); Some ACTION; Some IS_MILESTONE];
                   [Some (str "id"); Some (str "milestone_text"); Some (str "1")];
                   [Some (str "1"); Some (str "x"); Some (str "1")]]).
Proof. vm_compute. reflexivity. Qed.

(** ** The progress lines *)

Lemma progress_every_hundredth (name : string) (total : nat) (rows : list pydict) :
  forall (row_idx : nat) (migrated : list pydict),
    migrate_each rows = Ok migrated ->
    progress name total row_idx rows
    = map (fun d => Add.Progress d total name)
          (filter (fun d => d mod 100 =? 0) (seq (row_idx + 1) (length rows))).
Proof.
  induction rows as [|r rows IH]; intros row_idx migrated H; [reflexivity|].
  cbn [migrate_each] in H.
  apply bind_ok_inv in H. destruct H as (r' & Hr' & H).
  apply bind_ok_inv in H. destruct H as (m & Hm & H).
  cbn [progress length seq filter]. rewrite Hr'.
  rewrite (IH (S row_idx) m Hm).
  change (S row_idx + 1) with (S (row_idx + 1)).
  destruct ((row_idx + 1) mod 100 =? 0); reflexivity.
Qed.

(** X21. While it converts the rows, the add-variant prints a progress
    line after each row whose number, counted from 1, is a multiple of
    100, and at no other time; the line shows that number and the total
    it was given.  The file is not touched. *)
Theorem progress_is_printed_after_every_hundredth_row
        (name : string) (total row_idx : nat) (rows migrated : list pydict)
        (w : world Add.msg file) :
  migrate_each rows = Ok migrated ->
  Add.migrate_rows name total row_idx rows w
  = (mkWorld (st w)
             (stdout w
                ++ map (fun d => Add.Progress d total name)
                       (filter (fun d => d mod 100 =? 0)
                               (seq (row_idx + 1) (length rows)))),
     Ok migrated).
Proof.
  intros H. rewrite migrate_rows_run, H.
  rewrite (progress_every_hundredth name total rows row_idx migrated H). reflexivity.
Qed.

Lemma progress_is_printed_after_every_hundredth_row_witness :
  Add.migrate_rows "log-data.csv" 250 0 (repeat bare_row 250)
                   (mkWorld (mkFile (Ok []) true) [])
  = (mkWorld (mkFile (Ok []) true)
             ([] ++ map (fun d => Add.Progress d 250 "log-data.csv")
                        (filter (fun d => d mod 100 =? 0)
                                (seq (0 + 1) (length (repeat bare_row 250))))),
     Ok (repeat bare_row_migrated 250)).
Proof.
  apply (progress_is_printed_after_every_hundredth_row
           "log-data.csv"%string 250 0 (repeat bare_row 250)
           (repeat bare_row_migrated 250) (mkWorld (mkFile (Ok []) true) [])).
  vm_compute. reflexivity.
Defined.

(** The progress lines of 250 rows. *)
Example progress_of_250_rows :
  stdout (fst (Add.migrate_rows "log-data.csv" 250 0 (repeat bare_row 250)
                 (mkWorld (mkFile (Ok []) true) [])))
  = [Add.Progress 100 250 "log-data.csv"; Add.Progress 200 250 "log-data.csv"].
Proof. vm_compute. reflexivity. Qed.

(** * The table of a rewritten file *)

(** ** C9: a header with one of the two target columns *)

Lemma one_of_two_not_both (header : row) :
  xorb (contains header ACTION) (contains header IS_MILESTONE) = true ->
  contains header ACTION && contains header IS_MILESTONE = false.
Proof.
  destruct (contains header ACTION), (contains header IS_MILESTONE);
    cbn; congruence.
Qed.

Lemma one_of_two_repeated (header : row) :
  xorb (contains header ACTION) (contains header IS_MILESTONE) = true ->
  ~ NoDup (updated header).
Proof.
  intros Hxor. unfold updated. intros Hnd.
  destruct (contains header ACTION) eqn:EA.
  - apply contains_true in EA. apply NoDup_remove_2 in Hnd.
    apply Hnd, in_or_app. left. exact EA.
  - destruct (contains header IS_MILESTONE) eqn:EI; [|discriminate].
    apply contains_true in EI.
    replace (header ++ [ACTION; IS_MILESTONE])
      with ((header ++ [ACTION]) ++ IS_MILESTONE :: []) in Hnd
      by (rewrite <- app_assoc; reflexivity).
    apply NoDup_remove_2 in Hnd. apply Hnd.
    rewrite app_nil_r. apply in_or_app. left. exact EI.
Qed.

Lemma no_error_before_the_rows (name : string) (k : nat) (rows : list pydict)
      (total : nat) (m : Add.msg) :
  In m (leading_msg k name ++ progress name total 0 rows) ->
  (exists j, m = Add.LeadingEmpty j name) \/ (exists d, m = Add.Progress d total name).
Proof.
  rewrite in_app_iff. intros [H|H].
  - unfold leading_msg in H. destruct (0 <? k); [|destruct H].
    destruct H as [<-|[]]. left. eauto.
  - right. eapply progress_only. exact H.
Qed.

(** C9, as the code has it.  A file whose header has exactly one of
    [action] and [is_milestone] is never reported as migrated, and the
    header with the two names appended has a name twice.  The run either
    fails before it writes (the reader rejects a row, a row longer than
    the header has no [milestone_text] column before its surplus fields,
    the file cannot be opened for writing): the error is printed and the
    file is left as it is, its header unchanged; or it writes, and the
    first record of the written file is the old header followed by
    [action] and [is_milestone].  When no record is longer than the header
    and the file is writable, the run succeeds: the new header and one row
    for every record with a field are written and read back. *)
Theorem C9_one_target_column_is_not_migrated
        (name : string) (t : text) (wr : bool) (header : row) (lines' : list text) :
  Reader_iternext (fst (cleaned_lines t)) = Ok (Some (header, lines')) ->
  xorb (contains header ACTION) (contains header IS_MILESTONE) = true ->
  let f := mkFile (Ok t) wr in
  ~ In (Add.AlreadyMigrated name) (stdout (add_alone name f))
  /\ ~ NoDup (header ++ [ACTION; IS_MILESTONE])
  /\ ((st (add_alone name f) = f
       /\ exists e, In (Add.ErrorProcessing name e) (stdout (add_alone name f)))
      \/ exists ls,
           st (add_alone name f)
           = mkFile (Ok (writerows (map Some (header ++ [ACTION; IS_MILESTONE]) :: ls))) true
           /\ Reader_iternext
                (readlines (writerows (map Some (header ++ [ACTION; IS_MILESTONE]) :: ls)))
              = Ok (Some (header ++ [ACTION; IS_MILESTONE], readlines (writerows ls))))
  /\ (forall recs : list row,
         list_reader (fst (cleaned_lines t)) = Ok (header :: recs) ->
         Forall (fun r => length r <= length header) recs ->
         wr = true ->
         exists ls,
           Forall2 (fun r l => add_output_row header r = Ok (map field_text l))
                   (header :: nonblank recs) ls
           /\ st (add_alone name f)
              = mkFile (Ok (writerows (map Some (header ++ [ACTION; IS_MILESTONE]) :: ls)))
                       true
           /\ stdout (add_alone name f)
              = Add.Processing name
                  :: leading_msg (snd (cleaned_lines t)) name
                  ++ progress name (S (length (nonblank recs))) 0
                       (map (DictReader_row header) (header :: nonblank recs))
                  ++ [Add.Success (S (length (nonblank recs))) name]
           /\ read_table (writerows (map Some (header ++ [ACTION; IS_MILESTONE]) :: ls))
              = Ok ((header ++ [ACTION; IS_MILESTONE]) :: map (map field_text) ls)).
Proof.
  intros Hheader Hxor f.
  pose proof (one_of_two_not_both header Hxor) as Hboth.
  pose proof (cleaned_header_nonempty t header lines' Hheader) as Hne.
  pose proof (cleaned_nonempty t header lines' Hheader) as Hcl.
  fold (updated header).
  rewrite add_alone_effect. cbn [st stdout]. unfold f.
  rewrite (add_effect_found name t wr Hcl).
  split; [|split; [apply one_of_two_repeated, Hxor | split]].
  - (* never taken as migrated *)
    destruct (add_core name wr (fst (cleaned_lines t))) as [body log] eqn:Hcore.
    intros [Hin|Hin]; [discriminate|].
    assert (Hlog : In (Add.AlreadyMigrated name) log).
    { destruct body; cbn [snd] in Hin; apply in_app_iff in Hin;
        (destruct Hin as [Hin|Hin]; [|exact Hin]);
        unfold leading_msg in Hin; (destruct (0 <? _); [|destruct Hin]);
        destruct Hin as [Hin|[]]; discriminate. }
    pose proof (proj1 (add_core_migrated name wr (fst (cleaned_lines t)))) as Hm.
    rewrite Hcore in Hm. cbn [snd] in Hm.
    destruct (Hm Hlog) as (h & l & Hh & Hb).
    rewrite Hheader in Hh. inversion Hh; subst h l. congruence.
  - (* nothing written and an error, or the new header first *)
    unfold add_core. rewrite Hheader, Hboth.
    destruct (DictReader_list header (fst (cleaned_lines t))) as [rows|e] eqn:Hrows.
    2: { left. cbn [fst snd]. split; [reflexivity|]. exists e.
         right. apply in_or_app. right. left. reflexivity. }
    pose proof (DictReader_list_first header header _ lines' rows Hheader Hne Hrows) as Hrne.
    destruct rows as [|r rows]; [congruence|].
    remember (r :: rows) as rows0 eqn:Hrows0.
    destruct (migrate_each rows0) as [migrated|e].
    2: { left. cbn [fst snd]. split; [reflexivity|]. exists e.
         right. apply in_or_app. right. apply in_or_app. right. left. reflexivity. }
    destruct wr.
    2: { left. cbn [fst snd]. split; [reflexivity|]. exists OSError.
         right. apply in_or_app. right. apply in_or_app. right. left. reflexivity. }
    right. destruct (rows_written (updated header) migrated) as [ls res].
    cbn [fst]. exists ls. split; [reflexivity|].
    rewrite writerows_cons. apply header_reads_back, within_limit_updated.
    eapply Reader_iternext_within_limit, Hheader.
  - (* success when no record is longer than the header *)
    intros recs Hr Hshort ->.
    rewrite (add_core_rows name true _ header lines' (header :: recs) Hheader Hne Hboth Hr).
    rewrite (nonblank_cons header recs Hne).
    assert (Hall : Forall (fun r => length r <= length header) (header :: nonblank recs)).
    { constructor; [reflexivity|]. unfold nonblank.
      apply Forall_forall. intros r Hin. apply filter_In in Hin.
      destruct Hin as [Hin _]. revert r Hin. apply Forall_forall. exact Hshort. }
    destruct (short_rows_migrate header _ Hall) as (migrated & Hm).
    destruct (short_rows_written header _ migrated Hall Hm) as (ls & Hls & Hout).
    pose proof (proj2 (migrate_each_Forall2 _ _) Hm) as Hmig.
    rewrite Hmig.
    rewrite (proj2 (rows_written_Forall2 _ _ _) Hls).
    cbn [fst snd].
    assert (Hlen : length migrated = S (length (nonblank recs))).
    { apply Forall2_length in Hm. rewrite length_map in Hm. cbn [length] in Hm.
      symmetry. exact Hm. }
    rewrite Hlen. cbn [length].
    exists ls. split; [exact Hout|]. split; [reflexivity|]. split; [reflexivity|].
    unfold read_table. rewrite list_reader_writerows.
    + cbn [map]. rewrite map_field_text_Some. reflexivity.
    + constructor.
      * rewrite map_field_text_Some. apply within_limit_updated.
        eapply Reader_iternext_within_limit; exact Hheader.
      * pose proof (rows_written_readable (updated header) migrated) as Hrd.
        rewrite (proj2 (rows_written_Forall2 _ _ _) Hls) in Hrd. cbn [fst] in Hrd.
        apply Hrd.
        eapply migrate_each_within; [|exact Hmig].
        eapply (DictReader_list_within header).
        unfold DictReader_list. rewrite Hr.
        rewrite <- (nonblank_cons header recs Hne). reflexivity.
Qed.

Lemma C9_witness :
  ~ In (Add.AlreadyMigrated "log-data.csv")
       (stdout (add_alone "log-data.csv" (mkFile (Ok one_target_text) true)))
  /\ ~ NoDup ([str "id"; str "action"] ++ [ACTION; IS_MILESTONE])
  /\ exists ls,
       Forall2 (fun r l => add_output_row [str "id"; str "action"] r = Ok (map field_text l))
               ([str "id"; str "action"] :: nonblank [[str "1"; str "walk"]]) ls
       /\ st (add_alone "log-data.csv" (mkFile (Ok one_target_text) true))
          = mkFile (Ok (writerows (map Some ([str "id"; str "action"]
                                               ++ [ACTION; IS_MILESTONE]) :: ls))) true
       /\ read_table (writerows (map Some ([str "id"; str "action"]
                                             ++ [ACTION; IS_MILESTONE]) :: ls))
          = Ok (([str "id"; str "action"] ++ [ACTION; IS_MILESTONE])
                  :: map (map field_text) ls).
Proof.
  destruct (C9_one_target_column_is_not_migrated
              "log-data.csv"%string one_target_text true [str "id"; str "action"]
              [str "1,walk
"])
    as (Hnot & Hdup & _ & Hok).
  - vm_compute. reflexivity.
  - vm_compute. reflexivity.
  - split; [exact Hnot|]. split; [exact Hdup|].
    destruct (Hok [[str "1"; str "walk"]]) as (ls & Hrows & Hst & _ & Hback).
    + vm_compute. reflexivity.
    + repeat constructor.
    + reflexivity.
    + exists ls. split; [exact Hrows|]. split; [exact Hst | exact Hback].
Defined.

(** The header has [action] and not [is_milestone], and the data row
    has a field more than the header: the run ends with the error that
    the key of the surplus fields has no [lower], nothing is written, and
    the header of the file stays as it was, with each name once. *)
Lemma C9_counterexample :
  (exists lines',
      Reader_iternext (fst (cleaned_lines one_target_long_text))
      = Ok (Some ([str "id"; str "action"], lines')))
  /\ xorb (contains [str "id"; str "action"] ACTION)
          (contains [str "id"; str "action"] IS_MILESTONE) = true
  /\ Add.migrate_file "log-data.csv" (mkWorld long_row [])
     = (mkWorld long_row
          [Add.Processing "log-data.csv";
           Add.ErrorProcessing "log-data.csv" AttributeError; Add.Traceback],
        Ok tt)
  /\ read_table one_target_long_text
     = Ok [[str "id"; str "action"]; [str "1"; str "walk"; str "extra"]]
  /\ NoDup [str "id"; str "action"].
Proof.
  split; [eexists; vm_compute; reflexivity|].
  split; [vm_compute; reflexivity|].
  split; [vm_compute; reflexivity|].
  split; [vm_compute; reflexivity|].
  repeat constructor; cbn [In]; intuition discriminate.
Qed.

(** ** C8: what is written reads back *)

(** C8. Whatever table a script writes, reading the written file with the
    reading of that script gives the table back.  For the drop-variant
    (universal newlines) the table is the one it built from the one it
    read.  For the add-variant ([newline='']) the table is the header of
    the file with [action] and [is_milestone] appended, followed by the
    row the add-variant makes of each record that has a field, the header
    line first, in order: of all of them, or of those before the first
    one that the writer rejects.  A field is written between quotes
    exactly when it holds a comma, a quote, a carriage return or a line
    feed, and a quote inside it is written twice. *)
Theorem C8_written_tables_read_back :
  (forall (name : string) (t : text) (out : list Drop.msg)
          (header : row) (rows : list row) (i : nat),
      read_table_universal t = Ok (header :: rows) ->
      index MILESTONE_TEXT header = Some i ->
      let table := Drop.cut i header :: map (Drop.new_row i) rows in
      st (fst (Drop.migrate_csv_file name (mkWorld (mkFile (Ok t) true) out)))
      = mkFile (Ok (writerows (map Drop.as_fields table))) true
      /\ read_table_universal (writerows (map Drop.as_fields table)) = Ok table)
  /\
  (forall (name : string) (f : file) (out : list Add.msg) (w' : world Add.msg file),
      Add.migrate_file name (mkWorld f out) = (w', Ok tt) ->
      st w' <> f ->
      exists t header recs pre post written,
        data f = Ok t
        /\ list_reader (fst (cleaned_lines t)) = Ok (header :: recs)
        /\ header :: nonblank recs = pre ++ post
        /\ Forall2 (fun r l => add_output_row header r = Ok l) pre written
        /\ (post = []
            \/ exists r post' e, post = r :: post' /\ add_output_row header r = Raise e)
        /\ (exists table,
              map (map field_text) table = (header ++ [ACTION; IS_MILESTONE]) :: written
              /\ st w' = mkFile (Ok (writerows table)) true)
        /\ read_table (match data (st w') with Ok u => u | Raise _ => [] end)
           = Ok ((header ++ [ACTION; IS_MILESTONE]) :: written))
  /\
  (forall s : text,
      join_append false (Some s)
      = if existsb needs_quote s then DQUOTE :: copy_field s ++ [DQUOTE] else s)
  /\
  (forall c : char,
      needs_quote c = true <-> c = COMMA \/ c = DQUOTE \/ c = CR \/ c = LF)
  /\
  (forall s s' : text,
      copy_field (s ++ DQUOTE :: s')
      = copy_field s ++ DQUOTE :: DQUOTE :: copy_field s').
Proof.
  split; [|split; [|split; [|split]]].
  - intros name t out header rows i Hread Hidx table.
    rewrite (drop_run_migrated name t out header rows i Hread Hidx).
    split; [reflexivity|].
    apply clean_table_reads_back, drop_table_clean.
    eapply read_table_universal_clean, Hread.
  - intros name f out w' Hrun Hchanged.
    rewrite migrate_file_run in Hrun. injection Hrun as <-. cbn [st] in *.
    destruct (add_rewrite_inv name f)
      as [Hsame | (t & header & recs & pre & post & ls & Hd & Hr & Hsplit & Hpre & Hpost
                   & Hst & Hback & _)];
      [congruence|].
    exists t, header, recs, pre, post, (map (map field_text) ls).
    split; [exact Hd|]. split; [exact Hr|]. split; [exact Hsplit|].
    split.
    { clear - Hpre. induction Hpre; cbn [map]; constructor; assumption. }
    split; [exact Hpost|]. split.
    + exists (map Some (updated header) :: ls). split; [|exact Hst].
      cbn [map]. rewrite map_field_text_Some. reflexivity.
    + rewrite Hst. cbn [data]. exact Hback.
  - apply join_append_quoting.
  - apply needs_quote_spec.
  - apply copy_field_doubles.
Qed.

Lemma C8_witness :
  (let table := Drop.cut 1 [str "id"; str "milestone_text"; str "note"]
                  :: map (Drop.new_row 1) [[str "1"; str "a,b"; said_hi]] in
   st (fst (Drop.migrate_csv_file "log-data.csv"
              (mkWorld (mkFile (Ok quoted_notes) true) [])))
   = mkFile (Ok (writerows (map Drop.as_fields table))) true
   /\ read_table_universal (writerows (map Drop.as_fields table)) = Ok table)
  /\
  (exists w',
      Add.migrate_file "log-data.csv" (mkWorld (mkFile (Ok quoted_milestone) true) [])
      = (w', Ok tt)
      /\ exists t header recs pre post written,
           data (mkFile (Ok quoted_milestone) true) = Ok t
           /\ list_reader (fst (cleaned_lines t)) = Ok (header :: recs)
           /\ header :: nonblank recs = pre ++ post
           /\ Forall2 (fun r l => add_output_row header r = Ok l) pre written
           /\ (post = []
               \/ exists r post' e,
                    post = r :: post' /\ add_output_row header r = Raise e)
           /\ (exists table,
                 map (map field_text) table = (header ++ [ACTION; IS_MILESTONE]) :: written
                 /\ st w' = mkFile (Ok (writerows table)) true)
           /\ read_table (match data (st w') with Ok u => u | Raise _ => [] end)
              = Ok ((header ++ [ACTION; IS_MILESTONE]) :: written)).
Proof.
  split.
  - apply (proj1 C8_written_tables_read_back "log-data.csv"%string
             quoted_notes [] [str "id"; str "milestone_text"; str "note"]
             [[str "1"; str "a,b"; said_hi]] 1).
    + vm_compute. reflexivity.
    + vm_compute. reflexivity.
  - eexists. split; [vm_compute; reflexivity|].
    apply (proj1 (proj2 C8_written_tables_read_back) "log-data.csv"%string
             (mkFile (Ok quoted_milestone) true) []).
    + vm_compute. reflexivity.
    + vm_compute. discriminate.
Defined.

(** The table the add-variant leaves in the file with a comma in a
    field, read back. *)
Example add_quoted_table_reads_back :
  read_table (match data (st (add_alone "log-data.csv" (mkFile (Ok quoted_milestone) true)))
              with Ok u => u | Raise _ => [] end)
  = Ok [[str "id"; str "milestone_text"; str "action"; str "is_milestone"];
        [str "id"; str "milestone_text"; str "milestone_text"; str "1"];
        [str "1"; str "a,b"; str "a,b"; str "1"]].
Proof. vm_compute. reflexivity. Qed.

(** * Batches *)

(** ** The batch drivers *)

Lemma set_file_same (fl : inode -> file) (i : inode) (f : file) : set_file fl i f i = f.
Proof. unfold set_file. rewrite Nat.eqb_refl. reflexivity. Qed.

Lemma set_file_other (fl : inode -> file) (i j : inode) (f : file) :
  j <> i -> set_file fl i f j = fl j.
Proof.
  intros H. unfold set_file. destruct (Nat.eqb_spec j i); [congruence | reflexivity].
Qed.

Lemma lookup_listed (entries : list (string * inode)) (name : string) (i : inode) :
  lookup entries name = Some i -> In name (map fst entries).
Proof.
  induction entries as [|[n j] entries IH]; cbn [lookup map fst In]; [discriminate|].
  destruct (String.eqb n name) eqn:E; [|auto].
  apply String.eqb_eq in E. auto.
Qed.

(** The names of files that are all different are different, and none
    of the others refers to the file of one of them. *)
Lemma unlinked_NoDup (entries : list (string * inode)) (names : list string) :
  unlinked entries names -> NoDup names.
Proof. apply NoDup_map_inv. Qed.

Lemma unlinked_others (entries : list (string * inode)) (names : list string)
      (name : string) (i : inode) :
  unlinked entries names -> In name names -> lookup entries name = Some i ->
  forall other, In other names -> other <> name -> lookup entries other <> Some i.
Proof.
  unfold unlinked. induction names as [|n names IH]; cbn [map In]; [tauto|].
  intros Hnd Hin Hl other Hother Hne Hl'.
  inversion Hnd as [|x l Hx Hrest]; subst.
  destruct Hin as [->|Hin], Hother as [->|Hother].
  - congruence.
  - apply Hx. rewrite Hl, <- Hl'. apply in_map, Hother.
  - apply Hx. rewrite Hl', <- Hl. apply in_map, Hin.
  - exact (IH Hrest Hin Hl other Hother Hne Hl').
Qed.

(** *** The add-variant *)

Lemma for_each_file_run (p : string) (entries : list (string * inode))
      (names : list string) :
  forall (fs : filesystem) (out : list Add.msg),
    tree fs p = Directory entries ->
    Add.for_each_file p names (mkWorld fs out)
    = (mkWorld (mkFs (tree fs) (fst (add_batch entries names (files fs))))
               (out ++ snd (add_batch entries names (files fs))),
       Ok tt).
Proof.
  induction names as [|name names IH]; intros fs out Hdir.
  - cbn [Add.for_each_file add_batch fst snd]. unfold ret.
    rewrite app_nil_r. destruct fs. reflexivity.
  - cbn [Add.for_each_file add_batch]. unfold bind_io at 1. unfold at_path.
    cbn [st stdout]. rewrite Hdir.
    destruct (lookup entries name) as [i|] eqn:Hl.
    + rewrite migrate_file_run. cbn [st stdout].
      rewrite IH by exact Hdir. cbn [tree files].
      destruct (add_batch entries names _) as [fl' log]. cbn [fst snd].
      rewrite <- app_assoc. reflexivity.
    + rewrite migrate_file_run. cbn [st stdout].
      rewrite IH by exact Hdir.
      destruct (add_batch entries names (files fs)) as [fl' log]. cbn [fst snd].
      rewrite <- app_assoc. reflexivity.
Qed.

(** A file that none of the names refers to is left as it is. *)
Lemma add_batch_untouched (entries : list (string * inode)) (names : list string) :
  forall (fl : inode -> file) (i : inode),
    (forall name, In name names -> lookup entries name <> Some i) ->
    fst (add_batch entries names fl) i = fl i.
Proof.
  induction names as [|n names IH]; intros fl i Hnot; [reflexivity|].
  cbn [add_batch].
  destruct (lookup entries n) as [j|] eqn:Hl.
  - pose proof (IH (set_file fl j (fst (add_effect n (fl j)))) i) as H.
    destruct (add_batch entries names _) as [fl' log].
    cbn [fst] in *. rewrite H.
    + apply set_file_other. intros ->. apply (Hnot n); [left; reflexivity | exact Hl].
    + intros name Hin. apply Hnot. right. exact Hin.
  - pose proof (IH fl i) as H.
    destruct (add_batch entries names fl) as [fl' log]. cbn [fst] in *.
    apply H. intros name Hin. apply Hnot. right. exact Hin.
Qed.

(** The file of a name of the batch to which no other name of the batch
    refers is left as a run on it alone leaves it, and the lines of that
    run are printed, whatever became of the others. *)
Lemma add_batch_each (entries : list (string * inode)) (names : list string) :
  forall (fl : inode -> file) (name : string) (i : inode),
    NoDup names -> In name names -> lookup entries name = Some i ->
    (forall other, In other names -> other <> name -> lookup entries other <> Some i) ->
    fst (add_batch entries names fl) i = fst (add_effect name (fl i))
    /\ exists before after,
         snd (add_batch entries names fl)
         = before ++ Add.Processing name :: snd (add_effect name (fl i)) ++ after.
Proof.
  induction names as [|n names IH]; intros fl name i Hnd Hin Hl Hothers; [destruct Hin|].
  inversion Hnd as [|x l Hx Hrest]; subst. cbn [add_batch].
  destruct Hin as [->|Hin].
  - rewrite Hl.
    pose proof (add_batch_untouched entries names
                  (set_file fl i (fst (add_effect name (fl i)))) i) as Hun.
    destruct (add_batch entries names _) as [fl' log]. cbn [fst snd] in *.
    split.
    + rewrite Hun; [apply set_file_same|].
      intros other Hother. apply Hothers; [right; exact Hother|].
      intros ->. tauto.
    + exists [], log. reflexivity.
  - assert (Hne : n <> name) by (intros ->; tauto).
    assert (Hrest' : forall other, In other names -> other <> name ->
                                   lookup entries other <> Some i).
    { intros other Hother. apply Hothers. right. exact Hother. }
    destruct (lookup entries n) as [j|] eqn:Hj.
    + assert (Hji : i <> j).
      { intros ->. apply (Hothers n); [left; reflexivity | exact Hne | exact Hj]. }
      destruct (IH (set_file fl j (fst (add_effect n (fl j)))) name i Hrest Hin Hl Hrest')
        as (Hfile & before & after & Hlog).
      rewrite (set_file_other _ _ _ _ Hji) in Hfile, Hlog.
      destruct (add_batch entries names _) as [fl' log]. cbn [fst snd] in *.
      split; [exact Hfile|].
      exists (Add.Processing n :: snd (add_effect n (fl j)) ++ before), after.
      rewrite Hlog. cbn [app]. rewrite <- app_assoc. reflexivity.
    + destruct (IH fl name i Hrest Hin Hl Hrest') as (Hfile & before & after & Hlog).
      destruct (add_batch entries names fl) as [fl' log]. cbn [fst snd] in *.
      split; [exact Hfile|].
      exists (Add.Processing n
                :: snd (add_effect n (mkFile (Raise OSError) false)) ++ before), after.
      rewrite Hlog. cbn [app]. rewrite <- app_assoc. reflexivity.
Qed.

Lemma migrate_sessions_run (p : string) (fs : filesystem) (out : list Add.msg)
      (entries : list (string * inode)) :
  tree fs p = Directory entries ->
  let csv_files := filter is_data_csv (map fst entries) in
  csv_files <> [] ->
  Add.migrate_sessions p (mkWorld fs out)
  = (mkWorld (mkFs (tree fs) (fst (add_batch entries csv_files (files fs))))
       (out ++ Add.FoundFiles (length csv_files) csv_files
            :: snd (add_batch entries csv_files (files fs)) ++ [Add.CompleteAll]),
     Ok tt).
Proof.
  intros Hdir csv_files Hne.
  unfold Add.migrate_sessions, bind_io at 1, listdir. cbn [st]. rewrite Hdir.
  fold csv_files. destruct csv_files as [|n names] eqn:E; [congruence|].
  rewrite <- E in *. clear E.
  unfold bind_io at 1. unfold print at 1. cbn [st stdout].
  unfold bind_io at 1.
  rewrite (for_each_file_run p entries csv_files fs _ Hdir).
  unfold print. cbn [st stdout].
  rewrite <- !app_assoc. reflexivity.
Qed.

Lemma migrate_sessions_none (p : string) (fs : filesystem) (out : list Add.msg) :
  tree fs p <> Inaccessible ->
  filter is_data_csv (names_in fs p) = [] ->
  exists log,
    Add.migrate_sessions p (mkWorld fs out) = (mkWorld fs (out ++ log), Ok tt)
    /\ forall m, In m log -> forall name, m <> Add.Processing name.
Proof.
  intros Hacc Hnone. unfold names_in in Hnone.
  unfold Add.migrate_sessions, bind_io at 1, listdir. cbn [st].
  assert (Hlist : exists names,
             match tree fs p with
             | Directory entries => Ok (map fst entries)
             | Inaccessible => Raise OSError
             | _ => Ok []
             end = Ok names /\ filter is_data_csv names = []).
  { destruct (tree fs p) as [| | |entries]; try congruence; eauto. }
  destruct Hlist as (names & -> & ->).
  unfold bind_io, print, ret. cbn [st stdout].
  destruct (filter is_csv names).
  - eexists. split; [reflexivity|].
    intros m [<-|[]] name. discriminate.
  - eexists. cbn [st stdout]. rewrite <- app_assoc. split; [reflexivity|].
    intros m [<-|[<-|[]]] name; discriminate.
Qed.

(** *** The drop-variant *)

Lemma migrate_all_run (dir : string) (entries : list (string * inode))
      (names : list string) :
  forall (fs : filesystem) (out : list Drop.msg) (successful : nat),
    tree fs dir = Directory entries ->
    DropMain.migrate_all dir names successful (mkWorld fs out)
    = (mkWorld (mkFs (tree fs)
                     (fst (fst (drop_batch entries names (files fs) successful))))
               (out ++ snd (fst (drop_batch entries names (files fs) successful))),
       Ok (snd (drop_batch entries names (files fs) successful))).
Proof.
  induction names as [|name names IH]; intros fs out successful Hdir.
  - cbn [DropMain.migrate_all drop_batch fst snd]. unfold ret.
    rewrite app_nil_r. destruct fs. reflexivity.
  - cbn [DropMain.migrate_all drop_batch]. unfold bind_io at 1. unfold at_path.
    cbn [st stdout]. rewrite Hdir.
    destruct (lookup entries name) as [i|] eqn:Hl.
    + rewrite drop_run_frame. cbn [st stdout].
      unfold bind_io at 1. unfold print at 1. cbn [st stdout].
      rewrite IH by exact Hdir. cbn [tree files].
      destruct (drop_batch entries names _ _) as [[fl' log] n]. cbn [fst snd].
      rewrite <- !app_assoc. reflexivity.
    + rewrite drop_run_frame. cbn [st stdout].
      unfold bind_io at 1. unfold print at 1. cbn [st stdout].
      rewrite IH by exact Hdir.
      destruct (drop_batch entries names _ _) as [[fl' log] n]. cbn [fst snd].
      rewrite <- !app_assoc. reflexivity.
Qed.

Lemma drop_batch_untouched (entries : list (string * inode)) (names : list string) :
  forall (fl : inode -> file) (successful : nat) (i : inode),
    (forall name, In name names -> lookup entries name <> Some i) ->
    fst (fst (drop_batch entries names fl successful)) i = fl i.
Proof.
  induction names as [|n names IH]; intros fl successful i Hnot; [reflexivity|].
  cbn [drop_batch].
  destruct (lookup entries n) as [j|] eqn:Hl.
  - pose proof (IH (set_file fl j (drop_file n (fl j)))
                   (if drop_ok n (fl j) then S successful else successful) i) as H.
    destruct (drop_batch entries names _ _) as [[fl' log] k].
    cbn [fst] in *. rewrite H.
    + apply set_file_other. intros ->. apply (Hnot n); [left; reflexivity | exact Hl].
    + intros name Hin. apply Hnot. right. exact Hin.
  - pose proof (IH fl (if drop_ok n (mkFile (Raise OSError) false)
                       then S successful else successful) i) as H.
    destruct (drop_batch entries names _ _) as [[fl' log] k]. cbn [fst] in *.
    apply H. intros name Hin. apply Hnot. right. exact Hin.
Qed.

Lemma drop_batch_each (entries : list (string * inode)) (names : list string) :
  forall (fl : inode -> file) (successful : nat) (name : string) (i : inode),
    NoDup names -> In name names -> lookup entries name = Some i ->
    (forall other, In other names -> other <> name -> lookup entries other <> Some i) ->
    fst (fst (drop_batch entries names fl successful)) i = drop_file name (fl i)
    /\ exists before after,
         snd (fst (drop_batch entries names fl successful))
         = before ++ drop_log name (fl i) ++ after.
Proof.
  induction names as [|n names IH]; intros fl successful name i Hnd Hin Hl Hothers;
    [destruct Hin|].
  inversion Hnd as [|x l Hx Hrest]; subst. cbn [drop_batch].
  destruct Hin as [->|Hin].
  - rewrite Hl.
    pose proof (drop_batch_untouched entries names
                  (set_file fl i (drop_file name (fl i)))
                  (if drop_ok name (fl i) then S successful else successful) i) as Hun.
    destruct (drop_batch entries names _ _) as [[fl' log] k]. cbn [fst snd] in *.
    split.
    + rewrite Hun; [apply set_file_same|].
      intros other Hother. apply Hothers; [right; exact Hother|].
      intros ->. tauto.
    + exists [], (Drop.Blank :: log). reflexivity.
  - assert (Hne : n <> name) by (intros ->; tauto).
    assert (Hrest' : forall other, In other names -> other <> name ->
                                   lookup entries other <> Some i).
    { intros other Hother. apply Hothers. right. exact Hother. }
    destruct (lookup entries n) as [j|] eqn:Hj.
    + assert (Hji : i <> j).
      { intros ->. apply (Hothers n); [left; reflexivity | exact Hne | exact Hj]. }
      destruct (IH (set_file fl j (drop_file n (fl j)))
                   (if drop_ok n (fl j) then S successful else successful)
                   name i Hrest Hin Hl Hrest')
        as (Hfile & before & after & Hlog).
      rewrite (set_file_other _ _ _ _ Hji) in Hfile, Hlog.
      destruct (drop_batch entries names _ _) as [[fl' log] k]. cbn [fst snd] in *.
      split; [exact Hfile|].
      exists (drop_log n (fl j) ++ Drop.Blank :: before), after.
      rewrite Hlog, <- !app_assoc. reflexivity.
    + destruct (IH fl (if drop_ok n (mkFile (Raise OSError) false)
                       then S successful else successful)
                   name i Hrest Hin Hl Hrest')
        as (Hfile & before & after & Hlog).
      destruct (drop_batch entries names _ _) as [[fl' log] k]. cbn [fst snd] in *.
      split; [exact Hfile|].
      exists (drop_log n (mkFile (Raise OSError) false) ++ Drop.Blank :: before), after.
      rewrite Hlog, <- !app_assoc. reflexivity.
Qed.

(** The count of successes has one for every line [Migrated]: a call
    prints that line when it returns [True] and only then. *)
Lemma migrated_lines_app (a b : list Drop.msg) :
  migrated_lines (a ++ b) = migrated_lines a + migrated_lines b.
Proof.
  induction a as [|m a IH]; cbn [app migrated_lines]; [reflexivity|].
  destruct m; cbn [plus]; rewrite IH; reflexivity.
Qed.

Lemma migrated_lines_log (name : string) (f : file) :
  migrated_lines (drop_log name f) = if drop_ok name f then 1 else 0.
Proof.
  unfold drop_log, drop_ok, drop_result.
  unfold Drop.migrate_csv_file, bind_io, try_except, print, read_text_universal,
    lift, open_w, write, ret.
  destruct f as [[t|e] wr]; cbn [st stdout data writable bind fst snd app];
    [|reflexivity].
  destruct (list_reader (readlines (translate_newlines t))) as [[|header rows]|e];
    cbn [st stdout data writable bind fst snd app]; try reflexivity.
  destruct (index MILESTONE_TEXT header) as [i|];
    cbn [st stdout data writable bind fst snd app]; [|reflexivity].
  destruct wr; cbn [st stdout data writable bind fst snd app]; reflexivity.
Qed.

Lemma drop_batch_tally (entries : list (string * inode)) (names : list string) :
  forall (fl : inode -> file) (successful : nat),
    snd (drop_batch entries names fl successful)
    = successful + migrated_lines (snd (fst (drop_batch entries names fl successful))).
Proof.
  induction names as [|n names IH]; intros fl successful.
  - cbn. lia.
  - cbn [drop_batch].
    match goal with
    | |- context [drop_batch entries names ?a ?s] =>
        pose proof (IH a s) as H; destruct (drop_batch entries names a s) as [[fl' log] k]
    end.
    cbn [fst snd] in *.
    rewrite migrated_lines_app, migrated_lines_log. cbn [migrated_lines].
    rewrite H.
    match goal with |- context [drop_ok n ?f] => destruct (drop_ok n f) end; lia.
Qed.

(** When no two names are links to one file, the count is the number of
    files on which a call returns [True]. *)
Lemma drop_batch_count (entries : list (string * inode)) (names : list string) :
  forall (fl : inode -> file) (successful : nat),
    unlinked entries names ->
    snd (drop_batch entries names fl successful)
    = successful + length (filter (returned_true entries fl) names).
Proof.
  induction names as [|n names IH]; intros fl successful Hun.
  - cbn. lia.
  - pose proof Hun as Hnd. unfold unlinked in Hnd. cbn [map] in Hnd.
    inversion Hnd as [|x l Hx Hrest]; subst.
    cbn [drop_batch filter].
    unfold returned_true at 1.
    destruct (lookup entries n) as [j|] eqn:Hl.
    + pose proof (IH (set_file fl j (drop_file n (fl j)))
                     (if drop_ok n (fl j) then S successful else successful) Hrest) as Ht.
      destruct (drop_batch entries names _ _) as [[fl' log] k]. cbn [fst snd] in *.
      rewrite Ht.
      assert (Hext : filter (returned_true entries (set_file fl j (drop_file n (fl j)))) names
                     = filter (returned_true entries fl) names).
      { apply filter_ext_in. intros name Hname. unfold returned_true.
        destruct (lookup entries name) as [i|] eqn:Hi; [|reflexivity].
        rewrite set_file_other; [reflexivity|].
        intros ->. apply Hx. rewrite <- Hi. apply in_map, Hname. }
      rewrite Hext. destruct (drop_ok n (fl j)); cbn [length]; lia.
    + change (drop_ok n (mkFile (Raise OSError) false)) with false.
      pose proof (IH fl successful Hrest) as Ht.
      destruct (drop_batch entries names fl successful) as [[fl' log] k].
      cbn [fst snd] in *. rewrite Ht. lia.
Qed.

(** [sorted] reorders. *)
Lemma insert_sorted_In (x y : string) (l : list string) :
  In y (insert_sorted x l) <-> y = x \/ In y l.
Proof.
  induction l as [|z l IH]; cbn [insert_sorted In]; [intuition|].
  destruct (String.leb x z); cbn [In]; [intuition|]. rewrite IH. intuition.
Qed.

Lemma sorted_In (y : string) (l : list string) : In y (sorted l) <-> In y l.
Proof.
  induction l as [|x l IH]; cbn [sorted fold_right In]; [tauto|].
  fold (sorted l). rewrite insert_sorted_In, IH. intuition.
Qed.

Lemma insert_sorted_NoDup (x : string) (l : list string) :
  ~ In x l -> NoDup l -> NoDup (insert_sorted x l).
Proof.
  induction l as [|z l IH]; cbn [insert_sorted]; intros Hx Hnd.
  - constructor; [exact Hx | exact Hnd].
  - destruct (String.leb x z); [constructor; assumption|].
    inversion Hnd; subst. cbn [In] in Hx. constructor.
    + rewrite insert_sorted_In. intuition.
    + apply IH; [tauto | assumption].
Qed.

Lemma sorted_NoDup (l : list string) : NoDup l -> NoDup (sorted l).
Proof.
  induction 1 as [|x l Hx Hl IH]; cbn [sorted fold_right]; [constructor|].
  fold (sorted l). apply insert_sorted_NoDup; [rewrite sorted_In; exact Hx | exact IH].
Qed.

Lemma insert_sorted_map_NoDup {B : Type} (g : string -> B) (x : string) (l : list string) :
  NoDup (map g (x :: l)) -> NoDup (map g (insert_sorted x l)).
Proof.
  induction l as [|z l IH]; cbn [insert_sorted]; intros Hnd; [exact Hnd|].
  destruct (String.leb x z); [exact Hnd|].
  cbn [map] in *.
  inversion Hnd as [|a l0 Hx Hrest]; subst.
  inversion Hrest as [|a l0 Hz Hl]; subst.
  constructor.
  - intros Hin. apply in_map_iff in Hin. destruct Hin as (y & Hy & Hin).
    apply insert_sorted_In in Hin. destruct Hin as [->|Hin].
    + apply Hx. left. symmetry. exact Hy.
    + apply Hz. rewrite <- Hy. apply in_map, Hin.
  - apply IH. constructor; [|exact Hl].
    intros Hin. apply Hx. right. exact Hin.
Qed.

Lemma sorted_map_NoDup {B : Type} (g : string -> B) (l : list string) :
  NoDup (map g l) -> NoDup (map g (sorted l)).
Proof.
  induction l as [|x l IH]; cbn [sorted fold_right map]; intros Hnd; [constructor|].
  fold (sorted l). apply insert_sorted_map_NoDup. cbn [map].
  inversion Hnd as [|a l0 Hx Hrest]; subst.
  constructor; [|apply IH, Hrest].
  intros Hin. apply Hx. apply in_map_iff in Hin. destruct Hin as (y & Hy & Hin).
  rewrite <- Hy. apply in_map, sorted_In, Hin.
Qed.

Lemma insert_sorted_filter_length (p : string -> bool) (x : string) (l : list string) :
  length (filter p (insert_sorted x l)) = length (filter p (x :: l)).
Proof.
  induction l as [|z l IH]; cbn [insert_sorted]; [reflexivity|].
  destruct (String.leb x z); [reflexivity|].
  cbn [filter] in *. destruct (p z), (p x); cbn [length] in *; lia.
Qed.

Lemma sorted_filter_length (p : string -> bool) (l : list string) :
  length (filter p (sorted l)) = length (filter p l).
Proof.
  induction l as [|x l IH]; cbn [sorted fold_right]; [reflexivity|].
  fold (sorted l). rewrite insert_sorted_filter_length.
  cbn [filter]. destruct (p x); cbn [length]; lia.
Qed.

Lemma drop_main_run (home : string) (fs : filesystem) (entries : list (string * inode)) :
  tree fs (DropMain.JUJU_DATA_DIR home) = Directory entries ->
  let csv_files := filter is_data_csv (map fst entries) in
  csv_files <> [] ->
  let batch := drop_batch entries (sorted csv_files) (files fs) 0 in
  DropMain.main home (mkWorld fs [])
  = (mkWorld (mkFs (tree fs) (fst (fst batch)))
       (Drop.Starting :: Drop.Found (length csv_files)
          :: snd (fst batch)
          ++ [Drop.Rule; Drop.Complete (snd batch) (length csv_files); Drop.Rule]),
     Ok tt).
Proof.
  intros Hdir csv_files Hne batch.
  unfold DropMain.main.
  unfold bind_io at 1. unfold print at 1. cbn [st stdout app].
  unfold bind_io at 1. unfold path_exists at 1. cbn [st]. rewrite Hdir. cbn [negb].
  unfold bind_io at 1. unfold listdir at 1. cbn [st]. rewrite Hdir.
  fold csv_files.
  assert (Hmatch : forall (A : Type) (a b : A),
             match csv_files with [] => a | _ :: _ => b end = b)
    by (intros; destruct csv_files; congruence).
  rewrite Hmatch.
  unfold bind_io at 1. unfold print at 1. cbn [st stdout app].
  unfold bind_io at 1.
  rewrite (migrate_all_run (DropMain.JUJU_DATA_DIR home) entries (sorted csv_files)
             fs _ 0 Hdir).
  fold batch. unfold bind_io, print. cbn [st stdout app].
  rewrite <- !app_assoc. reflexivity.
Qed.

(** *** The names a batch prints *)

Lemma add_processed_app (a b : list Add.msg) :
  add_processed (a ++ b) = add_processed a ++ add_processed b.
Proof.
  induction a as [|m a IH]; cbn [app add_processed]; [reflexivity|].
  destruct m; cbn [app]; rewrite IH; reflexivity.
Qed.

Lemma drop_processed_app (a b : list Drop.msg) :
  drop_processed (a ++ b) = drop_processed a ++ drop_processed b.
Proof.
  induction a as [|m a IH]; cbn [app drop_processed]; [reflexivity|].
  destruct m; cbn [app]; rewrite IH; reflexivity.
Qed.

Lemma add_processed_none (log : list Add.msg) :
  (forall m, In m log -> forall name, m <> Add.Processing name) ->
  add_processed log = [].
Proof.
  induction log as [|m log IH]; intros H; cbn [add_processed]; [reflexivity|].
  assert (Hrest : add_processed log = []).
  { apply IH. intros m' Hin. apply H. right. exact Hin. }
  destruct m; try exact Hrest.
  exfalso. eapply (H _ (or_introl eq_refl)). reflexivity.
Qed.

Lemma add_effect_processed (name : string) (f : file) :
  add_processed (snd (add_effect name f)) = [].
Proof.
  apply add_processed_none. intros m Hin other.
  apply add_effect_log in Hin.
  repeat match goal with
         | H : _ \/ _ |- _ => destruct H as [H|H]
         | H : exists _, _ |- _ => destruct H as [? H]
         end; subst m; discriminate.
Qed.

Lemma add_batch_processed (entries : list (string * inode)) (names : list string) :
  forall fl, add_processed (snd (add_batch entries names fl)) = names.
Proof.
  induction names as [|n names IH]; intros fl; cbn [add_batch]; [reflexivity|].
  destruct (lookup entries n) as [i|].
  - pose proof (IH (set_file fl i (fst (add_effect n (fl i))))) as H.
    destruct (add_batch entries names _) as [fl' log].
    cbn [snd] in *. cbn [add_processed].
    rewrite add_processed_app, add_effect_processed, H. reflexivity.
  - pose proof (IH fl) as H.
    destruct (add_batch entries names fl) as [fl' log].
    cbn [snd] in *. cbn [add_processed].
    rewrite add_processed_app, add_effect_processed, H. reflexivity.
Qed.

Lemma drop_log_processed (name : string) (f : file) :
  drop_processed (drop_log name f) = [name].
Proof.
  unfold drop_log, drop_result.
  unfold Drop.migrate_csv_file, bind_io, try_except, print, read_text_universal,
    lift, open_w, write, ret.
  destruct f as [[t|e] wr]; cbn [st stdout data writable bind fst snd app];
    [|reflexivity].
  destruct (list_reader (readlines (translate_newlines t))) as [[|header rows]|e];
    cbn [st stdout data writable bind fst snd app]; try reflexivity.
  destruct (index MILESTONE_TEXT header) as [i|];
    cbn [st stdout data writable bind fst snd app]; [|reflexivity].
  destruct wr; cbn [st stdout data writable bind fst snd app]; reflexivity.
Qed.

Lemma drop_batch_processed (entries : list (string * inode)) (names : list string) :
  forall fl successful,
    drop_processed (snd (fst (drop_batch entries names fl successful))) = names.
Proof.
  induction names as [|n names IH]; intros fl successful; cbn [drop_batch];
    [reflexivity|].
  match goal with
  | |- context [drop_batch entries names ?e ?s] =>
      pose proof (IH e s) as H; destruct (drop_batch entries names e s) as [[fl' log] k]
  end.
  cbn [fst snd] in *.
  rewrite drop_processed_app, drop_log_processed. cbn [app drop_processed].
  rewrite H. reflexivity.
Qed.

Lemma insert_sorted_ascending (x : string) (l : list string) :
  ascending l -> ascending (insert_sorted x l).
Proof.
  induction l as [|y l IH]; intros Hl; cbn [insert_sorted].
  - cbn. auto.
  - destruct (String.leb x y) eqn:E.
    + cbn [ascending]. split; [exact E | exact Hl].
    + cbn [ascending] in Hl. destruct Hl as [Hy Hl].
      specialize (IH Hl).
      assert (Hyx : String.leb y x = true).
      { destruct (String.leb_total x y) as [H|H]; [congruence | exact H]. }
      cbn [ascending]. split; [|exact IH].
      destruct l as [|z l]; cbn [insert_sorted]; [exact Hyx|].
      destruct (String.leb x z); [exact Hyx | exact Hy].
Qed.

Lemma sorted_ascending (l : list string) : ascending (sorted l).
Proof.
  induction l as [|x l IH]; cbn [sorted fold_right]; [exact I|].
  apply insert_sorted_ascending. exact IH.
Qed.

Lemma insert_sorted_count (x y : string) (l : list string) :
  count_occ string_dec (insert_sorted x l) y = count_occ string_dec (x :: l) y.
Proof.
  induction l as [|z l IH]; cbn [insert_sorted]; [reflexivity|].
  destruct (String.leb x z); [reflexivity|].
  cbn [count_occ] in *. rewrite IH.
  destruct (string_dec z y), (string_dec x y); reflexivity.
Qed.

Lemma sorted_count (y : string) (l : list string) :
  count_occ string_dec (sorted l) y = count_occ string_dec l y.
Proof.
  induction l as [|x l IH]; cbn [sorted fold_right]; [reflexivity|].
  fold (sorted l). rewrite insert_sorted_count. cbn [count_occ]. rewrite IH. reflexivity.
Qed.

(** ** C6: the exit status *)

Lemma add_main_not_a_directory (expanduser : string -> string) (script_path data_path_str : string)
      (fs : filesystem) :
  let p := if Add.startswith_tilde data_path_str then expanduser data_path_str
           else data_path_str in
  (forall entries, tree fs p <> Directory entries) ->
  Add.script expanduser [script_path; data_path_str] fs
  = (1, [Add.NotADirectory p], fs).
Proof.
  intros p Hnd. unfold Add.script, Add.main. fold p.
  unfold bind_io at 1. unfold isdir at 1. cbn [st].
  destruct (tree fs p) as [| | |entries] eqn:E; [reflexivity | reflexivity | reflexivity |].
  exfalso. apply (Hnd entries). reflexivity.
Qed.

Lemma add_main_directory (expanduser : string -> string) (script_path data_path_str : string)
      (fs : filesystem) (entries : list (string * inode)) :
  let p := if Add.startswith_tilde data_path_str then expanduser data_path_str
           else data_path_str in
  tree fs p = Directory entries ->
  exists report fs',
    Add.script expanduser [script_path; data_path_str] fs
    = (0, Add.StartingIn p :: report ++ [Add.Finished], fs').
Proof.
  intros p Hdir. unfold Add.script, Add.main. fold p.
  unfold bind_io at 1. unfold isdir at 1. cbn [st]. rewrite Hdir. cbn [negb].
  unfold bind_io at 1. unfold print at 1. cbn [st stdout app].
  unfold bind_io at 1.
  destruct (filter is_data_csv (map fst entries)) as [|n names] eqn:E.
  - destruct (migrate_sessions_none p fs [Add.StartingIn p]) as (log & Hrun & _).
    { rewrite Hdir. discriminate. }
    { unfold names_in. rewrite Hdir. exact E. }
    rewrite Hrun. unfold bind_io, print, ret. cbn [st stdout app].
    exists log, fs. reflexivity.
  - rewrite (migrate_sessions_run p fs [Add.StartingIn p] entries Hdir)
      by (rewrite E; discriminate).
    unfold bind_io, print, ret. cbn [st stdout app].
    eexists (Add.FoundFiles _ _ :: _ ++ [Add.CompleteAll]), _.
    reflexivity.
Qed.

Lemma add_main_usage (expanduser : string -> string) (argv : list string)
      (fs : filesystem) :
  length argv <> 2 ->
  Add.script expanduser argv fs = (1, [Add.Usage; Add.UsageExample], fs).
Proof.
  intros H. destruct argv as [|a [|b [|c argv]]]; try reflexivity.
  cbn in H. congruence.
Qed.

Lemma drop_main_missing (home : string) (fs : filesystem) :
  tree fs (DropMain.JUJU_DATA_DIR home) = Missing ->
  DropMain.script home fs = (0, [Drop.Starting; Drop.DirNotFound], fs).
Proof.
  intros E. unfold DropMain.script, DropMain.main.
  unfold bind_io at 1. unfold print at 1. cbn [st stdout app].
  unfold bind_io at 1. unfold path_exists at 1. cbn [st]. rewrite E. reflexivity.
Qed.

(** [exists()] raises and nothing catches it: the interpreter ends with
    status 1 after the first line. *)
Lemma drop_main_inaccessible (home : string) (fs : filesystem) :
  tree fs (DropMain.JUJU_DATA_DIR home) = Inaccessible ->
  DropMain.script home fs = (1, [Drop.Starting], fs).
Proof.
  intros E. unfold DropMain.script, DropMain.main.
  unfold bind_io at 1. unfold print at 1. cbn [st stdout app].
  unfold bind_io at 1. unfold path_exists at 1. cbn [st]. rewrite E. reflexivity.
Qed.

Lemma drop_main_no_files (home : string) (fs : filesystem) :
  tree fs (DropMain.JUJU_DATA_DIR home) <> Missing ->
  tree fs (DropMain.JUJU_DATA_DIR home) <> Inaccessible ->
  filter is_data_csv (names_in fs (DropMain.JUJU_DATA_DIR home)) = [] ->
  DropMain.script home fs = (0, [Drop.Starting; Drop.NoFiles], fs).
Proof.
  intros Hex Hacc Hnone. unfold names_in in Hnone.
  unfold DropMain.script, DropMain.main.
  unfold bind_io at 1. unfold print at 1. cbn [st stdout app].
  unfold bind_io at 1. unfold path_exists at 1. cbn [st].
  destruct (tree fs (DropMain.JUJU_DATA_DIR home)) as [| | |entries] eqn:E;
    try congruence; cbn [negb];
    unfold bind_io at 1; unfold listdir at 1; cbn [st]; rewrite E.
  - reflexivity.
  - rewrite Hnone. reflexivity.
Qed.

Lemma drop_main_not_a_directory (home : string) (fs : filesystem) :
  tree fs (DropMain.JUJU_DATA_DIR home) = NotDirectory ->
  DropMain.script home fs = (0, [Drop.Starting; Drop.NoFiles], fs).
Proof.
  intros E. apply drop_main_no_files; unfold names_in; rewrite E;
    [discriminate | discriminate | reflexivity].
Qed.

Lemma drop_main_report (home : string) (fs : filesystem) (entries : list (string * inode)) :
  tree fs (DropMain.JUJU_DATA_DIR home) = Directory entries ->
  let csv_files := filter is_data_csv (map fst entries) in
  csv_files <> [] ->
  exists log fs',
    DropMain.script home fs
    = (0, Drop.Starting :: Drop.Found (length csv_files)
            :: log ++ [Drop.Rule;
                       Drop.Complete (migrated_lines log) (length csv_files);
                       Drop.Rule],
       fs')
    /\ drop_processed log = sorted csv_files.
Proof.
  intros Hdir csv_files Hne.
  unfold DropMain.script. rewrite (drop_main_run home fs entries Hdir Hne).
  fold csv_files. cbn [exit_status st stdout].
  pose proof (drop_batch_tally entries (sorted csv_files) (files fs) 0) as Ht.
  cbn [plus] in Ht. rewrite Ht.
  eexists _, _. split; [reflexivity|].
  apply drop_batch_processed.
Qed.

Lemma drop_main_status (home : string) (fs : filesystem) :
  tree fs (DropMain.JUJU_DATA_DIR home) <> Inaccessible ->
  exists out fs', DropMain.script home fs = (0, out, fs').
Proof.
  intros Hacc.
  destruct (tree fs (DropMain.JUJU_DATA_DIR home)) as [| | |entries] eqn:E.
  - rewrite drop_main_missing by exact E. eauto.
  - rewrite drop_main_not_a_directory by exact E. eauto.
  - congruence.
  - destruct (filter is_data_csv (map fst entries)) as [|n names] eqn:Hf.
    + rewrite drop_main_no_files; [eauto | rewrite E; discriminate | rewrite E; discriminate |].
      unfold names_in. rewrite E. exact Hf.
    + destruct (drop_main_report home fs entries E) as (log & fs' & Hrun & _).
      { rewrite Hf. discriminate. }
      rewrite Hrun. eauto.
Qed.

(** C6, as the code has it.  The add-variant, given one argument, ends
    with status 1 and the line that names the path when the path (after
    [~] is expanded) is no directory, and with status 0, its report between
    the first and the last line, when it is one; with another number of
    arguments it prints its usage and ends with status 1.  The drop-variant
    ends with status 0 whenever the test that its directory exists
    returns: when the directory is missing it prints that it was not
    found, when the path is no directory that there are no files, and it
    changes nothing; when files are found it prints their number, the
    lines of each file and the tally.  It ends with status 1 only when the
    test itself raises, which nothing catches: then only the first line
    has been printed and nothing is changed. *)
Theorem C6_exit_status
        (expanduser : string -> string) (script_path data_path_str home : string)
        (fs : filesystem) :
  let p := if Add.startswith_tilde data_path_str then expanduser data_path_str
           else data_path_str in
  ((forall entries, tree fs p <> Directory entries) ->
   Add.script expanduser [script_path; data_path_str] fs
   = (1, [Add.NotADirectory p], fs))
  /\ (forall entries, tree fs p = Directory entries ->
      exists report fs',
        Add.script expanduser [script_path; data_path_str] fs
        = (0, Add.StartingIn p :: report ++ [Add.Finished], fs'))
  /\ (forall argv, length argv <> 2 ->
      Add.script expanduser argv fs = (1, [Add.Usage; Add.UsageExample], fs))
  /\ (tree fs (DropMain.JUJU_DATA_DIR home) <> Inaccessible ->
      exists out fs', DropMain.script home fs = (0, out, fs'))
  /\ (tree fs (DropMain.JUJU_DATA_DIR home) = Inaccessible ->
      DropMain.script home fs = (1, [Drop.Starting], fs))
  /\ (tree fs (DropMain.JUJU_DATA_DIR home) = Missing ->
      DropMain.script home fs = (0, [Drop.Starting; Drop.DirNotFound], fs))
  /\ (tree fs (DropMain.JUJU_DATA_DIR home) = NotDirectory ->
      DropMain.script home fs = (0, [Drop.Starting; Drop.NoFiles], fs))
  /\ (forall entries,
        tree fs (DropMain.JUJU_DATA_DIR home) = Directory entries ->
        let csv_files := filter is_data_csv (map fst entries) in
        (csv_files = [] ->
         DropMain.script home fs = (0, [Drop.Starting; Drop.NoFiles], fs))
        /\ (csv_files <> [] ->
            exists log fs',
              DropMain.script home fs
              = (0, Drop.Starting :: Drop.Found (length csv_files)
                      :: log ++ [Drop.Rule;
                                 Drop.Complete (migrated_lines log) (length csv_files);
                                 Drop.Rule],
                 fs')
              /\ drop_processed log = sorted csv_files)).
Proof.
  intros p. repeat split.
  - apply add_main_not_a_directory.
  - apply add_main_directory.
  - intros argv. apply add_main_usage.
  - apply drop_main_status.
  - apply drop_main_inaccessible.
  - apply drop_main_missing.
  - apply drop_main_not_a_directory.
  - intros Hnone. apply drop_main_no_files.
    + rewrite H. discriminate.
    + rewrite H. discriminate.
    + unfold names_in. rewrite H. exact Hnone.
  - apply drop_main_report. exact H.
Qed.

Lemma C6_witness :
  Add.script (fun s => s) ["migrate_sessions.py"; "/data/juju"]%string (empty_fs two_files)
  = (1, [Add.NotADirectory "/data/juju"], empty_fs two_files)
  /\ (exists report fs',
         Add.script (fun s => s) ["migrate_sessions.py"; "/data/juju"]%string
                    (one_directory "/data/juju" [] two_files)
         = (0, Add.StartingIn "/data/juju" :: report ++ [Add.Finished], fs'))
  /\ Add.script (fun s => s) ["migrate_sessions.py"]%string (empty_fs two_files)
     = (1, [Add.Usage; Add.UsageExample], empty_fs two_files)
  /\ DropMain.script "/Users/u" (empty_fs two_files)
     = (0, [Drop.Starting; Drop.DirNotFound], empty_fs two_files)
  /\ DropMain.script "/Users/u" (mkFs (fun _ => Inaccessible) two_files)
     = (1, [Drop.Starting], mkFs (fun _ => Inaccessible) two_files)
  /\ (exists log fs',
         DropMain.script "/Users/u"
           (one_directory (DropMain.JUJU_DATA_DIR "/Users/u") two_names two_files)
         = (0, Drop.Starting
                 :: Drop.Found (length (filter is_data_csv (map fst two_names)))
                 :: log ++ [Drop.Rule;
                            Drop.Complete (migrated_lines log)
                              (length (filter is_data_csv (map fst two_names)));
                            Drop.Rule],
            fs')
         /\ drop_processed log = sorted (filter is_data_csv (map fst two_names))).
Proof.
  pose proof (C6_exit_status (fun s => s) "migrate_sessions.py" "/data/juju" "/Users/u"
                (empty_fs two_files)) as Hnone.
  pose proof (C6_exit_status (fun s => s) "migrate_sessions.py" "/data/juju" "/Users/u"
                (one_directory "/data/juju" [] two_files)) as Hdir.
  pose proof (C6_exit_status (fun s => s) "migrate_sessions.py" "/data/juju" "/Users/u"
                (mkFs (fun _ => Inaccessible) two_files)) as Hacc.
  pose proof (C6_exit_status (fun s => s) "migrate_sessions.py" "/data/juju" "/Users/u"
                (one_directory (DropMain.JUJU_DATA_DIR "/Users/u") two_names two_files))
    as Htwo.
  cbv zeta in Hnone, Hdir, Hacc, Htwo.
  destruct Hnone as (Hn1 & _ & Hn3 & _ & _ & Hn6 & _).
  destruct Hdir as (_ & Hd2 & _).
  destruct Hacc as (_ & _ & _ & _ & Ha5 & _).
  destruct Htwo as (_ & _ & _ & _ & _ & _ & _ & Ht8).
  split; [|split; [|split; [|split; [|split]]]].
  - apply Hn1. intros entries. discriminate.
  - apply (Hd2 []). reflexivity.
  - apply Hn3. cbn. discriminate.
  - apply Hn6. reflexivity.
  - apply Ha5. reflexivity.
  - apply (Ht8 two_names); [reflexivity | vm_compute; discriminate].
Defined.

(** The drop-variant ends with status 0, not 1, when its directory is
    missing, and when the path is a file and no directory. *)
Lemma C6_counterexample :
  tree (empty_fs two_files) (DropMain.JUJU_DATA_DIR "/Users/u") = Missing
  /\ DropMain.script "/Users/u" (empty_fs two_files)
     = (0, [Drop.Starting; Drop.DirNotFound], empty_fs two_files)
  /\ fst (fst (DropMain.script "/Users/u" (empty_fs two_files))) <> 1
  /\ tree (mkFs (fun _ => NotDirectory) two_files) (DropMain.JUJU_DATA_DIR "/Users/u")
     = NotDirectory
  /\ DropMain.script "/Users/u" (mkFs (fun _ => NotDirectory) two_files)
     = (0, [Drop.Starting; Drop.NoFiles], mkFs (fun _ => NotDirectory) two_files).
Proof.
  split; [reflexivity|]. split; [reflexivity|]. split; [cbn; discriminate|].
  split; reflexivity.
Qed.

(** ** C7: a failure stays with its file *)

(** What fails before the add-variant opens the file for writing: the
    file cannot be read, or the reader rejects its header or a row. *)
Lemma add_failure (name : string) (f : file) (e : exn) :
  (t <- data f ;;
   first <- Reader_iternext (fst (cleaned_lines t)) ;;
   match first with
   | Some (header, _) => rows <- DictReader_list header (fst (cleaned_lines t)) ;; Ok tt
   | None => Ok tt
   end) = Raise e ->
  (forall t header lines', data f = Ok t ->
     Reader_iternext (fst (cleaned_lines t)) = Ok (Some (header, lines')) ->
     contains header ACTION && contains header IS_MILESTONE = false) ->
  st (add_alone name f) = f
  /\ In (Add.ErrorProcessing name e) (stdout (add_alone name f))
  /\ forall n, ~ In (Add.Success n name) (stdout (add_alone name f)).
Proof.
  intros Hfail Hnot. rewrite add_alone_effect. cbn [st stdout].
  unfold add_effect. destruct (data f) as [t|e0] eqn:Hdata; cbn [bind] in Hfail.
  2: { inversion Hfail; subst. cbn [fst snd failure In].
       split; [reflexivity|]. split; [auto|]. intros n. intuition discriminate. }
  specialize (Hnot t).
  destruct (cleaned_lines t) as [cleaned k] eqn:Hc. cbn [fst] in *.
  destruct cleaned as [|line cleaned]; [discriminate|].
  assert (Hlead : forall m, (forall j, m <> Add.LeadingEmpty j name) ->
                            ~ In m (leading_msg k name)).
  { intros m Hm Hin. unfold leading_msg in Hin. destruct (0 <? k); [|destruct Hin].
    destruct Hin as [Hin|[]]. apply (Hm k). congruence. }
  unfold add_core.
  destruct (Reader_iternext (line :: cleaned)) as [[[header lines']|]|e1] eqn:Hh;
    cbn [bind] in Hfail; try discriminate.
  - rewrite (Hnot header lines' eq_refl eq_refl).
    destruct (DictReader_list header (line :: cleaned)) as [rows|e2]; [discriminate|].
    cbn [bind] in Hfail. inversion Hfail; subst. cbn [fst snd].
    split; [reflexivity|]. split.
    + right. apply in_or_app. right. left. reflexivity.
    + intros n [Hin|Hin]; [discriminate|]. apply in_app_iff in Hin.
      destruct Hin as [Hin|Hin]; [revert Hin; apply Hlead; discriminate|].
      cbn [failure In] in Hin. intuition discriminate.
  - inversion Hfail; subst. cbn [fst snd].
    split; [reflexivity|]. split.
    + right. apply in_or_app. right. left. reflexivity.
    + intros n [Hin|Hin]; [discriminate|]. apply in_app_iff in Hin.
      destruct Hin as [Hin|Hin]; [revert Hin; apply Hlead; discriminate|].
      cbn [failure In] in Hin. intuition discriminate.
Qed.

(** A run that prints an error prints no success. *)
Lemma add_core_error_no_success (name : string) (wr : bool) (cleaned : list text)
      (e : exn) (n : nat) :
  In (Add.ErrorProcessing name e) (snd (add_core name wr cleaned)) ->
  ~ In (Add.Success n name) (snd (add_core name wr cleaned)).
Proof.
  destruct (add_core name wr cleaned) as [[body|] log] eqn:Hcore.
  2: { intros _. eapply add_core_success. exact Hcore. }
  revert Hcore. unfold add_core.
  destruct (Reader_iternext cleaned) as [[[header lines']|]|e0]; try discriminate.
  destruct (contains header ACTION && contains header IS_MILESTONE); [discriminate|].
  destruct (DictReader_list header cleaned) as [[|r rows]|e0]; try discriminate.
  remember (r :: rows) as rows0 eqn:Hrows0.
  destruct (migrate_each rows0) as [migrated|e0]; [|discriminate].
  destruct wr; [|discriminate].
  destruct (rows_written (updated header) migrated) as [ls [[]|e0]];
    intros H; inversion H; subst body log; cbn [snd]; rewrite !in_app_iff.
  - intros [Hin|Hin].
    + apply progress_only in Hin. destruct Hin as (d & Hd). discriminate.
    + destruct Hin as [Hin|[]]. discriminate.
  - intros _ [Hin|Hin].
    + apply progress_only in Hin. destruct Hin as (d & Hd). discriminate.
    + cbn [failure In] in Hin. intuition discriminate.
Qed.

Lemma add_error_no_success (name : string) (f : file) (e : exn) (n : nat) :
  In (Add.ErrorProcessing name e) (snd (add_effect name f)) ->
  ~ In (Add.Success n name) (snd (add_effect name f)).
Proof.
  destruct f as [[t|e0] wr].
  2: { intros _. unfold add_effect. cbn [data snd failure In]. intuition discriminate. }
  destruct (fst (cleaned_lines t)) as [|l ls0] eqn:Hcl.
  { intros _. unfold add_effect. cbn [data].
    destruct (cleaned_lines t) as [cleaned k]. cbn [fst] in Hcl. subst cleaned.
    cbn [snd In]. intuition discriminate. }
  assert (Hne : fst (cleaned_lines t) <> []) by (rewrite Hcl; discriminate).
  rewrite (add_effect_found name t wr Hne).
  pose proof (add_core_error_no_success name wr (fst (cleaned_lines t)) e n) as Hcore.
  destruct (add_core name wr (fst (cleaned_lines t))) as [body log].
  assert (Hlead : forall m, (forall j, m <> Add.LeadingEmpty j name) ->
                            ~ In m (leading_msg (snd (cleaned_lines t)) name)).
  { intros m Hm Hin. unfold leading_msg in Hin. destruct (0 <? _); [|destruct Hin].
    destruct Hin as [Hin|[]]. eapply Hm. symmetry. exact Hin. }
  cbn [snd] in Hcore.
  assert (Hsnd : forall m, (forall j, m <> Add.LeadingEmpty j name) ->
                           In m (snd (let (body0, log0) := (body, log) in
                                      (match body0 with
                                       | Some b => mkFile (Ok b) true
                                       | None => mkFile (Ok t) wr
                                       end, leading_msg (snd (cleaned_lines t)) name ++ log0)))
                           -> In m log).
  { intros m Hm Hin. cbn [snd] in Hin. apply in_app_iff in Hin.
    destruct Hin as [Hin|Hin]; [|exact Hin]. exfalso. revert Hin. apply Hlead, Hm. }
  intros He Hs. apply Hcore.
  - apply Hsnd; [discriminate | exact He].
  - apply Hsnd; [discriminate | exact Hs].
Qed.

(** A file that cannot be opened for writing is left as it is, and no
    success is reported for it. *)
Lemma add_unwritable (name : string) (f : file) (n : nat) :
  writable f = false ->
  fst (add_effect name f) = f /\ ~ In (Add.Success n name) (snd (add_effect name f)).
Proof.
  intros Hwr. destruct f as [[t|e0] wr]; cbn [writable] in Hwr; subst wr.
  2: { unfold add_effect. cbn [data fst snd failure In]. intuition discriminate. }
  destruct (fst (cleaned_lines t)) as [|l ls0] eqn:Hcl.
  { unfold add_effect. cbn [data].
    destruct (cleaned_lines t) as [cleaned k]. cbn [fst] in Hcl. subst cleaned.
    cbn [fst snd In]. intuition discriminate. }
  assert (Hne : fst (cleaned_lines t) <> []) by (rewrite Hcl; discriminate).
  rewrite (add_effect_found name t false Hne).
  destruct (add_core name false (fst (cleaned_lines t))) as [[body|] log] eqn:Hcore.
  { destruct (add_core_some_inv _ _ _ _ _ Hcore) as (h & l' & r & m & _ & _ & _ & _ & Hw).
    discriminate. }
  cbn [fst snd]. split; [reflexivity|].
  rewrite in_app_iff. intros [Hin|Hin].
  - unfold leading_msg in Hin. destruct (0 <? _); [|destruct Hin].
    destruct Hin as [Hin|[]]. discriminate.
  - revert Hin. eapply add_core_success. exact Hcore.
Qed.

(** The error of a file that cannot be opened for writing is printed
    once its rows are read and transformed. *)
Lemma add_unwritable_error (name : string) (t : text) (header : row) (recs : list row) :
  list_reader (fst (cleaned_lines t)) = Ok (header :: recs) ->
  contains header ACTION && contains header IS_MILESTONE = false ->
  Forall (fun r => length r <= length header) recs ->
  In (Add.ErrorProcessing name OSError) (snd (add_effect name (mkFile (Ok t) false))).
Proof.
  intros Hr Hc Hshort.
  destruct (list_reader_head _ _ _ Hr) as (lines' & Hh).
  pose proof (cleaned_header_nonempty t header lines' Hh) as Hne.
  rewrite (add_effect_found name t false (cleaned_nonempty t header lines' Hh)).
  rewrite (add_core_rows name false _ header lines' (header :: recs) Hh Hne Hc Hr).
  rewrite (nonblank_cons header recs Hne).
  assert (Hall : Forall (fun r => length r <= length header) (header :: nonblank recs)).
  { constructor; [reflexivity|]. unfold nonblank.
    apply Forall_forall. intros r Hin. apply filter_In in Hin.
    destruct Hin as [Hin _]. revert r Hin. apply Forall_forall. exact Hshort. }
  destruct (short_rows_migrate header _ Hall) as (migrated & Hm).
  rewrite (proj2 (migrate_each_Forall2 _ _) Hm).
  cbn [snd]. apply in_or_app. right. apply in_or_app. right. left. reflexivity.
Qed.

(** A call of the drop-variant that prints an error returns [False],
    leaves the file as it is and prints no line of success. *)
Lemma drop_error_not_counted (name : string) (f : file) (e : exn) :
  In (Drop.ErrorProcessing e) (drop_log name f) ->
  drop_ok name f = false /\ drop_file name f = f /\ migrated_lines (drop_log name f) = 0.
Proof.
  unfold drop_file, drop_log, drop_ok, drop_result.
  unfold Drop.migrate_csv_file, bind_io, try_except, print, read_text_universal,
    lift, open_w, write, ret.
  destruct f as [[t|e0] wr]; cbn [st stdout data writable bind fst snd app];
    [|auto].
  destruct (list_reader (readlines (translate_newlines t))) as [[|header rows]|e0];
    cbn [st stdout data writable bind fst snd app]; auto.
  destruct (index MILESTONE_TEXT header) as [i|];
    cbn [st stdout data writable bind fst snd app]; auto.
  destruct wr; cbn [st stdout data writable bind fst snd app]; auto.
  cbn [In]. intuition discriminate.
Qed.

(** The file cannot be opened for writing: the error is printed after
    the position of the column. *)
Lemma drop_unwritable (name : string) (t : text) (header : row) (rows : list row) (i : nat) :
  read_table_universal t = Ok (header :: rows) ->
  index MILESTONE_TEXT header = Some i ->
  drop_log name (mkFile (Ok t) false)
  = [Drop.Processing name; Drop.FoundAt i; Drop.ErrorProcessing OSError].
Proof.
  unfold read_table_universal. intros Hread Hidx.
  unfold drop_log, drop_result.
  unfold Drop.migrate_csv_file, bind_io, try_except, print, read_text_universal,
    lift, open_w, write, ret.
  cbn [st stdout data writable bind fst snd app]. rewrite Hread.
  cbn [st stdout data writable bind fst snd app]. rewrite Hidx. reflexivity.
Qed.

Lemma listed_data_csv (entries : list (string * inode)) (name : string) (i : inode) :
  lookup entries name = Some i -> is_data_csv name = true ->
  In name (filter is_data_csv (map fst entries)).
Proof.
  intros Hl Hp. apply filter_In. split; [|exact Hp].
  eapply lookup_listed. exact Hl.
Qed.

(** C7.  The add-variant.  Every run on a file returns: the exception is
    caught at the file.  A run that prints an error prints no success,
    whatever failed: the file cannot be read, the reader rejects its header
    or a row (then the file is left as it is), a row longer than the
    header cannot be transformed or written, or the file cannot be opened
    for writing (then the file is left as it is and the error is printed).
    In a batch every matching name is processed, in the order found; when
    no two matching names are links to one file, each file ends as a run
    on it alone leaves it and the lines of that run are printed, whatever
    the runs on the other files did.

    The drop-variant.  A call that prints an error returns [False], leaves
    the file as it is and prints no line of success; so when the file
    cannot be read or the reader rejects it, and when the file cannot be
    opened for writing.  In a batch every matching name is processed, in
    ascending order, and the tally is the number of lines of success
    printed; when no two matching names are links to one file, each file
    ends as a call on it alone leaves it, the lines of that call are
    printed, and the tally is the number of files whose call returns
    [True]. *)
Theorem C7_failure_does_not_abort_the_batch :
  (forall (name : string) (f : file) (out : list Add.msg),
      exists w', Add.migrate_file name (mkWorld f out) = (w', Ok tt))
  /\
  (forall (name : string) (f : file) (e : exn),
      In (Add.ErrorProcessing name e) (stdout (add_alone name f)) ->
      forall n, ~ In (Add.Success n name) (stdout (add_alone name f)))
  /\
  (forall (name : string) (f : file) (e : exn),
      (t <- data f ;;
       first <- Reader_iternext (fst (cleaned_lines t)) ;;
       match first with
       | Some (header, _) =>
           rows <- DictReader_list header (fst (cleaned_lines t)) ;; Ok tt
       | None => Ok tt
       end) = Raise e ->
      (forall t header lines', data f = Ok t ->
         Reader_iternext (fst (cleaned_lines t)) = Ok (Some (header, lines')) ->
         contains header ACTION && contains header IS_MILESTONE = false) ->
      st (add_alone name f) = f
      /\ In (Add.ErrorProcessing name e) (stdout (add_alone name f))
      /\ forall n, ~ In (Add.Success n name) (stdout (add_alone name f)))
  /\
  (forall (name : string) (f : file),
      writable f = false ->
      st (add_alone name f) = f
      /\ (forall n, ~ In (Add.Success n name) (stdout (add_alone name f)))
      /\ forall t header recs,
           data f = Ok t ->
           list_reader (fst (cleaned_lines t)) = Ok (header :: recs) ->
           contains header ACTION && contains header IS_MILESTONE = false ->
           Forall (fun r => length r <= length header) recs ->
           In (Add.ErrorProcessing name OSError) (stdout (add_alone name f)))
  /\
  (forall (data_path : string) (fs : filesystem) (out : list Add.msg)
          (entries : list (string * inode)),
      tree fs data_path = Directory entries ->
      exists fs' log,
        Add.migrate_sessions data_path (mkWorld fs out) = (mkWorld fs' (out ++ log), Ok tt)
        /\ add_processed log = filter is_data_csv (map fst entries))
  /\
  (forall (data_path : string) (fs : filesystem) (out : list Add.msg)
          (entries : list (string * inode)) (name : string) (i : inode),
      tree fs data_path = Directory entries ->
      unlinked entries (filter is_data_csv (map fst entries)) ->
      lookup entries name = Some i -> is_data_csv name = true ->
      exists fs' before after,
        Add.migrate_sessions data_path (mkWorld fs out)
        = (mkWorld fs' (out ++ before ++ stdout (add_alone name (files fs i)) ++ after),
           Ok tt)
        /\ tree fs' = tree fs
        /\ files fs' i = st (add_alone name (files fs i)))
  /\
  (forall (name : string) (f : file) (e : exn),
      In (Drop.ErrorProcessing e) (drop_log name f) ->
      drop_ok name f = false
      /\ drop_file name f = f
      /\ migrated_lines (drop_log name f) = 0)
  /\
  (forall (name : string) (f : file) (e : exn),
      (t <- data f ;; read_table_universal t) = Raise e ->
      drop_file name f = f
      /\ drop_log name f = [Drop.Processing name; Drop.ErrorProcessing e]
      /\ drop_ok name f = false)
  /\
  (forall (name : string) (t : text) (header : row) (rows : list row) (i : nat),
      read_table_universal t = Ok (header :: rows) ->
      index MILESTONE_TEXT header = Some i ->
      drop_file name (mkFile (Ok t) false) = mkFile (Ok t) false
      /\ drop_log name (mkFile (Ok t) false)
         = [Drop.Processing name; Drop.FoundAt i; Drop.ErrorProcessing OSError]
      /\ drop_ok name (mkFile (Ok t) false) = false)
  /\
  (forall (home : string) (fs : filesystem) (entries : list (string * inode)),
      tree fs (DropMain.JUJU_DATA_DIR home) = Directory entries ->
      let csv_files := filter is_data_csv (map fst entries) in
      csv_files <> [] ->
      exists fs' log,
        DropMain.main home (mkWorld fs [])
        = (mkWorld fs'
             (Drop.Starting :: Drop.Found (length csv_files)
                :: log ++ [Drop.Rule;
                           Drop.Complete (migrated_lines log) (length csv_files);
                           Drop.Rule]),
           Ok tt)
        /\ drop_processed log = sorted csv_files)
  /\
  (forall (home : string) (fs : filesystem) (entries : list (string * inode))
          (name : string) (i : inode),
      tree fs (DropMain.JUJU_DATA_DIR home) = Directory entries ->
      let csv_files := filter is_data_csv (map fst entries) in
      unlinked entries csv_files ->
      lookup entries name = Some i -> is_data_csv name = true ->
      exists fs' before after,
        DropMain.main home (mkWorld fs [])
        = (mkWorld fs'
             (before ++ drop_log name (files fs i) ++ after
                ++ [Drop.Rule;
                    Drop.Complete
                      (length (filter (returned_true entries (files fs)) csv_files))
                      (length csv_files);
                    Drop.Rule]),
           Ok tt)
        /\ tree fs' = tree fs
        /\ files fs' i = drop_file name (files fs i)
        /\ returned_true entries (files fs) name = drop_ok name (files fs i)).
Proof.
  split; [|split; [|split; [|split; [|split; [|split; [|split; [|split; [|split;
    [|split]]]]]]]]].
  - intros name f out. rewrite migrate_file_run. eauto.
  - intros name f e He n Hn. rewrite add_alone_effect in He, Hn. cbn [stdout In] in He, Hn.
    destruct He as [He|He]; [discriminate|]. destruct Hn as [Hn|Hn]; [discriminate|].
    exact (add_error_no_success name f e n He Hn).
  - apply add_failure.
  - intros name f Hwr. rewrite add_alone_effect. cbn [st stdout].
    split; [apply (add_unwritable name f 0 Hwr)|]. split.
    + intros n [Hin|Hin]; [discriminate|].
      exact (proj2 (add_unwritable name f n Hwr) Hin).
    + intros t header recs Hd Hr Hc Hshort. right.
      destruct f as [d wr]. cbn [data writable] in Hd, Hwr. subst d wr.
      apply (add_unwritable_error name t header recs Hr Hc Hshort).
  - intros data_path fs out entries Hdir.
    destruct (filter is_data_csv (map fst entries)) as [|n names] eqn:Hfiles.
    + destruct (migrate_sessions_none data_path fs out) as (log & Hrun & Hlog).
      { rewrite Hdir. discriminate. }
      { unfold names_in. rewrite Hdir. exact Hfiles. }
      exists fs, log. split; [exact Hrun|]. apply add_processed_none. exact Hlog.
    + rewrite (migrate_sessions_run data_path fs out entries Hdir)
        by (rewrite Hfiles; discriminate).
      rewrite Hfiles. eexists _, _. split; [reflexivity|].
      cbn [add_processed]. rewrite add_processed_app, add_batch_processed.
      cbn [add_processed]. apply app_nil_r.
  - intros data_path fs out entries name i Hdir Hun Hl Hcsv.
    pose proof (listed_data_csv entries name i Hl Hcsv) as Hname.
    rewrite (migrate_sessions_run data_path fs out entries Hdir)
      by (intros E; rewrite E in Hname; destruct Hname).
    destruct (add_batch_each entries (filter is_data_csv (map fst entries))
                (files fs) name i)
      as (Hfile & before & after & Hlog).
    { apply (unlinked_NoDup entries), Hun. }
    { exact Hname. }
    { exact Hl. }
    { apply (unlinked_others entries _ name i Hun Hname Hl). }
    exists (mkFs (tree fs)
                 (fst (add_batch entries (filter is_data_csv (map fst entries)) (files fs)))).
    eexists (Add.FoundFiles _ _ :: before), (after ++ [Add.CompleteAll]).
    rewrite add_alone_effect. cbn [st stdout tree files].
    split; [|split; [reflexivity | exact Hfile]].
    rewrite Hlog. f_equal. f_equal. cbn [app]. f_equal.
    rewrite <- !app_assoc. cbn [app]. rewrite <- !app_assoc. reflexivity.
  - apply drop_error_not_counted.
  - apply drop_failure.
  - intros name t header rows i Hread Hidx.
    pose proof (drop_unwritable name t header rows i Hread Hidx) as Hlog.
    destruct (drop_error_not_counted name (mkFile (Ok t) false) OSError)
      as (Hok & Hfile & _).
    { rewrite Hlog. right. right. left. reflexivity. }
    auto.
  - intros home fs entries Hdir csv_files Hne.
    rewrite (drop_main_run home fs entries Hdir Hne). fold csv_files.
    pose proof (drop_batch_tally entries (sorted csv_files) (files fs) 0) as Ht.
    cbn [plus] in Ht. rewrite Ht.
    eexists _, _. split; [reflexivity|]. apply drop_batch_processed.
  - intros home fs entries name i Hdir csv_files Hun Hl Hcsv.
    pose proof (listed_data_csv entries name i Hl Hcsv) as Hname. fold csv_files in Hname.
    assert (Hne : csv_files <> []) by (intros E; rewrite E in Hname; destruct Hname).
    rewrite (drop_main_run home fs entries Hdir Hne). fold csv_files.
    assert (Huns : unlinked entries (sorted csv_files))
      by (apply sorted_map_NoDup, Hun).
    destruct (drop_batch_each entries (sorted csv_files) (files fs) 0 name i)
      as (Hfile & before & after & Hlog).
    { apply (unlinked_NoDup entries), Huns. }
    { apply sorted_In, Hname. }
    { exact Hl. }
    { apply (unlinked_others entries _ name i Huns); [apply sorted_In, Hname | exact Hl]. }
    pose proof (drop_batch_count entries (sorted csv_files) (files fs) 0 Huns) as Htally.
    rewrite sorted_filter_length in Htally. cbn [plus] in Htally.
    exists (mkFs (tree fs) (fst (fst (drop_batch entries (sorted csv_files) (files fs) 0)))).
    exists (Drop.Starting :: Drop.Found (length csv_files) :: before), after.
    cbn [tree files].
    split; [|split; [reflexivity | split; [exact Hfile|]]].
    + rewrite Hlog, Htally. f_equal. f_equal. cbn [app]. f_equal. f_equal.
      rewrite <- !app_assoc. reflexivity.
    + unfold returned_true. rewrite Hl. reflexivity.
Qed.

Lemma C7_witness :
  (forall n, ~ In (Add.Success n "a-data.csv") (stdout (add_alone "a-data.csv" long_row)))
  /\ (forall n, ~ In (Add.Success n "a-data.csv")
                     (stdout (add_alone "a-data.csv" (mkFile (Ok long_row_text) true))))
  /\ (st (add_alone "a-data.csv" read_only) = read_only
      /\ (forall n, ~ In (Add.Success n "a-data.csv")
                         (stdout (add_alone "a-data.csv" read_only)))
      /\ In (Add.ErrorProcessing "a-data.csv" OSError)
            (stdout (add_alone "a-data.csv" read_only)))
  /\ (exists fs' before after,
         Add.migrate_sessions "/data/juju"
           (mkWorld (one_directory "/data/juju" two_names two_files) [])
         = (mkWorld fs'
              ([] ++ before ++ stdout (add_alone "b-data.csv" (two_files 1)) ++ after),
            Ok tt)
         /\ tree fs' = tree (one_directory "/data/juju" two_names two_files)
         /\ files fs' 1 = st (add_alone "b-data.csv" (two_files 1)))
  /\ (drop_ok "a-data.csv" read_only = false
      /\ drop_file "a-data.csv" read_only = read_only
      /\ migrated_lines (drop_log "a-data.csv" read_only) = 0)
  /\ (drop_file "a-data.csv" unreadable = unreadable
      /\ drop_log "a-data.csv" unreadable
         = [Drop.Processing "a-data.csv"; Drop.ErrorProcessing OSError]
      /\ drop_ok "a-data.csv" unreadable = false)
  /\ (exists fs' before after,
         DropMain.main "/Users/u"
           (mkWorld (one_directory (DropMain.JUJU_DATA_DIR "/Users/u") two_names two_files)
                    [])
         = (mkWorld fs'
              (before ++ drop_log "b-data.csv" (two_files 1) ++ after
                 ++ [Drop.Rule;
                     Drop.Complete
                       (length (filter (returned_true two_names two_files)
                                       (filter is_data_csv (map fst two_names))))
                       (length (filter is_data_csv (map fst two_names)));
                     Drop.Rule]),
            Ok tt)
         /\ tree fs'
            = tree (one_directory (DropMain.JUJU_DATA_DIR "/Users/u") two_names two_files)
         /\ files fs' 1 = drop_file "b-data.csv" (two_files 1)
         /\ returned_true two_names two_files "b-data.csv"
            = drop_ok "b-data.csv" (two_files 1)).
Proof.
  pose proof C7_failure_does_not_abort_the_batch
    as (_ & Herr & _ & Hwr & _ & Hadd & Hdrop & Hread & _ & _ & Hbatch).
  assert (Hun : unlinked two_names (filter is_data_csv (map fst two_names))).
  { unfold unlinked. cbn. repeat constructor; cbn [In]; intuition discriminate. }
  split; [|split; [|split; [|split; [|split; [|split]]]]].
  - apply (Herr "a-data.csv"%string long_row AttributeError).
    vm_compute. right. left. reflexivity.
  - apply (Herr "a-data.csv"%string (mkFile (Ok long_row_text) true) ValueError).
    vm_compute. right. left. reflexivity.
  - destruct (Hwr "a-data.csv"%string read_only) as (Hsame & Hnone & Hprinted);
      [reflexivity|].
    split; [exact Hsame|]. split; [exact Hnone|].
    apply (Hprinted small_table_text [str "id"; str "milestone_text"] [[str "1"; str "x"]]).
    + reflexivity.
    + vm_compute. reflexivity.
    + vm_compute. reflexivity.
    + repeat constructor.
  - apply (Hadd "/data/juju"%string (one_directory "/data/juju" two_names two_files) []
             two_names "b-data.csv"%string 1).
    + reflexivity.
    + exact Hun.
    + reflexivity.
    + reflexivity.
  - apply (Hdrop "a-data.csv"%string read_only OSError).
    vm_compute. right. right. left. reflexivity.
  - apply (Hread "a-data.csv"%string unreadable OSError). reflexivity.
  - apply (Hbatch "/Users/u"%string
             (one_directory (DropMain.JUJU_DATA_DIR "/Users/u") two_names two_files)
             two_names "b-data.csv"%string 1).
    + reflexivity.
    + exact Hun.
    + reflexivity.
    + reflexivity.
Defined.

(** The batch of the two files under the drop-variant: the unreadable
    file is reported, the other is migrated, and the tally is 1 of 2. *)
Example drop_batch_of_two_files :
  fst (DropMain.script "/Users/u"
         (one_directory (DropMain.JUJU_DATA_DIR "/Users/u") two_names two_files))
  = (0, [Drop.Starting; Drop.Found 2;
         Drop.Processing "a-data.csv"; Drop.ErrorProcessing OSError; Drop.Blank;
         Drop.Processing "b-data.csv"; Drop.FoundAt 1; Drop.Migrated 1;
         Drop.NewHeader (str "id"); Drop.Blank;
         Drop.Rule; Drop.Complete 1 2; Drop.Rule]).
Proof. vm_compute. reflexivity. Qed.

(** The same batch under the add-variant. *)
Example add_batch_of_two_files :
  fst (Add.script (fun s => s) ["migrate_sessions.py"; "/data/juju"]%string
         (one_directory "/data/juju" two_names two_files))
  = (0, [Add.StartingIn "/data/juju";
         Add.FoundFiles 2 ["a-data.csv"; "b-data.csv"]%string;
         Add.Processing "a-data.csv"; Add.ErrorProcessing "a-data.csv" OSError;
         Add.Traceback;
         Add.Processing "b-data.csv"; Add.Success 2 "b-data.csv";
         Add.CompleteAll; Add.Finished]).
Proof. vm_compute. reflexivity. Qed.

(** A file that cannot be opened for writing, alone in the directory:
    the drop-variant prints the error after the position of the column
    and counts no success; the add-variant prints the error and no
    success. *)
Example drop_batch_of_a_read_only_file :
  fst (DropMain.script "/Users/u"
         (one_directory (DropMain.JUJU_DATA_DIR "/Users/u")
                        [("a-data.csv"%string, 0)] (fun _ => read_only)))
  = (0, [Drop.Starting; Drop.Found 1;
         Drop.Processing "a-data.csv"; Drop.FoundAt 1; Drop.ErrorProcessing OSError;
         Drop.Blank;
         Drop.Rule; Drop.Complete 0 1; Drop.Rule]).
Proof. vm_compute. reflexivity. Qed.

Example add_batch_of_a_read_only_file :
  fst (Add.script (fun s => s) ["migrate_sessions.py"; "/data/juju"]%string
         (one_directory "/data/juju" [("a-data.csv"%string, 0)] (fun _ => read_only)))
  = (0, [Add.StartingIn "/data/juju";
         Add.FoundFiles 1 ["a-data.csv"]%string;
         Add.Processing "a-data.csv"; Add.ErrorProcessing "a-data.csv" OSError;
         Add.Traceback;
         Add.CompleteAll; Add.Finished]).
Proof. vm_compute. reflexivity. Qed.

(** ** What a batch leaves alone, and what it reaches through a link *)

Lemma refers_listed (fs : filesystem) (path : string) (i : inode)
      (entries : list (string * inode)) :
  tree fs path = Directory entries ->
  (forall other, is_data_csv other = true -> refers fs path other <> Some i) ->
  forall other, In other (filter is_data_csv (map fst entries)) ->
                lookup entries other <> Some i.
Proof.
  intros Hdir Hnot other Hin. apply filter_In in Hin. destruct Hin as [_ Hcsv].
  specialize (Hnot other Hcsv). unfold refers in Hnot. rewrite Hdir in Hnot. exact Hnot.
Qed.

Lemma add_run_tree (data_path : string) (fs : filesystem) (out : list Add.msg) :
  tree (st (fst (Add.migrate_sessions data_path (mkWorld fs out)))) = tree fs.
Proof.
  destruct (tree fs data_path) as [| | |entries] eqn:Hdir.
  4: destruct (filter is_data_csv (map fst entries)) as [|n names] eqn:Hfiles.
  5: { rewrite (migrate_sessions_run data_path fs out entries Hdir)
         by (rewrite Hfiles; discriminate).
       reflexivity. }
  3: { unfold Add.migrate_sessions, bind_io at 1, listdir. cbn [st]. rewrite Hdir.
       reflexivity. }
  all: destruct (migrate_sessions_none data_path fs out) as (log & Hrun & _);
    [rewrite Hdir; discriminate
    | unfold names_in; rewrite Hdir; try exact Hfiles; reflexivity
    | rewrite Hrun; reflexivity].
Qed.

(** X14. A run of the add-variant creates, removes and renames nothing,
    and changes no file but those that a name matching [*-data.csv] in
    the data directory refers to.  It does reach such a file wherever
    else it is listed: when the names of the directory are distinct and no
    other matching name refers to the same file, the file is left as a
    run on it alone leaves it, also when the matching name is a link to a
    file of another directory. *)
Theorem add_batch_touches_only_the_data_files
        (data_path : string) (fs : filesystem) (out : list Add.msg) :
  let fs' := st (fst (Add.migrate_sessions data_path (mkWorld fs out))) in
  tree fs' = tree fs
  /\ (forall i,
        (forall name, is_data_csv name = true -> refers fs data_path name <> Some i) ->
        files fs' i = files fs i)
  /\ (forall name i,
        NoDup (names_in fs data_path) ->
        is_data_csv name = true -> refers fs data_path name = Some i ->
        (forall other, is_data_csv other = true -> other <> name ->
                       refers fs data_path other <> Some i) ->
        files fs' i = st (add_alone name (files fs i))).
Proof.
  intros fs'. split; [apply add_run_tree|]. unfold fs'. clear fs'. split.
  - intros i Hnot.
    destruct (tree fs data_path) as [| | |entries] eqn:Hdir.
    4: destruct (filter is_data_csv (map fst entries)) as [|n names] eqn:Hfiles.
    5: { rewrite (migrate_sessions_run data_path fs out entries Hdir)
           by (rewrite Hfiles; discriminate).
         cbn [fst st files]. apply add_batch_untouched.
         apply (refers_listed fs data_path i entries Hdir Hnot). }
    3: { unfold Add.migrate_sessions, bind_io at 1, listdir. cbn [st]. rewrite Hdir.
         reflexivity. }
    all: destruct (migrate_sessions_none data_path fs out) as (log & Hrun & _);
      [rewrite Hdir; discriminate
      | unfold names_in; rewrite Hdir; try exact Hfiles; reflexivity
      | rewrite Hrun; reflexivity].
  - intros name i Hnd Hcsv Hl Hothers. unfold refers, names_in in *.
    destruct (tree fs data_path) as [| | |entries] eqn:Hdir; try discriminate.
    assert (Hname : In name (filter is_data_csv (map fst entries))).
    { apply filter_In. split; [eapply lookup_listed; exact Hl | exact Hcsv]. }
    rewrite (migrate_sessions_run data_path fs out entries Hdir)
      by (intros E; rewrite E in Hname; destruct Hname).
    cbn [fst st files]. rewrite add_alone_effect. cbn [st].
    apply add_batch_each.
    + apply NoDup_filter, Hnd.
    + exact Hname.
    + exact Hl.
    + intros other Hin Hne. apply filter_In in Hin. destruct Hin as [_ Hc].
      apply (Hothers other Hc Hne).
Qed.

Lemma add_batch_touches_only_the_data_files_witness :
  let fs' := st (fst (Add.migrate_sessions "/data/juju"
                        (mkWorld (linked_fs "/data/juju") []))) in
  files fs' 7 = st (add_alone "linked-data.csv" (files (linked_fs "/data/juju") 7))
  /\ files fs' 3 = files (linked_fs "/data/juju") 3.
Proof.
  destruct (add_batch_touches_only_the_data_files "/data/juju"%string
              (linked_fs "/data/juju") [])
    as (_ & Hframe & Hreach).
  split.
  - apply Hreach.
    + cbn. repeat constructor. cbn [In]. tauto.
    + reflexivity.
    + reflexivity.
    + intros other _ Hne. unfold refers.
      change (tree (linked_fs "/data/juju") "/data/juju")
        with (Directory [("linked-data.csv"%string, 7)]).
      cbn [lookup].
      destruct (String.eqb_spec "linked-data.csv" other); [congruence | discriminate].
  - apply Hframe. intros name _. unfold refers.
    change (tree (linked_fs "/data/juju") "/data/juju")
      with (Directory [("linked-data.csv"%string, 7)]).
    cbn [lookup].
    destruct (String.eqb "linked-data.csv" name); discriminate.
Defined.

(** The data directory holds a link to a file that another directory
    lists: the add-variant rewrites the file, and the other directory
    reads the rewritten file under its own name. *)
Example add_rewrites_through_a_link :
  let fs' := snd (Add.script (fun s => s) ["migrate_sessions.py"; "/data/juju"]%string
                             (linked_fs "/data/juju")) in
  refers (linked_fs "/data/juju") "/notes" "plan.csv" = Some 7
  /\ refers fs' "/notes" "plan.csv" = Some 7
  /\ files (linked_fs "/data/juju") 7 = sound
  /\ files fs' 7
     = mkFile (Ok (writerows
                     (map (map Some)
                          [[str "id"; str "milestone_text"; str "action"; str "is_milestone"];
                           [str "id"; str "milestone_text"; str "milestone_text"; str "1"];
                           [str "1"; str "x"; str "x"; str "1"]])))
              true.
Proof.
  cbv zeta. split; [reflexivity|]. split; [reflexivity|]. split; [reflexivity|].
  vm_compute. reflexivity.
Qed.

Lemma drop_run_tree (home : string) (fs : filesystem) :
  tree (snd (DropMain.script home fs)) = tree fs.
Proof.
  destruct (tree fs (DropMain.JUJU_DATA_DIR home)) as [| | |entries] eqn:Hdir.
  - rewrite (drop_main_missing home fs Hdir). reflexivity.
  - rewrite (drop_main_not_a_directory home fs Hdir). reflexivity.
  - rewrite (drop_main_inaccessible home fs Hdir). reflexivity.
  - destruct (filter is_data_csv (map fst entries)) as [|n l] eqn:Hfiles.
    + rewrite (drop_main_no_files home fs); [reflexivity | | |].
      * rewrite Hdir. discriminate.
      * rewrite Hdir. discriminate.
      * unfold names_in. rewrite Hdir. exact Hfiles.
    + unfold DropMain.script.
      rewrite (drop_main_run home fs entries Hdir) by (rewrite Hfiles; discriminate).
      reflexivity.
Qed.

(** X15. A run of the drop-variant creates, removes and renames
    nothing, and changes no file but those that a name matching
    [*-data.csv] in its directory refers to.  It does reach such a file
    wherever else it is listed: when the names of the directory are
    distinct and no other matching name refers to the same file, the file
    is left as a call on it alone leaves it.  When the test that the
    directory exists raises, nothing is changed at all. *)
Theorem drop_batch_touches_only_the_data_files (home : string) (fs : filesystem) :
  let dir := DropMain.JUJU_DATA_DIR home in
  let fs' := snd (DropMain.script home fs) in
  tree fs' = tree fs
  /\ (forall i,
        (forall name, is_data_csv name = true -> refers fs dir name <> Some i) ->
        files fs' i = files fs i)
  /\ (forall name i,
        NoDup (names_in fs dir) ->
        is_data_csv name = true -> refers fs dir name = Some i ->
        (forall other, is_data_csv other = true -> other <> name ->
                       refers fs dir other <> Some i) ->
        files fs' i = drop_file name (files fs i))
  /\ (tree fs dir = Inaccessible -> fs' = fs).
Proof.
  intros dir fs'. split; [apply drop_run_tree|]. unfold fs', dir. clear fs' dir.
  split; [|split].
  - intros i Hnot.
    destruct (tree fs (DropMain.JUJU_DATA_DIR home)) as [| | |entries] eqn:Hdir.
    + rewrite (drop_main_missing home fs Hdir). reflexivity.
    + rewrite (drop_main_not_a_directory home fs Hdir). reflexivity.
    + rewrite (drop_main_inaccessible home fs Hdir). reflexivity.
    + destruct (filter is_data_csv (map fst entries)) as [|n l] eqn:Hfiles.
      * rewrite (drop_main_no_files home fs); [reflexivity | | |].
        -- rewrite Hdir. discriminate.
        -- rewrite Hdir. discriminate.
        -- unfold names_in. rewrite Hdir. exact Hfiles.
      * unfold DropMain.script.
        rewrite (drop_main_run home fs entries Hdir) by (rewrite Hfiles; discriminate).
        cbn [snd st files]. apply drop_batch_untouched.
        intros name Hin. apply (proj1 (sorted_In _ _)) in Hin.
        apply (refers_listed fs _ i entries Hdir Hnot name Hin).
  - intros name i Hnd Hcsv Hl Hothers. unfold refers, names_in in *.
    destruct (tree fs (DropMain.JUJU_DATA_DIR home)) as [| | |entries] eqn:Hdir;
      try discriminate.
    assert (Hname : In name (filter is_data_csv (map fst entries))).
    { apply filter_In. split; [eapply lookup_listed; exact Hl | exact Hcsv]. }
    unfold DropMain.script.
    rewrite (drop_main_run home fs entries Hdir)
      by (intros E; rewrite E in Hname; destruct Hname).
    cbn [snd st files].
    apply drop_batch_each.
    + apply sorted_NoDup, NoDup_filter, Hnd.
    + apply sorted_In, Hname.
    + exact Hl.
    + intros other Hin Hne. apply (proj1 (sorted_In _ _)) in Hin.
      apply filter_In in Hin. destruct Hin as [_ Hc].
      apply (Hothers other Hc Hne).
  - intros Hdir. rewrite (drop_main_inaccessible home fs Hdir). reflexivity.
Qed.

Lemma drop_batch_touches_only_the_data_files_witness :
  let dir := DropMain.JUJU_DATA_DIR "/Users/u" in
  let fs' := snd (DropMain.script "/Users/u" (linked_fs dir)) in
  files fs' 7 = drop_file "linked-data.csv" (files (linked_fs dir) 7)
  /\ files fs' 3 = files (linked_fs dir) 3
  /\ snd (DropMain.script "/Users/u" (mkFs (fun _ => Inaccessible) two_files))
     = mkFs (fun _ => Inaccessible) two_files.
Proof.
  destruct (drop_batch_touches_only_the_data_files "/Users/u"%string
              (linked_fs (DropMain.JUJU_DATA_DIR "/Users/u")))
    as (_ & Hframe & Hreach & _).
  destruct (drop_batch_touches_only_the_data_files "/Users/u"%string
              (mkFs (fun _ => Inaccessible) two_files))
    as (_ & _ & _ & Hacc).
  split; [|split].
  - apply Hreach.
    + cbn. repeat constructor. cbn [In]. tauto.
    + reflexivity.
    + reflexivity.
    + intros other _ Hne. unfold refers.
      change (tree (linked_fs (DropMain.JUJU_DATA_DIR "/Users/u"))
                   (DropMain.JUJU_DATA_DIR "/Users/u"))
        with (Directory [("linked-data.csv"%string, 7)]).
      cbn [lookup].
      destruct (String.eqb_spec "linked-data.csv" other); [congruence | discriminate].
  - apply Hframe. intros name _. unfold refers.
    change (tree (linked_fs (DropMain.JUJU_DATA_DIR "/Users/u"))
                 (DropMain.JUJU_DATA_DIR "/Users/u"))
      with (Directory [("linked-data.csv"%string, 7)]).
    cbn [lookup].
    destruct (String.eqb "linked-data.csv" name); discriminate.
  - apply Hacc. reflexivity.
Defined.

(** The same link under the drop-variant. *)
Example drop_rewrites_through_a_link :
  let dir := DropMain.JUJU_DATA_DIR "/Users/u" in
  let fs' := snd (DropMain.script "/Users/u" (linked_fs dir)) in
  refers (linked_fs dir) "/notes" "plan.csv" = Some 7
  /\ refers fs' "/notes" "plan.csv" = Some 7
  /\ files (linked_fs dir) 7 = sound
  /\ files fs' 7
     = mkFile (Ok (writerows (map Drop.as_fields [[str "id"]; [str "1"]]))) true.
Proof.
  cbv zeta. split; [reflexivity|]. split; [reflexivity|]. split; [reflexivity|].
  vm_compute. reflexivity.
Qed.

(** ** The files a batch processes *)

(** X19. Every file of the directory whose name matches [*-data.csv]
    is processed once and no other file is: by the add-variant in the
    order of the listing, by the drop-variant in ascending order of the
    names. *)
Theorem every_data_file_is_processed_once :
  (forall (data_path : string) (fs : filesystem),
      add_processed (stdout (fst (Add.migrate_sessions data_path (mkWorld fs []))))
      = filter is_data_csv (names_in fs data_path))
  /\
  (forall (home : string) (fs : filesystem),
      let names := filter is_data_csv (names_in fs (DropMain.JUJU_DATA_DIR home)) in
      drop_processed (snd (fst (DropMain.script home fs))) = sorted names
      /\ ascending (sorted names)
      /\ forall name, count_occ string_dec (sorted names) name
                      = count_occ string_dec names name).
Proof.
  split.
  - intros data_path fs.
    destruct (tree fs data_path) as [| | |entries] eqn:Hdir.
    4: destruct (filter is_data_csv (map fst entries)) as [|n names] eqn:Hfiles.
    5: { rewrite (migrate_sessions_run data_path fs [] entries Hdir)
           by (rewrite Hfiles; discriminate).
         cbn [fst stdout app add_processed].
         rewrite add_processed_app, add_batch_processed. cbn [add_processed].
         rewrite app_nil_r. unfold names_in. rewrite Hdir. reflexivity. }
    3: { unfold Add.migrate_sessions, bind_io at 1, listdir, names_in. cbn [st].
         rewrite Hdir. reflexivity. }
    all: destruct (migrate_sessions_none data_path fs []) as (log & Hrun & Hlog);
      [rewrite Hdir; discriminate
      | unfold names_in; rewrite Hdir; try exact Hfiles; reflexivity
      | rewrite Hrun; cbn [fst stdout app];
        rewrite (add_processed_none log Hlog);
        unfold names_in; rewrite Hdir; try (symmetry; exact Hfiles); reflexivity].
  - intros home fs names. split; [|split; [apply sorted_ascending | intros; apply sorted_count]].
    unfold names, names_in.
    destruct (tree fs (DropMain.JUJU_DATA_DIR home)) as [| | |entries] eqn:Hdir.
    + rewrite (drop_main_missing home fs Hdir). reflexivity.
    + rewrite (drop_main_not_a_directory home fs Hdir). reflexivity.
    + rewrite (drop_main_inaccessible home fs Hdir). reflexivity.
    + destruct (filter is_data_csv (map fst entries)) as [|n l] eqn:Hfiles.
      * rewrite (drop_main_no_files home fs); [reflexivity | | |].
        -- rewrite Hdir. discriminate.
        -- rewrite Hdir. discriminate.
        -- unfold names_in. rewrite Hdir. exact Hfiles.
      * assert (Hne : filter is_data_csv (map fst entries) <> [])
          by (rewrite Hfiles; discriminate).
        unfold DropMain.script. rewrite (drop_main_run home fs entries Hdir Hne).
        cbn [fst snd stdout drop_processed].
        rewrite drop_processed_app, drop_batch_processed. cbn [drop_processed].
        rewrite app_nil_r, Hfiles. reflexivity.
Qed.
